(** * vision-hw1: pixel access, colour transforms and resizing

    A shallow embedding of [src/process_image.c] and [src/resize_image.c].

    - A C [float] is an IEEE-754 binary32 value and a C [double] a binary64
      value; both are [spec_float]s, computed on with the Standard Library's
      executable specification of IEEE arithmetic (round to nearest, ties to
      even).
    - A C [int] is a [Z].  Signed overflow is undefined in C; for an image
      whose sample count fits an [int], every execution in which an index
      computation would overflow also indexes outside the buffer, which the
      model reports as a failed access.
    - An [image] is passed by value but points to its sample buffer, so the
      buffers live in a store and the functions that read or write samples
      run in a state-and-failure monad over that store. *)

From Stdlib Require Import ZArith Lia Bool.
From Stdlib Require Import SpecFloat.
From Stdlib Require Import Reals Lra.
From stdpp Require Import base option list gmap.

Local Open Scope Z_scope.

(** ** IEEE-754 arithmetic as the C code uses it *)

Module Flt.

(** C [float]: 24 bits of precision, infinities at exponent 128. *)
Definition prec32 : Z := 24.
Definition emax32 : Z := 128.
(** C [double]: 53 bits of precision, infinities at exponent 1024. *)
Definition prec64 : Z := 53.
Definition emax64 : Z := 1024.

Definition is_float (x : spec_float) : bool := valid_binary prec32 emax32 x.
Definition is_double (x : spec_float) : bool := valid_binary prec64 emax64 x.

Definition is_nan (x : spec_float) : bool :=
  match x with S754_nan => true | _ => false end.

Definition is_finite (x : spec_float) : bool :=
  match x with S754_zero _ | S754_finite _ _ _ => true | _ => false end.

(** Conversion of a value to a format: exact when the value is
    representable, rounded otherwise ([(float) d], [(double) f]). *)
Definition convert (prec emax : Z) (x : spec_float) : spec_float :=
  match x with
  | S754_finite s m e => binary_round prec emax s m e
  | _ => x
  end.

Definition to_float : spec_float -> spec_float := convert prec32 emax32.
Definition to_double : spec_float -> spec_float := convert prec64 emax64.

(** [(float) n] and [(double) n] for an [int] n. *)
Definition float_of_int (n : Z) : spec_float := binary_normalize prec32 emax32 n 0 false.
Definition double_of_int (n : Z) : spec_float := binary_normalize prec64 emax64 n 0 false.

(** binary32 arithmetic *)
Definition fadd := SFadd prec32 emax32.
Definition fsub := SFsub prec32 emax32.
Definition fmul := SFmul prec32 emax32.
Definition fdiv := SFdiv prec32 emax32.

(** binary64 arithmetic *)
Definition dadd := SFadd prec64 emax64.
Definition dsub := SFsub prec64 emax64.
Definition dmul := SFmul prec64 emax64.
Definition ddiv := SFdiv prec64 emax64.

(** Comparisons, of two values of one format (C converts the operands
    of a mixed comparison to the wider type first). *)
Definition lt (x y : spec_float) : bool := SFltb x y.
Definition le (x y : spec_float) : bool := SFleb x y.
Definition gt (x y : spec_float) : bool := SFltb y x.
Definition eq (x y : spec_float) : bool := SFeqb x y.
Definition ne (x y : spec_float) : bool := negb (SFeqb x y).

(** A decimal literal [n/d] of type [double]: the double nearest to it. *)
Definition double_lit (n d : Z) : spec_float := ddiv (double_of_int n) (double_of_int d).
(** The same for a binary32 sample, used to write images down. *)
Definition float_lit (n d : Z) : spec_float := fdiv (float_of_int n) (float_of_int d).

(** The integer a finite value truncates to ([(int) x] rounds toward zero);
    no value for infinities and NaN. *)
Definition trunc (x : spec_float) : option Z :=
  match x with
  | S754_zero _ => Some 0
  | S754_finite s m e =>
      let a := if 0 <=? e then Z.pos m * 2 ^ e else Z.pos m / 2 ^ (- e) in
      Some (if s then - a else a)
  | _ => None
  end.

Definition INT_MIN : Z := - 2 ^ 31.
Definition INT_MAX : Z := 2 ^ 31 - 1.

(** [(int) x]: undefined when the truncated value is not an [int]. *)
Definition int_of (x : spec_float) : option Z :=
  match trunc x with
  | Some n => if (INT_MIN <=? n) && (n <=? INT_MAX) then Some n else None
  | None => None
  end.

(** Whether a finite value has a fractional part. *)
Definition has_fraction (x : spec_float) : bool :=
  match x with
  | S754_finite _ m e => if 0 <=? e then false else negb (Z.pos m mod 2 ^ (- e) =? 0)
  | _ => false
  end.

(** An integer as a value of the given format, with the sign of [x] when
    it is zero (floor, ceil and round keep the sign of a zero result). *)
Definition integral (prec emax : Z) (x : spec_float) (n : Z) : spec_float :=
  let s := match x with S754_zero s | S754_finite s _ _ => s | _ => false end in
  binary_normalize prec emax n 0 s.

(** [floorf] and [ceilf] of math.h. *)
Definition floorf (x : spec_float) : spec_float :=
  match x, trunc x with
  | S754_finite s _ _, Some n =>
      integral prec32 emax32 x (if s && has_fraction x then n - 1 else n)
  | _, _ => x
  end.

Definition ceilf (x : spec_float) : spec_float :=
  match x, trunc x with
  | S754_finite s _ _, Some n =>
      integral prec32 emax32 x (if negb s && has_fraction x then n + 1 else n)
  | _, _ => x
  end.

(** Whether the fractional part of a finite value is at least one half. *)
Definition fraction_ge_half (x : spec_float) : bool :=
  match x with
  | S754_finite _ m e =>
      if 0 <=? e then false else 2 ^ (- e) <=? 2 * (Z.pos m mod 2 ^ (- e))
  | _ => false
  end.

(** [round] of math.h, on doubles: to the nearest integer, halfway cases
    away from zero. *)
Definition round (x : spec_float) : spec_float :=
  match x, trunc x with
  | S754_finite s _ _, Some n =>
      integral prec64 emax64 x
        (if fraction_ge_half x then (if s then n - 1 else n + 1) else n)
  | _, _ => x
  end.

(** [fabs] of math.h. *)
Definition fabs (x : spec_float) : spec_float := SFabs x.

(** [fmod] of math.h on doubles: the remainder of the division truncated
    toward zero, exact, with the sign of [x]. *)
Definition fmod (x y : spec_float) : spec_float :=
  match x, y with
  | S754_nan, _ | _, S754_nan => S754_nan
  | S754_infinity _, _ => S754_nan
  | _, S754_zero _ => S754_nan
  | _, S754_infinity _ => x
  | S754_zero _, _ => x
  | S754_finite sx mx ex, S754_finite _ my ey =>
      let e := Z.min ex ey in
      let a := Z.pos mx * 2 ^ (ex - e) in
      let b := Z.pos my * 2 ^ (ey - e) in
      binary_normalize prec64 emax64 (if sx then - (a mod b) else a mod b) e sx
  end.

Definition zero : spec_float := S754_zero false.
Definition one : spec_float := float_of_int 1.

End Flt.

(** ** The store of sample buffers *)

(** A buffer is named by its address; [float *data] is such a name. *)
Definition loc : Type := positive.

Abbreviation heap := (gmap loc (list spec_float)).

(** Computations that read and write buffers.  [None]: the execution
    aborts (a failed [assert]) or leaves defined behaviour (an access
    outside a buffer, a float that does not convert to an [int]). *)
Definition M (A : Type) : Type := heap -> option (A * heap).

Definition ret {A} (a : A) : M A := fun σ => Some (a, σ).

Definition bind {A B} (m : M A) (k : A -> M B) : M B :=
  fun σ => match m σ with
           | Some (a, σ') => k a σ'
           | None => None
           end.

Definition fail {A} : M A := fun _ => None.

Definition lift {A} (o : option A) : M A :=
  match o with Some a => ret a | None => fail end.

Notation "x <- m ;; k" := (bind m (fun x => k))
  (at level 100, m at next level, right associativity).
Notation "m ;;; k" := (bind m (fun _ => k))
  (at level 100, right associativity).

(** [p[i]] as an rvalue. *)
Definition load (p : loc) (i : Z) : M spec_float :=
  fun σ => match σ !! p with
           | Some buf =>
               if 0 <=? i then
                 match buf !! Z.to_nat i with
                 | Some v => Some (v, σ)
                 | None => None
                 end
               else None
           | None => None
           end.

(** [p[i] = v]. *)
Definition store (p : loc) (i : Z) (v : spec_float) : M unit :=
  fun σ => match σ !! p with
           | Some buf =>
               if (0 <=? i) && (i <? Z.of_nat (length buf))
               then Some (tt, <[p := <[Z.to_nat i := v]> buf]> σ)
               else None
           | None => None
           end.

(** [memcpy(dst, src, n * sizeof(float))]. *)
Definition memcpy (dst src : loc) (n : Z) : M unit :=
  fun σ => match σ !! dst, σ !! src with
           | Some bd, Some bs =>
               if (0 <=? n) && (n <=? Z.of_nat (length bd)) && (n <=? Z.of_nat (length bs))
               then Some (tt, <[dst := take (Z.to_nat n) bs ++ drop (Z.to_nat n) bd]> σ)
               else None
           | _, _ => None
           end.

(** [for (i = lo; i < lo + n; i++) body(i)]. *)
Fixpoint for_loop (n : nat) (lo : Z) (body : Z -> M unit) : M unit :=
  match n with
  | O => ret tt
  | S n' => body lo ;;; for_loop n' (lo + 1) body
  end.

(** [for (i = 0; i < hi; i++) body(i)]. *)
Definition for_upto (hi : Z) (body : Z -> M unit) : M unit :=
  for_loop (Z.to_nat hi) 0 body.

(** ** Images *)

(** [typedef struct { int w, h, c; float *data; } image;] *)
Record image : Type := { w : Z; h : Z; c : Z; data : loc }.

(** The linear position of sample [(x, y, ch)]: planar, channel slowest. *)
Definition offset (im : image) (x y ch : Z) : Z :=
  x + y * w im + w im * h im * ch.

(** An image whose buffer [buf] is allocated in the store with [w*h*c]
    samples. *)
Definition image_ok (σ : heap) (im : image) (buf : list spec_float) : Prop :=
  0 <= w im /\ 0 <= h im /\ 0 <= c im /\
  σ !! data im = Some buf /\ Z.of_nat (length buf) = w im * h im * c im.

(** Modelled from the spec: [make_image] is the allocation routine, an
    external collaborator that is not among the sources; it returns an
    image of the given dimensions over a new buffer of [w*h*c] samples,
    zero-filled. *)
Definition make_image (nw nh nc : Z) : M image :=
  fun σ => let p := fresh (dom σ) in
           Some ({| w := nw; h := nh; c := nc; data := p |},
                 <[p := replicate (Z.to_nat (nw * nh * nc)) Flt.zero]> σ).

(** *** process_image.c *)

Definition get_pixel (im : image) (x y ch : Z) : M spec_float :=
  let x := if x >? w im then w im - 1 else x in
  let y := if y >? h im then h im - 1 else y in
  let ch := if ch >? c im then c im - 1 else ch in
  let x := if x <? 0 then 0 else x in
  let y := if y <? 0 then 0 else y in
  let ch := if ch <? 0 then 0 else ch in
  load (data im) (x + y * w im + w im * h im * ch).

Definition set_pixel (im : image) (x y ch : Z) (v : spec_float) : M unit :=
  if x >? w im then ret tt else
  if y >? h im then ret tt else
  if ch >? c im then ret tt else
  if x <? 0 then ret tt else
  if y <? 0 then ret tt else
  if ch <? 0 then ret tt else
  store (data im) (x + y * w im + w im * h im * ch) v.

Definition copy_image (im : image) : M image :=
  copy <- make_image (w im) (h im) (c im) ;;
  memcpy (data copy) (data im) (w im * h im * c im) ;;;
  ret copy.

(** The double literals of the luma formula. *)
Definition luma_r : spec_float := Flt.double_lit 299 1000.
Definition luma_g : spec_float := Flt.double_lit 587 1000.
Definition luma_b : spec_float := Flt.double_lit 114 1000.

(** [red * 0.299 + green * 0.587 + blue * 0.114], computed in double and
    converted to the [float] parameter of [set_pixel]. *)
Definition luma (red green blue : spec_float) : spec_float :=
  Flt.to_float
    (Flt.dadd (Flt.dadd (Flt.dmul (Flt.to_double red) luma_r)
                        (Flt.dmul (Flt.to_double green) luma_g))
              (Flt.dmul (Flt.to_double blue) luma_b)).

Definition rgb_to_grayscale (im : image) : M image :=
  if negb (c im =? 3) then fail else
  gray <- make_image (w im) (h im) 1 ;;
  for_upto (w im) (fun i =>
    for_upto (h im) (fun j =>
      red <- get_pixel im i j 0 ;;
      green <- get_pixel im i j 1 ;;
      blue <- get_pixel im i j 2 ;;
      set_pixel gray i j 0 (luma red green blue))) ;;;
  ret gray.

Definition shift_image (im : image) (ch : Z) (v : spec_float) : M unit :=
  for_upto (w im) (fun i =>
    for_upto (h im) (fun j =>
      p <- get_pixel im i j ch ;;
      set_pixel im i j ch (Flt.fadd p v))).

Definition clamp_image (im : image) : M unit :=
  for_upto (w im) (fun i =>
    for_upto (h im) (fun j =>
      for_upto (c im) (fun ch =>
        p <- get_pixel im i j ch ;;
        (if Flt.gt p (Flt.float_of_int 1)
         then set_pixel im i j ch (Flt.float_of_int 1) else ret tt) ;;;
        q <- get_pixel im i j ch ;;
        (if Flt.lt q (Flt.float_of_int 0)
         then set_pixel im i j ch (Flt.float_of_int 0) else ret tt)))).

Definition three_way_max (a b d : spec_float) : spec_float :=
  if Flt.gt a b then (if Flt.gt a d then a else d)
  else (if Flt.gt b d then b else d).

Definition three_way_min (a b d : spec_float) : spec_float :=
  if Flt.lt a b then (if Flt.lt a d then a else d)
  else (if Flt.lt b d then b else d).

(** One pixel of [rgb_to_hsv]: the body of its loops between the three
    reads and the three writes. *)
Definition hsv_of_rgb (red green blue : spec_float) : spec_float * spec_float * spec_float :=
  let value := three_way_max red green blue in
  let min := three_way_min red green blue in
  let diff := Flt.fsub value min in
  let saturation :=
    if Flt.gt value (Flt.float_of_int 0) then Flt.fdiv diff value else Flt.float_of_int 0 in
  let hue :=
    if Flt.ne diff (Flt.float_of_int 0) then
      let hue :=
        if Flt.eq value red then Flt.fdiv (Flt.fsub green blue) diff
        else if Flt.eq value green
             then Flt.fadd (Flt.fdiv (Flt.fsub blue red) diff) (Flt.float_of_int 2)
             else Flt.fadd (Flt.fdiv (Flt.fsub red green) diff) (Flt.float_of_int 4) in
      if Flt.lt hue (Flt.float_of_int 0)
      then Flt.fadd (Flt.fdiv hue (Flt.float_of_int 6)) (Flt.float_of_int 1)
      else Flt.fdiv hue (Flt.float_of_int 6)
    else Flt.float_of_int 0 in
  (hue, saturation, value).

Definition rgb_to_hsv (im : image) : M unit :=
  for_upto (w im) (fun i =>
    for_upto (h im) (fun j =>
      red <- get_pixel im i j 0 ;;
      green <- get_pixel im i j 1 ;;
      blue <- get_pixel im i j 2 ;;
      let '(hue, saturation, value) := hsv_of_rgb red green blue in
      set_pixel im i j 0 hue ;;;
      set_pixel im i j 1 saturation ;;;
      set_pixel im i j 2 value)).

(** One pixel of [hsv_to_rgb].  [hue * 6.0] and the expression of [X] are
    computed in double and stored in a [float]; the float [_h] is converted
    to double where it meets a double ([fmod], the comparisons). *)
Definition rgb_of_hsv (hue saturation value : spec_float) : spec_float * spec_float * spec_float :=
  let d (n : Z) := Flt.double_of_int n in
  let chroma := Flt.fmul value saturation in
  let _h := Flt.to_float (Flt.dmul (Flt.to_double hue) (d 6)) in
  let X :=
    Flt.to_float
      (Flt.dmul (Flt.to_double chroma)
         (Flt.dsub (d 1) (Flt.fabs (Flt.dsub (Flt.fmod (Flt.to_double _h) (d 2)) (d 1))))) in
  let diff := Flt.fsub value chroma in
  let z := Flt.float_of_int 0 in
  let h6 := Flt.to_double _h in
  let '(red, green, blue) :=
    if Flt.le (d 0) h6 && Flt.le h6 (d 1) then (chroma, X, z)
    else if Flt.le (d 1) h6 && Flt.le h6 (d 2) then (X, chroma, z)
    else if Flt.le (d 2) h6 && Flt.le h6 (d 3) then (z, chroma, X)
    else if Flt.le (d 3) h6 && Flt.le h6 (d 4) then (z, X, chroma)
    else if Flt.le (d 4) h6 && Flt.le h6 (d 5) then (X, z, chroma)
    else if Flt.le (d 5) h6 && Flt.le h6 (d 6) then (chroma, z, X)
    else (z, z, z) in
  (Flt.fadd red diff, Flt.fadd green diff, Flt.fadd blue diff).

Definition hsv_to_rgb (im : image) : M unit :=
  for_upto (w im) (fun i =>
    for_upto (h im) (fun j =>
      hue <- get_pixel im i j 0 ;;
      saturation <- get_pixel im i j 1 ;;
      value <- get_pixel im i j 2 ;;
      let '(red, green, blue) := rgb_of_hsv hue saturation value in
      set_pixel im i j 0 red ;;;
      set_pixel im i j 1 green ;;;
      set_pixel im i j 2 blue)).

(** *** resize_image.c *)

(** [round] takes and returns a double; its result converts to the [int]
    parameter of [get_pixel]. *)
Definition nn_interpolate (im : image) (x y : spec_float) (ch : Z) : M spec_float :=
  xi <- lift (Flt.int_of (Flt.round (Flt.to_double x))) ;;
  yi <- lift (Flt.int_of (Flt.round (Flt.to_double y))) ;;
  get_pixel im xi yi ch.

(** [ratio = (float)old / (float)new] and
    [correction_factor = -0.5 + 0.5 * ratio], the latter computed in double
    and stored in a [float]. *)
Definition ratio (old new : Z) : spec_float :=
  Flt.fdiv (Flt.float_of_int old) (Flt.float_of_int new).

Definition correction_factor (r : spec_float) : spec_float :=
  Flt.to_float (Flt.dadd (Flt.double_lit (-1) 2) (Flt.dmul (Flt.double_lit 1 2) (Flt.to_double r))).

(** The source coordinate of destination column (or row) [k]:
    [ratio * k + correction_factor], in float. *)
Definition source_coord (r cf : spec_float) (k : Z) : spec_float :=
  Flt.fadd (Flt.fmul r (Flt.float_of_int k)) cf.

(** The loop nest that [nn_resize] and [bilinear_resize] share; they differ
    in the interpolation they call. *)
Definition resize_with (interp : image -> spec_float -> spec_float -> Z -> M spec_float)
    (im : image) (new_w new_h : Z) : M image :=
  resized_image <- make_image new_w new_h (c im) ;;
  let ratio_x := ratio (w im) new_w in
  let correction_factor_x := correction_factor ratio_x in
  let ratio_y := ratio (h im) new_h in
  let correction_factor_y := correction_factor ratio_y in
  for_upto (h resized_image) (fun row =>
    for_upto (w resized_image) (fun col =>
      let x := source_coord ratio_x correction_factor_x col in
      let y := source_coord ratio_y correction_factor_y row in
      for_upto (c resized_image) (fun z =>
        val <- interp im x y z ;;
        set_pixel resized_image col row z val))) ;;;
  ret resized_image.

Definition nn_resize : image -> Z -> Z -> M image := resize_with nn_interpolate.

Definition bilinear_interpolate (im : image) (x y : spec_float) (ch : Z) : M spec_float :=
  left <- lift (Flt.int_of (Flt.floorf x)) ;;
  right <- lift (Flt.int_of (Flt.ceilf x)) ;;
  bottom <- lift (Flt.int_of (Flt.ceilf y)) ;;
  top <- lift (Flt.int_of (Flt.floorf y)) ;;
  v1 <- get_pixel im left top ch ;;
  v2 <- get_pixel im right top ch ;;
  v3 <- get_pixel im left bottom ch ;;
  v4 <- get_pixel im right bottom ch ;;
  let q1 := Flt.fadd (Flt.fmul (Flt.fsub (Flt.float_of_int bottom) y) v1)
                     (Flt.fmul (Flt.fsub y (Flt.float_of_int top)) v3) in
  let q2 := Flt.fadd (Flt.fmul (Flt.fsub (Flt.float_of_int bottom) y) v2)
                     (Flt.fmul (Flt.fsub y (Flt.float_of_int top)) v4) in
  let q := Flt.fadd (Flt.fmul (Flt.fsub x (Flt.float_of_int left)) q2)
                    (Flt.fmul (Flt.fsub (Flt.float_of_int right) x) q1) in
  ret q.

Definition bilinear_resize : image -> Z -> Z -> M image := resize_with bilinear_interpolate.

(** ** Observing a computation *)

(** The samples of an image in a store. *)
Definition pixels (σ : heap) (im : image) : option (list spec_float) := σ !! data im.

(** The value a computation returns and the samples of an image afterwards. *)
Definition result_of {A} (m : M A) (σ : heap) : option A :=
  match m σ with Some (a, _) => Some a | None => None end.

Definition pixels_after {A} (m : M A) (σ : heap) (im : image) : option (list spec_float) :=
  match m σ with Some (_, σ') => pixels σ' im | None => None end.

(** The samples of the image a computation returns. *)
Definition pixels_of_result (m : M image) (σ : heap) : option (list spec_float) :=
  match m σ with Some (im', σ') => pixels σ' im' | None => None end.

(** The three samples of pixel [(x, y)] in a buffer of an image of three
    channels. *)
Definition pixel_at (im : image) (buf : list spec_float) (x y : Z)
  : option (spec_float * spec_float * spec_float) :=
  match buf !! Z.to_nat (offset im x y 0), buf !! Z.to_nat (offset im x y 1),
        buf !! Z.to_nat (offset im x y 2) with
  | Some p0, Some p1, Some p2 => Some (p0, p1, p2)
  | _, _, _ => None
  end.

(** What [get_pixel] does to one coordinate: above the bound it becomes
    [bound - 1], then below zero it becomes zero. *)
Definition clamp_coord (bound x : Z) : Z :=
  let x := if x >? bound then bound - 1 else x in
  if x <? 0 then 0 else x.

(** What [clamp_image] leaves in place of a sample. *)
Definition clamp_sample (p : spec_float) : spec_float :=
  if Flt.gt p (Flt.float_of_int 1) then Flt.float_of_int 1
  else if Flt.lt p (Flt.float_of_int 0) then Flt.float_of_int 0
  else p.

(** A sample within the unit range. *)
Definition in_unit_range (p : spec_float) : bool :=
  Flt.le (Flt.float_of_int 0) p && Flt.le p (Flt.float_of_int 1).

(** A sample that is a binary32 number within [0, 1]. *)
Definition unit_sample (p : spec_float) : bool := Flt.is_float p && in_unit_range p.

(** Progress of a loop nest over columns, then rows: whether pixel
    [(x, y)] is visited before the iteration at [(i, j)]. *)
Definition visited (i j x y : Z) : bool :=
  (x <? i) || ((x =? i) && (y <? j)).

(** The invariant of such a nest that rewrites the buffer of [im], [buf]
    before the loops: the samples of the pixels visited are those of
    [tgt], the others those of [buf]. *)
Definition nest_inv (σ : heap) (im : image) (buf : list spec_float)
    (tgt : Z -> Z -> Z -> option spec_float) (i j : Z) (s : heap) : Prop :=
  exists b, s = <[data im := b]> σ /\ length b = length buf /\
    forall x y ch, 0 <= x < w im -> 0 <= y < h im -> 0 <= ch < c im ->
      b !! Z.to_nat (offset im x y ch) =
        if visited i j x y then tgt x y ch else buf !! Z.to_nat (offset im x y ch).

(** ** Rounding, as arithmetic on integers *)

(** [M / 2^n] rounded to the nearest integer, ties to even. *)
Definition rne (M n : Z) : Z :=
  if n <=? 0 then M
  else
    let q := M / 2 ^ n in
    match 2 * (M mod 2 ^ n) ?= 2 ^ n with
    | Lt => q
    | Eq => if Z.even q then q else q + 1
    | Gt => q + 1
    end.

(** The value of format [(prec, emax)] nearest to [M * 2^E]: the mantissa
    is rounded at the exponent of the format for numbers of that size, and
    renormalised when the rounding carries into one more digit. *)
Definition round_pos (prec emax : Z) (s : bool) (M : positive) (E : Z) : spec_float :=
  let e' := fexp prec emax (Z.pos (digits2_pos M) + E) in
  let q := rne (Z.pos M) (e' - E) in
  if q =? 0 then S754_zero s
  else if q <? 2 ^ prec
       then (if e' <=? emax - prec then S754_finite s (Z.to_pos q) e' else S754_infinity s)
       else (if e' + 1 <=? emax - prec
             then S754_finite s (Z.to_pos (2 ^ (prec - 1))) (e' + 1) else S754_infinity s).

(** What [n] steps of [shr_1] make of the mantissa [M]: the quotient by
    [2^n], the last bit shifted out and whether a bit before it was set. *)
Definition shifted (M n : Z) (mrs : shr_record) : Prop :=
  shr_m mrs = M / 2 ^ n /\
  shr_r mrs = (if n =? 0 then false else Z.odd (M / 2 ^ (n - 1))) /\
  shr_s mrs = (if n =? 0 then false else negb (M mod 2 ^ (n - 1) =? 0)).

(** ** The real value of a floating-point number *)

Definition bpow (e : Z) : R := powerRZ 2 e.

Definition F2R (x : spec_float) : R :=
  match x with
  | S754_finite s m e => ((if s then - IZR (Z.pos m) else IZR (Z.pos m)) * bpow e)%R
  | _ => 0%R
  end.

(** Finite and in its format. *)
Definition fin (prec emax : Z) (x : spec_float) : Prop :=
  valid_binary prec emax x = true /\ Flt.is_finite x = true.

(** [N / D] rounded to the nearest integer, ties to even. *)
Definition rne_frac (N D : Z) : Z :=
  let q := N / D in
  match 2 * (N mod D) ?= D with
  | Lt => q
  | Eq => if Z.even q then q else q + 1
  | Gt => q + 1
  end.

(** The value of format [(prec, emax)] nearest to [N / D * 2^E]. *)
Definition round_frac (prec emax : Z) (s : bool) (N D E : Z) : spec_float :=
  let e' := fexp prec emax (Zdigits2 (N / D) + E) in
  let q := rne_frac N (D * 2 ^ (e' - E)) in
  if q =? 0 then S754_zero s
  else if q <? 2 ^ prec
       then (if e' <=? emax - prec then S754_finite s (Z.to_pos q) e' else S754_infinity s)
       else (if e' + 1 <=? emax - prec
             then S754_finite s (Z.to_pos (2 ^ (prec - 1))) (e' + 1) else S754_infinity s).

(** A mantissa with its rounding bits stands for the fraction [N / D]:
    the integer part, whether the rest is at least one half, and whether
    it is neither nothing nor one half. *)
Definition rep (N D : Z) (mrs : shr_record) : Prop :=
  shr_m mrs = N / D /\
  shr_r mrs = (D <=? 2 * (N mod D)) /\
  shr_s mrs = negb ((N mod D =? 0) || (2 * (N mod D) =? D)).

(** [z] is a correct rounding of the real [x] to the format: finite,
    within [2^-prec] of [x] relatively up to an absolute [eta], of the sign
    of [x], and not above a number of the format that [x] is not above. *)
Definition rounds (prec emax : Z) (eta : R) (x : R) (z : spec_float) : Prop :=
  fin prec emax z /\
  (Rabs (F2R z - x) <= bpow (- prec) * Rabs x + eta)%R /\
  (0 <= x -> 0 <= F2R z)%R /\
  (x <= 0 -> F2R z <= 0)%R /\
  (forall w, fin prec emax w -> (0 <= x)%R -> (x <= F2R w)%R -> (F2R z <= F2R w)%R).

(** ** The two formats and the hexagon of hues, for the accuracy of the
    colour transforms *)

Abbreviation fin32 := (fin Flt.prec32 Flt.emax32).
Abbreviation fin64 := (fin Flt.prec64 Flt.emax64).

(** Half a unit in the last place of a binary32 and a binary64 number near
    one, and the bounds on the absolute error of a subnormal result. *)
Definition u32 : R := bpow (- Flt.prec32).
Definition u64 : R := bpow (- Flt.prec64).
Definition eta32 : R := bpow (emin Flt.prec32 Flt.emax32 - 1).
Definition eta64 : R := bpow (emin Flt.prec64 Flt.emax64 - 1).

Abbreviation rounds32 := (rounds Flt.prec32 Flt.emax32).
Abbreviation rounds64 := (rounds Flt.prec64 Flt.emax64).

Definition clamp01 (x : R) : R := Rmax 0 (Rmin 1 x).

(** The shares of red, green and blue in the fully saturated colour of
    hue [t], for [t] in [0, 6]. *)
Definition hex_r (t : R) : R := clamp01 (Rabs (t - 3) - 1).
Definition hex_g (t : R) : R := clamp01 (2 - Rabs (t - 2)).
Definition hex_b (t : R) : R := clamp01 (2 - Rabs (t - 4)).

(** Hues are on a circle, [0] and [6] the same hue: [a] is within [e] of
    [b] on it. *)
Definition near (e a b : R) : Prop :=
  (- e <= a - b <= e \/ - e <= a - b + 6 <= e \/ - e <= a - b - 6 <= e)%R.

(** The tolerance of the round trip through HSV. *)
Definition tolerance : R := (1 / 10000)%R.

Definition close (p q : spec_float) : Prop :=
  Flt.is_float q = true /\ Flt.is_finite q = true /\ (Rabs (F2R q - F2R p) <= tolerance)%R.

(** The luma of a pixel over the reals: the weighted sum
    [0.299*R + 0.587*G + 0.114*B] that [rgb_to_grayscale] is to compute. *)
Definition luma_sum (r g b : R) : R :=
  (299 / 1000 * r + 587 / 1000 * g + 114 / 1000 * b)%R.

(** A sample that is a binary32 number of magnitude at most [2^126], a
    quarter of the largest [float]. *)
Definition luma_bound : spec_float := Flt.float_of_int (2 ^ 126).

Definition in_luma_range (p : spec_float) : bool :=
  Flt.is_float p && Flt.le (SFabs p) luma_bound.

(** The integers next to a real number: [floorf] and [ceilf]. *)
Definition floor_of (x : R) (l : Z) : Prop := (IZR l <= x < IZR l + 1)%R.
Definition ceil_of (x : R) (r : Z) : Prop := (IZR r - 1 < x <= IZR r)%R.

(** The value of [q] in [bilinear_interpolate] over the reals: [l], [r]
    are [left] and [right], [t], [b] are [top] and [bottom], and [v1] to
    [v4] the four samples read. *)
Definition blend (x y l r t b v1 v2 v3 v4 : R) : R :=
  let q1 := ((b - y) * v1 + (y - t) * v3)%R in
  let q2 := ((b - y) * v2 + (y - t) * v4)%R in
  ((x - l) * q2 + (r - x) * q1)%R.

(** A coordinate that is a binary32 number within [0, n - 1]. *)
Definition in_image (n : Z) (x : spec_float) : bool :=
  Flt.is_float x && Flt.le (Flt.float_of_int 0) x && Flt.le x (Flt.float_of_int (n - 1)).

(** ** Test images *)

(** A 2x2 image of one channel at address 1, rows [1/4 1/2] and [3/4 1]. *)
Definition im22 : image := {| w := 2; h := 2; c := 1; data := 1%positive |}.

Definition buf22 : list spec_float :=
  [Flt.float_lit 1 4; Flt.float_lit 1 2; Flt.float_lit 3 4; Flt.float_lit 1 1].

Definition σ22 : heap := {[ 1%positive := buf22 ]}.

(** A 1x1 image of three channels at address 1, each sample 1/2. *)
Definition im113 : image := {| w := 1; h := 1; c := 3; data := 1%positive |}.

Definition buf113 : list spec_float :=
  [Flt.float_lit 1 2; Flt.float_lit 1 2; Flt.float_lit 1 2].

Definition σ113 : heap := {[ 1%positive := buf113 ]}.

(** A 2x1 image of three channels at address 1: a grey pixel
    [(1/2, 1/2, 1/2)] and the pixel [(1/4, 3/4, 1)]. *)
Definition im213 : image := {| w := 2; h := 1; c := 3; data := 1%positive |}.

Definition buf213 : list spec_float :=
  [Flt.float_lit 1 2; Flt.float_lit 1 4;
   Flt.float_lit 1 2; Flt.float_lit 3 4;
   Flt.float_lit 1 2; Flt.float_lit 1 1].

Definition σ213 : heap := {[ 1%positive := buf213 ]}.

(** The 1x1 image of three channels over a pixel of hue 1/4, saturation 0
    and value 1/2. *)
Definition buf113u : list spec_float :=
  [Flt.float_lit 1 4; Flt.float_of_int 0; Flt.float_lit 1 2].

Definition σ113u : heap := {[ 1%positive := buf113u ]}.

(** A 1x1 image of one channel at address 1 whose sample is a NaN. *)
Definition im11 : image := {| w := 1; h := 1; c := 1; data := 1%positive |}.

Definition σ_nan : heap := {[ 1%positive := [S754_nan] ]}.
(** * Properties *)

(** ** The arithmetic on small inputs *)

Example float_of_int_one : Flt.float_of_int 1 = S754_finite false 8388608 (-23).
Proof. reflexivity. Qed.

Example floorf_three_halves : Flt.floorf (Flt.float_lit 3 2) = Flt.float_of_int 1.
Proof. vm_compute. reflexivity. Qed.

Example floorf_minus_half : Flt.floorf (Flt.float_lit (-1) 2) = Flt.float_of_int (-1).
Proof. vm_compute. reflexivity. Qed.

Example ceilf_three_halves : Flt.ceilf (Flt.float_lit 3 2) = Flt.float_of_int 2.
Proof. vm_compute. reflexivity. Qed.

Example ceilf_minus_half : Flt.ceilf (Flt.float_lit (-1) 2) = S754_zero true.
Proof. vm_compute. reflexivity. Qed.

Example round_half : Flt.round (Flt.double_lit 1 2) = Flt.double_of_int 1.
Proof. vm_compute. reflexivity. Qed.

Example round_minus_half : Flt.round (Flt.double_lit (-1) 2) = Flt.double_of_int (-1).
Proof. vm_compute. reflexivity. Qed.

Example round_five_halves : Flt.round (Flt.double_lit 5 2) = Flt.double_of_int 3.
Proof. vm_compute. reflexivity. Qed.

Example fmod_eleven_halves :
  Flt.fmod (Flt.double_lit 11 2) (Flt.double_of_int 2) = Flt.double_lit 3 2.
Proof. vm_compute. reflexivity. Qed.

Example fmod_six : Flt.fmod (Flt.double_of_int 6) (Flt.double_of_int 2) = S754_zero false.
Proof. vm_compute. reflexivity. Qed.

(** Pure red is hue 0, saturation 1, value 1, and back. *)
Example hsv_of_red :
  hsv_of_rgb (Flt.float_of_int 1) (Flt.float_of_int 0) (Flt.float_of_int 0)
  = (Flt.float_of_int 0, Flt.float_of_int 1, Flt.float_of_int 1).
Proof. vm_compute. reflexivity. Qed.

Example rgb_of_red :
  rgb_of_hsv (Flt.float_of_int 0) (Flt.float_of_int 1) (Flt.float_of_int 1)
  = (Flt.float_of_int 1, Flt.float_of_int 0, Flt.float_of_int 0).
Proof. vm_compute. reflexivity. Qed.

(** A grey pixel has hue 0 and saturation 0, and comes back as it was. *)
Example hsv_of_grey :
  hsv_of_rgb (Flt.float_lit 1 2) (Flt.float_lit 1 2) (Flt.float_lit 1 2)
  = (Flt.float_of_int 0, Flt.float_of_int 0, Flt.float_lit 1 2).
Proof. vm_compute. reflexivity. Qed.

Example rgb_of_grey :
  rgb_of_hsv (Flt.float_of_int 0) (Flt.float_of_int 0) (Flt.float_lit 1 2)
  = (Flt.float_lit 1 2, Flt.float_lit 1 2, Flt.float_lit 1 2).
Proof. vm_compute. reflexivity. Qed.

(** The pixel [(1/4, 3/4, 1)] does not come back exactly: its green
    channel, [12582912 * 2^-24], comes back as [12582916 * 2^-24]. *)
Example round_trip_inexact :
  (let '(hue, saturation, value) :=
     hsv_of_rgb (Flt.float_lit 1 4) (Flt.float_lit 3 4) (Flt.float_of_int 1) in
   rgb_of_hsv hue saturation value)
  = (Flt.float_lit 1 4, S754_finite false 12582916 (-24), Flt.float_of_int 1)
  /\ Flt.float_lit 3 4 = S754_finite false 12582912 (-24).
Proof. split; vm_compute; reflexivity. Qed.

(** ** The monad and the memory accesses *)

Section Accesses.

Context (σ : heap).

Lemma bind_Some {A B} (m : M A) (k : A -> M B) a σ' :
  m σ = Some (a, σ') -> bind m k σ = k a σ'.
Proof. intros Hm. unfold bind. now rewrite Hm. Qed.

Lemma bind_None {A B} (m : M A) (k : A -> M B) :
  m σ = None -> bind m k σ = None.
Proof. intros Hm. unfold bind. now rewrite Hm. Qed.

Lemma bind_inv {A B} (m : M A) (k : A -> M B) b σ'' :
  bind m k σ = Some (b, σ'') ->
  exists a σ', m σ = Some (a, σ') /\ k a σ' = Some (b, σ'').
Proof.
  unfold bind. destruct (m σ) as [[a σ']|] eqn:Hm; [|discriminate].
  intros Hk. now exists a, σ'.
Qed.

Lemma load_Some p buf i v :
  σ !! p = Some buf -> 0 <= i -> buf !! Z.to_nat i = Some v ->
  load p i σ = Some (v, σ).
Proof.
  intros Hp Hi Hv. unfold load. rewrite Hp.
  destruct (Z.leb_spec 0 i); [|lia]. now rewrite Hv.
Qed.

Lemma load_outside p buf i :
  σ !! p = Some buf -> Z.of_nat (length buf) <= i -> load p i σ = None.
Proof.
  intros Hp Hi. unfold load. rewrite Hp.
  destruct (Z.leb_spec 0 i); [|reflexivity].
  rewrite (lookup_ge_None_2 buf (Z.to_nat i)); [reflexivity|lia].
Qed.

Lemma load_keeps_store p i v σ' : load p i σ = Some (v, σ') -> σ' = σ.
Proof.
  unfold load. destruct (σ !! p); [|discriminate].
  destruct (0 <=? i); [|discriminate].
  destruct (_ !! _); [|discriminate]. congruence.
Qed.

Lemma store_Some p buf i v :
  σ !! p = Some buf -> 0 <= i < Z.of_nat (length buf) ->
  store p i v σ = Some (tt, <[p := <[Z.to_nat i := v]> buf]> σ).
Proof.
  intros Hp Hi. unfold store. rewrite Hp.
  destruct (Z.leb_spec 0 i); [|lia].
  destruct (Z.ltb_spec i (Z.of_nat (length buf))); [reflexivity|lia].
Qed.

Lemma store_outside p buf i v :
  σ !! p = Some buf -> Z.of_nat (length buf) <= i -> store p i v σ = None.
Proof.
  intros Hp Hi. unfold store. rewrite Hp.
  destruct (Z.ltb_spec i (Z.of_nat (length buf))); [lia|].
  now rewrite andb_false_r.
Qed.

End Accesses.

(** ** Loops *)

(** A loop whose body runs and keeps an invariant runs and keeps it. *)
Lemma for_loop_inv (I : Z -> heap -> Prop) (body : Z -> M unit) n :
  forall lo σ,
    I lo σ ->
    (forall i s, lo <= i < lo + Z.of_nat n -> I i s ->
                 exists s', body i s = Some (tt, s') /\ I (i + 1) s') ->
    exists σ', for_loop n lo body σ = Some (tt, σ') /\ I (lo + Z.of_nat n) σ'.
Proof.
  induction n as [|n IH]; intros lo σ H0 Hstep.
  - exists σ. split; [reflexivity|]. now replace (lo + Z.of_nat 0) with lo by lia.
  - destruct (Hstep lo σ ltac:(lia) H0) as (s1 & Hb & H1).
    destruct (IH (lo + 1) s1 H1) as (σ' & Hl & HI).
    + intros i s Hi. apply Hstep. lia.
    + exists σ'. split.
      * cbn [for_loop]. now rewrite (bind_Some _ _ _ _ _ Hb).
      * now replace (lo + Z.of_nat (S n)) with (lo + 1 + Z.of_nat n) by lia.
Qed.

Lemma for_upto_inv (I : Z -> heap -> Prop) (body : Z -> M unit) hi σ :
  0 <= hi ->
  I 0 σ ->
  (forall i s, 0 <= i < hi -> I i s ->
               exists s', body i s = Some (tt, s') /\ I (i + 1) s') ->
  exists σ', for_upto hi body σ = Some (tt, σ') /\ I hi σ'.
Proof.
  intros Hhi H0 Hstep. unfold for_upto.
  destruct (for_loop_inv I body (Z.to_nat hi) 0 σ H0) as (σ' & Hl & HI).
  - intros i s Hi. apply Hstep. lia.
  - exists σ'. split; [exact Hl|]. now replace hi with (0 + Z.of_nat (Z.to_nat hi)) by lia.
Qed.

(** A loop whose body leaves the store as it is leaves the store as it is. *)
Lemma for_upto_skip (body : Z -> M unit) hi σ :
  (forall i, 0 <= i < hi -> body i σ = Some (tt, σ)) ->
  for_upto hi body σ = Some (tt, σ).
Proof.
  intros Hb. destruct (Z.le_gt_cases 0 hi) as [Hhi|Hhi].
  - destruct (for_upto_inv (fun _ s => s = σ) body hi σ Hhi eq_refl) as (σ' & Hl & ->).
    + intros i s Hi ->. exists σ. split; [now apply Hb|reflexivity].
    + exact Hl.
  - unfold for_upto. now replace (Z.to_nat hi) with O by lia.
Qed.

(** ** Pixel access *)

Section PixelAccess.

Context (σ : heap) (im : image) (buf : list spec_float).
Hypothesis Hbuf : σ !! data im = Some buf.

(** No clamp of [get_pixel] fires on a coordinate in [[0, bound]]. *)
Lemma get_pixel_unclamped x y ch :
  0 <= x <= w im -> 0 <= y <= h im -> 0 <= ch <= c im ->
  get_pixel im x y ch σ = load (data im) (offset im x y ch) σ.
Proof.
  intros Hx Hy Hc. unfold get_pixel, offset.
  destruct (Z.gtb_spec x (w im)); [lia|].
  destruct (Z.gtb_spec y (h im)); [lia|].
  destruct (Z.gtb_spec ch (c im)); [lia|].
  destruct (Z.ltb_spec x 0); [lia|].
  destruct (Z.ltb_spec y 0); [lia|].
  destruct (Z.ltb_spec ch 0); [lia|]. reflexivity.
Qed.

(** No guard of [set_pixel] fires on a coordinate in [[0, bound]]. *)
Lemma set_pixel_unguarded x y ch v :
  0 <= x <= w im -> 0 <= y <= h im -> 0 <= ch <= c im ->
  set_pixel im x y ch v σ = store (data im) (offset im x y ch) v σ.
Proof.
  intros Hx Hy Hc. unfold set_pixel, offset.
  destruct (Z.gtb_spec x (w im)); [lia|].
  destruct (Z.gtb_spec y (h im)); [lia|].
  destruct (Z.gtb_spec ch (c im)); [lia|].
  destruct (Z.ltb_spec x 0); [lia|].
  destruct (Z.ltb_spec y 0); [lia|].
  destruct (Z.ltb_spec ch 0); [lia|]. reflexivity.
Qed.

(** A channel above [c] makes [set_pixel] return at once. *)
Lemma set_pixel_channel_above x y ch v :
  c im < ch -> set_pixel im x y ch v σ = Some (tt, σ).
Proof.
  intros Hc. unfold set_pixel.
  destruct (x >? w im); [reflexivity|].
  destruct (y >? h im); [reflexivity|].
  destruct (Z.gtb_spec ch (c im)); [reflexivity|lia].
Qed.

Lemma get_pixel_keeps_store x y ch v σ' :
  get_pixel im x y ch σ = Some (v, σ') -> σ' = σ.
Proof. unfold get_pixel. apply load_keeps_store. Qed.

End PixelAccess.

(** ** The layout of the samples *)

Section Layout.

Context (im : image).
Hypothesis Hw : 0 <= w im.
Hypothesis Hh : 0 <= h im.
Hypothesis Hc : 0 <= c im.

Lemma offset_inside x y ch :
  0 <= x < w im -> 0 <= y < h im -> 0 <= ch < c im ->
  0 <= offset im x y ch < w im * h im * c im.
Proof.
  intros Hx Hy Hch. unfold offset.
  assert (0 <= y * w im) by nia.
  assert (0 <= w im * h im * ch) by nia.
  assert (y * w im <= (h im - 1) * w im) by nia.
  assert (w im * h im * ch <= w im * h im * (c im - 1)) by nia.
  nia.
Qed.

(** Two coordinates inside the image share no sample. *)
Lemma offset_inj x y ch x' y' ch' :
  0 <= x < w im -> 0 <= y < h im -> 0 <= ch < c im ->
  0 <= x' < w im -> 0 <= y' < h im -> 0 <= ch' < c im ->
  offset im x y ch = offset im x' y' ch' ->
  x = x' /\ y = y' /\ ch = ch'.
Proof.
  intros Hx Hy Hch Hx' Hy' Hch' Heq. unfold offset in Heq.
  assert (Hrow : y + h im * ch = y' + h im * ch').
  { assert (E : x + w im * (y + h im * ch) = x' + w im * (y' + h im * ch')) by lia.
    destruct (Z.lt_trichotomy (y + h im * ch) (y' + h im * ch')) as [L|[L|L]];
      [exfalso; nia | exact L | exfalso; nia]. }
  assert (Hch2 : ch = ch').
  { destruct (Z.lt_trichotomy ch ch') as [L|[L|L]];
      [exfalso; nia | exact L | exfalso; nia]. }
  subst ch'. assert (y = y') by lia. subst y'. lia.
Qed.

End Layout.

(** *** Reads and writes inside the image *)

Section Inside.

Context (σ : heap) (im : image) (buf : list spec_float).
Hypothesis Hok : image_ok σ im buf.

Lemma get_pixel_inside x y ch :
  0 <= x < w im -> 0 <= y < h im -> 0 <= ch < c im ->
  exists v, buf !! Z.to_nat (offset im x y ch) = Some v /\
            get_pixel im x y ch σ = Some (v, σ).
Proof.
  intros Hx Hy Hch. destruct Hok as (Hw & Hh & Hc & Hbuf & Hlen).
  pose proof (offset_inside im Hw Hh Hc x y ch Hx Hy Hch) as Hoff.
  destruct (lookup_lt_is_Some_2 buf (Z.to_nat (offset im x y ch))) as [v Hv]; [lia|].
  exists v. split; [exact Hv|].
  rewrite get_pixel_unclamped by lia.
  apply (load_Some σ _ buf); [exact Hbuf|lia|exact Hv].
Qed.

Lemma set_pixel_inside x y ch v :
  0 <= x < w im -> 0 <= y < h im -> 0 <= ch < c im ->
  set_pixel im x y ch v σ =
    Some (tt, <[data im := <[Z.to_nat (offset im x y ch) := v]> buf]> σ).
Proof.
  intros Hx Hy Hch. destruct Hok as (Hw & Hh & Hc & Hbuf & Hlen).
  pose proof (offset_inside im Hw Hh Hc x y ch Hx Hy Hch) as Hoff.
  rewrite set_pixel_unguarded by lia.
  apply store_Some; [exact Hbuf|lia].
Qed.

End Inside.

(** [set_pixel] writes to the buffer of its image and to no other. *)
Lemma set_pixel_other_buffer σ im x y ch v σ' :
  set_pixel im x y ch v σ = Some (tt, σ') ->
  forall p, p <> data im -> σ' !! p = σ !! p.
Proof.
  unfold set_pixel, ret, store. intros Hs p Hp.
  repeat match type of Hs with
         | (if ?b then _ else _) _ = _ => destruct b; [congruence|]
         end.
  destruct (σ !! data im); [|discriminate].
  destruct (_ && _); [|discriminate].
  injection Hs as <-. now rewrite lookup_insert_ne.
Qed.

Lemma image_ok_insert σ im buf buf' :
  image_ok σ im buf -> length buf' = length buf ->
  image_ok (<[data im := buf']> σ) im buf'.
Proof.
  intros (Hw & Hh & Hc & Hbuf & Hlen) Hl. repeat split; try assumption.
  - apply lookup_insert_eq.
  - now rewrite Hl.
Qed.

(** ** [set_pixel] at [x = w] *)

(** C9.  In an image of width at least one, for a row [y] with
    [0 <= y <= h - 2] and a channel [ch] of the image, the call
    [set_pixel(im, im.w, y, ch, v)] is not dropped: the coordinate passes
    the guards, its linear position is that of sample [(0, y + 1, ch)],
    which now holds [v], and every other sample of the image, as every
    other buffer, stays as it was. *)
Theorem set_pixel_at_width_writes_next_row σ im buf y ch v :
  image_ok σ im buf -> 1 <= w im -> 0 <= y <= h im - 2 -> 0 <= ch < c im ->
  exists σ',
    set_pixel im (w im) y ch v σ = Some (tt, σ') /\
    pixels σ' im = Some (<[Z.to_nat (offset im 0 (y + 1) ch) := v]> buf) /\
    result_of (get_pixel im 0 (y + 1) ch) σ' = Some v /\
    (forall x' y' ch',
        0 <= x' < w im -> 0 <= y' < h im -> 0 <= ch' < c im ->
        (x', y', ch') <> (0, y + 1, ch) ->
        result_of (get_pixel im x' y' ch') σ' = result_of (get_pixel im x' y' ch') σ) /\
    (forall p, p <> data im -> σ' !! p = σ !! p).
Proof.
  intros Hok Hw1 Hy Hch.
  pose proof Hok as (Hw & Hh & Hc & Hbuf & Hlen).
  assert (Hsame : offset im (w im) y ch = offset im 0 (y + 1) ch)
    by (unfold offset; lia).
  pose proof (offset_inside im Hw Hh Hc 0 (y + 1) ch ltac:(lia) ltac:(lia) Hch) as Hoff.
  set (k := Z.to_nat (offset im 0 (y + 1) ch)) in *.
  exists (<[data im := <[k := v]> buf]> σ).
  assert (Hok' : image_ok (<[data im := <[k := v]> buf]> σ) im (<[k := v]> buf))
    by (apply (image_ok_insert σ im buf); [exact Hok|apply length_insert]).
  split; [|split; [|split; [|split]]].
  - rewrite (set_pixel_unguarded σ im) by lia. rewrite Hsame.
    apply store_Some; [exact Hbuf|lia].
  - unfold pixels. apply lookup_insert_eq.
  - destruct (get_pixel_inside _ _ _ Hok' 0 (y + 1) ch) as (v' & Hv' & Hg); try lia.
    unfold result_of. rewrite Hg. fold k in Hv'.
    rewrite list_lookup_insert_eq in Hv' by lia. congruence.
  - intros x' y' ch' Hx' Hy' Hch' Hne.
    destruct (get_pixel_inside _ _ _ Hok' x' y' ch') as (v1 & Hv1 & Hg1); try lia.
    destruct (get_pixel_inside _ _ _ Hok x' y' ch') as (v2 & Hv2 & Hg2); try lia.
    unfold result_of. rewrite Hg1, Hg2.
    rewrite list_lookup_insert_ne in Hv1; [congruence|].
    intros Heq. apply Hne.
    pose proof (offset_inside im Hw Hh Hc x' y' ch' Hx' Hy' Hch') as Hoff'.
    assert (E : offset im 0 (y + 1) ch = offset im x' y' ch').
    { unfold k in Heq. lia. }
    destruct (offset_inj im Hw Hh Hc 0 (y + 1) ch x' y' ch' ltac:(lia) ltac:(lia) Hch Hx' Hy' Hch' E)
      as (-> & -> & ->).
    reflexivity.
  - intros p Hp. now rewrite lookup_insert_ne.
Qed.

Lemma set_pixel_at_width_witness :
  exists σ',
    set_pixel im22 (w im22) 0 0 Flt.zero σ22 = Some (tt, σ') /\
    pixels σ' im22 = Some (<[Z.to_nat (offset im22 0 (0 + 1) 0) := Flt.zero]> buf22) /\
    result_of (get_pixel im22 0 (0 + 1) 0) σ' = Some Flt.zero /\
    (forall x' y' ch',
        0 <= x' < w im22 -> 0 <= y' < h im22 -> 0 <= ch' < c im22 ->
        (x', y', ch') <> (0, 0 + 1, 0) ->
        result_of (get_pixel im22 x' y' ch') σ' = result_of (get_pixel im22 x' y' ch') σ22) /\
    (forall p, p <> data im22 -> σ' !! p = σ22 !! p).
Proof.
  apply (set_pixel_at_width_writes_next_row σ22 im22 buf22 0 0 Flt.zero).
  - repeat split; simpl; try lia; reflexivity.
  - simpl. lia.
  - simpl. lia.
  - simpl. lia.
Defined.

(** C4.  The guards of [set_pixel] compare with [>], so a write at
    [x = w] is not dropped: in the 2x2 image it lands on sample [(0, 1, 0)],
    and in the last row it leaves the buffer. *)
Theorem set_pixel_at_width_not_dropped :
  pixels_after (set_pixel im22 2 0 0 Flt.zero) σ22 im22
    = Some [Flt.float_lit 1 4; Flt.float_lit 1 2; Flt.zero; Flt.float_lit 1 1] /\
  set_pixel im22 2 1 0 Flt.zero σ22 = None.
Proof. split; reflexivity. Qed.

(** C3.  The clamps of [get_pixel] compare with [>], so [x = w] is not
    clamped: in the 2x2 image the read at [(2, 0, 0)] returns sample
    [(0, 1, 0)], not the edge sample [(1, 0, 0)], and the read at
    [(2, 1, 0)] is at position 4 of a buffer of 4 samples. *)
Theorem get_pixel_at_width_not_clamped :
  result_of (get_pixel im22 2 0 0) σ22 = Some (Flt.float_lit 3 4) /\
  result_of (get_pixel im22 0 1 0) σ22 = Some (Flt.float_lit 3 4) /\
  result_of (get_pixel im22 1 0 0) σ22 = Some (Flt.float_lit 1 2) /\
  get_pixel im22 2 1 0 σ22 = None.
Proof. repeat split; reflexivity. Qed.

(** ** [shift_image] on a channel above [c] *)

Lemma get_pixel_clamps im x y ch σ :
  get_pixel im x y ch σ =
    load (data im)
         (offset im (clamp_coord (w im) x) (clamp_coord (h im) y) (clamp_coord (c im) ch)) σ.
Proof. reflexivity. Qed.

(** C10.  With a channel index [ch] strictly above [im.c], every write of
    [shift_image] is dropped by the channel guard of [set_pixel]: the call
    returns and the store, hence every sample of the image, is as before.
    The reads go to channel [c - 1], so this needs a channel to read (or no
    pixel to visit); an image without channels has no sample, and no
    result of the call changes the store. *)
Theorem shift_image_channel_above σ im buf ch v :
  image_ok σ im buf -> c im < ch ->
  (0 < c im \/ w im = 0 \/ h im = 0 -> shift_image im ch v σ = Some (tt, σ)) /\
  (forall σ', shift_image im ch v σ = Some (tt, σ') -> σ' = σ).
Proof.
  intros Hok Hch. pose proof Hok as (Hw & Hh & Hc & Hbuf & Hlen).
  assert (Hbody : forall i j, 0 <= i < w im -> 0 <= j < h im -> 0 < c im ->
            (p <- get_pixel im i j ch ;; set_pixel im i j ch (Flt.fadd p v)) σ = Some (tt, σ)).
  { intros i j Hi Hj Hc1.
    destruct (get_pixel_inside _ _ _ Hok i j (c im - 1)) as (p & _ & Hg); try lia.
    assert (Hg' : get_pixel im i j ch σ = Some (p, σ)).
    { rewrite get_pixel_clamps. rewrite get_pixel_clamps in Hg.
      replace (clamp_coord (c im) ch) with (clamp_coord (c im) (c im - 1)); [exact Hg|].
      unfold clamp_coord.
      destruct (Z.gtb_spec ch (c im)); [|lia].
      destruct (Z.gtb_spec (c im - 1) (c im)); [lia|]. reflexivity. }
    rewrite (bind_Some _ _ _ _ _ Hg'). now apply set_pixel_channel_above. }
  assert (Hrun : 0 < c im \/ w im = 0 \/ h im = 0 -> shift_image im ch v σ = Some (tt, σ)).
  { intros Hcase. unfold shift_image. apply for_upto_skip. intros i Hi.
    apply for_upto_skip. intros j Hj. apply Hbody; lia. }
  split; [exact Hrun|].
  intros σ' Hs.
  destruct (Z.eq_dec (c im) 0) as [Hc0|Hc0]; [|rewrite Hrun in Hs by lia; congruence].
  destruct (Z.eq_dec (w im) 0) as [Hw0|Hw0]; [rewrite Hrun in Hs by lia; congruence|].
  destruct (Z.eq_dec (h im) 0) as [Hh0|Hh0]; [rewrite Hrun in Hs by lia; congruence|].
  exfalso. revert Hs. unfold shift_image, for_upto.
  destruct (Z.to_nat (w im)) as [|n] eqn:En; [lia|].
  destruct (Z.to_nat (h im)) as [|n'] eqn:En'; [lia|].
  cbn [for_loop].
  assert (Hg : get_pixel im 0 0 ch σ = None).
  { rewrite get_pixel_clamps. apply (load_outside σ _ buf); [exact Hbuf|].
    unfold offset, clamp_coord.
    destruct (Z.gtb_spec ch (c im)); [|lia].
    destruct (Z.gtb_spec 0 (w im)); [lia|].
    destruct (Z.gtb_spec 0 (h im)); [lia|].
    rewrite Hc0 in *. simpl. lia. }
  rewrite bind_None; [discriminate|].
  rewrite bind_None; [reflexivity|].
  now rewrite bind_None.
Qed.

Lemma shift_image_channel_above_witness :
  (0 < c im22 \/ w im22 = 0 \/ h im22 = 0 ->
   shift_image im22 5 Flt.one σ22 = Some (tt, σ22)) /\
  (forall σ', shift_image im22 5 Flt.one σ22 = Some (tt, σ') -> σ' = σ22).
Proof.
  apply (shift_image_channel_above σ22 im22 buf22 5 Flt.one).
  - repeat split; simpl; try lia; reflexivity.
  - simpl. lia.
Defined.

(** ** [copy_image] *)

(** The buffer of a new image is none of the buffers of the store. *)
Lemma make_image_fresh σ nw nh nc im' σ' :
  make_image nw nh nc σ = Some (im', σ') ->
  σ !! data im' = None /\
  w im' = nw /\ h im' = nh /\ c im' = nc /\
  σ' = <[data im' := replicate (Z.to_nat (nw * nh * nc)) Flt.zero]> σ.
Proof.
  unfold make_image. intros [= <- <-]. simpl.
  split; [|repeat split].
  apply not_elem_of_dom. apply is_fresh.
Qed.

Lemma get_pixel_same_samples σ1 σ2 im1 im2 buf x y ch :
  w im1 = w im2 -> h im1 = h im2 -> c im1 = c im2 ->
  σ1 !! data im1 = Some buf -> σ2 !! data im2 = Some buf ->
  result_of (get_pixel im1 x y ch) σ1 = result_of (get_pixel im2 x y ch) σ2.
Proof.
  intros Ew Eh Ec H1 H2. unfold result_of, get_pixel, load.
  rewrite Ew, Eh, Ec, H1, H2.
  destruct (0 <=? _); [|reflexivity].
  destruct (buf !! _); reflexivity.
Qed.

(** [copy_image] returns, with the samples of [im] in a buffer of its
    own. *)
Lemma copy_image_runs σ im buf :
  image_ok σ im buf ->
  exists copy σ',
    copy_image im σ = Some (copy, σ') /\
    w copy = w im /\ h copy = h im /\ c copy = c im /\
    data copy <> data im /\
    pixels σ' copy = Some buf /\
    pixels σ' im = Some buf.
Proof.
  intros (Hw & Hh & Hc & Hbuf & Hlen).
  destruct (make_image (w im) (h im) (c im) σ) as [[copy σ1]|] eqn:Hmk;
    [|discriminate Hmk].
  destruct (make_image_fresh _ _ _ _ _ _ Hmk) as (Hnew & Ew & Eh & Ec & ->).
  assert (Hne : data copy <> data im) by congruence.
  set (n := Z.to_nat (w im * h im * c im)) in *.
  assert (Hn : n = length buf) by lia.
  set (σ1 := <[data copy := replicate n Flt.zero]> σ) in *.
  assert (Hcp : memcpy (data copy) (data im) (w im * h im * c im) σ1
                = Some (tt, <[data copy := buf]> σ1)).
  { unfold memcpy, σ1. rewrite lookup_insert_eq, lookup_insert_ne, Hbuf by exact Hne.
    rewrite length_replicate. fold n.
    destruct (Z.leb_spec 0 (w im * h im * c im)); [|lia].
    destruct (Z.leb_spec (w im * h im * c im) (Z.of_nat n)); [|lia].
    destruct (Z.leb_spec (w im * h im * c im) (Z.of_nat (length buf))); [|lia].
    simpl. rewrite Hn, firstn_all, drop_ge, app_nil_r by (rewrite length_replicate; lia).
    reflexivity. }
  exists copy, (<[data copy := buf]> σ1).
  split; [|repeat split; try assumption].
  - unfold copy_image. rewrite (bind_Some _ _ _ _ _ Hmk).
    now rewrite (bind_Some _ _ _ _ _ Hcp).
  - unfold pixels. apply lookup_insert_eq.
  - unfold pixels, σ1. rewrite !lookup_insert_ne by exact Hne. exact Hbuf.
Qed.

(** C8.  [copy_image(im)] returns an image of the dimensions of [im] over
    a buffer of its own that holds the [w*h*c] samples of [im], so that
    [get_pixel] reads the same from both; [im] is as it was; a later
    [set_pixel] on the copy leaves the samples of [im] as they were, and a
    later [set_pixel] on [im] leaves those of the copy. *)
Theorem copy_image_independent σ im buf :
  image_ok σ im buf ->
  exists copy σ',
    copy_image im σ = Some (copy, σ') /\
    w copy = w im /\ h copy = h im /\ c copy = c im /\
    data copy <> data im /\
    pixels σ' copy = Some buf /\
    pixels σ' im = Some buf /\
    (forall x y ch,
        result_of (get_pixel copy x y ch) σ' = result_of (get_pixel im x y ch) σ') /\
    (forall x y ch v σ'',
        set_pixel copy x y ch v σ' = Some (tt, σ'') -> pixels σ'' im = Some buf) /\
    (forall x y ch v σ'',
        set_pixel im x y ch v σ' = Some (tt, σ'') -> pixels σ'' copy = Some buf).
Proof.
  intros Hok.
  destruct (copy_image_runs σ im buf Hok)
    as (copy & σ' & Hrun & Ew & Eh & Ec & Hne & Hpc & Hpi).
  exists copy, σ'. repeat split; try assumption.
  - intros x y ch. now apply (get_pixel_same_samples _ _ _ _ buf).
  - intros x y ch v σ'' Hs. unfold pixels.
    rewrite (set_pixel_other_buffer _ _ _ _ _ _ _ Hs) by congruence. exact Hpi.
  - intros x y ch v σ'' Hs. unfold pixels.
    rewrite (set_pixel_other_buffer _ _ _ _ _ _ _ Hs) by congruence. exact Hpc.
Qed.

Lemma copy_image_independent_witness :
  exists copy σ',
    copy_image im22 σ22 = Some (copy, σ') /\
    w copy = w im22 /\ h copy = h im22 /\ c copy = c im22 /\
    data copy <> data im22 /\
    pixels σ' copy = Some buf22 /\
    pixels σ' im22 = Some buf22 /\
    (forall x y ch,
        result_of (get_pixel copy x y ch) σ' = result_of (get_pixel im22 x y ch) σ') /\
    (forall x y ch v σ'',
        set_pixel copy x y ch v σ' = Some (tt, σ'') -> pixels σ'' im22 = Some buf22) /\
    (forall x y ch v σ'',
        set_pixel im22 x y ch v σ' = Some (tt, σ'') -> pixels σ'' copy = Some buf22).
Proof.
  apply (copy_image_independent σ22 im22 buf22).
  repeat split; simpl; try lia; reflexivity.
Defined.

(** ** Loop nests that rewrite an image pixel by pixel *)

Ltac cases_Z :=
  repeat match goal with
         | |- context [?a <? ?b] => destruct (Z.ltb_spec a b)
         | |- context [?a =? ?b] => destruct (Z.eqb_spec a b)
         end;
  simpl; try reflexivity; try lia.

Lemma offset_onto im n :
  0 <= w im -> 0 <= h im -> 0 <= c im ->
  0 <= n < w im * h im * c im ->
  exists x y ch, 0 <= x < w im /\ 0 <= y < h im /\ 0 <= ch < c im /\ offset im x y ch = n.
Proof.
  intros Hw Hh Hc Hn.
  assert (Hw' : 0 < w im) by nia.
  assert (Hh' : 0 < h im) by nia.
  pose proof (Z.div_mod n (w im) ltac:(lia)) as E1.
  pose proof (Z.mod_pos_bound n (w im) Hw') as B1.
  pose proof (Z.div_mod (n / w im) (h im) ltac:(lia)) as E2.
  pose proof (Z.mod_pos_bound (n / w im) (h im) Hh') as B2.
  assert (Hq : 0 <= n / w im) by (apply Z.div_pos; lia).
  assert (Hq' : n / w im < h im * c im)
    by (apply Z.div_lt_upper_bound; [lia|]; nia).
  exists (n mod w im), ((n / w im) mod h im), (n / w im / h im).
  repeat split; try lia.
  - apply Z.div_pos; lia.
  - apply Z.div_lt_upper_bound; lia.
  - unfold offset. nia.
Qed.

Section PixelNest.

(** The image written to, its buffer [buf] before the loops and the rest
    of the store; [tgt x y ch] is what the loops leave at [(x, y, ch)]. *)
Context (σ : heap) (im : image) (buf : list spec_float).
Context (tgt : Z -> Z -> Z -> option spec_float).
Context (body : Z -> Z -> M unit).

Hypothesis Hw : 0 <= w im.
Hypothesis Hh : 0 <= h im.
Hypothesis Hc : 0 <= c im.
Hypothesis Hlen : Z.of_nat (length buf) = w im * h im * c im.

(** The iteration at [(i, j)] rewrites the samples of pixel [(i, j)],
    which no earlier iteration has touched, and no other sample. *)
Hypothesis Hbody : forall i j b,
  0 <= i < w im -> 0 <= j < h im ->
  length b = length buf ->
  (forall ch, 0 <= ch < c im ->
              b !! Z.to_nat (offset im i j ch) = buf !! Z.to_nat (offset im i j ch)) ->
  exists b',
    body i j (<[data im := b]> σ) = Some (tt, <[data im := b']> σ) /\
    length b' = length b /\
    (forall ch, 0 <= ch < c im -> b' !! Z.to_nat (offset im i j ch) = tgt i j ch) /\
    (forall x y ch, 0 <= x < w im -> 0 <= y < h im -> 0 <= ch < c im ->
                    (x, y) <> (i, j) ->
                    b' !! Z.to_nat (offset im x y ch) = b !! Z.to_nat (offset im x y ch)).

Local Abbreviation inv := (nest_inv σ im buf tgt).

Lemma nest_inv_next_column i s :
  inv i (h im) s -> inv (i + 1) 0 s.
Proof.
  intros (b & -> & Hl & Hb). exists b. repeat split; [exact Hl|].
  intros x y ch Hx Hy Hch. rewrite (Hb x y ch Hx Hy Hch).
  replace (visited (i + 1) 0 x y) with (visited i (h im) x y); [reflexivity|].
  unfold visited. cases_Z.
Qed.

Lemma pixel_nest :
  exists b,
    for_upto (w im) (fun i => for_upto (h im) (fun j => body i j)) (<[data im := buf]> σ)
      = Some (tt, <[data im := b]> σ) /\
    length b = length buf /\
    forall x y ch, 0 <= x < w im -> 0 <= y < h im -> 0 <= ch < c im ->
      b !! Z.to_nat (offset im x y ch) = tgt x y ch.
Proof.
  destruct (for_upto_inv (fun i => inv i 0)
              (fun i => for_upto (h im) (fun j => body i j)) (w im)
              (<[data im := buf]> σ) Hw) as (σ' & Hrun & (b & -> & Hl & Hb)).
  - exists buf. repeat split. intros x y ch Hx Hy Hch.
    replace (visited 0 0 x y) with false; [reflexivity|]. unfold visited. cases_Z.
  - intros i s Hi Hinv.
    destruct (for_upto_inv (fun j => inv i j) (fun j => body i j) (h im) s Hh Hinv)
      as (s' & Hrun & Hinv').
    + intros j s1 Hj (b & -> & Hl & Hb).
      destruct (Hbody i j b Hi Hj Hl) as (b' & Hrun & Hl' & Hnew & Hold).
      { intros ch Hch. rewrite (Hb i j ch Hi Hj Hch).
        replace (visited i j i j) with false; [reflexivity|]. unfold visited. cases_Z. }
      exists (<[data im := b']> σ). split; [exact Hrun|].
      exists b'. repeat split; [congruence|].
      intros x y ch Hx Hy Hch.
      destruct (decide ((x, y) = (i, j))) as [[= -> ->]|Hne].
      * rewrite (Hnew ch Hch).
        replace (visited i (j + 1) i j) with true; [reflexivity|]. unfold visited. cases_Z.
      * rewrite (Hold x y ch Hx Hy Hch Hne), (Hb x y ch Hx Hy Hch).
        replace (visited i (j + 1) x y) with (visited i j x y); [reflexivity|].
        unfold visited. cases_Z. exfalso. apply Hne. f_equal; lia.
    + exists s'. split; [exact Hrun|]. now apply nest_inv_next_column.
  - exists b. repeat split; [exact Hrun|exact Hl|].
    intros x y ch Hx Hy Hch. rewrite (Hb x y ch Hx Hy Hch).
    replace (visited (w im) 0 x y) with true; [reflexivity|]. unfold visited. cases_Z.
Qed.

End PixelNest.

(** A buffer is known once its sample at every coordinate is. *)
Lemma samples_ext im (f : spec_float -> spec_float) (buf b : list spec_float) :
  0 <= w im -> 0 <= h im -> 0 <= c im ->
  Z.of_nat (length buf) = w im * h im * c im ->
  length b = length buf ->
  (forall x y ch, 0 <= x < w im -> 0 <= y < h im -> 0 <= ch < c im ->
     b !! Z.to_nat (offset im x y ch) = f <$> buf !! Z.to_nat (offset im x y ch)) ->
  b = f <$> buf.
Proof.
  intros Hw Hh Hc Hlen Hl Hb. apply list_eq. intros n.
  rewrite list_lookup_fmap.
  destruct (Nat.lt_ge_cases n (length buf)) as [Hn|Hn].
  - destruct (offset_onto im (Z.of_nat n) Hw Hh Hc ltac:(lia))
      as (x & y & ch & Hx & Hy & Hch & E).
    specialize (Hb x y ch Hx Hy Hch). rewrite E, Nat2Z.id in Hb. exact Hb.
  - rewrite (lookup_ge_None_2 b), (lookup_ge_None_2 buf) by lia. reflexivity.
Qed.

(** ** [clamp_image] *)

Lemma clamp_sample_idempotent p : clamp_sample (clamp_sample p) = clamp_sample p.
Proof.
  unfold clamp_sample at 2 3.
  destruct (Flt.gt p (Flt.float_of_int 1)) eqn:Hgt; [reflexivity|].
  destruct (Flt.lt p (Flt.float_of_int 0)) eqn:Hlt; [reflexivity|].
  unfold clamp_sample. now rewrite Hgt, Hlt.
Qed.

(** Swapping the operands of a comparison swaps its outcome. *)
Lemma SFcompare_swap x y : SFcompare y x = option_map CompOpp (SFcompare x y).
Proof.
  destruct x as [sx|sx| |sx mx ex], y as [sy|sy| |sy my ey]; simpl;
    try reflexivity;
    try (destruct sx; reflexivity); try (destruct sy; reflexivity);
    try (destruct sx, sy; reflexivity).
  destruct sx, sy; try reflexivity;
    rewrite (Z.compare_antisym ex ey); destruct (ex ?= ey); simpl; try reflexivity;
    rewrite (Pos.compare_cont_antisym mx my Eq); simpl;
    try rewrite CompOpp_involutive; reflexivity.
Qed.

Lemma not_lt_le x y :
  Flt.is_nan x = false -> Flt.is_nan y = false -> Flt.lt y x = false -> Flt.le x y = true.
Proof.
  unfold Flt.lt, Flt.le, SFltb, SFleb. rewrite (SFcompare_swap x y).
  intros Hx Hy.
  destruct (SFcompare x y) as [[]|] eqn:E; simpl; try reflexivity; try discriminate.
  destruct x, y; simpl in *; discriminate.
Qed.

Lemma clamp_sample_in_unit_range p :
  Flt.is_nan p = false -> in_unit_range (clamp_sample p) = true.
Proof.
  intros Hp. unfold clamp_sample.
  destruct (Flt.gt p (Flt.float_of_int 1)) eqn:Hgt; [reflexivity|].
  destruct (Flt.lt p (Flt.float_of_int 0)) eqn:Hlt; [reflexivity|].
  unfold in_unit_range. apply andb_true_intro. split.
  - now apply not_lt_le.
  - now apply not_lt_le.
Qed.

Section ClampImage.

Context (σ : heap) (im : image) (buf : list spec_float).
Hypothesis Hok : image_ok σ im buf.

(** The body of the innermost loop writes the clamped sample in place of
    the sample. *)
Lemma clamp_step i j ch b p :
  0 <= i < w im -> 0 <= j < h im -> 0 <= ch < c im ->
  length b = length buf ->
  b !! Z.to_nat (offset im i j ch) = Some p ->
  (p <- get_pixel im i j ch ;;
   (if Flt.gt p (Flt.float_of_int 1)
    then set_pixel im i j ch (Flt.float_of_int 1) else ret tt) ;;;
   q <- get_pixel im i j ch ;;
   (if Flt.lt q (Flt.float_of_int 0)
    then set_pixel im i j ch (Flt.float_of_int 0) else ret tt))
    (<[data im := b]> σ)
  = Some (tt, <[data im := <[Z.to_nat (offset im i j ch) := clamp_sample p]> b]> σ).
Proof.
  intros Hi Hj Hch Hl Hp.
  pose proof Hok as (Hw & Hh & Hc & Hbuf & Hlen).
  pose proof (offset_inside im Hw Hh Hc i j ch Hi Hj Hch) as Hoff.
  set (k := Z.to_nat (offset im i j ch)) in *.
  assert (Hokb : forall b0, length b0 = length buf ->
                            image_ok (<[data im := b0]> σ) im b0)
    by (intros b0 Hb0; now apply (image_ok_insert σ im buf)).
  assert (Hget : forall b0 v, length b0 = length buf -> b0 !! k = Some v ->
            get_pixel im i j ch (<[data im := b0]> σ) = Some (v, <[data im := b0]> σ)).
  { intros b0 v Hb0 Hv.
    destruct (get_pixel_inside _ _ _ (Hokb b0 Hb0) i j ch Hi Hj Hch) as (v' & Hv' & Hg).
    fold k in Hv'. congruence. }
  assert (Hset : forall b0 v, length b0 = length buf ->
            set_pixel im i j ch v (<[data im := b0]> σ)
            = Some (tt, <[data im := <[k := v]> b0]> σ)).
  { intros b0 v Hb0.
    rewrite (set_pixel_inside _ _ _ (Hokb b0 Hb0) i j ch v Hi Hj Hch).
    fold k. now rewrite insert_insert_eq. }
  rewrite (bind_Some _ _ _ _ _ (Hget b p Hl Hp)).
  unfold clamp_sample.
  destruct (Flt.gt p (Flt.float_of_int 1)) eqn:Hgt.
  - rewrite (bind_Some _ _ _ _ _ (Hset b _ Hl)).
    assert (Hl1 : length (<[k := Flt.float_of_int 1]> b) = length buf)
      by now rewrite length_insert.
    rewrite (bind_Some _ _ _ _ _ (Hget _ (Flt.float_of_int 1) Hl1
               ltac:(apply list_lookup_insert_eq; lia))).
    reflexivity.
  - unfold ret at 1. rewrite (bind_Some _ (fun _ => _) _ tt _ eq_refl).
    rewrite (bind_Some _ _ _ _ _ (Hget b p Hl Hp)).
    destruct (Flt.lt p (Flt.float_of_int 0)) eqn:Hlt.
    + apply Hset, Hl.
    + unfold ret. now rewrite (list_insert_id b k p Hp).
Qed.

(** The loop over the channels of pixel [(i, j)]. *)
Lemma clamp_pixel i j b :
  0 <= i < w im -> 0 <= j < h im ->
  length b = length buf ->
  (forall ch, 0 <= ch < c im ->
              b !! Z.to_nat (offset im i j ch) = buf !! Z.to_nat (offset im i j ch)) ->
  exists b',
    for_upto (c im) (fun ch =>
      p <- get_pixel im i j ch ;;
      (if Flt.gt p (Flt.float_of_int 1)
       then set_pixel im i j ch (Flt.float_of_int 1) else ret tt) ;;;
      q <- get_pixel im i j ch ;;
      (if Flt.lt q (Flt.float_of_int 0)
       then set_pixel im i j ch (Flt.float_of_int 0) else ret tt))
      (<[data im := b]> σ) = Some (tt, <[data im := b']> σ) /\
    length b' = length b /\
    (forall ch, 0 <= ch < c im ->
       b' !! Z.to_nat (offset im i j ch)
       = clamp_sample <$> buf !! Z.to_nat (offset im i j ch)) /\
    (forall x y ch, 0 <= x < w im -> 0 <= y < h im -> 0 <= ch < c im ->
       (x, y) <> (i, j) ->
       b' !! Z.to_nat (offset im x y ch) = b !! Z.to_nat (offset im x y ch)).
Proof.
  intros Hi Hj Hl Hfresh.
  pose proof Hok as (Hw & Hh & Hc & Hbuf & Hlen).
  set (body := fun ch : Z => _).
  destruct (for_upto_inv
              (fun k s => exists b', s = <[data im := b']> σ /\ length b' = length b /\
                 (forall ch, 0 <= ch < c im ->
                    b' !! Z.to_nat (offset im i j ch)
                    = if ch <? k then clamp_sample <$> buf !! Z.to_nat (offset im i j ch)
                      else buf !! Z.to_nat (offset im i j ch)) /\
                 (forall x y ch, 0 <= x < w im -> 0 <= y < h im -> 0 <= ch < c im ->
                    (x, y) <> (i, j) ->
                    b' !! Z.to_nat (offset im x y ch) = b !! Z.to_nat (offset im x y ch)))
              body (c im) (<[data im := b]> σ) Hc)
    as (σ' & Hrun & (b' & -> & Hl' & Hnew & Hold)).
  - exists b. repeat split. intros ch Hch.
    destruct (Z.ltb_spec ch 0); [lia|]. now apply Hfresh.
  - intros k s Hk (b1 & -> & Hl1 & Hnew1 & Hold1).
    pose proof (offset_inside im Hw Hh Hc i j k Hi Hj Hk) as Hoff.
    destruct (lookup_lt_is_Some_2 buf (Z.to_nat (offset im i j k))) as [p Hp]; [lia|].
    assert (Hp1 : b1 !! Z.to_nat (offset im i j k) = Some p).
    { rewrite (Hnew1 k Hk). destruct (Z.ltb_spec k k); [lia|]. exact Hp. }
    eexists. split; [apply (clamp_step i j k b1 p Hi Hj Hk ltac:(congruence) Hp1)|].
    eexists. split; [reflexivity|]. split; [now rewrite length_insert|]. split.
    + intros ch Hch.
      destruct (Z.eq_dec ch k) as [->|Hne].
      * rewrite list_lookup_insert_eq by lia.
        destruct (Z.ltb_spec k (k + 1)); [|lia]. now rewrite Hp.
      * rewrite list_lookup_insert_ne.
        -- rewrite (Hnew1 ch Hch). cases_Z.
        -- intros E. apply Hne.
           pose proof (offset_inside im Hw Hh Hc i j ch Hi Hj Hch) as Hoff'.
           assert (E' : offset im i j k = offset im i j ch) by lia.
           destruct (offset_inj im Hw Hh Hc i j k i j ch Hi Hj Hk Hi Hj Hch E')
             as (_ & _ & ->). reflexivity.
    + intros x y ch Hx Hy Hch Hne.
      rewrite list_lookup_insert_ne; [now apply Hold1|].
      intros E. apply Hne.
      pose proof (offset_inside im Hw Hh Hc x y ch Hx Hy Hch) as Hoff'.
      assert (E' : offset im i j k = offset im x y ch) by lia.
      destruct (offset_inj im Hw Hh Hc i j k x y ch Hi Hj Hk Hx Hy Hch E')
        as (-> & -> & _). reflexivity.
  - exists b'. repeat split; [exact Hrun|exact Hl'| |exact Hold].
    intros ch Hch. rewrite (Hnew ch Hch). destruct (Z.ltb_spec ch (c im)); [reflexivity|lia].
Qed.

(** [clamp_image] returns, and leaves the clamped samples in the buffer
    of the image. *)
Lemma clamp_image_maps :
  clamp_image im σ = Some (tt, <[data im := clamp_sample <$> buf]> σ).
Proof.
  pose proof Hok as (Hw & Hh & Hc & Hbuf & Hlen).
  destruct (pixel_nest σ im buf
              (fun x y ch => clamp_sample <$> buf !! Z.to_nat (offset im x y ch))
              (fun i j => for_upto (c im) (fun ch =>
                 p <- get_pixel im i j ch ;;
                 (if Flt.gt p (Flt.float_of_int 1)
                  then set_pixel im i j ch (Flt.float_of_int 1) else ret tt) ;;;
                 q <- get_pixel im i j ch ;;
                 (if Flt.lt q (Flt.float_of_int 0)
                  then set_pixel im i j ch (Flt.float_of_int 0) else ret tt)))
              Hw Hh) as (b & Hrun & Hl & Hb).
  - intros i j b Hi Hj Hl Hfresh. now apply clamp_pixel.
  - rewrite (insert_id σ (data im) buf Hbuf) in Hrun.
    unfold clamp_image. rewrite Hrun. do 3 f_equal.
    now apply (samples_ext im).
Qed.

End ClampImage.

(** C7, as the code has it.  [clamp_image] returns and leaves in the
    buffer the clamped samples; applied again it changes nothing, so it is
    idempotent; and after one application every sample that is not a NaN
    lies in [0, 1].  (A NaN compares false with 1 and with 0, and stays.) *)
Theorem clamp_image_idempotent_unit_range σ im buf :
  image_ok σ im buf ->
  exists σ',
    clamp_image im σ = Some (tt, σ') /\
    clamp_image im σ' = Some (tt, σ') /\
    pixels σ' im = Some (clamp_sample <$> buf) /\
    (forall p, p ∈ clamp_sample <$> buf ->
               Flt.is_nan p = false -> in_unit_range p = true).
Proof.
  intros Hok. exists (<[data im := clamp_sample <$> buf]> σ).
  assert (Hok' : image_ok (<[data im := clamp_sample <$> buf]> σ) im (clamp_sample <$> buf))
    by (apply (image_ok_insert σ im buf); [exact Hok|apply length_fmap]).
  split; [|split; [|split]].
  - now apply clamp_image_maps.
  - rewrite (clamp_image_maps _ _ _ Hok'). rewrite insert_insert_eq.
    do 3 f_equal. rewrite <- list_fmap_compose.
    apply list_fmap_ext. intros _ p _. apply clamp_sample_idempotent.
  - unfold pixels. apply lookup_insert_eq.
  - intros p Hp Hnan. apply list_elem_of_fmap in Hp as (q & -> & _).
    rewrite <- (clamp_sample_idempotent q).
    now apply clamp_sample_in_unit_range.
Qed.

Lemma clamp_image_idempotent_unit_range_witness :
  exists σ',
    clamp_image im22 σ22 = Some (tt, σ') /\
    clamp_image im22 σ' = Some (tt, σ') /\
    pixels σ' im22 = Some (clamp_sample <$> buf22) /\
    (forall p, p ∈ clamp_sample <$> buf22 ->
               Flt.is_nan p = false -> in_unit_range p = true).
Proof.
  apply (clamp_image_idempotent_unit_range σ22 im22 buf22).
  repeat split; simpl; try lia; reflexivity.
Defined.

(** C7, as stated, fails on a NaN: [clamp_image] leaves the NaN sample of
    the 1x1 image in place, and a NaN is not within [0, 1]. *)
Lemma clamp_image_keeps_nan :
  pixels_after (clamp_image im11) σ_nan im11 = Some [S754_nan] /\
  in_unit_range S754_nan = false.
Proof. split; reflexivity. Qed.

(** ** Bilinear interpolation at integer coordinates *)

(** C1.  At an integer coordinate [floorf] and [ceilf] agree, both weights
    [x - left] and [right - x] are zero, and [bilinear_interpolate] returns
    0 and not the sample: at each of the four pixels of the 2x2 image it
    returns 0, where the samples are 1/4, 1/2, 3/4 and 1. *)
Theorem bilinear_interpolate_at_integer_point :
  result_of (bilinear_interpolate im22 (Flt.float_of_int 0) (Flt.float_of_int 0) 0) σ22
    = Some Flt.zero /\
  result_of (bilinear_interpolate im22 (Flt.float_of_int 1) (Flt.float_of_int 0) 0) σ22
    = Some Flt.zero /\
  result_of (bilinear_interpolate im22 (Flt.float_of_int 0) (Flt.float_of_int 1) 0) σ22
    = Some Flt.zero /\
  result_of (bilinear_interpolate im22 (Flt.float_of_int 1) (Flt.float_of_int 1) 0) σ22
    = Some Flt.zero /\
  result_of (get_pixel im22 1 1 0) σ22 = Some (Flt.float_lit 1 1).
Proof. repeat split; reflexivity. Qed.

(** C2.  Resized to its own dimensions, the 2x2 image is reproduced by
    [nn_resize], and [bilinear_resize] returns an image of zeros: every
    source coordinate is an integer, where [bilinear_interpolate] is 0. *)
Theorem bilinear_resize_same_size_is_zero :
  pixels_of_result (nn_resize im22 (w im22) (h im22)) σ22 = Some buf22 /\
  pixels_of_result (bilinear_resize im22 (w im22) (h im22)) σ22
    = Some [Flt.zero; Flt.zero; Flt.zero; Flt.zero].
Proof. split; reflexivity. Qed.

(** ** IEEE rounding, on integers *)

Lemma digits2_pos_bounds m :
  2 ^ (Z.pos (digits2_pos m) - 1) <= Z.pos m < 2 ^ Z.pos (digits2_pos m).
Proof.
  induction m as [m IH|m IH|]; cbn [digits2_pos].
  - rewrite Pos2Z.inj_succ.
    replace (Z.succ (Z.pos (digits2_pos m)) - 1) with (Z.succ (Z.pos (digits2_pos m) - 1)) by lia.
    rewrite !Z.pow_succ_r by lia. lia.
  - rewrite Pos2Z.inj_succ.
    replace (Z.succ (Z.pos (digits2_pos m)) - 1) with (Z.succ (Z.pos (digits2_pos m) - 1)) by lia.
    rewrite !Z.pow_succ_r by lia. lia.
  - simpl. lia.
Qed.

Lemma digits2_pos_unique m d :
  2 ^ (d - 1) <= Z.pos m < 2 ^ d -> Z.pos (digits2_pos m) = d.
Proof.
  intros [Hlo Hhi]. pose proof (digits2_pos_bounds m) as [Dlo Dhi].
  destruct (Z.lt_trichotomy (Z.pos (digits2_pos m)) d) as [L|[L|L]]; [|exact L|].
  - exfalso. assert (2 ^ Z.pos (digits2_pos m) <= 2 ^ (d - 1))
      by (apply Z.pow_le_mono_r; lia). lia.
  - exfalso. assert (0 <= d \/ d < 0) as [Hd|Hd] by lia.
    + assert (2 ^ d <= 2 ^ (Z.pos (digits2_pos m) - 1))
        by (apply Z.pow_le_mono_r; lia). lia.
    + rewrite (Z.pow_neg_r 2 d Hd) in Hhi. lia.
Qed.

(** *** Shifting the mantissa right *)

Lemma shifted_0 M : shifted M 0 (Build_shr_record M false false).
Proof. unfold shifted. simpl. rewrite Z.div_1_r. repeat split. Qed.

Lemma shr_1_m mrs : 0 <= shr_m mrs -> shr_m (shr_1 mrs) = shr_m mrs / 2.
Proof.
  destruct mrs as [m r s]. simpl. intros Hm.
  destruct m as [|[p|p|]|p]; simpl; try reflexivity; try lia.
  - apply (Z.div_unique _ _ _ 1); lia.
  - apply (Z.div_unique _ _ _ 0); lia.
Qed.

Lemma shr_1_r mrs : 0 <= shr_m mrs -> shr_r (shr_1 mrs) = Z.odd (shr_m mrs).
Proof.
  destruct mrs as [m r s]. simpl. intros Hm.
  destruct m as [|[p|p|]|p]; simpl; try reflexivity; lia.
Qed.

Lemma shr_1_s mrs : shr_s (shr_1 mrs) = shr_r mrs || shr_s mrs.
Proof. destruct mrs as [m r s]. simpl. destruct m as [|[p|p|]|[p|p|]]; reflexivity. Qed.

Lemma shifted_step M n mrs :
  0 <= M -> 0 <= n -> shifted M n mrs -> shifted M (n + 1) (shr_1 mrs).
Proof.
  intros HM Hn (Hm & Hr & Hs).
  assert (Hq : 0 <= M / 2 ^ n) by (apply Z.div_pos; [lia|apply Z.pow_pos_nonneg; lia]).
  unfold shifted. replace (n + 1 - 1) with n by lia.
  destruct (Z.eqb_spec (n + 1) 0) as [|_]; [lia|].
  rewrite shr_1_m, shr_1_r, shr_1_s, Hm, Hr, Hs by (rewrite Hm; exact Hq).
  split; [|split; [reflexivity|]].
  - rewrite Z.pow_add_r, Z.pow_1_r by lia. rewrite Z.div_div; [reflexivity| |lia].
    apply Z.pow_nonzero; lia. 
  - destruct (Z.eqb_spec n 0) as [->|Hn0].
    + simpl. rewrite Z.mod_1_r. reflexivity.
    + assert (E : 2 ^ n = 2 ^ (n - 1) * 2)
        by (replace n with (Z.succ (n - 1)) at 1 by lia; rewrite Z.pow_succ_r by lia; lia).
      assert (Hp : 0 < 2 ^ (n - 1)) by (apply Z.pow_pos_nonneg; lia).
      rewrite E, Z.rem_mul_r by lia.
      pose proof (Z.mod_pos_bound M (2 ^ (n - 1)) Hp) as Hb.
      rewrite (Zmod_odd (M / 2 ^ (n - 1))).
      destruct (Z.odd (M / 2 ^ (n - 1))); simpl orb.
      * destruct (Z.eqb_spec (M mod 2 ^ (n - 1) + 2 ^ (n - 1) * 1) 0); [lia|reflexivity].
      * now rewrite Z.mul_0_r, Z.add_0_r.
Qed.

Lemma iter_pos_shifted M (n : positive) :
  0 <= M ->
  forall k mrs, 0 <= k -> shifted M k mrs -> shifted M (k + Z.pos n) (SpecFloat.iter_pos shr_1 n mrs).
Proof.
  intros HM. induction n as [n IH|n IH|]; intros k mrs Hk Hs; cbn [SpecFloat.iter_pos].
  - replace (k + Z.pos n~1) with (k + 1 + Z.pos n + Z.pos n) by lia.
    apply IH; [lia|]. apply IH; [lia|]. now apply shifted_step.
  - replace (k + Z.pos n~0) with (k + Z.pos n + Z.pos n) by lia.
    apply IH; [lia|]. now apply IH.
  - now apply shifted_step.
Qed.

Lemma pow2_pos n : 0 <= n -> 0 < 2 ^ n.
Proof. intros. apply Z.pow_pos_nonneg; lia. Qed.

Lemma pow2_split a b : 0 <= a -> 0 <= b -> 2 ^ (a + b) = 2 ^ a * 2 ^ b.
Proof. intros. apply Z.pow_add_r; lia. Qed.

Lemma pow2_le a b : 0 <= a <= b -> 2 ^ a <= 2 ^ b.
Proof. intros. apply Z.pow_le_mono_r; lia. Qed.

Lemma pow2_lt a b : 0 <= a < b -> 2 ^ a < 2 ^ b.
Proof. intros. apply Z.pow_lt_mono_r; lia. Qed.

(** Rounding the shifted mantissa on its two last bits is [rne]. *)
Lemma round_shifted M n mrs :
  0 <= M -> 0 < n -> shifted M n mrs ->
  round_nearest_even (shr_m mrs) (loc_of_shr_record mrs) = rne M n.
Proof.
  intros HM Hn (Hm & Hr & Hs). destruct mrs as [m r s]. simpl in *.
  destruct (Z.eqb_spec n 0) as [|_]; [lia|].
  unfold rne. destruct (Z.leb_spec n 0) as [|_]; [lia|].
  assert (E : 2 ^ n = 2 ^ (n - 1) * 2)
    by (replace n with (Z.succ (n - 1)) at 1 by lia; rewrite Z.pow_succ_r by lia; lia).
  pose proof (pow2_pos (n - 1) ltac:(lia)) as Hp.
  pose proof (Z.mod_pos_bound M (2 ^ (n - 1)) Hp) as Hb.
  assert (Hmod : M mod 2 ^ n
                 = M mod 2 ^ (n - 1) + 2 ^ (n - 1) * (if r then 1 else 0)).
  { rewrite E at 1. rewrite Z.rem_mul_r by lia.
    rewrite (Zmod_odd (M / 2 ^ (n - 1))), <- Hr. reflexivity. }
  rewrite Hmod, <- Hm. subst s.
  destruct r; destruct (Z.eqb_spec (M mod 2 ^ (n - 1)) 0) as [E0|E0]; simpl.
  - replace (2 * (M mod 2 ^ (n - 1) + 2 ^ (n - 1) * 1) ?= 2 ^ n) with Eq;
      [reflexivity|]. symmetry. apply Z.compare_eq_iff. lia.
  - replace (2 * (M mod 2 ^ (n - 1) + 2 ^ (n - 1) * 1) ?= 2 ^ n) with Gt;
      [reflexivity|]. symmetry. apply Z.compare_gt_iff. lia.
  - replace (2 * (M mod 2 ^ (n - 1) + 2 ^ (n - 1) * 0) ?= 2 ^ n) with Lt;
      [reflexivity|]. symmetry. apply Z.compare_lt_iff. lia.
  - replace (2 * (M mod 2 ^ (n - 1) + 2 ^ (n - 1) * 0) ?= 2 ^ n) with Lt;
      [reflexivity|]. symmetry. apply Z.compare_lt_iff. lia.
Qed.

(** [rne M n] is within one half of [M / 2^n]. *)
Lemma rne_bounds M n :
  0 <= n ->
  2 * (rne M n * 2 ^ n) <= 2 * M + 2 ^ n /\ 2 * M <= 2 * (rne M n * 2 ^ n) + 2 ^ n.
Proof.
  intros Hn. unfold rne. destruct (Z.leb_spec n 0) as [H0|H0].
  - replace n with 0 by lia. simpl. lia.
  - pose proof (pow2_pos n Hn) as Hp.
    pose proof (Z.div_mod M (2 ^ n) ltac:(lia)) as E.
    pose proof (Z.mod_pos_bound M (2 ^ n) Hp) as Hb.
    destruct (Z.compare_spec (2 * (M mod 2 ^ n)) (2 ^ n)) as [C|C|C].
    + destruct (Z.even (M / 2 ^ n)); nia.
    + nia.
    + nia.
Qed.

Lemma rne_quotient M n :
  0 <= n -> M / 2 ^ n <= rne M n <= M / 2 ^ n + 1.
Proof.
  intros Hn. unfold rne. destruct (Z.leb_spec n 0) as [H0|H0].
  - replace n with 0 by lia. rewrite Z.pow_0_r, Z.div_1_r. lia.
  - destruct (2 * (M mod 2 ^ n) ?= 2 ^ n); [destruct (Z.even _)| |]; lia.
Qed.

Section Rounding.

Context (prec emax : Z).
Hypothesis Hprec : 0 < prec.

Local Abbreviation fexp' := (fexp prec emax).
Local Abbreviation emin' := (emin prec emax).

Lemma fexp_ge_emin a : emin' <= fexp' a.
Proof. unfold fexp. lia. Qed.

Lemma fexp_ge a : a - prec <= fexp' a.
Proof. unfold fexp. lia. Qed.

Lemma fexp_mono a b : a <= b -> fexp' a <= fexp' b.
Proof. unfold fexp. lia. Qed.

(** The rounded mantissa has at most one digit more than the format. *)
Lemma rne_le_pow M E :
  E <= fexp' (Z.pos (digits2_pos M) + E) ->
  rne (Z.pos M) (fexp' (Z.pos (digits2_pos M) + E) - E) <= 2 ^ prec.
Proof.
  intros Ha. set (d := Z.pos (digits2_pos M)) in *. set (n := fexp' (d + E) - E) in *.
  pose proof (digits2_pos_bounds M) as [_ Hd]. fold d in Hd.
  pose proof (fexp_ge (d + E)) as Hge.
  assert (Hn : 0 <= n) by (unfold n; lia).
  pose proof (rne_quotient (Z.pos M) n Hn) as [_ Hq].
  assert (Z.pos M / 2 ^ n < 2 ^ prec); [|lia].
  apply Z.div_lt_upper_bound; [now apply pow2_pos|].
  rewrite <- pow2_split by lia.
  assert (Hd0 : 0 < d) by (unfold d; lia).
  assert (2 ^ d <= 2 ^ (n + prec)) by (apply pow2_le; unfold n; lia). lia.
Qed.

(** [binary_round_aux] on an exact mantissa that needs no shift to the
    left is [round_pos]. *)
Lemma binary_round_aux_round_pos s M E :
  E <= fexp' (Z.pos (digits2_pos M) + E) ->
  binary_round_aux prec emax s (Z.pos M) E loc_Exact = round_pos prec emax s M E.
Proof.
  intros Ha. pose proof (rne_le_pow M E Ha) as Hle.
  unfold binary_round_aux, round_pos.
  set (d := Z.pos (digits2_pos M)) in *. set (e' := fexp' (d + E)) in *.
  pose proof (fexp_ge_emin (d + E)) as Hemin. fold e' in Hemin.
  (* first shift *)
  assert (H1 : exists mrs, shr_fexp prec emax (Z.pos M) E loc_Exact = (mrs, e') /\
             round_nearest_even (shr_m mrs) (loc_of_shr_record mrs) = rne (Z.pos M) (e' - E)).
  { unfold shr_fexp, shr. change (Zdigits2 (Z.pos M)) with d. fold e'.
    destruct (e' - E) as [|n|n] eqn:En; [| |lia].
    - eexists. split; [f_equal; lia|]. reflexivity.
    - eexists. split; [f_equal; lia|].
      apply round_shifted; [lia|lia|].
      apply (iter_pos_shifted (Z.pos M) n ltac:(lia) 0); [lia|apply shifted_0]. }
  destruct H1 as (mrs & -> & ->).
  pose proof (rne_quotient (Z.pos M) (e' - E) ltac:(lia)) as [Hq0 _].
  assert (0 <= Z.pos M / 2 ^ (e' - E)) by (apply Z.div_pos; [lia|apply pow2_pos; lia]).
  destruct (rne (Z.pos M) (e' - E)) as [|q|q]; [| |lia].
  - (* rounded to zero *)
    simpl. unfold shr_fexp, shr. simpl Zdigits2.
    destruct (fexp' (0 + e') - e') eqn:En; try reflexivity.
    exfalso. unfold fexp in En. lia.
  - (* second shift *)
    unfold shr_fexp.
    pose proof (digits2_pos_bounds q) as [Dlo Dhi].
    change (Zdigits2 (Z.pos q)) with (Z.pos (digits2_pos q)).
    set (dq := Z.pos (digits2_pos q)) in *.
    assert (Hdq0 : 0 < dq) by (unfold dq; lia).
    destruct (Z.eqb_spec (Z.pos q) 0) as [|_]; [lia|].
    destruct (Z.ltb_spec (Z.pos q) (2 ^ prec)) as [Hlt|Hge].
    + assert (Hdq : dq <= prec).
      { destruct (Z.le_gt_cases dq prec) as [|Hgt]; [assumption|exfalso].
        assert (2 ^ prec <= 2 ^ (dq - 1)) by (apply pow2_le; lia). lia. }
      unfold shr. rewrite Pos2Z.id.
      destruct (fexp' (dq + e') - e') eqn:En; try reflexivity.
      exfalso. unfold fexp in En. unfold fexp in Hemin. lia.
    + assert (Eq2 : Z.pos q = 2 ^ prec) by lia.
      assert (Hdq : dq = prec + 1).
      { apply digits2_pos_unique. replace (prec + 1 - 1) with prec by lia.
        rewrite Eq2. split; [lia|]. apply pow2_lt; lia. }
      assert (En : fexp' (dq + e') - e' = 1).
      { rewrite Hdq. unfold fexp. unfold fexp in Hemin. lia. }
      rewrite En. unfold shr. cbn [SpecFloat.iter_pos shr_record_of_loc].
      rewrite shr_1_m by (simpl; lia). cbn [shr_m].
      rewrite Eq2.
      replace (2 ^ prec / 2) with (2 ^ (prec - 1)).
      2:{ replace prec with (Z.succ (prec - 1)) at 2 by lia.
          rewrite Z.pow_succ_r by lia. rewrite Z.mul_comm, Z.div_mul by lia. reflexivity. }
      pose proof (pow2_pos (prec - 1) ltac:(lia)) as Hpp.
      destruct (2 ^ (prec - 1)) as [|pp|pp] eqn:Epp; [lia| |lia].
      rewrite Pos2Z.id. reflexivity.
Qed.

(** *** Aligning the mantissa to the left *)

Lemma iter_xO_value m d : Z.pos (Pos.iter xO m d) = Z.pos m * 2 ^ Z.pos d.
Proof.
  induction d as [|d IH] using Pos.peano_ind.
  - simpl. lia.
  - rewrite Pos.iter_succ, Pos2Z.inj_succ, Z.pow_succ_r by lia.
    rewrite Pos2Z.inj_xO, IH. lia.
Qed.

Lemma digits2_pos_shift m k :
  0 <= k -> forall m', Z.pos m' = Z.pos m * 2 ^ k ->
  Z.pos (digits2_pos m') = Z.pos (digits2_pos m) + k.
Proof.
  intros Hk m' E. apply digits2_pos_unique. rewrite E.
  pose proof (digits2_pos_bounds m) as [Dlo Dhi].
  pose proof (pow2_pos k Hk) as Hp.
  replace (Z.pos (digits2_pos m) + k - 1) with (Z.pos (digits2_pos m) - 1 + k) by lia.
  rewrite !pow2_split by lia. nia.
Qed.

(** [shl_align] keeps the value, and leaves a mantissa that needs no more
    shift to the left. *)
Lemma shl_align_spec M E :
  exists M' E',
    shl_align M E (fexp' (Z.pos (digits2_pos M) + E)) = (M', E') /\
    E' <= E /\
    Z.pos M' = Z.pos M * 2 ^ (E - E') /\
    Z.pos (digits2_pos M') + E' = Z.pos (digits2_pos M) + E /\
    E' <= fexp' (Z.pos (digits2_pos M') + E') /\
    (E' = E \/ E' = fexp' (Z.pos (digits2_pos M) + E)).
Proof.
  unfold shl_align. set (e := fexp' (Z.pos (digits2_pos M) + E)).
  destruct (e - E) as [|n|n] eqn:En.
  - exists M, E. replace (E - E) with 0 by lia. rewrite Z.pow_0_r.
    repeat split; try lia; fold e; lia.
  - exists M, E. replace (E - E) with 0 by lia. rewrite Z.pow_0_r.
    repeat split; try lia; fold e; lia.
  - exists (Pos.iter xO M n), e.
    assert (Hv : Z.pos (Pos.iter xO M n) = Z.pos M * 2 ^ (E - e)).
    { rewrite iter_xO_value. f_equal. f_equal. lia. }
    pose proof (digits2_pos_shift M (E - e) ltac:(lia) _ Hv) as Hd.
    repeat split; try lia.
    rewrite Hd. replace (Z.pos (digits2_pos M) + (E - e) + e)
      with (Z.pos (digits2_pos M) + E) by lia. fold e. lia.
Qed.

Lemma binary_round_round_pos s M E :
  exists M' E',
    binary_round prec emax s M E = round_pos prec emax s M' E' /\
    E' <= E /\
    Z.pos M' = Z.pos M * 2 ^ (E - E') /\
    Z.pos (digits2_pos M') + E' = Z.pos (digits2_pos M) + E /\
    E' <= fexp' (Z.pos (digits2_pos M') + E') /\
    (E' = E \/ E' = fexp' (Z.pos (digits2_pos M') + E')).
Proof.
  destruct (shl_align_spec M E) as (M' & E' & Hsh & Hle & Hv & Hd & Hal & Hcase).
  exists M', E'. unfold binary_round. rewrite Hsh.
  rewrite binary_round_aux_round_pos by exact Hal.
  repeat split; try assumption. rewrite Hd. exact Hcase.
Qed.

(** *** The value of a rounded number *)

(** Values are measured in units of [2^B], for a [B] below every exponent
    at hand, so that they are integers.  A number [M * 2^E] between
    [2^lo] and [2^hi] units, in the range of normal numbers of the format,
    rounds to a finite number within [2^(hi - prec - 1)] units of it. *)
Lemma round_pos_value s M E B lo hi :
  B <= E ->
  E <= fexp' (Z.pos (digits2_pos M) + E) ->
  2 ^ lo <= Z.pos M * 2 ^ (E - B) < 2 ^ hi ->
  prec - 1 <= lo ->
  emin' <= lo + 1 + B - prec ->
  hi + B + 1 <= emax ->
  exists m' e',
    round_pos prec emax s M E = S754_finite s m' e' /\ B <= e' /\
    2 * (Z.pos m' * 2 ^ (e' - B)) <= 2 * (Z.pos M * 2 ^ (E - B)) + 2 ^ (hi - prec) /\
    2 * (Z.pos M * 2 ^ (E - B)) <= 2 * (Z.pos m' * 2 ^ (e' - B)) + 2 ^ (hi - prec).
Proof.
  intros HB Hal [Hlo Hhi] Hplo Hnorm Hover.
  pose proof (rne_le_pow M E Hal) as Hqle.
  unfold round_pos.
  pose proof (digits2_pos_bounds M) as [Dlo Dhi].
  set (d := Z.pos (digits2_pos M)) in *.
  assert (Hd0 : 0 < d) by (unfold d; lia).
  set (P := 2 ^ (E - B)) in *.
  assert (HP : 0 < P) by (apply pow2_pos; lia).
  assert (Hlohi : lo < hi).
  { destruct (Z.lt_ge_cases lo hi) as [|Hge]; [assumption|exfalso].
    destruct (Z.lt_ge_cases hi 0) as [Hneg|Hpos].
    - rewrite (Z.pow_neg_r 2 hi Hneg) in Hhi. nia.
    - assert (2 ^ hi <= 2 ^ lo) by (apply pow2_le; lia). lia. }
  assert (H1 : lo < d + E - B).
  { destruct (Z.lt_ge_cases lo (d + E - B)) as [|Hge]; [assumption|exfalso].
    assert (2 ^ (d + E - B) <= 2 ^ lo) by (apply pow2_le; lia).
    replace (d + E - B) with (d + (E - B)) in * by lia.
    rewrite pow2_split in * by lia. fold P in H. nia. }
  assert (H2 : d + E - B <= hi).
  { destruct (Z.le_gt_cases (d + E - B) hi) as [|Hgt]; [assumption|exfalso].
    assert (2 ^ hi <= 2 ^ (d - 1 + (E - B))) by (apply pow2_le; lia).
    rewrite pow2_split in * by lia. fold P in H. nia. }
  assert (Hfe : fexp' (d + E) = d + E - prec) by (unfold fexp, emin in *; lia).
  rewrite Hfe in *.
  set (n := d + E - prec - E) in *.
  assert (Hn : 0 <= n) by (unfold n; lia).
  pose proof (rne_bounds (Z.pos M) n Hn) as [Hb1 Hb2].
  pose proof (rne_quotient (Z.pos M) n Hn) as [Hq1 _].
  pose proof (pow2_pos n Hn) as HN.
  assert (Hq : 2 ^ (prec - 1) <= rne (Z.pos M) n).
  { assert (2 ^ (prec - 1) <= Z.pos M / 2 ^ n); [|lia].
    apply Z.div_le_lower_bound; [exact HN|].
    rewrite <- pow2_split by lia. replace (n + (prec - 1)) with (d - 1) by (unfold n; lia).
    exact Dlo. }
  pose proof (pow2_pos (prec - 1) ltac:(lia)) as Hpp.
  set (q := rne (Z.pos M) n) in *.
  assert (Hunit : 2 ^ (d + E - prec - B) = 2 ^ n * P).
  { unfold P. rewrite <- pow2_split by lia. f_equal. unfold n. lia. }
  assert (Herr : 2 ^ n * P <= 2 ^ (hi - prec)).
  { rewrite <- Hunit. apply pow2_le. lia. }
  destruct (Z.eqb_spec q 0) as [|_]; [lia|].
  destruct (Z.ltb_spec q (2 ^ prec)) as [Hlt|Hge].
  - destruct (Z.leb_spec (d + E - prec) (emax - prec)) as [_|]; [|lia].
    exists (Z.to_pos q), (d + E - prec). split; [reflexivity|]. split; [lia|].
    rewrite Z2Pos.id by lia. rewrite Hunit. nia.
  - destruct (Z.leb_spec (d + E - prec + 1) (emax - prec)) as [_|]; [|lia].
    exists (Z.to_pos (2 ^ (prec - 1))), (d + E - prec + 1). split; [reflexivity|].
    split; [lia|].
    rewrite Z2Pos.id by lia.
    replace (d + E - prec + 1 - B) with (1 + (d + E - prec - B)) by lia.
    rewrite pow2_split, Hunit by lia.
    assert (Eq : q = 2 ^ prec) by lia.
    assert (E2 : 2 ^ (prec - 1) * (2 ^ 1 * (2 ^ n * P)) = q * 2 ^ n * P).
    { rewrite Eq. replace prec with (prec - 1 + 1) at 2 by lia.
      rewrite pow2_split by lia. ring. }
    rewrite E2. nia.
Qed.

(** The number of digits of [M] places [M * 2^E] between powers of two. *)
Lemma magnitude_bounds M E B lo hi :
  B <= E -> 0 <= lo ->
  2 ^ lo <= Z.pos M * 2 ^ (E - B) < 2 ^ hi ->
  lo < Z.pos (digits2_pos M) + E - B <= hi.
Proof.
  intros HB Hlo0 [Hlo Hhi].
  pose proof (digits2_pos_bounds M) as [Dlo Dhi].
  set (d := Z.pos (digits2_pos M)) in *.
  assert (Hd0 : 0 < d) by (unfold d; lia).
  set (P := 2 ^ (E - B)) in *.
  assert (HP : 0 < P) by (apply pow2_pos; lia).
  assert (Hlohi : lo < hi).
  { destruct (Z.lt_ge_cases lo hi) as [|Hge]; [assumption|exfalso].
    assert (2 ^ hi <= 2 ^ lo); [|lia].
    destruct (Z.lt_ge_cases hi 0) as [Hneg|Hpos].
    - rewrite (Z.pow_neg_r 2 hi Hneg). apply Z.lt_le_incl, pow2_pos. lia.
    - apply pow2_le; lia. }
  split.
  - destruct (Z.lt_ge_cases lo (d + E - B)) as [|Hge]; [assumption|exfalso].
    assert (2 ^ (d + E - B) <= 2 ^ lo) by (apply pow2_le; lia).
    replace (d + E - B) with (d + (E - B)) in * by lia.
    rewrite pow2_split in * by lia. fold P in H. nia.
  - destruct (Z.le_gt_cases (d + E - B) hi) as [|Hgt]; [assumption|exfalso].
    assert (2 ^ hi <= 2 ^ (d - 1 + (E - B))) by (apply pow2_le; lia).
    rewrite pow2_split in * by lia. fold P in H. nia.
Qed.

Lemma binary_round_value s M E B lo hi :
  B <= E ->
  2 ^ lo <= Z.pos M * 2 ^ (E - B) < 2 ^ hi ->
  prec - 1 <= lo ->
  emin' <= lo + 1 + B - prec ->
  hi + B + 1 <= emax ->
  exists m' e',
    binary_round prec emax s M E = S754_finite s m' e' /\ B <= e' /\
    2 * (Z.pos m' * 2 ^ (e' - B)) <= 2 * (Z.pos M * 2 ^ (E - B)) + 2 ^ (hi - prec) /\
    2 * (Z.pos M * 2 ^ (E - B)) <= 2 * (Z.pos m' * 2 ^ (e' - B)) + 2 ^ (hi - prec).
Proof.
  intros HB Hv Hplo Hnorm Hover.
  pose proof (magnitude_bounds M E B lo hi HB ltac:(lia) Hv) as Hmag.
  destruct (binary_round_round_pos s M E) as (M' & E' & -> & Hle & HM' & Hd & Hal & Hcase).
  assert (HB' : B <= E').
  { destruct Hcase as [->|HE']; [exact HB|].
    pose proof (fexp_ge (Z.pos (digits2_pos M') + E')). lia. }
  assert (Hval : Z.pos M' * 2 ^ (E' - B) = Z.pos M * 2 ^ (E - B)).
  { rewrite HM'. replace (E - B) with (E - E' + (E' - B)) by lia.
    rewrite pow2_split by lia. ring. }
  rewrite <- Hval in *.
  now apply round_pos_value with (lo := lo).
Qed.

(** The product of two finite numbers. *)
Lemma SFmul_value s1 m1 e1 s2 m2 e2 B lo hi :
  B <= e1 + e2 ->
  2 ^ lo <= Z.pos m1 * Z.pos m2 * 2 ^ (e1 + e2 - B) < 2 ^ hi ->
  prec - 1 + (e1 + e2 - B) <= lo ->
  emin' <= lo + 1 + B - prec ->
  hi + B + 1 <= emax ->
  exists m' e',
    SFmul prec emax (S754_finite s1 m1 e1) (S754_finite s2 m2 e2)
      = S754_finite (xorb s1 s2) m' e' /\ B <= e' /\
    2 * (Z.pos m' * 2 ^ (e' - B))
      <= 2 * (Z.pos m1 * Z.pos m2 * 2 ^ (e1 + e2 - B)) + 2 ^ (hi - prec) /\
    2 * (Z.pos m1 * Z.pos m2 * 2 ^ (e1 + e2 - B))
      <= 2 * (Z.pos m' * 2 ^ (e' - B)) + 2 ^ (hi - prec).
Proof.
  intros HB Hv Hplo Hnorm Hover. cbn [SFmul].
  rewrite <- Pos2Z.inj_mul in *.
  pose proof (magnitude_bounds (m1 * m2) (e1 + e2) B lo hi HB ltac:(lia) Hv) as Hmag.
  assert (Hal : e1 + e2 <= fexp' (Z.pos (digits2_pos (m1 * m2)) + (e1 + e2))).
  { pose proof (fexp_ge (Z.pos (digits2_pos (m1 * m2)) + (e1 + e2))). lia. }
  rewrite binary_round_aux_round_pos by exact Hal.
  apply round_pos_value with (lo := lo); try assumption. lia.
Qed.

Lemma shl_align_fst m e e' :
  e' <= e -> Z.pos (fst (shl_align m e e')) = Z.pos m * 2 ^ (e - e').
Proof.
  intros He. unfold shl_align.
  destruct (e' - e) as [|n|n] eqn:En; simpl fst.
  - replace (e - e') with 0 by lia. lia.
  - lia.
  - rewrite iter_xO_value. f_equal. f_equal. lia.
Qed.

(** The sum of two finite numbers of one sign. *)
Lemma SFadd_value s m1 e1 m2 e2 B lo hi :
  B <= e1 -> B <= e2 ->
  2 ^ lo <= Z.pos m1 * 2 ^ (e1 - B) + Z.pos m2 * 2 ^ (e2 - B) < 2 ^ hi ->
  prec - 1 <= lo ->
  emin' <= lo + 1 + B - prec ->
  hi + B + 1 <= emax ->
  exists m' e',
    SFadd prec emax (S754_finite s m1 e1) (S754_finite s m2 e2)
      = S754_finite s m' e' /\ B <= e' /\
    2 * (Z.pos m' * 2 ^ (e' - B))
      <= 2 * (Z.pos m1 * 2 ^ (e1 - B) + Z.pos m2 * 2 ^ (e2 - B)) + 2 ^ (hi - prec) /\
    2 * (Z.pos m1 * 2 ^ (e1 - B) + Z.pos m2 * 2 ^ (e2 - B))
      <= 2 * (Z.pos m' * 2 ^ (e' - B)) + 2 ^ (hi - prec).
Proof.
  intros HB1 HB2 Hv Hplo Hnorm Hover. cbn [SFadd].
  set (ez := Z.min e1 e2).
  pose proof (shl_align_fst m1 e1 ez ltac:(unfold ez; lia)) as Ha1.
  pose proof (shl_align_fst m2 e2 ez ltac:(unfold ez; lia)) as Ha2.
  set (a1 := fst (shl_align m1 e1 ez)) in *.
  set (a2 := fst (shl_align m2 e2 ez)) in *.
  assert (Hnorm' : binary_normalize prec emax
                     (cond_Zopp s (Z.pos a1) + cond_Zopp s (Z.pos a2)) ez false
                   = binary_round prec emax s (a1 + a2) ez)
    by (destruct s; reflexivity).
  rewrite Hnorm'.
  assert (Hval : Z.pos (a1 + a2) * 2 ^ (ez - B)
                 = Z.pos m1 * 2 ^ (e1 - B) + Z.pos m2 * 2 ^ (e2 - B)).
  { rewrite Pos2Z.inj_add, Ha1, Ha2.
    replace (e1 - B) with (e1 - ez + (ez - B)) by lia.
    replace (e2 - B) with (e2 - ez + (ez - B)) by lia.
    rewrite !pow2_split by (unfold ez; lia). ring. }
  rewrite <- Hval in *.
  apply binary_round_value with (lo := lo); try assumption. unfold ez. lia.
Qed.

(** *** Rounding next to a number of the format *)

(** A number within a quarter of the last place of a number [m * 2^e] of
    the format rounds to it. *)
Lemma binary_round_representable s M E m e B :
  SpecFloat.bounded prec emax m e = true ->
  B <= E -> B + 2 <= e ->
  4 * (Z.pos M * 2 ^ (E - B)) < 4 * (Z.pos m * 2 ^ (e - B)) + 2 ^ (e - B) ->
  4 * (Z.pos m * 2 ^ (e - B)) < 4 * (Z.pos M * 2 ^ (E - B)) + 2 ^ (e - B) ->
  binary_round prec emax s M E = S754_finite s m e.
Proof.
  intros Hbd HB HBe Hup Hdn.
  apply andb_prop in Hbd as [Hcan Hemax].
  apply Z.eqb_eq in Hcan. apply Z.leb_le in Hemax.
  pose proof (digits2_pos_bounds m) as [Tlo Thi].
  set (dm := Z.pos (digits2_pos m)) in *.
  assert (Hdm0 : 0 < dm) by (unfold dm; lia).
  set (Pe := 2 ^ (e - B)) in *.
  assert (HPe : 0 < Pe) by (apply pow2_pos; lia).
  assert (HPe4 : Pe = 4 * 2 ^ (e - B - 2)).
  { unfold Pe. replace (e - B) with (2 + (e - B - 2)) at 1 by lia.
    rewrite pow2_split by lia. reflexivity. }
  pose proof (pow2_pos (e - B - 2) ltac:(lia)) as HPq.
  (* the magnitude of the number *)
  assert (Hmag : dm + e - 2 < Z.pos (digits2_pos M) + E <= dm + e).
  { assert (H2 : 2 ^ (dm - 1 + (e - B)) = 2 ^ (dm - 1) * Pe) by (apply pow2_split; lia).
    assert (H3 : 2 ^ (dm + e - B) = 2 ^ dm * Pe).
    { replace (dm + e - B) with (dm + (e - B)) by lia. apply pow2_split; lia. }
    assert (H4 : 2 ^ (dm + e - B - 2) * 2 = 2 ^ (dm - 1) * Pe).
    { rewrite <- H2. replace (dm - 1 + (e - B)) with (dm + e - B - 2 + 1) by lia.
      rewrite pow2_split by lia. reflexivity. }
    pose proof (pow2_pos (dm - 1) ltac:(lia)) as Hp1.
    assert (Hv : 2 ^ (dm + e - B - 2) <= Z.pos M * 2 ^ (E - B) < 2 ^ (dm + e - B)).
    { rewrite H3.
      assert (2 ^ (dm - 1) * Pe <= Z.pos m * Pe)
        by (apply Z.mul_le_mono_nonneg_r; lia).
      assert (Z.pos m * Pe <= (2 ^ dm - 1) * Pe)
        by (apply Z.mul_le_mono_nonneg_r; lia).
      assert (1 * Pe <= 2 ^ (dm - 1) * Pe)
        by (apply Z.mul_le_mono_nonneg_r; lia).
      lia. }
    pose proof (magnitude_bounds M E B (dm + e - B - 2) (dm + e - B) HB ltac:(lia) Hv). lia. }
  destruct (binary_round_round_pos s M E) as (M' & E' & -> & Hle & HM' & Hd & Hal & Hcase).
  rewrite <- Hd in Hmag.
  pose proof (rne_le_pow M' E' Hal) as Hqle.
  unfold round_pos.
  set (a := Z.pos (digits2_pos M') + E') in *.
  set (e' := fexp' a) in *.
  assert (He' : e' = e \/ (e' = e - 1 /\ dm = prec)).
  { unfold e'. unfold fexp, emin in *. lia. }
  assert (HB' : B <= E') by (destruct Hcase; lia).
  assert (Hval : Z.pos M' * 2 ^ (E' - B) = Z.pos M * 2 ^ (E - B)).
  { rewrite HM'. replace (E - B) with (E - E' + (E' - B)) by lia.
    rewrite pow2_split by lia. ring. }
  rewrite <- Hval in *.
  set (n := e' - E') in *.
  assert (Hn : 0 <= n) by (unfold n; lia).
  pose proof (rne_bounds (Z.pos M') n Hn) as [Hb1 Hb2].
  set (q := rne (Z.pos M') n) in *.
  set (P' := 2 ^ (E' - B)) in *.
  assert (HP' : 0 < P') by (apply pow2_pos; lia).
  pose proof (pow2_pos n Hn) as HN.
  set (U := 2 ^ n * P').
  assert (HU : 0 < U) by (unfold U; nia).
  assert (HUe : U = 2 ^ (e' - B)).
  { unfold U, P'. rewrite <- pow2_split by lia. f_equal. unfold n. lia. }
  assert (Hq1 : 2 * (q * U) <= 2 * (Z.pos M' * P') + U) by (unfold U; nia).
  assert (Hq2 : 2 * (Z.pos M' * P') <= 2 * (q * U) + U) by (unfold U; nia).
  destruct He' as [He'|[He' Hdm]].
  - (* rounded at the exponent of the number *)
    assert (HPU : Pe = U) by (rewrite HUe, He'; reflexivity).
    assert (Eq : q = Z.pos m).
    { rewrite HPU in *.
      assert (q * U < (Z.pos m + 1) * U) by lia.
      assert ((Z.pos m - 1) * U < q * U) by lia.
      assert (q < Z.pos m + 1) by (apply (Z.mul_lt_mono_pos_r U); assumption).
      assert (Z.pos m - 1 < q) by (apply (Z.mul_lt_mono_pos_r U); assumption).
      lia. }
    rewrite Eq.
    assert (Hm : Z.pos m < 2 ^ prec).
    { assert (dm <= prec) by (unfold fexp in Hcan; lia).
      assert (2 ^ dm <= 2 ^ prec) by (apply pow2_le; lia). lia. }
    destruct (Z.eqb_spec (Z.pos m) 0) as [|_]; [lia|].
    destruct (Z.ltb_spec (Z.pos m) (2 ^ prec)) as [_|]; [|lia].
    destruct (Z.leb_spec e' (emax - prec)) as [_|]; [|lia].
    rewrite Pos2Z.id, He'. reflexivity.
  - (* rounded one exponent below: the number is a power of two *)
    assert (HPU : Pe = 2 * U).
    { rewrite HUe, He'. unfold Pe. replace (e - B) with (1 + (e - 1 - B)) by lia.
      rewrite pow2_split by lia. reflexivity. }
    assert (Eq : q = 2 * Z.pos m).
    { rewrite HPU in *.
      assert (q * U < (2 * Z.pos m + 1) * U) by lia.
      assert ((2 * Z.pos m - 1) * U < q * U) by lia.
      assert (q < 2 * Z.pos m + 1) by (apply (Z.mul_lt_mono_pos_r U); assumption).
      assert (2 * Z.pos m - 1 < q) by (apply (Z.mul_lt_mono_pos_r U); assumption).
      lia. }
    assert (Hpp : 2 ^ prec = 2 * 2 ^ (prec - 1)).
    { replace prec with (1 + (prec - 1)) at 1 by lia. rewrite pow2_split by lia.
      reflexivity. }
    rewrite Hdm in Tlo.
    assert (Em : Z.pos m = 2 ^ (prec - 1)) by lia.
    rewrite Eq.
    destruct (Z.eqb_spec (2 * Z.pos m) 0) as [|_]; [lia|].
    destruct (Z.ltb_spec (2 * Z.pos m) (2 ^ prec)) as [|_]; [lia|].
    destruct (Z.leb_spec (e' + 1) (emax - prec)) as [_|]; [|lia].
    rewrite <- Em, Pos2Z.id. f_equal. lia.
Qed.

End Rounding.

(** ** The luma of a uniform pixel *)

(** A finite [float] has at most 24 digits and an exponent within
    [-149, 104]. *)
Lemma float_finite_inv s m e :
  Flt.is_float (S754_finite s m e) = true ->
  Z.pos (digits2_pos m) <= 24 /\ -149 <= e <= 104.
Proof.
  unfold Flt.is_float, valid_binary, SpecFloat.bounded, canonical_mantissa, fexp, emin,
    Flt.prec32, Flt.emax32.
  intros H. apply andb_prop in H as [H1 H2].
  apply Z.eqb_eq in H1. apply Z.leb_le in H2. lia.
Qed.

(** A finite [float] converts to the double of the same value, whose
    mantissa has 53 digits. *)
Lemma to_double_float s m e :
  Flt.is_float (S754_finite s m e) = true ->
  exists Mk Ek,
    Flt.to_double (S754_finite s m e) = S754_finite s Mk Ek /\
    2 ^ 52 <= Z.pos Mk < 2 ^ 53 /\
    -201 <= Ek <= 75 /\ Ek + 29 <= e /\
    Z.pos Mk = Z.pos m * 2 ^ (e - Ek).
Proof.
  intros Hk. destruct (float_finite_inv s m e Hk) as [Hd He].
  pose proof (digits2_pos_bounds m) as [Dlo Dhi].
  set (d := Z.pos (digits2_pos m)) in *.
  assert (Hd0 : 0 < d) by (unfold d; lia).
  set (Mk := Pos.iter xO m (Z.to_pos (53 - d))).
  set (Ek := e + d - 53).
  assert (HMk : Z.pos Mk = Z.pos m * 2 ^ (e - Ek)).
  { unfold Mk. rewrite iter_xO_value, Z2Pos.id by lia. f_equal. f_equal. unfold Ek. lia. }
  assert (Hsh : e - Ek = 53 - d) by (unfold Ek; lia).
  pose proof (pow2_pos (53 - d) ltac:(lia)) as Hp.
  assert (Hb : 2 ^ 52 <= Z.pos Mk < 2 ^ 53).
  { rewrite HMk, Hsh.
    assert (E1 : 2 ^ 52 = 2 ^ (d - 1) * 2 ^ (53 - d))
      by (rewrite <- pow2_split by lia; f_equal; lia).
    assert (E2 : 2 ^ 53 = 2 ^ d * 2 ^ (53 - d))
      by (rewrite <- pow2_split by lia; f_equal; lia).
    rewrite E1, E2. split.
    - apply Z.mul_le_mono_nonneg_r; lia.
    - apply Z.mul_lt_mono_pos_r; lia. }
  exists Mk, Ek. split; [|repeat split; try (unfold Ek; lia); try apply Hb; exact HMk].
  unfold Flt.to_double, Flt.convert, Flt.prec64, Flt.emax64.
  apply (binary_round_representable 53 1024 ltac:(lia) s m e Mk Ek (Ek - 2)).
  - unfold SpecFloat.bounded, canonical_mantissa.
    rewrite (digits2_pos_unique Mk 53) by (simpl; lia).
    unfold fexp, emin. apply andb_true_intro. split.
    + apply Z.eqb_eq. unfold Ek. lia.
    + apply Z.leb_le. unfold Ek. lia.
  - unfold Ek. lia.
  - lia.
  - rewrite HMk. replace (e - (Ek - 2)) with (e - Ek + (Ek - (Ek - 2))) by lia.
    rewrite pow2_split by lia.
    pose proof (pow2_pos (Ek - (Ek - 2)) ltac:(lia)). lia.
  - rewrite HMk. replace (e - (Ek - 2)) with (e - Ek + (Ek - (Ek - 2))) by lia.
    rewrite pow2_split by lia.
    pose proof (pow2_pos (Ek - (Ek - 2)) ltac:(lia)). lia.
Qed.

Lemma luma_constants :
  luma_r = S754_finite false 5386305154335113 (-54) /\
  luma_g = S754_finite false 5287225962532962 (-53) /\
  luma_b = S754_finite false 8214565720323785 (-56).
Proof. repeat split; reflexivity. Qed.

(** The three weights are the doubles nearest to 0.299, 0.587 and 0.114;
    they sum to [1 - 3 * 2^-56].  Each product and each sum is rounded to a
    double, within [2^-53] of its value, and the result converts to the
    [float] nearest to it, which is [k]. *)
Lemma luma_uniform k : Flt.is_float k = true -> luma k k k = k.
Proof.
  intros Hk. destruct k as [s|s| |s m e]; try (destruct s; reflexivity); try reflexivity.
  destruct (to_double_float s m e Hk) as (Mk & Ek & HD & HMk & HEk & Hee & Hval).
  destruct (float_finite_inv s m e Hk) as [Hd He].
  destruct luma_constants as (Er & Eg & Eb).
  unfold luma. rewrite HD, Er, Eg, Eb.
  unfold Flt.dmul, Flt.dadd, Flt.to_float, Flt.convert,
    Flt.prec64, Flt.emax64, Flt.prec32, Flt.emax32.
  set (B := Ek - 56).
  (* the three products *)
  destruct (SFmul_value 53 1024 ltac:(lia) s Mk Ek false 5386305154335113 (-54) B 106 108)
    as (mr & er & -> & HBr & Hr1 & Hr2);
    try (unfold B, emin; lia);
    try (replace (Ek + -54 - B) with 2 by (unfold B; lia); lia).
  destruct (SFmul_value 53 1024 ltac:(lia) s Mk Ek false 5287225962532962 (-53) B 107 109)
    as (mg & eg & -> & HBg & Hg1 & Hg2);
    try (unfold B, emin; lia);
    try (replace (Ek + -53 - B) with 3 by (unfold B; lia); lia).
  destruct (SFmul_value 53 1024 ltac:(lia) s Mk Ek false 8214565720323785 (-56) B 104 106)
    as (mb & eb & -> & HBb & Hb1 & Hb2);
    try (unfold B, emin; lia);
    try (replace (Ek + -56 - B) with 0 by (unfold B; lia); lia).
  replace (Ek + -54 - B) with 2 in * by (unfold B; lia).
  replace (Ek + -53 - B) with 3 in * by (unfold B; lia).
  replace (Ek + -56 - B) with 0 in * by (unfold B; lia).
  rewrite xorb_false_r.
  set (R := Z.pos mr * 2 ^ (er - B)) in *.
  set (G := Z.pos mg * 2 ^ (eg - B)) in *.
  set (Bl := Z.pos mb * 2 ^ (eb - B)) in *.
  (* the two sums *)
  destruct (SFadd_value 53 1024 ltac:(lia) s mr er mg eg B 107 109)
    as (m1 & e1 & -> & HB1 & H11 & H12);
    try (unfold B, emin; lia); try (fold R G; lia).
  fold R G in H11, H12.
  set (S1 := Z.pos m1 * 2 ^ (e1 - B)) in *.
  destruct (SFadd_value 53 1024 ltac:(lia) s m1 e1 mb eb B 107 110)
    as (m2 & e2 & -> & HB2 & H21 & H22);
    try (unfold B, emin; lia); try (fold S1 Bl; lia).
  fold S1 Bl in H21, H22.
  set (S2 := Z.pos m2 * 2 ^ (e2 - B)) in *.
  (* the conversion to float *)
  apply (binary_round_representable 24 128 ltac:(lia) s m2 e2 m e B);
    [exact Hk|exact HB2|unfold B; lia| |].
  - fold S2.
    replace (e - B) with (e - Ek + 56) by (unfold B; lia).
    rewrite pow2_split by lia.
    assert (2 ^ 29 <= 2 ^ (e - Ek)) by (apply pow2_le; lia). lia.
  - fold S2.
    replace (e - B) with (e - Ek + 56) by (unfold B; lia).
    rewrite pow2_split by lia.
    assert (2 ^ 29 <= 2 ^ (e - Ek)) by (apply pow2_le; lia). lia.
Qed.

(** ** [rgb_to_grayscale] *)

Section Grayscale.

Context (σ : heap) (im : image) (buf : list spec_float).
Hypothesis Hok : image_ok σ im buf.
Hypothesis Hc3 : c im = 3.

(** The grey image and its buffer when allocated. *)
Local Abbreviation pg := (fresh (dom σ)).
Local Abbreviation gray := {| w := w im; h := h im; c := 1; data := pg |}.
Local Abbreviation gbuf0 := (replicate (Z.to_nat (w im * h im * 1)) Flt.zero).

Lemma gray_fresh : pg <> data im.
Proof.
  destruct Hok as (_ & _ & _ & Hbuf & _).
  intros E. pose proof (is_fresh (dom σ)) as Hf.
  apply not_elem_of_dom in Hf. rewrite E in Hf. congruence.
Qed.

(** The three samples of a pixel of [im]. *)
Lemma rgb_samples x y :
  0 <= x < w im -> 0 <= y < h im ->
  exists r g b,
    buf !! Z.to_nat (offset im x y 0) = Some r /\
    buf !! Z.to_nat (offset im x y 1) = Some g /\
    buf !! Z.to_nat (offset im x y 2) = Some b.
Proof.
  intros Hx Hy. pose proof Hok as (Hw & Hh & Hc & Hbuf & Hlen).
  pose proof (offset_inside im Hw Hh Hc x y 0 Hx Hy ltac:(lia)) as H0.
  pose proof (offset_inside im Hw Hh Hc x y 1 Hx Hy ltac:(lia)) as H1.
  pose proof (offset_inside im Hw Hh Hc x y 2 Hx Hy ltac:(lia)) as H2.
  destruct (lookup_lt_is_Some_2 buf (Z.to_nat (offset im x y 0))) as [r Hr]; [lia|].
  destruct (lookup_lt_is_Some_2 buf (Z.to_nat (offset im x y 1))) as [g Hg]; [lia|].
  destruct (lookup_lt_is_Some_2 buf (Z.to_nat (offset im x y 2))) as [b Hb]; [lia|].
  now exists r, g, b.
Qed.

(** The body of the loops writes the luma of pixel [(i, j)] of [im] to
    pixel [(i, j)] of the grey image. *)
Lemma gray_step i j gb r g b :
  0 <= i < w im -> 0 <= j < h im ->
  length gb = length gbuf0 ->
  buf !! Z.to_nat (offset im i j 0) = Some r ->
  buf !! Z.to_nat (offset im i j 1) = Some g ->
  buf !! Z.to_nat (offset im i j 2) = Some b ->
  (red <- get_pixel im i j 0 ;;
   green <- get_pixel im i j 1 ;;
   blue <- get_pixel im i j 2 ;;
   set_pixel gray i j 0 (luma red green blue)) (<[pg := gb]> σ)
  = Some (tt, <[pg := <[Z.to_nat (offset gray i j 0) := luma r g b]> gb]> σ).
Proof.
  intros Hi Hj Hl Hr Hg Hb.
  pose proof Hok as (Hw & Hh & Hc & Hbuf & Hlen).
  pose proof gray_fresh as Hne.
  assert (Hok1 : image_ok (<[pg := gb]> σ) im buf).
  { repeat split; try assumption. now rewrite lookup_insert_ne. }
  assert (Hokg : image_ok (<[pg := gb]> σ) gray gb).
  { repeat split; simpl; try lia.
    - apply lookup_insert_eq.
    - rewrite Hl, length_replicate. nia. }
  assert (Hget : forall ch v, 0 <= ch < 3 ->
            buf !! Z.to_nat (offset im i j ch) = Some v ->
            get_pixel im i j ch (<[pg := gb]> σ) = Some (v, <[pg := gb]> σ)).
  { intros ch v Hch Hv.
    destruct (get_pixel_inside _ _ _ Hok1 i j ch Hi Hj ltac:(lia)) as (v' & Hv' & Hgp).
    congruence. }
  rewrite (bind_Some _ _ _ _ _ (Hget 0 r ltac:(lia) Hr)).
  rewrite (bind_Some _ _ _ _ _ (Hget 1 g ltac:(lia) Hg)).
  rewrite (bind_Some _ _ _ _ _ (Hget 2 b ltac:(lia) Hb)).
  rewrite (set_pixel_inside _ _ _ Hokg i j 0 (luma r g b)) by (simpl; lia).
  simpl data. now rewrite insert_insert_eq.
Qed.

(** [rgb_to_grayscale] returns, and the grey image holds the luma of
    every pixel. *)
Lemma rgb_to_grayscale_runs :
  exists gb,
    rgb_to_grayscale im σ = Some (gray, <[pg := gb]> σ) /\
    length gb = length gbuf0 /\
    forall x y r g b,
      0 <= x < w im -> 0 <= y < h im ->
      buf !! Z.to_nat (offset im x y 0) = Some r ->
      buf !! Z.to_nat (offset im x y 1) = Some g ->
      buf !! Z.to_nat (offset im x y 2) = Some b ->
      gb !! Z.to_nat (offset gray x y 0) = Some (luma r g b).
Proof.
  pose proof Hok as (Hw & Hh & Hc & Hbuf & Hlen).
  destruct (pixel_nest σ gray gbuf0
              (fun x y ch =>
                 match buf !! Z.to_nat (offset im x y 0),
                       buf !! Z.to_nat (offset im x y 1),
                       buf !! Z.to_nat (offset im x y 2) with
                 | Some r, Some g, Some b => Some (luma r g b)
                 | _, _, _ => None
                 end)
              (fun i j =>
                 red <- get_pixel im i j 0 ;;
                 green <- get_pixel im i j 1 ;;
                 blue <- get_pixel im i j 2 ;;
                 set_pixel gray i j 0 (luma red green blue))
              Hw Hh) as (gb & Hrun & Hl & Hgb).
  - intros i j b Hi Hj Hl _. simpl in Hi, Hj.
    destruct (rgb_samples i j Hi Hj) as (r & g & bl & Hr & Hg & Hb).
    exists (<[Z.to_nat (offset gray i j 0) := luma r g bl]> b).
    split; [now apply gray_step|]. split; [apply length_insert|].
    assert (Hgw : 0 <= w gray) by (simpl; lia).
    assert (Hgh : 0 <= h gray) by (simpl; lia).
    assert (Hgc : 0 <= c gray) by (simpl; lia).
    pose proof (offset_inside gray Hgw Hgh Hgc i j 0 Hi Hj ltac:(simpl; lia)) as Hoff.
    assert (Hlb : Z.of_nat (length b) = w gray * h gray * c gray).
    { rewrite Hl, length_replicate. simpl. nia. }
    split.
    + intros ch Hch. simpl in Hch. replace ch with 0 by lia.
      rewrite Hr, Hg, Hb. apply list_lookup_insert_eq. lia.
    + intros x y ch Hx Hy Hch Hne. simpl in Hch. replace ch with 0 by lia.
      apply list_lookup_insert_ne. intros E. apply Hne.
      pose proof (offset_inside gray Hgw Hgh Hgc x y 0 Hx Hy ltac:(simpl; lia)) as Hoff'.
      assert (E' : offset gray i j 0 = offset gray x y 0) by lia.
      destruct (offset_inj gray Hgw Hgh Hgc i j 0 x y 0 Hi Hj ltac:(simpl; lia)
                  Hx Hy ltac:(simpl; lia) E') as (-> & -> & _).
      reflexivity.
  - exists gb. split; [|split; [exact Hl|]].
    + unfold rgb_to_grayscale. rewrite Hc3. change (negb (3 =? 3)) with false.
      cbv iota. unfold bind at 1. unfold make_image. cbv beta iota zeta.
      unfold bind at 1. simpl data in Hrun. simpl w in Hrun. simpl h in Hrun.
      rewrite Hrun. reflexivity.
    + intros x y r g b Hx Hy Hr Hg Hb.
      rewrite (Hgb x y 0 Hx Hy ltac:(simpl; lia)), Hr, Hg, Hb. reflexivity.
Qed.

End Grayscale.

(** ** Rounding a fraction *)

Lemma rep_step N D mrs :
  0 <= N -> 0 < D -> rep N D mrs -> rep N (D * 2) (shr_1 mrs).
Proof.
  intros HN HD (Hm & Hr & Hs).
  assert (Hq : 0 <= N / D) by (apply Z.div_pos; lia).
  pose proof (Z.mod_pos_bound N D HD) as Hb.
  assert (Hmod : N mod (D * 2) = N mod D + D * (if Z.odd (N / D) then 1 else 0)).
  { rewrite Z.rem_mul_r by lia. now rewrite (Zmod_odd (N / D)). }
  unfold rep. rewrite shr_1_m, shr_1_r, shr_1_s, Hm, Hr, Hs by (rewrite Hm; exact Hq).
  split; [|split].
  - rewrite Z.div_div by lia. reflexivity.
  - rewrite Hmod. destruct (Z.odd (N / D)).
    + destruct (Z.leb_spec (D * 2) (2 * (N mod D + D * 1))); [reflexivity|lia].
    + destruct (Z.leb_spec (D * 2) (2 * (N mod D + D * 0))); [lia|reflexivity].
  - rewrite Hmod.
    destruct (Z.odd (N / D));
      destruct (Z.leb_spec D (2 * (N mod D)));
      repeat match goal with
             | |- context [?a =? ?b] => destruct (Z.eqb_spec a b)
             end; simpl; try reflexivity; lia.
Qed.

Lemma iter_pos_rep N (n : positive) :
  0 <= N ->
  forall D mrs, 0 < D -> rep N D mrs ->
                rep N (D * 2 ^ Z.pos n) (SpecFloat.iter_pos shr_1 n mrs).
Proof.
  intros HN. induction n as [n IH|n IH|]; intros D mrs HD Hrep; cbn [SpecFloat.iter_pos].
  - replace (D * 2 ^ Z.pos n~1) with (D * 2 * 2 ^ Z.pos n * 2 ^ Z.pos n).
    + pose proof (pow2_pos (Z.pos n) ltac:(lia)).
      apply IH; [nia|]. apply IH; [lia|]. now apply rep_step.
    + replace (Z.pos n~1) with (1 + Z.pos n + Z.pos n) by lia.
      rewrite !pow2_split by lia. rewrite Z.pow_1_r. ring.
  - replace (D * 2 ^ Z.pos n~0) with (D * 2 ^ Z.pos n * 2 ^ Z.pos n).
    + pose proof (pow2_pos (Z.pos n) ltac:(lia)).
      apply IH; [nia|]. now apply IH.
    + replace (Z.pos n~0) with (Z.pos n + Z.pos n) by lia.
      rewrite !pow2_split by lia. ring.
  - rewrite Z.pow_1_r. now apply rep_step.
Qed.

Lemma rep_exact M : rep M 1 (Build_shr_record M false false).
Proof. unfold rep. simpl. rewrite Z.div_1_r, Z.mod_1_r. repeat split. Qed.

Lemma round_rep N D mrs :
  0 < D -> rep N D mrs ->
  round_nearest_even (shr_m mrs) (loc_of_shr_record mrs) = rne_frac N D.
Proof.
  intros HD (Hm & Hr & Hs). destruct mrs as [m r s]. simpl in *. subst m r s.
  unfold rne_frac. pose proof (Z.mod_pos_bound N D HD) as Hb.
  destruct (Z.compare_spec (2 * (N mod D)) D) as [C|C|C].
  - destruct (Z.leb_spec D (2 * (N mod D))); [|lia].
    destruct (Z.eqb_spec (N mod D) 0); [lia|].
    destruct (Z.eqb_spec (2 * (N mod D)) D); [|lia]. reflexivity.
  - destruct (Z.leb_spec D (2 * (N mod D))); [lia|].
    destruct (Z.eqb_spec (N mod D) 0); [reflexivity|].
    destruct (Z.eqb_spec (2 * (N mod D)) D); [lia|]. reflexivity.
  - destruct (Z.leb_spec D (2 * (N mod D))); [|lia].
    destruct (Z.eqb_spec (N mod D) 0); [lia|].
    destruct (Z.eqb_spec (2 * (N mod D)) D); [lia|]. reflexivity.
Qed.

Lemma rne_frac_bounds N D :
  0 < D ->
  2 * (rne_frac N D * D) <= 2 * N + D /\ 2 * N <= 2 * (rne_frac N D * D) + D /\
  N / D <= rne_frac N D <= N / D + 1.
Proof.
  intros HD. unfold rne_frac.
  pose proof (Z.div_mod N D ltac:(lia)) as E.
  pose proof (Z.mod_pos_bound N D HD) as Hb.
  assert (E' : N / D * D = N - N mod D) by lia.
  destruct (Z.compare_spec (2 * (N mod D)) D) as [C|C|C];
    [destruct (Z.even (N / D))| |];
    rewrite ?Z.mul_add_distr_r, E'; lia.
Qed.

Lemma Zdigits2_bounds m : 0 <= m -> m < 2 ^ Zdigits2 m.
Proof.
  intros Hm. destruct m as [|p|p]; [reflexivity| |lia].
  apply digits2_pos_bounds.
Qed.

Section RoundFrac.

Context (prec emax : Z).
Hypothesis Hprec : 0 < prec.

Local Abbreviation fexp' := (fexp prec emax).
Local Abbreviation emin' := (emin prec emax).

(** The second shift of [binary_round_aux], after the rounding. *)
Lemma renormalise s q e' :
  0 <= q <= 2 ^ prec -> emin' <= e' ->
  (let '(mrs'', e'') := shr_fexp prec emax q e' loc_Exact in
   match shr_m mrs'' with
   | Z0 => S754_zero s
   | Zpos m => if e'' <=? emax - prec then S754_finite s m e'' else S754_infinity s
   | Zneg _ => S754_nan
   end)
  = if q =? 0 then S754_zero s
    else if q <? 2 ^ prec
         then (if e' <=? emax - prec then S754_finite s (Z.to_pos q) e' else S754_infinity s)
         else (if e' + 1 <=? emax - prec
               then S754_finite s (Z.to_pos (2 ^ (prec - 1))) (e' + 1)
               else S754_infinity s).
Proof.
  intros [Hq0 Hq1] Hemin. unfold shr_fexp.
  destruct q as [|q|q]; [| |lia].
  - simpl. unfold shr.
    destruct (fexp' (0 + e') - e') eqn:En; try reflexivity.
    exfalso. unfold fexp, emin in *. lia.
  - pose proof (digits2_pos_bounds q) as [Dlo Dhi].
    change (Zdigits2 (Z.pos q)) with (Z.pos (digits2_pos q)).
    set (dq := Z.pos (digits2_pos q)) in *.
    assert (Hdq0 : 0 < dq) by (unfold dq; lia).
    destruct (Z.eqb_spec (Z.pos q) 0) as [|_]; [lia|].
    destruct (Z.ltb_spec (Z.pos q) (2 ^ prec)) as [Hlt|Hge].
    + assert (Hdq : dq <= prec).
      { destruct (Z.le_gt_cases dq prec) as [|Hgt]; [assumption|exfalso].
        assert (2 ^ prec <= 2 ^ (dq - 1)) by (apply pow2_le; lia). lia. }
      unfold shr. rewrite Pos2Z.id.
      destruct (fexp' (dq + e') - e') eqn:En; try reflexivity.
      exfalso. unfold fexp, emin in *. lia.
    + assert (Eq2 : Z.pos q = 2 ^ prec) by lia.
      assert (Hdq : dq = prec + 1).
      { apply digits2_pos_unique. replace (prec + 1 - 1) with prec by lia.
        rewrite Eq2. split; [lia|]. apply pow2_lt; lia. }
      assert (En : fexp' (dq + e') - e' = 1).
      { rewrite Hdq. unfold fexp, emin in *. lia. }
      rewrite En. unfold shr. cbn [SpecFloat.iter_pos shr_record_of_loc].
      rewrite shr_1_m by (simpl; lia). cbn [shr_m].
      rewrite Eq2.
      replace (2 ^ prec / 2) with (2 ^ (prec - 1)).
      2:{ replace prec with (Z.succ (prec - 1)) at 2 by lia.
          rewrite Z.pow_succ_r by lia. rewrite Z.mul_comm, Z.div_mul by lia. reflexivity. }
      pose proof (pow2_pos (prec - 1) ltac:(lia)) as Hpp.
      destruct (2 ^ (prec - 1)) as [|pp|pp] eqn:Epp; [lia| |lia].
      rewrite Pos2Z.id. reflexivity.
Qed.

(** The rounded mantissa has at most one digit more than the format. *)
Lemma rne_frac_le_pow N D E :
  0 <= N -> 0 < D ->
  E <= fexp' (Zdigits2 (N / D) + E) ->
  0 <= rne_frac N (D * 2 ^ (fexp' (Zdigits2 (N / D) + E) - E)) <= 2 ^ prec.
Proof.
  intros HN HD Hal.
  assert (Hq : 0 <= N / D) by (apply Z.div_pos; lia).
  pose proof (Zdigits2_bounds (N / D) Hq) as Hd.
  assert (Hd0 : 0 <= Zdigits2 (N / D)) by (destruct (N / D); simpl; lia).
  set (d := Zdigits2 (N / D)) in *. set (n := fexp' (d + E) - E) in *.
  pose proof (fexp_ge prec emax (d + E)) as Hge.
  assert (Hn : 0 <= n) by (unfold n; lia).
  pose proof (pow2_pos n Hn) as HP.
  destruct (rne_frac_bounds N (D * 2 ^ n) ltac:(nia)) as (_ & _ & Hlo & Hhi).
  rewrite <- Z.div_div in Hlo, Hhi by lia.
  assert (0 <= N / D / 2 ^ n) by (apply Z.div_pos; lia).
  assert (N / D / 2 ^ n < 2 ^ prec); [|lia].
  apply Z.div_lt_upper_bound; [exact HP|].
  rewrite <- pow2_split by lia.
  assert (2 ^ d <= 2 ^ (n + prec)) by (apply pow2_le; unfold n; lia). lia.
Qed.

(** [binary_round_aux] on a mantissa that stands, with its location, for
    a fraction, and needs no shift to the left, is [round_frac]. *)
Lemma binary_round_aux_frac s N D E loc :
  0 <= N -> 0 < D ->
  rep N D (shr_record_of_loc (N / D) loc) ->
  E <= fexp' (Zdigits2 (N / D) + E) ->
  binary_round_aux prec emax s (N / D) E loc = round_frac prec emax s N D E.
Proof.
  intros HN HD Hrep Hal.
  pose proof (rne_frac_le_pow N D E HN HD Hal) as Hq.
  unfold binary_round_aux, round_frac.
  set (e' := fexp' (Zdigits2 (N / D) + E)) in *.
  pose proof (fexp_ge_emin prec emax (Zdigits2 (N / D) + E)) as Hemin. fold e' in Hemin.
  assert (H1 : exists mrs, shr_fexp prec emax (N / D) E loc = (mrs, e') /\
             round_nearest_even (shr_m mrs) (loc_of_shr_record mrs)
             = rne_frac N (D * 2 ^ (e' - E))).
  { unfold shr_fexp, shr. fold e'.
    destruct (e' - E) as [|n|n] eqn:En; [| |lia].
    - eexists. split; [f_equal; lia|].
      rewrite Z.pow_0_r, Z.mul_1_r. now apply round_rep.
    - eexists. split; [f_equal; lia|].
      pose proof (pow2_pos (Z.pos n) ltac:(lia)).
      apply round_rep; [nia|]. now apply iter_pos_rep. }
  destruct H1 as (mrs & -> & ->).
  now apply renormalise.
Qed.

End RoundFrac.

(** ** Powers of two, as reals *)

Lemma bpow_pos e : (0 < bpow e)%R.
Proof. apply powerRZ_lt. lra. Qed.

Lemma bpow_plus a b : bpow (a + b) = (bpow a * bpow b)%R.
Proof. apply powerRZ_add. lra. Qed.

Lemma bpow_IZR e : 0 <= e -> bpow e = IZR (2 ^ e).
Proof.
  intros He. unfold bpow. rewrite <- (Z2Nat.id e He) at 1.
  rewrite <- pow_powerRZ, pow_IZR, Z2Nat.id by exact He. reflexivity.
Qed.

Lemma bpow_ge_1 e : 0 <= e -> (1 <= bpow e)%R.
Proof.
  intros He. rewrite bpow_IZR by exact He. apply IZR_le.
  pose proof (pow2_pos e He). lia.
Qed.

Lemma bpow_le a b : a <= b -> (bpow a <= bpow b)%R.
Proof.
  intros Hab. replace b with (a + (b - a)) by lia. rewrite bpow_plus.
  pose proof (bpow_pos a). pose proof (bpow_ge_1 (b - a) ltac:(lia)). nra.
Qed.

Lemma bpow_lt a b : a < b -> (bpow a < bpow b)%R.
Proof.
  intros Hab. replace b with (a + 1 + (b - a - 1)) by lia. rewrite !bpow_plus.
  pose proof (bpow_pos a). pose proof (bpow_ge_1 (b - a - 1) ltac:(lia)).
  replace (bpow 1) with 2%R by (unfold bpow; simpl; lra). nra.
Qed.

Lemma bpow_succ a : bpow (a + 1) = (2 * bpow a)%R.
Proof. rewrite bpow_plus. replace (bpow 1) with 2%R by (unfold bpow; simpl; lra). lra. Qed.

Lemma bpow_lt_inv a b : (bpow a < bpow b)%R -> a < b.
Proof.
  intros H. destruct (Z.lt_ge_cases a b) as [|Hge]; [assumption|exfalso].
  pose proof (bpow_le b a Hge). lra.
Qed.

(** The digits of a positive integer, in reals. *)
Lemma digits_bpow m :
  (bpow (Z.pos (digits2_pos m) - 1) <= IZR (Z.pos m) < bpow (Z.pos (digits2_pos m)))%R.
Proof.
  pose proof (digits2_pos_bounds m) as [Dlo Dhi].
  rewrite !bpow_IZR by lia. split; [apply IZR_le|apply IZR_lt]; assumption.
Qed.

Lemma rne_frac_real N D :
  0 < D -> (Rabs (IZR (rne_frac N D) - IZR N / IZR D) <= / 2)%R.
Proof.
  intros HD. destruct (rne_frac_bounds N D HD) as (H1 & H2 & _).
  apply IZR_le in H1, H2. apply IZR_lt in HD.
  rewrite !plus_IZR, !mult_IZR in H1, H2.
  set (q := IZR (rne_frac N D)) in *. set (n := IZR N) in *. set (d := IZR D) in *.
  replace (q - n / d)%R with ((q * d - n) / d)%R by (field; lra).
  apply Rabs_le. split.
  - apply Rmult_le_reg_r with d; [lra|].
    replace ((q * d - n) / d * d)%R with (q * d - n)%R by (field; lra). lra.
  - apply Rmult_le_reg_r with d; [lra|].
    replace ((q * d - n) / d * d)%R with (q * d - n)%R by (field; lra). lra.
Qed.

Section RoundFracReal.

Context (prec emax : Z).
Hypothesis Hprec : 0 < prec.
Hypothesis Hemax : prec < emax.

Local Abbreviation fexp' := (fexp prec emax).
Local Abbreviation emin' := (emin prec emax).

(** [round_frac] is correctly rounded: a number below [2^(emax - 1)]
    rounds to a finite number of the format within half a unit in the last
    place, that is within [2^-prec] of it, relatively, unless it is in the
    range of subnormal numbers, where the error is at most [2^(emin - 1)]. *)
Lemma round_frac_correct s N D E :
  0 <= N -> 0 < D ->
  E <= fexp' (Zdigits2 (N / D) + E) ->
  (IZR N / IZR D * bpow E < bpow (emax - 1))%R ->
  exists v : R,
    fin prec emax (round_frac prec emax s N D E) /\
    F2R (round_frac prec emax s N D E) = (if s then - v else v)%R /\
    (0 <= v)%R /\
    (round_frac prec emax s N D E = S754_zero s \/
     exists m e, round_frac prec emax s N D E = S754_finite s m e) /\
    ((Rabs (v - IZR N / IZR D * bpow E) <= bpow (- prec) * (IZR N / IZR D * bpow E))%R \/
     (fexp' (Zdigits2 (N / D) + E) = emin' /\
      (Rabs (v - IZR N / IZR D * bpow E) <= bpow (emin' - 1))%R)) /\
    (D = 1 -> fexp' (Zdigits2 (N / D) + E) = E -> v = (IZR N / IZR D * bpow E)%R) /\
    (forall mw ew, SpecFloat.bounded prec emax mw ew = true ->
       (IZR N / IZR D * bpow E <= IZR (Z.pos mw) * bpow ew)%R ->
       (v <= IZR (Z.pos mw) * bpow ew)%R).
Proof.
  intros HN HD Hal Hov.
  pose proof (rne_frac_le_pow prec emax Hprec N D E HN HD Hal) as [Hq0 Hq1].
  unfold round_frac.
  assert (Hmx : 0 <= N / D) by (apply Z.div_pos; lia).
  set (mx := N / D) in *.
  assert (Hd0 : 0 <= Zdigits2 mx) by (destruct mx; simpl; lia).
  set (d := Zdigits2 mx) in *.
  set (e1 := fexp' (d + E)) in *.
  set (n := e1 - E) in *.
  assert (Hn : 0 <= n) by (unfold n; lia).
  pose proof (pow2_pos n Hn) as HP.
  assert (HD2 : 0 < D * 2 ^ n) by nia.
  pose proof (rne_frac_real N (D * 2 ^ n) HD2) as Hnear.
  destruct (rne_frac_bounds N (D * 2 ^ n) HD2) as (_ & _ & Hqlo & _).
  rewrite <- Z.div_div in Hqlo by lia. fold mx in Hqlo.
  set (q := rne_frac N (D * 2 ^ n)) in *.
  pose proof (bpow_pos e1) as He1pos. pose proof (bpow_pos E) as HEpos.
  assert (HDr : (0 < IZR D)%R) by (apply IZR_lt; lia).
  assert (HNr : (0 <= IZR N)%R) by (apply IZR_le; lia).
  set (x := (IZR N / IZR D * bpow E)%R) in *.
  assert (Hx0 : (0 <= x)%R).
  { unfold x. apply Rmult_le_pos; [|lra].
    apply Rmult_le_pos; [lra|]. apply Rlt_le, Rinv_0_lt_compat. lra. }
  assert (Hbe1 : bpow e1 = (bpow n * bpow E)%R).
  { rewrite <- bpow_plus. f_equal. unfold n. lia. }
  assert (Hxq : x = (IZR N / IZR (D * 2 ^ n) * bpow e1)%R).
  { unfold x. rewrite mult_IZR, <- bpow_IZR, Hbe1 by lia.
    pose proof (bpow_pos n). field. lra. }
  assert (Herr : (Rabs (IZR q * bpow e1 - x) <= bpow e1 / 2)%R).
  { rewrite Hxq.
    replace (IZR q * bpow e1 - IZR N / IZR (D * 2 ^ n) * bpow e1)%R
      with ((IZR q - IZR N / IZR (D * 2 ^ n)) * bpow e1)%R by ring.
    rewrite Rabs_mult, (Rabs_pos_eq (bpow e1)) by lra.
    apply Rle_trans with (/ 2 * bpow e1)%R; [|lra].
    apply Rmult_le_compat_r; [lra|exact Hnear]. }
  (* the size of the number against its digits *)
  assert (Hmxr : mx = 0 \/ (0 < mx /\ (bpow (d - 1 + E) <= x)%R)).
  { destruct mx as [|p|p] eqn:Emx; [now left|right|lia]. split; [lia|].
    pose proof (digits_bpow p) as [Dlo _]. fold d in Dlo. change (Z.pos (digits2_pos p)) with d in Dlo.
    rewrite bpow_plus. unfold x. apply Rmult_le_compat_r; [lra|].
    apply Rle_trans with (IZR (Z.pos p)); [exact Dlo|].
    assert (Hle : Z.pos p * D <= N) by (rewrite <- Emx; unfold mx; rewrite Z.mul_comm; apply Z.mul_div_le; lia).
    apply IZR_le in Hle. rewrite mult_IZR in Hle.
    apply Rmult_le_reg_r with (IZR D); [lra|].
    replace (IZR N / IZR D * IZR D)%R with (IZR N) by (field; lra). exact Hle. }
  assert (Hemin2 : emin' + 1 <= emax - prec - 1 + 1) by (unfold emin; lia).
  assert (Hov1 : e1 + 1 <= emax - prec).
  { destruct Hmxr as [E0|[Hpos Hlo]].
    - unfold e1, d in *. rewrite E0 in *. simpl in Hal |- *. unfold fexp, emin in *. lia.
    - assert (d + E <= emax - 1).
      { assert (d - 1 + E < emax - 1); [|lia]. apply bpow_lt_inv. lra. }
      unfold e1, fexp, emin. lia. }
  assert (Hrel : (Rabs (IZR q * bpow e1 - x) <= bpow (- prec) * x)%R \/
                 (e1 = emin' /\ (Rabs (IZR q * bpow e1 - x) <= bpow (emin' - 1))%R)).
  { destruct (Z.eq_dec e1 emin') as [Eem|Nem].
    - right. split; [exact Eem|].
      replace (bpow (emin' - 1)) with (bpow e1 / 2)%R; [exact Herr|].
      rewrite <- Eem. replace e1 with (e1 - 1 + 1) at 1 by lia.
      rewrite bpow_succ. lra.
    - left. destruct Hmxr as [E0|[Hpos Hlo]].
      + exfalso. apply Nem. unfold e1, d in *. rewrite E0 in *. simpl in Hal |- *.
        unfold fexp, emin in *. lia.
      + assert (Ee1 : e1 = d + E - prec) by (unfold e1, fexp, emin in *; lia).
        assert (Hb : bpow e1 = (bpow (d - 1 + E) * (2 * bpow (- prec)))%R).
        { rewrite <- bpow_succ, <- bpow_plus. f_equal. lia. }
        pose proof (bpow_pos (- prec)).
        apply Rle_trans with (bpow e1 / 2)%R; [exact Herr|]. rewrite Hb. nra. }
  assert (Hexact : D = 1 -> e1 = E -> (IZR q * bpow e1)%R = x).
  { intros HD1 HeE. unfold q, n. rewrite HeE, HD1. replace (E - E) with 0 by lia.
    unfold rne_frac. simpl Z.mul. rewrite Z.mod_1_r, Z.div_1_r. simpl.
    unfold x. rewrite HD1. field. }
  assert (Hqr : (0 <= IZR q)%R) by (apply IZR_le; lia).
  assert (Hmono : forall mw ew, SpecFloat.bounded prec emax mw ew = true ->
            (x <= IZR (Z.pos mw) * bpow ew)%R ->
            (IZR q * bpow e1 <= IZR (Z.pos mw) * bpow ew)%R).
  { intros mw ew Hbd Hle.
    apply andb_prop in Hbd as [Hcan _]. apply Z.eqb_eq in Hcan.
    pose proof (digits_bpow mw) as [_ Whi].
    set (dw := Z.pos (digits2_pos mw)) in *.
    assert (He1w : e1 <= ew).
    { destruct Hmxr as [E0|[Hpos Hlo]].
      - pose proof (fexp_ge_emin prec emax (dw + ew)) as Hge. rewrite Hcan in Hge.
        unfold e1, d in *. rewrite E0 in *. simpl in Hal |- *. unfold fexp, emin in *. lia.
      - assert (d - 1 + E < dw + ew).
        { apply bpow_lt_inv. apply Rle_lt_trans with x; [exact Hlo|].
          apply Rle_lt_trans with (IZR (Z.pos mw) * bpow ew)%R; [exact Hle|].
          rewrite bpow_plus. pose proof (bpow_pos ew). nra. }
        rewrite <- Hcan. apply fexp_mono. lia. }
    pose proof (pow2_pos (ew - e1) ltac:(lia)) as Hpw.
    assert (HY : (IZR (Z.pos mw) * bpow ew = IZR (Z.pos mw * 2 ^ (ew - e1)) * bpow e1)%R).
    { rewrite mult_IZR, <- bpow_IZR by lia. rewrite Rmult_assoc, <- bpow_plus.
      do 2 f_equal. lia. }
    rewrite HY in *. set (cw := Z.pos mw * 2 ^ (ew - e1)) in *.
    apply Rmult_le_compat_r; [lra|]. apply IZR_le.
    assert (HNc : N <= cw * (D * 2 ^ n)).
    { apply le_IZR. rewrite mult_IZR.
      assert (HD2r : (0 < IZR (D * 2 ^ n))%R) by (apply IZR_lt; lia).
      rewrite Hxq in Hle.
      assert (IZR N / IZR (D * 2 ^ n) <= IZR cw)%R
        by (apply Rmult_le_reg_r with (bpow e1); lra).
      apply Rmult_le_reg_r with (/ IZR (D * 2 ^ n))%R; [now apply Rinv_0_lt_compat|].
      replace (IZR cw * IZR (D * 2 ^ n) * / IZR (D * 2 ^ n))%R with (IZR cw) by (field; lra).
      exact H. }
    destruct (rne_frac_bounds N (D * 2 ^ n) HD2) as (Hb1 & _ & _ & _). fold q in Hb1.
    assert (2 * (q * (D * 2 ^ n)) <= (2 * cw + 1) * (D * 2 ^ n)) by lia.
    assert (2 * q < 2 * cw + 2); [|lia].
    apply (Z.mul_lt_mono_pos_r (D * 2 ^ n)); [exact HD2|]. lia. }
  destruct (Z.eqb_spec q 0) as [Eq0|Nq0].
  - (* rounded to zero *)
    exists 0%R. rewrite Eq0 in *.
    replace (0 * bpow e1 - x)%R with (0 - x)%R in * by ring.
    split; [split; reflexivity|].
    split; [destruct s; simpl; lra|]. split; [lra|]. split; [now left|].
    split; [exact Hrel|]. split.
    + intros HD1 HeE. rewrite <- (Hexact HD1 HeE). ring.
    + intros mw ew Hbd Hle. specialize (Hmono mw ew Hbd Hle). lra.
  - destruct (Z.ltb_spec q (2 ^ prec)) as [Hlt|Hge].
    + (* no carry *)
      destruct (Z.leb_spec e1 (emax - prec)) as [_|]; [|lia].
      exists (IZR q * bpow e1)%R.
      assert (Hqp : Z.pos (Z.to_pos q) = q) by (apply Z2Pos.id; lia).
      split; [|split; [|split; [|split; [|split; [|split]]]]]; [| | | | |exact Hexact|exact Hmono].
      * split; [|reflexivity]. unfold valid_binary, SpecFloat.bounded, canonical_mantissa.
        apply andb_true_intro. split; [|apply Z.leb_le; lia]. apply Z.eqb_eq.
        pose proof (digits2_pos_bounds (Z.to_pos q)) as [Dlo Dhi]. rewrite Hqp in Dlo, Dhi.
        set (dq := Z.pos (digits2_pos (Z.to_pos q))) in *.
        assert (Hdq0 : 0 < dq) by (unfold dq; lia).
        assert (Hdq : dq <= prec).
        { destruct (Z.le_gt_cases dq prec) as [|Hgt]; [assumption|exfalso].
          assert (2 ^ prec <= 2 ^ (dq - 1)) by (apply pow2_le; lia). lia. }
        destruct (Z.eq_dec e1 emin') as [Eem|Nem]; [unfold fexp, emin in *; lia|].
        assert (Hdqp : dq = prec).
        { destruct Hmxr as [E0|[Hpos Hlo]].
          - exfalso. apply Nem. unfold e1, d in *. rewrite E0 in *. simpl in Hal |- *.
            unfold fexp, emin in *. lia.
          - assert (Ee1 : e1 = d + E - prec) by (unfold e1, fexp, emin in *; lia).
            pose proof (Zdigits2_bounds mx Hmx) as Hdhi. fold d in Hdhi.
            assert (Hdlo : 2 ^ (d - 1) <= mx).
            { destruct mx as [|p|p]; [lia| |lia]. apply digits2_pos_bounds. }
            assert (Hqge : 2 ^ (prec - 1) <= q).
            { assert (2 ^ (prec - 1) <= mx / 2 ^ n); [|lia].
              apply Z.div_le_lower_bound; [exact HP|].
              rewrite <- pow2_split by lia.
              replace (n + (prec - 1)) with (d - 1) by (unfold n; lia). exact Hdlo. }
            destruct (Z.eq_dec dq prec) as [|Hne]; [assumption|exfalso].
            assert (2 ^ dq <= 2 ^ (prec - 1)) by (apply pow2_le; lia). lia. }
        rewrite Hdqp. unfold fexp, emin in *. lia.
      * simpl. rewrite Hqp. destruct s; ring.
      * apply Rmult_le_pos; lra.
      * right. eauto.
      * exact Hrel.
    + (* the rounding carries *)
      destruct (Z.leb_spec (e1 + 1) (emax - prec)) as [_|]; [|lia].
      assert (Eq : q = 2 ^ prec) by lia.
      pose proof (pow2_pos (prec - 1) ltac:(lia)) as Hpp.
      assert (Hpp2 : 2 ^ prec = 2 * 2 ^ (prec - 1)).
      { replace prec with (1 + (prec - 1)) at 1 by lia. rewrite pow2_split by lia.
        reflexivity. }
      assert (Hqp : Z.pos (Z.to_pos (2 ^ (prec - 1))) = 2 ^ (prec - 1)) by (apply Z2Pos.id; lia).
      exists (IZR q * bpow e1)%R.
      split; [|split; [|split; [|split; [|split; [|split]]]]]; [| | | | |exact Hexact|exact Hmono].
      * split; [|reflexivity]. unfold valid_binary, SpecFloat.bounded, canonical_mantissa.
        apply andb_true_intro. split; [|apply Z.leb_le; lia]. apply Z.eqb_eq.
        rewrite (digits2_pos_unique _ prec).
        -- pose proof (fexp_ge_emin prec emax (d + E)). fold e1 in H.
           unfold fexp, emin in *. lia.
        -- rewrite Hqp. split; [lia|]. rewrite Hpp2. lia.
      * simpl. rewrite Hqp, Eq, bpow_succ, Hpp2, mult_IZR. destruct s; ring.
      * apply Rmult_le_pos; lra.
      * right. eauto.
      * exact Hrel.
Qed.

End RoundFracReal.

(** ** The operations, in reals *)

Lemma F2R_finite s m e :
  F2R (S754_finite s m e) = ((if s then -1 else 1) * (IZR (Z.pos m) * bpow e))%R.
Proof. simpl. destruct s; ring. Qed.

Lemma F2R_pos_inv w : (0 < F2R w)%R -> exists m e, w = S754_finite false m e.
Proof.
  destruct w as [s|s| |s m e]; simpl; try lra.
  pose proof (bpow_pos e). pose proof (IZR_lt 0 (Z.pos m) ltac:(lia)).
  destruct s; [|eauto]. nra.
Qed.

Section Ops.

Context (prec emax : Z).
Hypothesis Hprec : 0 < prec.
Hypothesis Hemax : prec < emax.

Local Abbreviation fexp' := (fexp prec emax).
Local Abbreviation emin' := (emin prec emax).

Lemma bounded_inv m e :
  SpecFloat.bounded prec emax m e = true ->
  fexp' (Z.pos (digits2_pos m) + e) = e /\ e <= emax - prec /\ emin' <= e /\
  Z.pos (digits2_pos m) <= prec /\ (Z.pos (digits2_pos m) = prec \/ e = emin').
Proof.
  intros H. apply andb_prop in H as [Hc He].
  apply Z.eqb_eq in Hc. apply Z.leb_le in He. unfold fexp, emin in *. lia.
Qed.

Lemma fin_finite s m e :
  fin prec emax (S754_finite s m e) -> SpecFloat.bounded prec emax m e = true.
Proof. now intros [H _]. Qed.

(** A rounded fraction is a correct rounding of the fraction. *)
Lemma round_frac_rounds (s : bool) N D E :
  0 < N -> 0 < D ->
  E <= fexp' (Zdigits2 (N / D) + E) ->
  (IZR N / IZR D * bpow E < bpow (emax - 1))%R ->
  rounds prec emax (bpow (emin' - 1))
    ((if s then -1 else 1) * (IZR N / IZR D * bpow E))%R (round_frac prec emax s N D E) /\
  (D = 1 -> emin' <= E ->
   rounds prec emax 0%R
     ((if s then -1 else 1) * (IZR N / IZR D * bpow E))%R (round_frac prec emax s N D E)).
Proof.
  intros HN HD Hal Hov.
  destruct (round_frac_correct prec emax Hprec Hemax s N D E ltac:(lia) HD Hal Hov)
    as (v & Hfin & HF & Hv0 & Hform & Herr & Hex & Hmono).
  set (x := (IZR N / IZR D * bpow E)%R) in *.
  assert (Hx : (0 < x)%R).
  { unfold x. pose proof (bpow_pos E). apply IZR_lt in HN, HD.
    apply Rmult_lt_0_compat; [|lra]. apply Rdiv_lt_0_compat; lra. }
  pose proof (bpow_pos (- prec)) as Hu. pose proof (bpow_pos (emin' - 1)) as Heta.
  assert (Hux : (0 <= bpow (- prec) * x)%R) by (apply Rmult_le_pos; lra).
  assert (Hdiff : (Rabs (F2R (round_frac prec emax s N D E) - (if s then -1 else 1) * x)
                   = Rabs (v - x))%R).
  { rewrite HF. destruct s.
    - replace (- v - -1 * x)%R with (- (v - x))%R by ring. apply Rabs_Ropp.
    - f_equal. ring. }
  assert (Habs : (Rabs ((if s then -1 else 1) * x) = x)%R).
  { destruct s.
    - replace (-1 * x)%R with (- x)%R by ring. rewrite Rabs_Ropp. apply Rabs_pos_eq. lra.
    - rewrite Rmult_1_l. apply Rabs_pos_eq. lra. }
  assert (Hrest :
    (0 <= (if s then -1 else 1) * x -> 0 <= F2R (round_frac prec emax s N D E))%R /\
    ((if s then -1 else 1) * x <= 0 -> F2R (round_frac prec emax s N D E) <= 0)%R /\
    (forall w, fin prec emax w -> (0 <= (if s then -1 else 1) * x)%R ->
               ((if s then -1 else 1) * x <= F2R w)%R ->
               (F2R (round_frac prec emax s N D E) <= F2R w)%R)).
  { rewrite HF. destruct s; (split; [|split]); try lra.
    - intros w Hw H0 Hle. lra.
    - intros w Hw _ Hle. rewrite Rmult_1_l in Hle.
      destruct (F2R_pos_inv w ltac:(lra)) as (mw & ew & ->).
      simpl in Hle |- *. apply Hmono; [exact (fin_finite false mw ew Hw)|exact Hle]. }
  split.
  - split; [exact Hfin|]. split; [|exact Hrest].
    rewrite Hdiff, Habs. destruct Herr as [Hr|[_ Ha]]; lra.
  - intros HD1 HE. split; [exact Hfin|]. split; [|exact Hrest].
    rewrite Hdiff, Habs. destruct Herr as [Hr|[He1 Ha]]; [lra|].
    rewrite (Hex HD1 ltac:(lia)). unfold Rminus. rewrite Rplus_opp_r, Rabs_R0. lra.
Qed.

(** [binary_round_aux] on an exact mantissa, and [binary_round]. *)
Lemma binary_round_aux_exact_frac s M E :
  E <= fexp' (Z.pos (digits2_pos M) + E) ->
  binary_round_aux prec emax s (Z.pos M) E loc_Exact
  = round_frac prec emax s (Z.pos M) 1 E.
Proof.
  intros Hal.
  rewrite <- (Z.div_1_r (Z.pos M)) at 1.
  apply binary_round_aux_frac; try lia.
  - rewrite Z.div_1_r. apply rep_exact.
  - rewrite Z.div_1_r. exact Hal.
Qed.

Lemma binary_round_rounds (s : bool) M E :
  (IZR (Z.pos M) * bpow E < bpow (emax - 1))%R ->
  rounds prec emax (bpow (emin' - 1))
    ((if s then -1 else 1) * (IZR (Z.pos M) * bpow E))%R (binary_round prec emax s M E) /\
  (emin' <= E ->
   rounds prec emax 0%R
     ((if s then -1 else 1) * (IZR (Z.pos M) * bpow E))%R (binary_round prec emax s M E)).
Proof.
  intros Hov.
  destruct (shl_align_spec prec emax M E) as (M' & E' & Hsh & Hle & HM' & Hd & Hal & Hcase).
  unfold binary_round. rewrite Hsh.
  rewrite binary_round_aux_exact_frac by exact Hal.
  assert (Hval : (IZR (Z.pos M) * bpow E = IZR (Z.pos M') / IZR 1 * bpow E')%R).
  { rewrite HM', mult_IZR, <- bpow_IZR by lia.
    replace E with (E - E' + E') at 1 by lia. rewrite bpow_plus. field. }
  rewrite Hval in *.
  destruct (round_frac_rounds s (Z.pos M') 1 E' ltac:(lia) ltac:(lia)) as [H1 H2].
  - rewrite Z.div_1_r. exact Hal.
  - exact Hov.
  - split; [exact H1|]. intros HE. apply H2; [reflexivity|].
    destruct Hcase as [HE'|HE']; rewrite HE'; [exact HE|apply fexp_ge_emin].
Qed.

Lemma rounds_ext eta x x' z : x = x' -> rounds prec emax eta x z -> rounds prec emax eta x' z.
Proof. now intros ->. Qed.

(** A number of the format is its own rounding. *)
Lemma rounds_exact eta x :
  (0 <= eta)%R -> fin prec emax x -> rounds prec emax eta (F2R x) x.
Proof.
  intros Heta Hx. pose proof (bpow_pos (- prec)). pose proof (Rabs_pos (F2R x)).
  split; [exact Hx|]. split; [|repeat split; intros; lra].
  unfold Rminus. rewrite Rplus_opp_r, Rabs_R0. nra.
Qed.

Lemma fin_zero s : fin prec emax (S754_zero s).
Proof. split; reflexivity. Qed.

Lemma rounds_zero eta s : (0 <= eta)%R -> rounds prec emax eta 0 (S754_zero s).
Proof. intros Heta. apply (rounds_exact eta (S754_zero s) Heta (fin_zero s)). Qed.

Lemma fin_inv x :
  fin prec emax x ->
  (exists s, x = S754_zero s) \/
  (exists s m e, x = S754_finite s m e /\ SpecFloat.bounded prec emax m e = true).
Proof.
  intros [Hv Hf]. destruct x as [s|s| |s m e]; try discriminate.
  - left. eauto.
  - right. exists s, m, e. split; [reflexivity|exact Hv].
Qed.

(** The mantissa of a product of two numbers of the format needs no shift
    to the left. *)
Lemma mul_aligned m1 e1 m2 e2 :
  SpecFloat.bounded prec emax m1 e1 = true ->
  SpecFloat.bounded prec emax m2 e2 = true ->
  e1 + e2 <= fexp' (Z.pos (digits2_pos (m1 * m2)) + (e1 + e2)).
Proof.
  intros H1 H2.
  destruct (bounded_inv m1 e1 H1) as (_ & _ & He1 & Hd1 & Hc1).
  destruct (bounded_inv m2 e2 H2) as (_ & _ & He2 & Hd2 & Hc2).
  pose proof (digits2_pos_bounds m1) as [L1 _].
  pose proof (digits2_pos_bounds m2) as [L2 _].
  pose proof (digits2_pos_bounds (m1 * m2)) as [_ U].
  set (d1 := Z.pos (digits2_pos m1)) in *. set (d2 := Z.pos (digits2_pos m2)) in *.
  set (d := Z.pos (digits2_pos (m1 * m2))) in *.
  assert (Hd10 : 0 < d1) by (unfold d1; lia). assert (Hd20 : 0 < d2) by (unfold d2; lia).
  assert (Hd : d1 + d2 - 1 <= d).
  { destruct (Z.le_gt_cases (d1 + d2 - 1) d) as [|Hgt]; [assumption|exfalso].
    assert (2 ^ d <= 2 ^ (d1 - 1 + (d2 - 1))) by (apply pow2_le; unfold d; lia).
    rewrite pow2_split in H by lia. rewrite Pos2Z.inj_mul in U.
    pose proof (pow2_pos (d1 - 1) ltac:(lia)). pose proof (pow2_pos (d2 - 1) ltac:(lia)).
    assert (2 ^ (d1 - 1) * 2 ^ (d2 - 1) <= Z.pos m1 * Z.pos m2) by (apply Z.mul_le_mono_nonneg; lia).
    lia. }
  pose proof (fexp_ge prec emax (d + (e1 + e2))) as Hge.
  pose proof (fexp_ge_emin prec emax (d + (e1 + e2))) as Hgm.
  unfold emin in *. lia.
Qed.

Lemma SFmul_rounds x y :
  fin prec emax x -> fin prec emax y ->
  (Rabs (F2R x * F2R y) < bpow (emax - 1))%R ->
  rounds prec emax (bpow (emin' - 1)) (F2R x * F2R y) (SFmul prec emax x y).
Proof.
  intros Hx Hy Hov. pose proof (bpow_pos (emin' - 1)) as Heta.
  destruct (fin_inv x Hx) as [[sx ->]|(sx & mx & ex & -> & Bx)];
    destruct (fin_inv y Hy) as [[sy ->]|(sy & my & ey & -> & By)].
  - apply (rounds_ext _ 0%R); [simpl; ring|]. apply rounds_zero. lra.
  - apply (rounds_ext _ 0%R); [simpl; ring|]. apply rounds_zero. lra.
  - apply (rounds_ext _ 0%R); [simpl; ring|]. apply rounds_zero. lra.
  - cbn [SFmul]. rewrite binary_round_aux_exact_frac by now apply mul_aligned.
    assert (Hval : (F2R (S754_finite sx mx ex) * F2R (S754_finite sy my ey)
                    = (if xorb sx sy then -1 else 1)
                      * (IZR (Z.pos (mx * my)) / IZR 1 * bpow (ex + ey)))%R).
    { rewrite !F2R_finite, Pos2Z.inj_mul, mult_IZR, bpow_plus.
      destruct sx, sy; simpl; field. }
    rewrite Hval in *.
    apply round_frac_rounds; try lia.
    + rewrite Z.div_1_r. now apply mul_aligned.
    + destruct (xorb sx sy).
      * replace (-1 * (IZR (Z.pos (mx * my)) / IZR 1 * bpow (ex + ey)))%R
          with (- (IZR (Z.pos (mx * my)) / IZR 1 * bpow (ex + ey)))%R in Hov by ring.
        rewrite Rabs_Ropp in Hov. apply Rle_lt_trans with (2 := Hov). apply Rle_abs.
      * rewrite Rmult_1_l in Hov. apply Rle_lt_trans with (2 := Hov). apply Rle_abs.
Qed.

(** The sum of the aligned mantissas, and the sum of the numbers. *)
Lemma aligned_sum sx mx ex sy my ey (op : bool) :
  let ez := Z.min ex ey in
  let S := cond_Zopp sx (Z.pos (fst (shl_align mx ex ez)))
           + cond_Zopp (xorb op sy) (Z.pos (fst (shl_align my ey ez))) in
  (IZR S * bpow ez
   = F2R (S754_finite sx mx ex) + (if op then -1 else 1) * F2R (S754_finite sy my ey))%R.
Proof.
  intros ez S. unfold S.
  rewrite plus_IZR.
  assert (H1 : (IZR (Z.pos (fst (shl_align mx ex ez))) * bpow ez = IZR (Z.pos mx) * bpow ex)%R).
  { rewrite shl_align_fst by (unfold ez; lia). rewrite mult_IZR, <- bpow_IZR by (unfold ez; lia).
    rewrite Rmult_assoc, <- bpow_plus. do 2 f_equal. lia. }
  assert (H2 : (IZR (Z.pos (fst (shl_align my ey ez))) * bpow ez = IZR (Z.pos my) * bpow ey)%R).
  { rewrite shl_align_fst by (unfold ez; lia). rewrite mult_IZR, <- bpow_IZR by (unfold ez; lia).
    rewrite Rmult_assoc, <- bpow_plus. do 2 f_equal. lia. }
  rewrite !F2R_finite, Rmult_plus_distr_r.
  destruct sx, sy, op; cbn [cond_Zopp xorb]; rewrite ?opp_IZR; lra.
Qed.

(** The rounding of a signed integer at an exponent of the format. *)
Lemma binary_normalize_rounds S ez :
  emin' <= ez ->
  (Rabs (IZR S * bpow ez) < bpow (emax - 1))%R ->
  rounds prec emax 0 (IZR S * bpow ez) (binary_normalize prec emax S ez false).
Proof.
  intros Hez Hov. destruct S as [|p|p]; cbn [binary_normalize].
  - apply (rounds_ext _ 0%R); [ring|]. apply rounds_zero. lra.
  - destruct (binary_round_rounds false p ez) as [_ H].
    + apply Rle_lt_trans with (2 := Hov). apply Rle_abs.
    + apply (rounds_ext _ _ _ _ (Rmult_1_l _)). now apply H.
  - destruct (binary_round_rounds true p ez) as [_ H].
    + change (Z.neg p) with (- Z.pos p) in Hov. rewrite opp_IZR in Hov.
      replace (- IZR (Z.pos p) * bpow ez)%R with (- (IZR (Z.pos p) * bpow ez))%R in Hov by ring.
      rewrite Rabs_Ropp in Hov. apply Rle_lt_trans with (2 := Hov). apply Rle_abs.
    + apply (rounds_ext _ (-1 * (IZR (Z.pos p) * bpow ez))%R).
      * change (Z.neg p) with (- Z.pos p). rewrite opp_IZR. ring.
      * now apply H.
Qed.

Lemma SFadd_rounds x y :
  fin prec emax x -> fin prec emax y ->
  (Rabs (F2R x + F2R y) < bpow (emax - 1))%R ->
  rounds prec emax 0 (F2R x + F2R y) (SFadd prec emax x y).
Proof.
  intros Hx Hy Hov.
  destruct (fin_inv x Hx) as [[sx ->]|(sx & mx & ex & -> & Bx)];
    destruct (fin_inv y Hy) as [[sy ->]|(sy & my & ey & -> & By)].
  - apply (rounds_ext _ 0%R); [simpl; ring|].
    destruct sx, sy; apply rounds_zero; lra.
  - apply (rounds_ext _ (F2R (S754_finite sy my ey))); [simpl; ring|].
    apply rounds_exact; [lra|exact Hy].
  - apply (rounds_ext _ (F2R (S754_finite sx mx ex))); [simpl; ring|].
    apply rounds_exact; [lra|exact Hx].
  - cbn [SFadd].
    destruct (bounded_inv mx ex Bx) as (_ & _ & Hex & _).
    destruct (bounded_inv my ey By) as (_ & _ & Hey & _).
    pose proof (aligned_sum sx mx ex sy my ey false) as Hsum.
    cbn zeta in Hsum. cbn [xorb] in Hsum. rewrite Rmult_1_l in Hsum.
    rewrite <- Hsum in *.
    apply binary_normalize_rounds; [lia|exact Hov].
Qed.

Lemma SFsub_rounds x y :
  fin prec emax x -> fin prec emax y ->
  (Rabs (F2R x - F2R y) < bpow (emax - 1))%R ->
  rounds prec emax 0 (F2R x - F2R y) (SFsub prec emax x y).
Proof.
  intros Hx Hy Hov.
  destruct (fin_inv x Hx) as [[sx ->]|(sx & mx & ex & -> & Bx)];
    destruct (fin_inv y Hy) as [[sy ->]|(sy & my & ey & -> & By)].
  - apply (rounds_ext _ 0%R); [simpl; ring|].
    destruct sx, sy; apply rounds_zero; lra.
  - apply (rounds_ext _ (F2R (S754_finite (negb sy) my ey))).
    + rewrite !F2R_finite. destruct sy; simpl; ring.
    + apply rounds_exact; [lra|]. split; [exact By|reflexivity].
  - apply (rounds_ext _ (F2R (S754_finite sx mx ex))); [simpl; ring|].
    apply rounds_exact; [lra|exact Hx].
  - cbn [SFsub].
    destruct (bounded_inv mx ex Bx) as (_ & _ & Hex & _).
    destruct (bounded_inv my ey By) as (_ & _ & Hey & _).
    pose proof (aligned_sum sx mx ex sy my ey true) as Hsum.
    cbn zeta in Hsum.
    assert (Hz : forall a b, a - cond_Zopp sy b = a + cond_Zopp (xorb true sy) b)
      by (intros a b; destruct sy; simpl; lia).
    rewrite Hz.
    replace (F2R (S754_finite sx mx ex) - F2R (S754_finite sy my ey))%R
      with (F2R (S754_finite sx mx ex) + -1 * F2R (S754_finite sy my ey))%R in * by ring.
    rewrite <- Hsum in *.
    apply binary_normalize_rounds; [lia|exact Hov].
Qed.

(** The location [SFdiv] computes for a quotient stands for the fraction. *)
Lemma new_location_rep N D :
  0 <= N -> 0 < D -> rep N D (shr_record_of_loc (N / D) (new_location D (N mod D))).
Proof.
  intros HN HD. pose proof (Z.mod_pos_bound N D HD) as Hb.
  unfold rep, new_location, new_location_even, new_location_odd.
  assert (Hodd : Z.even D = false -> 2 * (N mod D) <> D).
  { intros Hev E. rewrite <- E in Hev. rewrite Z.even_mul in Hev. discriminate. }
  destruct (Z.even D) eqn:Hev; [|specialize (Hodd eq_refl)];
    (destruct (Z.eqb_spec (N mod D) 0) as [H0|H0];
     [|match goal with |- context [Z.compare ?a ?b] => destruct (Z.compare_spec a b) end]);
    cbn [shr_record_of_loc shr_m shr_r shr_s];
    (split; [reflexivity|]);
    destruct (Z.leb_spec D (2 * (N mod D))); destruct (Z.eqb_spec (2 * (N mod D)) D);
    destruct (Z.eqb_spec (N mod D) 0);
    simpl; try lia; split; reflexivity.
Qed.

Lemma Zdigits2_lower k m : 0 <= k -> 2 ^ k <= m -> k < Zdigits2 m.
Proof.
  intros Hk Hm. pose proof (pow2_pos k Hk).
  pose proof (Zdigits2_bounds m ltac:(lia)) as Hb.
  destruct (Z.lt_ge_cases k (Zdigits2 m)) as [|Hge]; [assumption|exfalso].
  assert (0 <= Zdigits2 m) by (destruct m; simpl; lia).
  pose proof (pow2_le (Zdigits2 m) k ltac:(lia)). lia.
Qed.

(** The mantissa, the exponent and the location [SFdiv] rounds. *)
Lemma SFdiv_core_spec mx ex my ey :
  exists N e',
    0 < N /\
    SFdiv_core_binary prec emax (Z.pos mx) ex (Z.pos my) ey
    = (N / Z.pos my, e', new_location (Z.pos my) (N mod Z.pos my)) /\
    (IZR N / IZR (Z.pos my) * bpow e'
     = (IZR (Z.pos mx) * bpow ex) / (IZR (Z.pos my) * bpow ey))%R /\
    e' <= fexp' (Zdigits2 (N / Z.pos my) + e').
Proof.
  unfold SFdiv_core_binary. cbn [Zdigits2].
  set (d1 := Z.pos (digits2_pos mx)). set (d2 := Z.pos (digits2_pos my)).
  set (e' := Z.min (fexp' (d1 + ex - (d2 + ey))) (ex - ey)).
  set (s := ex - ey - e').
  assert (Hs : 0 <= s) by (unfold s, e'; lia).
  pose proof (pow2_pos s Hs) as Hp.
  exists (Z.pos mx * 2 ^ s), e'.
  assert (Hm' : match s with Z.pos _ => Z.shiftl (Z.pos mx) s | 0 => Z.pos mx | Z.neg _ => 0 end
                = Z.pos mx * 2 ^ s).
  { destruct s as [|p|p] eqn:Es; [rewrite Z.pow_0_r; lia| |lia].
    now rewrite Z.shiftl_mul_pow2 by lia. }
  rewrite Hm'. split; [lia|]. split; [|split].
  - unfold Z.div, Z.modulo. now destruct (Z.div_eucl (Z.pos mx * 2 ^ s) (Z.pos my)).
  - rewrite mult_IZR, <- bpow_IZR by lia.
    assert (Hex : bpow ex = (bpow s * bpow e' * bpow ey)%R).
    { rewrite <- !bpow_plus. f_equal. unfold s. lia. }
    rewrite Hex.
    pose proof (bpow_pos ey). pose proof (IZR_lt 0 (Z.pos my) ltac:(lia)).
    field. split; lra.
  - pose proof (digits2_pos_bounds mx) as [L1 _]. pose proof (digits2_pos_bounds my) as [_ U2].
    fold d1 in L1. fold d2 in U2.
    assert (Hd1 : 0 < d1) by (unfold d1; lia). assert (Hd2 : 0 < d2) by (unfold d2; lia).
    set (q := Z.pos mx * 2 ^ s / Z.pos my).
    destruct (Z.le_gt_cases 0 (d1 - 1 + s - d2)) as [Hk|Hk].
    + assert (Hq : 2 ^ (d1 - 1 + s - d2) <= q).
      { apply Z.div_le_lower_bound; [lia|].
        pose proof (pow2_pos (d1 - 1 + s - d2) Hk) as Hpk.
        assert (Z.pos my * 2 ^ (d1 - 1 + s - d2) <= 2 ^ d2 * 2 ^ (d1 - 1 + s - d2))
          by (apply Z.mul_le_mono_nonneg_r; lia).
        rewrite <- pow2_split in H by lia.
        replace (d2 + (d1 - 1 + s - d2)) with (d1 - 1 + s) in H by lia.
        rewrite pow2_split in H by lia.
        assert (2 ^ (d1 - 1) * 2 ^ s <= Z.pos mx * 2 ^ s)
          by (apply Z.mul_le_mono_nonneg_r; lia).
        lia. }
      apply Zdigits2_lower in Hq; [|exact Hk].
      pose proof (fexp_mono prec emax (d1 + ex - (d2 + ey)) (Zdigits2 q + e')
                    ltac:(unfold s in *; lia)).
      unfold e' at 1. lia.
    + pose proof (fexp_ge_emin prec emax (Zdigits2 q + e')).
      assert (e' <= fexp' (d1 + ex - (d2 + ey))) by (unfold e'; lia).
      assert (d1 + ex - (d2 + ey) <= e') by (unfold s in *; lia).
      unfold fexp, emin in *. lia.
Qed.

Lemma SFdiv_rounds x y :
  fin prec emax x -> fin prec emax y -> F2R y <> 0%R ->
  (Rabs (F2R x / F2R y) < bpow (emax - 1))%R ->
  rounds prec emax (bpow (emin' - 1)) (F2R x / F2R y) (SFdiv prec emax x y).
Proof.
  intros Hx Hy Hy0 Hov. pose proof (bpow_pos (emin' - 1)) as Heta.
  destruct (fin_inv y Hy) as [[sy ->]|(sy & my & ey & -> & By)]; [now elim Hy0|].
  destruct (fin_inv x Hx) as [[sx ->]|(sx & mx & ex & -> & Bx)].
  - apply (rounds_ext _ 0%R); [simpl F2R at 1; unfold Rdiv; ring|]. apply rounds_zero. lra.
  - cbn [SFdiv].
    destruct (SFdiv_core_spec mx ex my ey) as (N & e' & HN & -> & Hval & Hal).
    rewrite binary_round_aux_frac by (try assumption; try lia; apply new_location_rep; lia).
    pose proof (bpow_pos ey). pose proof (IZR_lt 0 (Z.pos my) ltac:(lia)).
    assert (Hq : (F2R (S754_finite sx mx ex) / F2R (S754_finite sy my ey)
                  = (if xorb sx sy then -1 else 1) * (IZR N / IZR (Z.pos my) * bpow e'))%R).
    { rewrite Hval, !F2R_finite. destruct sx, sy; simpl; field; split; lra. }
    rewrite Hq in *.
    refine (proj1 (round_frac_rounds (xorb sx sy) N (Z.pos my) e' HN ltac:(lia) Hal _)).
    destruct (xorb sx sy).
    + replace (-1 * (IZR N / IZR (Z.pos my) * bpow e'))%R
        with (- (IZR N / IZR (Z.pos my) * bpow e'))%R in Hov by ring.
      rewrite Rabs_Ropp in Hov. apply Rle_lt_trans with (2 := Hov). apply Rle_abs.
    + rewrite Rmult_1_l in Hov. apply Rle_lt_trans with (2 := Hov). apply Rle_abs.
Qed.

(** Conversion to the format. *)
Lemma convert_rounds x :
  Flt.is_finite x = true ->
  (Rabs (F2R x) < bpow (emax - 1))%R ->
  rounds prec emax (bpow (emin' - 1)) (F2R x) (Flt.convert prec emax x).
Proof.
  intros Hf Hov. pose proof (bpow_pos (emin' - 1)) as Heta.
  destruct x as [s|s| |s m e]; try discriminate.
  - apply rounds_zero. lra.
  - cbn [Flt.convert]. rewrite F2R_finite in *.
    refine (proj1 (binary_round_rounds s m e _)).
    destruct s.
    + replace (-1 * (IZR (Z.pos m) * bpow e))%R
        with (- (IZR (Z.pos m) * bpow e))%R in Hov by ring.
      rewrite Rabs_Ropp in Hov. apply Rle_lt_trans with (2 := Hov). apply Rle_abs.
    + rewrite Rmult_1_l in Hov. apply Rle_lt_trans with (2 := Hov). apply Rle_abs.
Qed.

(** A number that fits the format is not changed by the rounding. *)
Lemma binary_round_exact (s : bool) M E :
  fexp' (Z.pos (digits2_pos M) + E) <= E ->
  (IZR (Z.pos M) * bpow E < bpow (emax - 1))%R ->
  fin prec emax (binary_round prec emax s M E) /\
  F2R (binary_round prec emax s M E) = ((if s then -1 else 1) * (IZR (Z.pos M) * bpow E))%R.
Proof.
  intros Hfit Hov.
  destruct (shl_align_spec prec emax M E) as (M' & E' & Hsh & Hle & HM' & Hd & Hal & Hcase).
  unfold binary_round. rewrite Hsh.
  rewrite binary_round_aux_exact_frac by exact Hal.
  assert (Hval : (IZR (Z.pos M) * bpow E = IZR (Z.pos M') / IZR 1 * bpow E')%R).
  { rewrite HM', mult_IZR, <- bpow_IZR by lia.
    replace E with (E - E' + E') at 1 by lia. rewrite bpow_plus. field. }
  rewrite Hval in *.
  destruct (round_frac_correct prec emax Hprec Hemax s (Z.pos M') 1 E'
              ltac:(lia) ltac:(lia)) as (v & Hfin & HF & _ & _ & _ & Hex & _).
  - rewrite Z.div_1_r. exact Hal.
  - exact Hov.
  - split; [exact Hfin|]. rewrite HF, <- Hex.
    + destruct s; ring.
    + reflexivity.
    + rewrite Z.div_1_r. cbn [Zdigits2]. rewrite Hd in *. lia.
Qed.

Lemma convert_exact s m e :
  fexp' (Z.pos (digits2_pos m) + e) <= e ->
  (IZR (Z.pos m) * bpow e < bpow (emax - 1))%R ->
  fin prec emax (Flt.convert prec emax (S754_finite s m e)) /\
  F2R (Flt.convert prec emax (S754_finite s m e)) = F2R (S754_finite s m e).
Proof. intros Hfit Hov. rewrite F2R_finite. now apply binary_round_exact. Qed.

(** Of two positive numbers of the format, the one with the smaller
    exponent is the smaller. *)
Lemma canonical_lt m1 e1 m2 e2 :
  SpecFloat.bounded prec emax m1 e1 = true ->
  SpecFloat.bounded prec emax m2 e2 = true ->
  e1 < e2 -> (IZR (Z.pos m1) * bpow e1 < IZR (Z.pos m2) * bpow e2)%R.
Proof.
  intros H1 H2 He.
  destruct (bounded_inv m1 e1 H1) as (Hc1 & _ & _ & _ & _).
  destruct (bounded_inv m2 e2 H2) as (Hc2 & _ & _ & _ & _).
  destruct (digits_bpow m1) as [_ U1]. destruct (digits_bpow m2) as [L2 _].
  set (d1 := Z.pos (digits2_pos m1)) in *. set (d2 := Z.pos (digits2_pos m2)) in *.
  assert (Hd : d1 + e1 <= d2 - 1 + e2).
  { destruct (Z.le_gt_cases (d1 + e1) (d2 - 1 + e2)) as [|Hgt]; [assumption|exfalso].
    pose proof (fexp_mono prec emax (d2 + e2) (d1 + e1) ltac:(lia)). lia. }
  pose proof (bpow_pos e1). pose proof (bpow_pos e2).
  apply Rlt_le_trans with (bpow d1 * bpow e1)%R; [apply Rmult_lt_compat_r; lra|].
  apply Rle_trans with (bpow (d2 - 1) * bpow e2)%R; [|apply Rmult_le_compat_r; lra].
  rewrite <- !bpow_plus. now apply bpow_le.
Qed.

(** The comparison of two numbers of the format is that of the reals. *)
Lemma SFcompare_fin x y :
  fin prec emax x -> fin prec emax y ->
  (SFcompare x y = Some Lt /\ (F2R x < F2R y)%R) \/
  (SFcompare x y = Some Eq /\ F2R x = F2R y) \/
  (SFcompare x y = Some Gt /\ (F2R y < F2R x)%R).
Proof.
  intros Hx Hy.
  destruct (fin_inv x Hx) as [[sx ->]|(sx & mx & ex & -> & Bx)];
    destruct (fin_inv y Hy) as [[sy ->]|(sy & my & ey & -> & By)].
  - right; left. split; reflexivity.
  - pose proof (bpow_pos ey). pose proof (IZR_lt 0 (Z.pos my) ltac:(lia)).
    assert (0 < IZR (Z.pos my) * bpow ey)%R by (apply Rmult_lt_0_compat; lra).
    rewrite F2R_finite. simpl F2R. destruct sy; simpl SFcompare.
    + right; right. split; [reflexivity|lra].
    + left. split; [reflexivity|lra].
  - pose proof (bpow_pos ex). pose proof (IZR_lt 0 (Z.pos mx) ltac:(lia)).
    assert (0 < IZR (Z.pos mx) * bpow ex)%R by (apply Rmult_lt_0_compat; lra).
    rewrite F2R_finite. simpl F2R. destruct sx; simpl SFcompare.
    + left. split; [reflexivity|lra].
    + right; right. split; [reflexivity|lra].
  - pose proof (bpow_pos ex). pose proof (IZR_lt 0 (Z.pos mx) ltac:(lia)).
    assert (0 < IZR (Z.pos mx) * bpow ex)%R by (apply Rmult_lt_0_compat; lra).
    pose proof (bpow_pos ey). pose proof (IZR_lt 0 (Z.pos my) ltac:(lia)).
    assert (0 < IZR (Z.pos my) * bpow ey)%R by (apply Rmult_lt_0_compat; lra).
    assert (Hcmp :
      (ex < ey /\ (IZR (Z.pos mx) * bpow ex < IZR (Z.pos my) * bpow ey)%R) \/
      (ey < ex /\ (IZR (Z.pos my) * bpow ey < IZR (Z.pos mx) * bpow ex)%R) \/
      (ex = ey /\
       ((Pos.compare mx my = Lt /\ (IZR (Z.pos mx) * bpow ex < IZR (Z.pos my) * bpow ey)%R) \/
        (Pos.compare mx my = Eq /\ (IZR (Z.pos mx) * bpow ex = IZR (Z.pos my) * bpow ey)%R) \/
        (Pos.compare mx my = Gt /\ (IZR (Z.pos my) * bpow ey < IZR (Z.pos mx) * bpow ex)%R)))).
    { destruct (Z.lt_trichotomy ex ey) as [L|[L|L]].
      - left. split; [exact L|]. now apply canonical_lt.
      - right; right. split; [exact L|]. subst ey.
        destruct (Pos.compare_spec mx my) as [C|C|C].
        + right; left. subst. split; reflexivity.
        + left. split; [reflexivity|]. apply Rmult_lt_compat_r; [lra|]. apply IZR_lt. lia.
        + right; right. split; [reflexivity|]. apply Rmult_lt_compat_r; [lra|].
          apply IZR_lt. lia.
      - right; left. split; [exact L|]. now apply canonical_lt. }
    rewrite !F2R_finite. unfold SFcompare. change (Pos.compare_cont Eq mx my) with (Pos.compare mx my).
    destruct Hcmp as [[L Hr]|[[L Hr]|[L Hm]]].
    + apply Z.compare_lt_iff in L as Lc. rewrite Lc.
      destruct sx, sy; [right; right|left|right; right|left]; (split; [reflexivity|lra]).
    + apply Z.compare_gt_iff in L as Lc. rewrite Lc.
      destruct sx, sy; [left|left|right; right|right; right]; (split; [reflexivity|lra]).
    + apply Z.compare_eq_iff in L as Lc. rewrite Lc.
      destruct Hm as [[-> Hr]|[[-> Hr]|[-> Hr]]]; cbn [CompOpp].
      * destruct sx, sy; [right; right|left|right; right|left]; (split; [reflexivity|lra]).
      * destruct sx, sy; [right; left|left|right; right|right; left];
          (split; [reflexivity|lra]).
      * destruct sx, sy; [left|left|right; right|right; right]; (split; [reflexivity|lra]).
Qed.

Lemma SFltb_fin x y :
  fin prec emax x -> fin prec emax y ->
  if SFltb x y then (F2R x < F2R y)%R else (F2R y <= F2R x)%R.
Proof.
  intros Hx Hy. unfold SFltb.
  destruct (SFcompare_fin x y Hx Hy) as [[-> H]|[[-> H]|[-> H]]]; lra.
Qed.

Lemma SFleb_fin x y :
  fin prec emax x -> fin prec emax y ->
  if SFleb x y then (F2R x <= F2R y)%R else (F2R y < F2R x)%R.
Proof.
  intros Hx Hy. unfold SFleb.
  destruct (SFcompare_fin x y Hx Hy) as [[-> H]|[[-> H]|[-> H]]]; lra.
Qed.

Lemma SFeqb_fin x y :
  fin prec emax x -> fin prec emax y ->
  if SFeqb x y then F2R x = F2R y else F2R x <> F2R y.
Proof.
  intros Hx Hy. unfold SFeqb.
  destruct (SFcompare_fin x y Hx Hy) as [[-> H]|[[-> H]|[-> H]]]; lra.
Qed.

Lemma SFabs_fin x : fin prec emax x -> fin prec emax (SFabs x) /\ F2R (SFabs x) = Rabs (F2R x).
Proof.
  intros Hx.
  destruct (fin_inv x Hx) as [[sx ->]|(sx & mx & ex & -> & Bx)].
  - split; [apply fin_zero|]. simpl. now rewrite Rabs_R0.
  - split; [split; [exact Bx|reflexivity]|].
    pose proof (bpow_pos ex). pose proof (IZR_lt 0 (Z.pos mx) ltac:(lia)).
    assert (0 < IZR (Z.pos mx) * bpow ex)%R by (apply Rmult_lt_0_compat; lra).
    rewrite !F2R_finite. cbn [SFabs]. rewrite F2R_finite. destruct sx.
    + replace (-1 * (IZR (Z.pos mx) * bpow ex))%R with (- (IZR (Z.pos mx) * bpow ex))%R by ring.
      rewrite Rabs_Ropp, Rabs_pos_eq; lra.
    + rewrite Rmult_1_l, Rabs_pos_eq; lra.
Qed.

End Ops.

(** ** The two formats *)

Lemma prec32_pos : 0 < Flt.prec32.
Proof. reflexivity. Qed.

Lemma emax32_gt : Flt.prec32 < Flt.emax32.
Proof. reflexivity. Qed.

Lemma prec64_pos : 0 < Flt.prec64.
Proof. reflexivity. Qed.

Lemma emax64_gt : Flt.prec64 < Flt.emax64.
Proof. reflexivity. Qed.

Lemma bpow_neg n : 0 <= n -> bpow (- n) = (/ IZR (2 ^ n))%R.
Proof.
  intros Hn. pose proof (bpow_pos n) as Hp.
  apply Rmult_eq_reg_l with (bpow n); [|lra].
  rewrite <- bpow_plus, Z.add_opp_diag_r, <- bpow_IZR by lia.
  rewrite Rinv_r by lra. reflexivity.
Qed.

Lemma u32_eq : u32 = (/ 16777216)%R.
Proof.
  unfold u32. change (- Flt.prec32) with (- (24)).
  rewrite bpow_neg by lia. do 2 f_equal.
Qed.

Lemma u64_eq : u64 = (/ 9007199254740992)%R.
Proof.
  unfold u64. change (- Flt.prec64) with (- (53)).
  rewrite bpow_neg by lia. do 2 f_equal.
Qed.

Lemma eta32_bound : (0 < eta32 <= / 1000000000000000000000000000000)%R.
Proof.
  unfold eta32. split; [apply bpow_pos|].
  apply Rle_trans with (bpow (- (100))); [apply bpow_le; vm_compute; discriminate|].
  rewrite (bpow_neg 100) by lia.
  apply Rinv_le_contravar; [lra|]. apply IZR_le. vm_compute. discriminate.
Qed.

Lemma eta64_bound : (0 < eta64 <= / 1000000000000000000000000000000)%R.
Proof.
  unfold eta64. split; [apply bpow_pos|].
  apply Rle_trans with (bpow (- (100))); [apply bpow_le; vm_compute; discriminate|].
  rewrite (bpow_neg 100) by lia.
  apply Rinv_le_contravar; [lra|]. apply IZR_le. vm_compute. discriminate.
Qed.

Lemma bpow_emax32 : (8 <= bpow (Flt.emax32 - 1))%R.
Proof.
  apply Rle_trans with (bpow 3); [rewrite (bpow_IZR 3) by lia; simpl; lra|].
  apply bpow_le. vm_compute. discriminate.
Qed.

Lemma bpow_emax64 : (8 <= bpow (Flt.emax64 - 1))%R.
Proof.
  apply Rle_trans with (bpow 3); [rewrite (bpow_IZR 3) by lia; simpl; lra|].
  apply bpow_le. vm_compute. discriminate.
Qed.

Lemma Rabs_bound a b : (Rabs a <= b)%R -> (- b <= a <= b)%R.
Proof. unfold Rabs. destruct (Rcase_abs a); lra. Qed.

Lemma Rabs_lt_8 x : (-8 < x < 8)%R -> (Rabs x < 8)%R.
Proof. intros H. apply Rabs_def1; lra. Qed.

(** What a correct rounding of a number that is not negative says, without
    absolute values. *)
Lemma rounds_nonneg prec emax eta x z :
  rounds prec emax eta x z -> (0 <= x)%R ->
  fin prec emax z /\
  (0 <= F2R z)%R /\
  ((1 - bpow (- prec)) * x - eta <= F2R z <= (1 + bpow (- prec)) * x + eta)%R /\
  (forall w, fin prec emax w -> (x <= F2R w)%R -> (F2R z <= F2R w)%R).
Proof.
  intros (Hf & He & Hp & Hn & Hm) Hx.
  split; [exact Hf|]. split; [now apply Hp|]. split; [|intros w Hw; now apply Hm].
  rewrite (Rabs_pos_eq x Hx) in He.
  apply Rabs_bound in He. lra.
Qed.

Lemma rounds_nonpos prec emax eta x z :
  rounds prec emax eta x z -> (x <= 0)%R ->
  fin prec emax z /\
  (F2R z <= 0)%R /\
  ((1 + bpow (- prec)) * x - eta <= F2R z <= (1 - bpow (- prec)) * x + eta)%R.
Proof.
  intros (Hf & He & Hp & Hn & Hm) Hx.
  split; [exact Hf|]. split; [now apply Hn|].
  rewrite (Rabs_left1 x Hx) in He.
  apply Rabs_bound in He. lra.
Qed.

(** *** binary32 operations *)

Lemma fadd_rounds x y :
  fin32 x -> fin32 y -> (-8 < F2R x + F2R y < 8)%R ->
  rounds32 0 (F2R x + F2R y) (Flt.fadd x y).
Proof.
  intros Hx Hy Hb. apply (SFadd_rounds _ _ prec32_pos emax32_gt x y Hx Hy).
  apply Rlt_le_trans with (2 := bpow_emax32). now apply Rabs_lt_8.
Qed.

Lemma fsub_rounds x y :
  fin32 x -> fin32 y -> (-8 < F2R x - F2R y < 8)%R ->
  rounds32 0 (F2R x - F2R y) (Flt.fsub x y).
Proof.
  intros Hx Hy Hb. apply (SFsub_rounds _ _ prec32_pos emax32_gt x y Hx Hy).
  apply Rlt_le_trans with (2 := bpow_emax32). now apply Rabs_lt_8.
Qed.

Lemma fmul_rounds x y :
  fin32 x -> fin32 y -> (-8 < F2R x * F2R y < 8)%R ->
  rounds32 eta32 (F2R x * F2R y) (Flt.fmul x y).
Proof.
  intros Hx Hy Hb. apply (SFmul_rounds _ _ prec32_pos emax32_gt x y Hx Hy).
  apply Rlt_le_trans with (2 := bpow_emax32). now apply Rabs_lt_8.
Qed.

Lemma fdiv_rounds x y :
  fin32 x -> fin32 y -> F2R y <> 0%R -> (-8 < F2R x / F2R y < 8)%R ->
  rounds32 eta32 (F2R x / F2R y) (Flt.fdiv x y).
Proof.
  intros Hx Hy Hy0 Hb. apply (SFdiv_rounds _ _ prec32_pos emax32_gt x y Hx Hy Hy0).
  apply Rlt_le_trans with (2 := bpow_emax32). now apply Rabs_lt_8.
Qed.

Lemma to_float_rounds x :
  Flt.is_finite x = true -> (-8 < F2R x < 8)%R ->
  rounds32 eta32 (F2R x) (Flt.to_float x).
Proof.
  intros Hx Hb. apply (convert_rounds _ _ prec32_pos emax32_gt x Hx).
  apply Rlt_le_trans with (2 := bpow_emax32). now apply Rabs_lt_8.
Qed.

(** *** binary64 operations *)

Lemma dsub_rounds x y :
  fin64 x -> fin64 y -> (-8 < F2R x - F2R y < 8)%R ->
  rounds64 0 (F2R x - F2R y) (Flt.dsub x y).
Proof.
  intros Hx Hy Hb. apply (SFsub_rounds _ _ prec64_pos emax64_gt x y Hx Hy).
  apply Rlt_le_trans with (2 := bpow_emax64). now apply Rabs_lt_8.
Qed.

Lemma dmul_rounds x y :
  fin64 x -> fin64 y -> (-8 < F2R x * F2R y < 8)%R ->
  rounds64 eta64 (F2R x * F2R y) (Flt.dmul x y).
Proof.
  intros Hx Hy Hb. apply (SFmul_rounds _ _ prec64_pos emax64_gt x y Hx Hy).
  apply Rlt_le_trans with (2 := bpow_emax64). now apply Rabs_lt_8.
Qed.

(** A [float] converts to [double] without rounding. *)
Lemma to_double_exact x :
  fin32 x -> fin64 (Flt.to_double x) /\ F2R (Flt.to_double x) = F2R x.
Proof.
  intros Hx.
  destruct (fin_inv _ _ x Hx) as [[s ->]|(s & m & e & -> & B)].
  - split; [apply fin_zero|reflexivity].
  - destruct (bounded_inv _ _ m e B) as (Hc & He & Hemin & Hd & _).
    unfold Flt.prec32, Flt.emax32, emin in *.
    apply (convert_exact _ _ prec64_pos emax64_gt).
    + unfold fexp, emin, Flt.prec64, Flt.emax64. lia.
    + destruct (digits_bpow m) as [_ U].
      pose proof (bpow_pos e).
      apply Rlt_le_trans with (bpow (Z.pos (digits2_pos m)) * bpow e)%R;
        [apply Rmult_lt_compat_r; lra|].
      rewrite <- bpow_plus. apply bpow_le. unfold Flt.emax64. lia.
Qed.

(** [fmod] is exact. *)
Lemma fmod_exact x y :
  fin64 x -> fin64 y -> (0 <= F2R x)%R -> (0 < F2R y < 8)%R ->
  fin64 (Flt.fmod x y) /\
  exists k : Z, 0 <= k /\
    F2R (Flt.fmod x y) = (F2R x - IZR k * F2R y)%R /\
    (0 <= F2R (Flt.fmod x y) < F2R y)%R.
Proof.
  intros Hx Hy Hx0 [Hy0 Hy8].
  destruct (F2R_pos_inv y Hy0) as (my & ey & ->).
  pose proof (fin_finite _ _ _ _ _ Hy) as By.
  destruct (fin_inv _ _ x Hx) as [[sx ->]|(sx & mx & ex & -> & Bx)].
  - cbn [Flt.fmod]. split; [exact Hx|]. exists 0. change (F2R (S754_zero sx)) with 0%R.
    split; [lia|]. split; [ring|lra].
  - assert (sx = false) as ->.
    { destruct sx; [exfalso|reflexivity]. rewrite F2R_finite in Hx0.
      pose proof (bpow_pos ex). pose proof (IZR_lt 0 (Z.pos mx) ltac:(lia)).
      assert (0 < IZR (Z.pos mx) * bpow ex)%R by (apply Rmult_lt_0_compat; lra). lra. }
    cbn [Flt.fmod].
    destruct (bounded_inv _ _ mx ex Bx) as (_ & _ & Hex & Hdx & _).
    destruct (bounded_inv _ _ my ey By) as (_ & _ & Hey & Hdy & _).
    pose proof (digits2_pos_bounds mx) as [_ Ux]. pose proof (digits2_pos_bounds my) as [_ Uy].
    assert (Ux' : Z.pos mx < 2 ^ 53).
    { eapply Z.lt_le_trans; [exact Ux|]. apply pow2_le. unfold Flt.prec64 in *. lia. }
    assert (Uy' : Z.pos my < 2 ^ 53).
    { eapply Z.lt_le_trans; [exact Uy|]. apply pow2_le. unfold Flt.prec64 in *. lia. }
    set (e := Z.min ex ey).
    set (a := Z.pos mx * 2 ^ (ex - e)). set (b := Z.pos my * 2 ^ (ey - e)).
    pose proof (pow2_pos (ex - e) ltac:(unfold e; lia)) as Hpa.
    pose proof (pow2_pos (ey - e) ltac:(unfold e; lia)) as Hpb.
    assert (Ha : 0 < a) by (unfold a; lia). assert (Hb : 0 < b) by (unfold b; lia).
    pose proof (Z.mod_pos_bound a b Hb) as Hr.
    pose proof (Z.div_mod a b ltac:(lia)) as Hdiv.
    assert (Hk : 0 <= a / b) by (apply Z.div_pos; lia).
    assert (HX : F2R (S754_finite false mx ex) = (IZR a * bpow e)%R).
    { rewrite F2R_finite, Rmult_1_l. unfold a. rewrite mult_IZR, <- bpow_IZR by (unfold e; lia).
      rewrite Rmult_assoc, <- bpow_plus. do 2 f_equal. lia. }
    assert (HY : F2R (S754_finite false my ey) = (IZR b * bpow e)%R).
    { rewrite F2R_finite, Rmult_1_l. unfold b. rewrite mult_IZR, <- bpow_IZR by (unfold e; lia).
      rewrite Rmult_assoc, <- bpow_plus. do 2 f_equal. lia. }
    pose proof (bpow_pos e) as Hpe.
    assert (Hval : (IZR (a mod b) * bpow e = IZR a * bpow e - IZR (a / b) * (IZR b * bpow e))%R).
    { rewrite Hdiv at 2. rewrite plus_IZR, mult_IZR. ring. }
    assert (Hlt : (IZR (a mod b) * bpow e < IZR b * bpow e)%R).
    { apply Rmult_lt_compat_r; [lra|]. apply IZR_lt. lia. }
    assert (Hsmall : a mod b < 2 ^ 53).
    { destruct (Z.le_ge_cases ex ey).
      - assert (a = Z.pos mx) as Ea
          by (unfold a; replace (ex - e) with 0 by (unfold e; lia); lia).
        pose proof (Z.mod_le a b ltac:(lia) Hb). lia.
      - assert (b = Z.pos my) as Eb
          by (unfold b; replace (ey - e) with 0 by (unfold e; lia); lia).
        lia. }
    rewrite HX, HY in *.
    destruct (a mod b) as [|p|p] eqn:Er; [| |lia]; cbn [binary_normalize].
    + split; [apply fin_zero|]. exists (a / b). split; [exact Hk|].
      simpl F2R. split; [|lra]. rewrite <- Hval. simpl. ring.
    + destruct (binary_round_exact _ _ prec64_pos emax64_gt false p e) as [Hf HF].
      * pose proof (digits2_pos_bounds p) as [Lp _].
        assert (Z.pos (digits2_pos p) <= 53).
        { destruct (Z.le_gt_cases (Z.pos (digits2_pos p)) 53) as [|Hgt]; [assumption|exfalso].
          pose proof (pow2_le 53 (Z.pos (digits2_pos p) - 1) ltac:(lia)). lia. }
        unfold fexp, emin, Flt.prec64, Flt.emax64 in *. unfold e. lia.
      * apply Rlt_le_trans with (2 := bpow_emax64). lra.
      * split; [exact Hf|]. exists (a / b). split; [exact Hk|].
        rewrite HF, Rmult_1_l. split; [exact Hval|]. split; [|exact Hlt].
        apply Rmult_le_pos; [apply IZR_le; lia|lra].
Qed.

(** *** Constants *)

Lemma fin32_of_int_0 : fin32 (Flt.float_of_int 0). Proof. split; reflexivity. Qed.
Lemma fin32_of_int_1 : fin32 (Flt.float_of_int 1). Proof. split; reflexivity. Qed.
Lemma fin32_of_int_2 : fin32 (Flt.float_of_int 2). Proof. split; reflexivity. Qed.
Lemma fin32_of_int_4 : fin32 (Flt.float_of_int 4). Proof. split; reflexivity. Qed.
Lemma fin32_of_int_6 : fin32 (Flt.float_of_int 6). Proof. split; reflexivity. Qed.

Lemma fin64_of_int n : 0 <= n <= 6 -> fin64 (Flt.double_of_int n).
Proof.
  intros H.
  assert (n = 0 \/ n = 1 \/ n = 2 \/ n = 3 \/ n = 4 \/ n = 5 \/ n = 6) as Hn by lia.
  repeat (destruct Hn as [->|Hn]; [split; reflexivity|]). subst n. split; reflexivity.
Qed.

Ltac eval_const :=
  match goal with
  | |- F2R ?c = _ =>
      let v := eval vm_compute in c in
      change c with v; unfold F2R, bpow; simpl powerRZ; lra
  end.

Lemma F2R_float_of_int_0 : F2R (Flt.float_of_int 0) = 0%R. Proof. reflexivity. Qed.
Lemma F2R_float_of_int_1 : F2R (Flt.float_of_int 1) = 1%R. Proof. eval_const. Qed.
Lemma F2R_float_of_int_2 : F2R (Flt.float_of_int 2) = 2%R. Proof. eval_const. Qed.
Lemma F2R_float_of_int_4 : F2R (Flt.float_of_int 4) = 4%R. Proof. eval_const. Qed.
Lemma F2R_float_of_int_6 : F2R (Flt.float_of_int 6) = 6%R. Proof. eval_const. Qed.

Lemma F2R_double_of_int_0 : F2R (Flt.double_of_int 0) = 0%R. Proof. reflexivity. Qed.
Lemma F2R_double_of_int_1 : F2R (Flt.double_of_int 1) = 1%R. Proof. eval_const. Qed.
Lemma F2R_double_of_int_2 : F2R (Flt.double_of_int 2) = 2%R. Proof. eval_const. Qed.
Lemma F2R_double_of_int_3 : F2R (Flt.double_of_int 3) = 3%R. Proof. eval_const. Qed.
Lemma F2R_double_of_int_4 : F2R (Flt.double_of_int 4) = 4%R. Proof. eval_const. Qed.
Lemma F2R_double_of_int_5 : F2R (Flt.double_of_int 5) = 5%R. Proof. eval_const. Qed.
Lemma F2R_double_of_int_6 : F2R (Flt.double_of_int 6) = 6%R. Proof. eval_const. Qed.

(** ** The hexagon of hues *)

Ltac split_R :=
  unfold hex_r, hex_g, hex_b, clamp01, Rmax, Rmin, Rabs in *;
  repeat match goal with
         | |- context [Rle_dec ?a ?b] => destruct (Rle_dec a b)
         | |- context [Rcase_abs ?a] => destruct (Rcase_abs a)
         | H : context [Rle_dec ?a ?b] |- _ => destruct (Rle_dec a b)
         | H : context [Rcase_abs ?a] |- _ => destruct (Rcase_abs a)
         end;
  try lra.

Lemma clamp01_range x : (0 <= clamp01 x <= 1)%R.
Proof. split_R. Qed.

Lemma clamp01_lipschitz a b e :
  (- e <= a - b <= e)%R -> (- e <= clamp01 a - clamp01 b <= e)%R.
Proof. intros H. split_R. Qed.

Lemma hex_r_range t : (0 <= hex_r t <= 1)%R.
Proof. apply clamp01_range. Qed.

Lemma hex_g_range t : (0 <= hex_g t <= 1)%R.
Proof. apply clamp01_range. Qed.

Lemma hex_b_range t : (0 <= hex_b t <= 1)%R.
Proof. apply clamp01_range. Qed.

Lemma hex_r_lipschitz t t' e :
  (- e <= t - t' <= e)%R -> (- e <= hex_r t - hex_r t' <= e)%R.
Proof. intros H. unfold hex_r. apply clamp01_lipschitz. split_R. Qed.

Lemma hex_g_lipschitz t t' e :
  (- e <= t - t' <= e)%R -> (- e <= hex_g t - hex_g t' <= e)%R.
Proof. intros H. unfold hex_g. apply clamp01_lipschitz. split_R. Qed.

Lemma hex_b_lipschitz t t' e :
  (- e <= t - t' <= e)%R -> (- e <= hex_b t - hex_b t' <= e)%R.
Proof. intros H. unfold hex_b. apply clamp01_lipschitz. split_R. Qed.

(** The shares in each of the six sectors. *)
Lemma hex_sector t :
  ((0 <= t <= 1 -> hex_r t = 1 /\ hex_g t = t /\ hex_b t = 0) /\
   (1 <= t <= 2 -> hex_r t = 2 - t /\ hex_g t = 1 /\ hex_b t = 0) /\
   (2 <= t <= 3 -> hex_r t = 0 /\ hex_g t = 1 /\ hex_b t = t - 2) /\
   (3 <= t <= 4 -> hex_r t = 0 /\ hex_g t = 4 - t /\ hex_b t = 1) /\
   (4 <= t <= 5 -> hex_r t = t - 4 /\ hex_g t = 0 /\ hex_b t = 1) /\
   (5 <= t <= 6 -> hex_r t = 1 /\ hex_g t = 0 /\ hex_b t = 6 - t))%R.
Proof. repeat split; split_R. Qed.

Lemma hex_wrap : hex_r 0 = hex_r 6 /\ hex_g 0 = hex_g 6 /\ hex_b 0 = hex_b 6.
Proof. repeat split; split_R. Qed.

Lemma hex_r_circle e t t' :
  (0 <= t <= 6)%R -> (0 <= t' <= 6)%R -> near e t t' ->
  (- e <= hex_r t - hex_r t' <= e)%R.
Proof.
  intros Ht Ht' [H|[H|H]].
  - now apply hex_r_lipschitz.
  - pose proof (hex_r_lipschitz t 0 t ltac:(lra)).
    pose proof (hex_r_lipschitz 6 t' (6 - t') ltac:(lra)).
    pose proof hex_wrap. lra.
  - pose proof (hex_r_lipschitz t 6 (6 - t) ltac:(lra)).
    pose proof (hex_r_lipschitz 0 t' t' ltac:(lra)).
    pose proof hex_wrap. lra.
Qed.

Lemma hex_g_circle e t t' :
  (0 <= t <= 6)%R -> (0 <= t' <= 6)%R -> near e t t' ->
  (- e <= hex_g t - hex_g t' <= e)%R.
Proof.
  intros Ht Ht' [H|[H|H]].
  - now apply hex_g_lipschitz.
  - pose proof (hex_g_lipschitz t 0 t ltac:(lra)).
    pose proof (hex_g_lipschitz 6 t' (6 - t') ltac:(lra)).
    pose proof hex_wrap. lra.
  - pose proof (hex_g_lipschitz t 6 (6 - t) ltac:(lra)).
    pose proof (hex_g_lipschitz 0 t' t' ltac:(lra)).
    pose proof hex_wrap. lra.
Qed.

Lemma hex_b_circle e t t' :
  (0 <= t <= 6)%R -> (0 <= t' <= 6)%R -> near e t t' ->
  (- e <= hex_b t - hex_b t' <= e)%R.
Proof.
  intros Ht Ht' [H|[H|H]].
  - now apply hex_b_lipschitz.
  - pose proof (hex_b_lipschitz t 0 t ltac:(lra)).
    pose proof (hex_b_lipschitz 6 t' (6 - t') ltac:(lra)).
    pose proof hex_wrap. lra.
  - pose proof (hex_b_lipschitz t 6 (6 - t) ltac:(lra)).
    pose proof (hex_b_lipschitz 0 t' t' ltac:(lra)).
    pose proof hex_wrap. lra.
Qed.

(** The triangle wave [1 - |t mod 2 - 1|] in the sector of [t]. *)
Lemma wave_sector t f (k j : Z) :
  f = (t - 2 * IZR k)%R -> (0 <= f < 2)%R ->
  0 <= j <= 5 -> (IZR j <= t <= IZR j + 1)%R ->
  (1 - Rabs (f - 1) = if Z.even j then t - IZR j else IZR j + 1 - t)%R.
Proof.
  intros -> Hf Hj Ht.
  assert (H1 : 2 * k <= j + 1).
  { apply le_IZR. rewrite plus_IZR, mult_IZR. lra. }
  assert (H2 : j < 2 * k + 2).
  { apply lt_IZR. rewrite plus_IZR, mult_IZR. lra. }
  assert (Hc : (j = 2 * k \/ j = 2 * k + 1) \/ (j + 1 = 2 * k)) by lia.
  destruct Hc as [[->| ->]| Hc].
  - rewrite Z.even_mul. simpl orb. cbv iota. rewrite mult_IZR in *. split_R.
  - rewrite Z.even_add, Z.even_mul. simpl. rewrite plus_IZR, mult_IZR in *. split_R.
  - assert (Ej : j = 2 * k - 1) by lia. subst j.
    rewrite Z.even_sub, Z.even_mul. simpl. rewrite minus_IZR, mult_IZR in *. split_R.
Qed.

(** ** Accuracy of the colour transforms *)

(** Correct roundings in binary32 and binary64, with the numbers written
    out. *)
Lemma r32_nonneg eta x z :
  rounds32 eta x z -> (0 <= x)%R ->
  fin32 z /\ (0 <= F2R z)%R /\
  ((1 - / 16777216) * x - eta <= F2R z <= (1 + / 16777216) * x + eta)%R /\
  (forall w, fin32 w -> (x <= F2R w)%R -> (F2R z <= F2R w)%R).
Proof.
  intros H Hx. pose proof (rounds_nonneg _ _ _ _ _ H Hx) as H'.
  change (bpow (- Flt.prec32)) with u32 in H'. now rewrite u32_eq in H'.
Qed.

Lemma r32_nonpos eta x z :
  rounds32 eta x z -> (x <= 0)%R ->
  fin32 z /\ (F2R z <= 0)%R /\
  ((1 + / 16777216) * x - eta <= F2R z <= (1 - / 16777216) * x + eta)%R.
Proof.
  intros H Hx. pose proof (rounds_nonpos _ _ _ _ _ H Hx) as H'.
  change (bpow (- Flt.prec32)) with u32 in H'. now rewrite u32_eq in H'.
Qed.

Lemma r32_abs eta x z B :
  rounds32 eta x z -> (- B <= x <= B)%R ->
  fin32 z /\ (x - (B / 16777216 + eta) <= F2R z <= x + (B / 16777216 + eta))%R.
Proof.
  intros H Hx. destruct (Rle_or_lt 0 x) as [H0|H0].
  - destruct (r32_nonneg _ _ _ H H0) as (Hf & _ & He & _). split; [exact Hf|lra].
  - destruct (r32_nonpos _ _ _ H ltac:(lra)) as (Hf & _ & He). split; [exact Hf|lra].
Qed.

Lemma r64_nonneg eta x z :
  rounds64 eta x z -> (0 <= x)%R ->
  fin64 z /\ (0 <= F2R z)%R /\
  ((1 - / 9007199254740992) * x - eta <= F2R z <= (1 + / 9007199254740992) * x + eta)%R /\
  (forall w, fin64 w -> (x <= F2R w)%R -> (F2R z <= F2R w)%R).
Proof.
  intros H Hx. pose proof (rounds_nonneg _ _ _ _ _ H Hx) as H'.
  change (bpow (- Flt.prec64)) with u64 in H'. now rewrite u64_eq in H'.
Qed.

Lemma r64_nonpos eta x z :
  rounds64 eta x z -> (x <= 0)%R ->
  fin64 z /\ (F2R z <= 0)%R /\
  ((1 + / 9007199254740992) * x - eta <= F2R z <= (1 - / 9007199254740992) * x + eta)%R.
Proof.
  intros H Hx. pose proof (rounds_nonpos _ _ _ _ _ H Hx) as H'.
  change (bpow (- Flt.prec64)) with u64 in H'. now rewrite u64_eq in H'.
Qed.

Lemma r64_abs eta x z B :
  rounds64 eta x z -> (- B <= x <= B)%R ->
  fin64 z /\
  (x - (B / 9007199254740992 + eta) <= F2R z <= x + (B / 9007199254740992 + eta))%R.
Proof.
  intros H Hx. destruct (Rle_or_lt 0 x) as [H0|H0].
  - destruct (r64_nonneg _ _ _ H H0) as (Hf & _ & He & _). split; [exact Hf|lra].
  - destruct (r64_nonpos _ _ _ H ltac:(lra)) as (Hf & _ & He). split; [exact Hf|lra].
Qed.

Lemma fin_is_finite prec emax x : fin prec emax x -> Flt.is_finite x = true.
Proof. now intros [_ H]. Qed.

(** The product of two approximations. *)
Lemma mul_close c c0 k k0 e1 e2 K :
  (- e1 <= c - c0 <= e1)%R -> (- e2 <= k - k0 <= e2)%R ->
  (0 <= c0 <= 1)%R -> (- K <= k <= K)%R ->
  (- (K * e1 + e2) <= c * k - c0 * k0 <= K * e1 + e2)%R.
Proof.
  intros Hc Hk Hc0 HK.
  assert (E : (c * k - c0 * k0 = (c - c0) * k + c0 * (k - k0))%R) by ring.
  assert (H1 : (- (K * e1) <= (c - c0) * k <= K * e1)%R) by nra.
  assert (H2 : (- e2 <= c0 * (k - k0) <= e2)%R) by nra.
  lra.
Qed.

(** The sector of the hue that [hsv_to_rgb] selects. *)
Lemma sector_select {A} (x : spec_float) (a0 a1 a2 a3 a4 a5 ad : A) :
  fin64 x -> (0 <= F2R x <= 6)%R ->
  exists j a,
    (if Flt.le (Flt.double_of_int 0) x && Flt.le x (Flt.double_of_int 1) then a0
     else if Flt.le (Flt.double_of_int 1) x && Flt.le x (Flt.double_of_int 2) then a1
     else if Flt.le (Flt.double_of_int 2) x && Flt.le x (Flt.double_of_int 3) then a2
     else if Flt.le (Flt.double_of_int 3) x && Flt.le x (Flt.double_of_int 4) then a3
     else if Flt.le (Flt.double_of_int 4) x && Flt.le x (Flt.double_of_int 5) then a4
     else if Flt.le (Flt.double_of_int 5) x && Flt.le x (Flt.double_of_int 6) then a5
     else ad) = a /\
    ((j = 0 /\ a = a0) \/ (j = 1 /\ a = a1) \/ (j = 2 /\ a = a2) \/
     (j = 3 /\ a = a3) \/ (j = 4 /\ a = a4) \/ (j = 5 /\ a = a5)) /\
    (IZR j <= F2R x <= IZR j + 1)%R.
Proof.
  intros Hx Hr. unfold Flt.le.
  pose proof (fun n H => SFleb_fin _ _ (Flt.double_of_int n) x (fin64_of_int n H) Hx) as L.
  pose proof (fun n H => SFleb_fin _ _ x (Flt.double_of_int n) Hx (fin64_of_int n H)) as U.
  pose proof (L 0 ltac:(lia)) as L0. pose proof (U 1 ltac:(lia)) as U1.
  pose proof (L 1 ltac:(lia)) as L1. pose proof (U 2 ltac:(lia)) as U2.
  pose proof (L 2 ltac:(lia)) as L2. pose proof (U 3 ltac:(lia)) as U3.
  pose proof (L 3 ltac:(lia)) as L3. pose proof (U 4 ltac:(lia)) as U4.
  pose proof (L 4 ltac:(lia)) as L4. pose proof (U 5 ltac:(lia)) as U5.
  pose proof (L 5 ltac:(lia)) as L5. pose proof (U 6 ltac:(lia)) as U6.
  clear L U.
  rewrite ?F2R_double_of_int_0, ?F2R_double_of_int_1, ?F2R_double_of_int_2,
    ?F2R_double_of_int_3, ?F2R_double_of_int_4, ?F2R_double_of_int_5,
    ?F2R_double_of_int_6 in *.
  destruct (SFleb (Flt.double_of_int 0) x); [|lra].
  destruct (SFleb x (Flt.double_of_int 1)).
  { exists 0, a0. split; [reflexivity|]. split; [tauto|simpl; lra]. }
  destruct (SFleb (Flt.double_of_int 1) x); [|lra].
  destruct (SFleb x (Flt.double_of_int 2)).
  { exists 1, a1. split; [reflexivity|]. split; [tauto|simpl; lra]. }
  destruct (SFleb (Flt.double_of_int 2) x); [|lra].
  destruct (SFleb x (Flt.double_of_int 3)).
  { exists 2, a2. split; [reflexivity|]. split; [tauto|simpl; lra]. }
  destruct (SFleb (Flt.double_of_int 3) x); [|lra].
  destruct (SFleb x (Flt.double_of_int 4)).
  { exists 3, a3. split; [reflexivity|]. split; [tauto|simpl; lra]. }
  destruct (SFleb (Flt.double_of_int 4) x); [|lra].
  destruct (SFleb x (Flt.double_of_int 5)).
  { exists 4, a4. split; [reflexivity|]. split; [tauto|simpl; lra]. }
  destruct (SFleb (Flt.double_of_int 5) x); [|lra].
  destruct (SFleb x (Flt.double_of_int 6)); [|lra].
  exists 5, a5. split; [reflexivity|]. split; [tauto|simpl; lra].
Qed.

Lemma Rabs_close x y e :
  (- e <= x - y <= e)%R -> (- e <= Rabs x - Rabs y <= e)%R.
Proof. intros H. split_R. Qed.

Lemma Rabs_unit x : (-1 <= x <= 1)%R -> (0 <= Rabs x <= 1)%R.
Proof. intros H. split_R. Qed.

Lemma prod_bound a b K : (0 <= a <= 1)%R -> (- K <= b <= K)%R -> (- K <= a * b <= K)%R.
Proof. intros Ha Hb. nra. Qed.

(** A channel of the result of [hsv_to_rgb]: the sum of its share of the
    chroma and of the part all the channels have. *)
Lemma channel_out sel diff k c0 V :
  fin32 sel -> fin32 diff ->
  (- (8 / 16777216) <= F2R sel - c0 * k <= 8 / 16777216)%R ->
  (- (3 / 16777216) <= F2R diff - (V - c0) <= 3 / 16777216)%R ->
  (0 <= c0 <= 1)%R -> (0 <= k <= 1)%R -> (0 <= V <= 1)%R -> (c0 <= V)%R ->
  fin32 (Flt.fadd sel diff) /\
  (- (16 / 16777216) <= F2R (Flt.fadd sel diff) - (V - c0 + c0 * k) <= 16 / 16777216)%R.
Proof.
  intros Fs Fd Hs Hd Hc Hk HV HcV.
  assert (Hck : (0 <= c0 * k <= 1)%R) by nra.
  set (ck := (c0 * k)%R) in *.
  assert (R : rounds32 0 (F2R sel + F2R diff) (Flt.fadd sel diff))
    by (apply fadd_rounds; try assumption; lra).
  destruct (r32_abs _ _ _ 3 R ltac:(lra)) as (Fo & Oerr).
  split; [exact Fo|lra].
Qed.

Lemma rgb_of_hsv_accurate h s v out :
  fin32 h -> fin32 s -> fin32 v ->
  (0 <= F2R h <= 1)%R -> (0 <= F2R s <= 1)%R -> (0 <= F2R v <= 1)%R ->
  rgb_of_hsv h s v = out ->
  exists t : R,
    (0 <= t <= 6)%R /\ (- (7 / 16777216) <= t - 6 * F2R h <= 7 / 16777216)%R /\
    (fin32 out.1.1 /\
     (- (16 / 16777216)
      <= F2R out.1.1 - (F2R v - F2R v * F2R s + F2R v * F2R s * hex_r t)
      <= 16 / 16777216)%R) /\
    (fin32 out.1.2 /\
     (- (16 / 16777216)
      <= F2R out.1.2 - (F2R v - F2R v * F2R s + F2R v * F2R s * hex_g t)
      <= 16 / 16777216)%R) /\
    (fin32 out.2 /\
     (- (16 / 16777216)
      <= F2R out.2 - (F2R v - F2R v * F2R s + F2R v * F2R s * hex_b t)
      <= 16 / 16777216)%R).
Proof.
  intros Hh Hs Hv HH HS HV Hout.
  pose proof eta32_bound as E32. pose proof eta64_bound as E64.
  unfold rgb_of_hsv in Hout. cbv zeta in Hout.
  set (c0 := (F2R v * F2R s)%R).
  assert (Hc0 : (0 <= c0 <= 1)%R) by (unfold c0; nra).
  assert (Hc0v : (c0 <= F2R v)%R) by (unfold c0; nra).
  (* chroma *)
  set (chroma := Flt.fmul v s) in *.
  assert (Rc : rounds32 eta32 c0 chroma) by (apply fmul_rounds; try assumption; fold c0; lra).
  destruct (r32_nonneg _ _ _ Rc ltac:(lra)) as (Fc & C0 & Cerr & Cmono).
  pose proof (Cmono v Hv Hc0v) as Cv.
  (* _h *)
  destruct (to_double_exact h Hh) as [Fhd Ehd].
  set (p6 := Flt.dmul (Flt.to_double h) (Flt.double_of_int 6)) in *.
  assert (Rp : rounds64 eta64 (F2R h * 6) p6).
  { rewrite <- Ehd, <- F2R_double_of_int_6.
    apply dmul_rounds; [exact Fhd|apply fin64_of_int; lia|].
    rewrite Ehd, F2R_double_of_int_6. lra. }
  destruct (r64_nonneg _ _ _ Rp ltac:(lra)) as (Fp & P0 & Perr & Pmono).
  pose proof (Pmono (Flt.double_of_int 6) (fin64_of_int 6 ltac:(lia))
                ltac:(rewrite F2R_double_of_int_6; lra)) as P6.
  rewrite F2R_double_of_int_6 in P6.
  set (_h := Flt.to_float p6) in *.
  assert (Rh : rounds32 eta32 (F2R p6) _h)
    by (apply to_float_rounds; [exact (fin_is_finite _ _ _ Fp)|lra]).
  destruct (r32_nonneg _ _ _ Rh P0) as (Fh & T0 & Terr & Tmono).
  pose proof (Tmono (Flt.float_of_int 6) fin32_of_int_6
                ltac:(rewrite F2R_float_of_int_6; lra)) as T6.
  rewrite F2R_float_of_int_6 in T6.
  destruct (to_double_exact _h Fh) as [Fh6 Eh6].
  set (h6 := Flt.to_double _h) in *.
  set (t := F2R _h) in *.
  (* fmod *)
  destruct (fmod_exact h6 (Flt.double_of_int 2) Fh6 (fin64_of_int 2 ltac:(lia))
              ltac:(lra) ltac:(rewrite F2R_double_of_int_2; lra))
    as (Ff & k & Hk & Fval & Frange).
  rewrite F2R_double_of_int_2 in Fval, Frange.
  set (f := Flt.fmod h6 (Flt.double_of_int 2)) in *.
  (* fmod - 1 *)
  set (f1 := Flt.dsub f (Flt.double_of_int 1)) in *.
  assert (Rf1 : rounds64 0 (F2R f - 1) f1).
  { rewrite <- F2R_double_of_int_1.
    apply dsub_rounds; [exact Ff|apply fin64_of_int; lia|].
    rewrite F2R_double_of_int_1. lra. }
  destruct (r64_abs _ _ _ 1 Rf1 ltac:(lra)) as (Ff1 & F1err).
  destruct (SFabs_fin _ _ f1 Ff1) as [Fa Ea].
  change (SFabs f1) with (Flt.fabs f1) in Fa, Ea.
  set (a := Flt.fabs f1) in *.
  pose proof (Rabs_close (F2R f1) (F2R f - 1) (1 / 9007199254740992) ltac:(lra)) as Aerr.
  rewrite <- Ea in Aerr.
  pose proof (Rabs_unit (F2R f - 1) ltac:(lra)) as Hwave.
  set (wave := Rabs (F2R f - 1)) in *.
  (* 1 - |fmod - 1| *)
  set (wv := Flt.dsub (Flt.double_of_int 1) a) in *.
  assert (Rw : rounds64 0 (1 - F2R a) wv).
  { rewrite <- F2R_double_of_int_1.
    apply dsub_rounds; [apply fin64_of_int; lia|exact Fa|].
    rewrite F2R_double_of_int_1. lra. }
  destruct (r64_abs _ _ _ 2 Rw ltac:(lra)) as (Fw & Werr).
  (* X *)
  destruct (to_double_exact chroma Fc) as [Fcd Ecd].
  set (xd := Flt.dmul (Flt.to_double chroma) wv) in *.
  assert (HCV : (F2R chroma <= 1)%R) by lra.
  pose proof (prod_bound (F2R chroma) (F2R wv) 2 ltac:(lra) ltac:(lra)) as HCW.
  assert (Rxd : rounds64 eta64 (F2R chroma * F2R wv) xd).
  { rewrite <- Ecd. apply dmul_rounds; [exact Fcd|exact Fw|]. rewrite Ecd. lra. }
  destruct (r64_abs _ _ _ 2 Rxd HCW) as (Fxd & Xderr).
  set (X := Flt.to_float xd) in *.
  assert (RX : rounds32 eta32 (F2R xd) X)
    by (apply to_float_rounds; [exact (fin_is_finite _ _ _ Fxd)|lra]).
  destruct (r32_abs _ _ _ 3 RX ltac:(lra)) as (FX & Xerr).
  pose proof (mul_close (F2R chroma) c0 (F2R wv) (1 - wave)
                (2 / 16777216) (3 / 9007199254740992) 2
                ltac:(lra) ltac:(lra) Hc0 ltac:(lra)) as Hprod.
  assert (HX : (- (8 / 16777216) <= F2R X - c0 * (1 - wave) <= 8 / 16777216)%R) by lra.
  assert (HC : (- (8 / 16777216) <= F2R chroma - c0 * 1 <= 8 / 16777216)%R) by lra.
  assert (HZ : (- (8 / 16777216) <= F2R (Flt.float_of_int 0) - c0 * 0 <= 8 / 16777216)%R)
    by (rewrite F2R_float_of_int_0; lra).
  (* diff *)
  set (diff := Flt.fsub v chroma) in *.
  assert (Rd : rounds32 0 (F2R v - F2R chroma) diff)
    by (apply fsub_rounds; try assumption; lra).
  destruct (r32_nonneg _ _ _ Rd ltac:(lra)) as (Fd & D0 & Derr & _).
  assert (HD : (- (3 / 16777216) <= F2R diff - (F2R v - c0) <= 3 / 16777216)%R) by lra.
  (* the sector *)
  exists t. split; [lra|]. split; [lra|].
  pose proof (hex_sector t) as (S0 & S1 & S2 & S3 & S4 & S5).
  pose proof (fun j Hj Ht => wave_sector t (F2R f) k j ltac:(rewrite Fval, Eh6; ring)
                               Frange Hj Ht) as Hwv.
  fold wave in Hwv.
  pose proof (channel_out chroma diff 1 c0 (F2R v) Fc Fd HC HD Hc0 ltac:(lra) HV Hc0v) as OC.
  pose proof (channel_out (Flt.float_of_int 0) diff 0 c0 (F2R v) fin32_of_int_0 Fd HZ HD Hc0
                ltac:(lra) HV Hc0v) as OZ.
  pose proof (channel_out X diff (1 - wave) c0 (F2R v) FX Fd HX HD Hc0 ltac:(lra) HV Hc0v) as OX.
  fold c0.
  destruct (sector_select h6
              (chroma, X, Flt.float_of_int 0) (X, chroma, Flt.float_of_int 0)
              (Flt.float_of_int 0, chroma, X) (Flt.float_of_int 0, X, chroma)
              (X, Flt.float_of_int 0, chroma) (chroma, Flt.float_of_int 0, X)
              (Flt.float_of_int 0, Flt.float_of_int 0, Flt.float_of_int 0)
              Fh6 ltac:(lra)) as (j & tr & Htr & Hcase & Hj).
  rewrite Htr in Hout. rewrite Eh6 in Hj. fold t in Hj.
  destruct Hcase as [[-> ->]|[[-> ->]|[[-> ->]|[[-> ->]|[[-> ->]|[-> ->]]]]]];
    cbv iota beta in Hout; subst out; cbn [fst snd];
    simpl IZR in Hj.
  - destruct (S0 ltac:(lra)) as (-> & -> & ->).
    rewrite (Hwv 0 ltac:(lia) ltac:(simpl; lra)) in OX. simpl in OX.
    replace (t - 0)%R with t in OX by ring. auto.
  - destruct (S1 ltac:(lra)) as (-> & -> & ->).
    rewrite (Hwv 1 ltac:(lia) ltac:(simpl; lra)) in OX. simpl in OX.
    replace (1 + 1 - t)%R with (2 - t)%R in OX by ring. auto.
  - destruct (S2 ltac:(lra)) as (-> & -> & ->).
    rewrite (Hwv 2 ltac:(lia) ltac:(simpl; lra)) in OX. simpl in OX. auto.
  - destruct (S3 ltac:(lra)) as (-> & -> & ->).
    rewrite (Hwv 3 ltac:(lia) ltac:(simpl; lra)) in OX. simpl in OX.
    replace (3 + 1 - t)%R with (4 - t)%R in OX by ring. auto.
  - destruct (S4 ltac:(lra)) as (-> & -> & ->).
    rewrite (Hwv 4 ltac:(lia) ltac:(simpl; lra)) in OX. simpl in OX. auto.
  - destruct (S5 ltac:(lra)) as (-> & -> & ->).
    rewrite (Hwv 5 ltac:(lia) ltac:(simpl; lra)) in OX. simpl in OX.
    replace (5 + 1 - t)%R with (6 - t)%R in OX by ring. auto.
Qed.

(** *** From RGB to HSV, on the reals *)

Lemma div_unit d v : (0 <= d <= v)%R -> (0 < v)%R -> (0 <= d / v <= 1)%R.
Proof.
  intros Hd Hv. split.
  - apply Rmult_le_pos; [lra|]. apply Rlt_le. now apply Rinv_0_lt_compat.
  - apply Rmult_le_reg_r with v; [exact Hv|]. unfold Rdiv.
    rewrite Rmult_assoc, Rinv_l by lra. lra.
Qed.

(** The error of a quotient, multiplied by the divisor. *)
Lemma quot_times s d v e :
  (0 < v <= 1)%R -> (0 <= e)%R -> (- e <= s - d / v <= e)%R -> (- e <= s * v - d <= e)%R.
Proof.
  intros Hv He Hs.
  assert (E : (s * v - d = (s - d / v) * v)%R) by (field; lra).
  rewrite E. nra.
Qed.

(** The quotient of two differences that were rounded. *)
Lemma quotient_close X W N D u :
  (0 <= u <= / 4)%R -> (0 < W)%R -> (- W <= X <= W)%R ->
  (Rabs (N - X) <= u * Rabs X)%R ->
  ((1 - u) * W <= D <= (1 + u) * W)%R ->
  (- (3 * u) <= N / D - X / W <= 3 * u)%R /\ (-1 <= X / W <= 1)%R.
Proof.
  intros Hu HW HX HN HD.
  assert (HD0 : (0 < D)%R) by nra.
  assert (HXa : (Rabs X <= W)%R) by (apply Rabs_le; lra).
  pose proof (Rabs_pos X) as HXp.
  assert (HN' : (- (u * W) <= N - X <= u * W)%R).
  { apply Rabs_bound. apply Rle_trans with (1 := HN). nra. }
  assert (Hx : (-1 <= X / W <= 1)%R).
  { split.
    - apply Rmult_le_reg_r with W; [exact HW|]. unfold Rdiv.
      rewrite Rmult_assoc, Rinv_l by lra. lra.
    - apply Rmult_le_reg_r with W; [exact HW|]. unfold Rdiv.
      rewrite Rmult_assoc, Rinv_l by lra. lra. }
  split; [|exact Hx].
  set (x := (X / W)%R) in *. set (y := (N / D)%R).
  assert (EX : (X = x * W)%R) by (unfold x; field; lra).
  assert (EN : (N = y * D)%R) by (unfold y; field; lra).
  assert (Hnum : (- (2 * u * W) <= (y - x) * D <= 2 * u * W)%R).
  { assert (E : ((y - x) * D = (N - X) + x * (W - D))%R) by (rewrite EN, EX; ring).
    rewrite E.
    assert (- (u * W) <= x * (W - D) <= u * W)%R; [|lra].
    assert (- (u * W) <= W - D <= u * W)%R by lra.
    split; nra. }
  assert (H3 : (2 * u * W <= 3 * u * D)%R) by nra.
  split; nra.
Qed.

(** The hue of a colour whose largest channel is red, green or blue:
    [x] is the quotient the code computes, [t] six times the hue. *)
Lemma hue_red R G B M x :
  (M <= G <= R)%R -> (M <= B <= R)%R -> (M = G \/ M = B) -> (M < R)%R ->
  ((R - M) * x = G - B)%R ->
  exists t, (0 <= t <= 6)%R /\ (t = x \/ t = x + 6)%R /\
    (R = M + (R - M) * hex_r t)%R /\ (G = M + (R - M) * hex_g t)%R /\
    (B = M + (R - M) * hex_b t)%R.
Proof.
  intros HG HB HM HW Hx.
  destruct (Rle_or_lt B G) as [Hc|Hc].
  - assert (M = B) by lra. subst M.
    assert (0 <= x <= 1)%R by (split; nra).
    exists x. destruct (hex_sector x) as (S & _). destruct (S ltac:(lra)) as (-> & -> & ->).
    repeat split; lra.
  - assert (M = G) by lra. subst M.
    assert (-1 <= x < 0)%R by (split; nra).
    exists (x + 6)%R. destruct (hex_sector (x + 6)) as (_ & _ & _ & _ & _ & S).
    destruct (S ltac:(lra)) as (-> & -> & ->).
    repeat split; lra.
Qed.

Lemma hue_green R G B M x :
  (M <= R < G)%R -> (M <= B <= G)%R -> (M = R \/ M = B) ->
  ((G - M) * x = B - R)%R ->
  exists t, (0 <= t <= 6)%R /\ (t = x + 2)%R /\
    (R = M + (G - M) * hex_r t)%R /\ (G = M + (G - M) * hex_g t)%R /\
    (B = M + (G - M) * hex_b t)%R.
Proof.
  intros HR HB HM Hx.
  destruct (Rle_or_lt R B) as [Hc|Hc].
  - assert (M = R) by lra. subst M.
    assert (0 <= x <= 1)%R by (split; nra).
    exists (x + 2)%R. destruct (hex_sector (x + 2)) as (_ & _ & S & _).
    destruct (S ltac:(lra)) as (-> & -> & ->).
    repeat split; lra.
  - assert (M = B) by lra. subst M.
    assert (-1 <= x < 0)%R by (split; nra).
    exists (x + 2)%R. destruct (hex_sector (x + 2)) as (_ & S & _).
    destruct (S ltac:(lra)) as (-> & -> & ->).
    repeat split; lra.
Qed.

Lemma hue_blue R G B M x :
  (M <= R < B)%R -> (M <= G < B)%R -> (M = R \/ M = G) ->
  ((B - M) * x = R - G)%R ->
  exists t, (0 <= t <= 6)%R /\ (t = x + 4)%R /\
    (R = M + (B - M) * hex_r t)%R /\ (G = M + (B - M) * hex_g t)%R /\
    (B = M + (B - M) * hex_b t)%R.
Proof.
  intros HR HG HM Hx.
  destruct (Rle_or_lt G R) as [Hc|Hc].
  - assert (M = G) by lra. subst M.
    assert (0 <= x <= 1)%R by (split; nra).
    exists (x + 4)%R. destruct (hex_sector (x + 4)) as (_ & _ & _ & _ & S & _).
    destruct (S ltac:(lra)) as (-> & -> & ->).
    repeat split; lra.
  - assert (M = R) by lra. subst M.
    assert (-1 <= x < 0)%R by (split; nra).
    exists (x + 4)%R. destruct (hex_sector (x + 4)) as (_ & _ & _ & S & _).
    destruct (S ltac:(lra)) as (-> & -> & ->).
    repeat split; lra.
Qed.

(** *** From RGB to HSV, on floats *)

Lemma three_way_max_spec a b d :
  fin32 a -> fin32 b -> fin32 d ->
  fin32 (three_way_max a b d) /\
  (F2R a <= F2R (three_way_max a b d))%R /\
  (F2R b <= F2R (three_way_max a b d))%R /\
  (F2R d <= F2R (three_way_max a b d))%R.
Proof.
  intros Ha Hb Hd. unfold three_way_max, Flt.gt.
  pose proof (SFltb_fin _ _ b a Hb Ha) as H1.
  pose proof (SFltb_fin _ _ d a Hd Ha) as H2.
  pose proof (SFltb_fin _ _ d b Hd Hb) as H3.
  destruct (SFltb b a), (SFltb d a), (SFltb d b); (split; [assumption|lra]).
Qed.

Lemma three_way_min_spec a b d :
  fin32 a -> fin32 b -> fin32 d ->
  fin32 (three_way_min a b d) /\
  (F2R (three_way_min a b d) <= F2R a)%R /\
  (F2R (three_way_min a b d) <= F2R b)%R /\
  (F2R (three_way_min a b d) <= F2R d)%R /\
  (F2R (three_way_min a b d) = F2R a \/ F2R (three_way_min a b d) = F2R b \/
   F2R (three_way_min a b d) = F2R d).
Proof.
  intros Ha Hb Hd. unfold three_way_min, Flt.lt.
  pose proof (SFltb_fin _ _ a b Ha Hb) as H1.
  pose proof (SFltb_fin _ _ a d Ha Hd) as H2.
  pose proof (SFltb_fin _ _ b d Hb Hd) as H3.
  destruct (SFltb a b), (SFltb a d), (SFltb b d); (split; [assumption|lra]).
Qed.

(** The quotient of a difference of two channels by [diff]. *)
Lemma hue_quotient n1 n2 diff W :
  fin32 n1 -> fin32 n2 -> fin32 diff ->
  (0 < W <= 1)%R -> (- W <= F2R n1 - F2R n2 <= W)%R ->
  ((1 - / 16777216) * W <= F2R diff <= (1 + / 16777216) * W)%R ->
  fin32 (Flt.fdiv (Flt.fsub n1 n2) diff) /\
  (- (6 / 16777216) <= F2R (Flt.fdiv (Flt.fsub n1 n2) diff) - (F2R n1 - F2R n2) / W
   <= 6 / 16777216)%R /\
  (-1 <= (F2R n1 - F2R n2) / W <= 1)%R.
Proof.
  intros H1 H2 Hd HW HX HD.
  pose proof eta32_bound as E32.
  assert (Rn : rounds32 0 (F2R n1 - F2R n2) (Flt.fsub n1 n2))
    by (apply fsub_rounds; try assumption; lra).
  destruct Rn as (Fn & En & _).
  change (bpow (- Flt.prec32)) with u32 in En. rewrite u32_eq, Rplus_0_r in En.
  destruct (quotient_close (F2R n1 - F2R n2) W (F2R (Flt.fsub n1 n2)) (F2R diff)
              (/ 16777216) ltac:(lra) ltac:(lra) HX En HD) as [Hq Hx].
  assert (Rq : rounds32 eta32 (F2R (Flt.fsub n1 n2) / F2R diff)
                 (Flt.fdiv (Flt.fsub n1 n2) diff)).
  { apply fdiv_rounds; try assumption; [nra|lra]. }
  destruct (r32_abs _ _ _ 2 Rq ltac:(lra)) as (Fq & Qerr).
  split; [exact Fq|]. split; [lra|exact Hx].
Qed.

(** The hue from the quotient: a sixth of it, plus one when negative. *)
Lemma hue_scale h0 :
  fin32 h0 -> (-2 <= F2R h0 <= 6)%R ->
  let hue := if Flt.lt h0 (Flt.float_of_int 0)
             then Flt.fadd (Flt.fdiv h0 (Flt.float_of_int 6)) (Flt.float_of_int 1)
             else Flt.fdiv h0 (Flt.float_of_int 6) in
  fin32 hue /\ (0 <= F2R hue <= 1)%R /\
  ((0 <= F2R h0 /\ - (7 / 16777216) <= 6 * F2R hue - F2R h0 <= 7 / 16777216)%R \/
   (F2R h0 < 0 /\
    - (13 / 16777216) <= 6 * F2R hue - (F2R h0 + 6) <= 13 / 16777216)%R).
Proof.
  intros Hh Hb. pose proof eta32_bound as E32.
  pose proof (SFltb_fin _ _ h0 (Flt.float_of_int 0) Hh fin32_of_int_0) as Hlt.
  rewrite F2R_float_of_int_0 in Hlt. unfold Flt.lt.
  assert (Rp : rounds32 eta32 (F2R h0 / 6) (Flt.fdiv h0 (Flt.float_of_int 6))).
  { rewrite <- F2R_float_of_int_6.
    apply fdiv_rounds; [exact Hh|exact fin32_of_int_6| |];
      rewrite F2R_float_of_int_6; lra. }
  destruct (SFltb h0 (Flt.float_of_int 0)); cbv zeta.
  - destruct (r32_nonpos _ _ _ Rp ltac:(lra)) as (Fp & P0 & Perr).
    assert (Rs : rounds32 0 (F2R (Flt.fdiv h0 (Flt.float_of_int 6)) + 1)
                   (Flt.fadd (Flt.fdiv h0 (Flt.float_of_int 6)) (Flt.float_of_int 1))).
    { rewrite <- F2R_float_of_int_1.
      apply fadd_rounds; [exact Fp|exact fin32_of_int_1|].
      rewrite F2R_float_of_int_1. lra. }
    destruct (r32_nonneg _ _ _ Rs ltac:(lra)) as (Fs & S0 & Serr & Smono).
    pose proof (Smono (Flt.float_of_int 1) fin32_of_int_1
                  ltac:(rewrite F2R_float_of_int_1; lra)) as S1.
    rewrite F2R_float_of_int_1 in S1.
    split; [exact Fs|]. split; [lra|]. right. lra.
  - destruct (r32_nonneg _ _ _ Rp ltac:(lra)) as (Fp & P0 & Perr & Pmono).
    pose proof (Pmono (Flt.float_of_int 1) fin32_of_int_1
                  ltac:(rewrite F2R_float_of_int_1; lra)) as P1.
    rewrite F2R_float_of_int_1 in P1.
    split; [exact Fp|]. split; [lra|]. left. lra.
Qed.

Lemma hsv_of_rgb_accurate r g b out :
  fin32 r -> fin32 g -> fin32 b ->
  (0 <= F2R r <= 1)%R -> (0 <= F2R g <= 1)%R -> (0 <= F2R b <= 1)%R ->
  hsv_of_rgb r g b = out ->
  fin32 out.1.1 /\ fin32 out.1.2 /\ fin32 out.2 /\
  (0 <= F2R out.1.1 <= 1)%R /\ (0 <= F2R out.1.2 <= 1)%R /\ (0 <= F2R out.2 <= 1)%R /\
  exists M t : R,
    (0 <= M <= F2R out.2)%R /\ (0 <= t <= 6)%R /\
    (- (3 / 16777216) <= F2R out.2 * F2R out.1.2 - (F2R out.2 - M) <= 3 / 16777216)%R /\
    near (20 / 16777216) (6 * F2R out.1.1) t /\
    (F2R r = M + (F2R out.2 - M) * hex_r t)%R /\
    (F2R g = M + (F2R out.2 - M) * hex_g t)%R /\
    (F2R b = M + (F2R out.2 - M) * hex_b t)%R.
Proof.
  intros Hr Hg Hb HR HG HB Hout.
  pose proof eta32_bound as E32.
  unfold hsv_of_rgb in Hout. cbv zeta in Hout.
  destruct (three_way_max_spec r g b Hr Hg Hb) as (Fv & Vr & Vg & Vb).
  destruct (three_way_min_spec r g b Hr Hg Hb) as (Fm & Mr & Mg & Mb & Mcase).
  set (value := three_way_max r g b) in *. set (mn := three_way_min r g b) in *.
  assert (HV : (0 <= F2R value <= 1)%R).
  { split; [lra|]. unfold value, three_way_max.
    destruct (Flt.gt r g), (Flt.gt r b), (Flt.gt g b); lra. }
  assert (HM : (0 <= F2R mn)%R) by (destruct Mcase as [->|[->| ->]]; lra).
  set (V := F2R value) in *. set (M := F2R mn) in *.
  (* diff *)
  set (diff := Flt.fsub value mn) in *.
  assert (Rd : rounds32 0 (V - M) diff) by (apply fsub_rounds; try assumption; fold V M; lra).
  destruct (r32_nonneg _ _ _ Rd ltac:(lra)) as (Fd & D0 & Derr & Dmono).
  pose proof (Dmono value Fv ltac:(fold V; lra)) as DV. fold V in DV.
  (* saturation *)
  set (sat := if Flt.gt value (Flt.float_of_int 0) then Flt.fdiv diff value
              else Flt.float_of_int 0) in *.
  assert (Hsat : fin32 sat /\ (0 <= F2R sat <= 1)%R /\
                 (- (3 / 16777216) <= V * F2R sat - (V - M) <= 3 / 16777216)%R).
  { unfold sat, Flt.gt.
    pose proof (SFltb_fin _ _ (Flt.float_of_int 0) value fin32_of_int_0 Fv) as Hgt.
    rewrite F2R_float_of_int_0 in Hgt. fold V in Hgt.
    destruct (SFltb (Flt.float_of_int 0) value).
    - pose proof (div_unit (F2R diff) V ltac:(lra) Hgt) as Hq.
      assert (Rs : rounds32 eta32 (F2R diff / V) (Flt.fdiv diff value))
        by (apply fdiv_rounds; try assumption; fold V; lra).
      destruct (r32_nonneg _ _ _ Rs ltac:(lra)) as (Fs & S0 & Serr & Smono).
      pose proof (Smono (Flt.float_of_int 1) fin32_of_int_1
                    ltac:(rewrite F2R_float_of_int_1; lra)) as S1.
      rewrite F2R_float_of_int_1 in S1.
      pose proof (quot_times (F2R (Flt.fdiv diff value)) (F2R diff) V (2 / 16777216)
                    ltac:(lra) ltac:(lra) ltac:(lra)) as Hsv.
      split; [exact Fs|]. split; [lra|].
      rewrite (Rmult_comm V). lra.
    - split; [exact fin32_of_int_0|]. rewrite F2R_float_of_int_0. split; lra. }
  destruct Hsat as (Fs & HS & HSV).
  (* hue *)
  set (hue :=
         if Flt.ne diff (Flt.float_of_int 0)
         then
           if Flt.lt
                (if Flt.eq value r then Flt.fdiv (Flt.fsub g b) diff
                 else if Flt.eq value g
                      then Flt.fadd (Flt.fdiv (Flt.fsub b r) diff) (Flt.float_of_int 2)
                      else Flt.fadd (Flt.fdiv (Flt.fsub r g) diff) (Flt.float_of_int 4))
                (Flt.float_of_int 0)
           then Flt.fadd
                  (Flt.fdiv
                     (if Flt.eq value r then Flt.fdiv (Flt.fsub g b) diff
                      else if Flt.eq value g
                           then Flt.fadd (Flt.fdiv (Flt.fsub b r) diff) (Flt.float_of_int 2)
                           else Flt.fadd (Flt.fdiv (Flt.fsub r g) diff) (Flt.float_of_int 4))
                     (Flt.float_of_int 6)) (Flt.float_of_int 1)
           else Flt.fdiv
                  (if Flt.eq value r then Flt.fdiv (Flt.fsub g b) diff
                   else if Flt.eq value g
                        then Flt.fadd (Flt.fdiv (Flt.fsub b r) diff) (Flt.float_of_int 2)
                        else Flt.fadd (Flt.fdiv (Flt.fsub r g) diff) (Flt.float_of_int 4))
                  (Flt.float_of_int 6)
         else Flt.float_of_int 0) in *.
  assert (Hhue : fin32 hue /\ (0 <= F2R hue <= 1)%R /\
                 exists t : R, (0 <= t <= 6)%R /\
                   near (20 / 16777216) (6 * F2R hue) t /\
                   (F2R r = M + (V - M) * hex_r t)%R /\
                   (F2R g = M + (V - M) * hex_g t)%R /\
                   (F2R b = M + (V - M) * hex_b t)%R).
  { unfold hue, Flt.ne.
    pose proof (SFeqb_fin _ _ diff (Flt.float_of_int 0) Fd fin32_of_int_0) as Hne.
    rewrite F2R_float_of_int_0 in Hne.
    destruct (SFeqb diff (Flt.float_of_int 0)); cbn [negb].
    - split; [exact fin32_of_int_0|]. rewrite F2R_float_of_int_0. split; [lra|].
      exists 0%R. split; [lra|]. split; [left; lra|].
      replace (V - M)%R with 0%R by lra. repeat split; lra.
    - assert (HW : (0 < V - M <= 1)%R) by lra.
      assert (HDW : ((1 - / 16777216) * (V - M) <= F2R diff
                     <= (1 + / 16777216) * (V - M))%R) by lra.
      unfold Flt.eq.
      pose proof (SFeqb_fin _ _ value r Fv Hr) as Er. fold V in Er.
      pose proof (SFeqb_fin _ _ value g Fv Hg) as Eg. fold V in Eg.
      destruct (SFeqb value r).
      + (* red is the largest *)
        destruct (hue_quotient g b diff (V - M) Hg Hb Fd HW ltac:(lra) HDW)
          as (Fq & Qerr & Hx).
        set (x := ((F2R g - F2R b) / (V - M))%R) in *.
        assert (Ex : ((V - M) * x = F2R g - F2R b)%R) by (unfold x; field; lra).
        destruct (hue_scale _ Fq ltac:(lra)) as (Fh & HH & Hsc).
        split; [exact Fh|]. split; [exact HH|].
        rewrite Er in *.
        destruct (hue_red (F2R r) (F2R g) (F2R b) M x ltac:(lra) ltac:(lra)
                    ltac:(lra) ltac:(lra) Ex) as (t & Ht & Htx & Cr & Cg & Cb).
        exists t. split; [exact Ht|]. split; [|auto].
        unfold near. destruct Hsc as [Hsc|Hsc]; destruct Htx as [-> | ->]; lra.
      + destruct (SFeqb value g).
        * (* green is the largest *)
          destruct (hue_quotient b r diff (V - M) Hb Hr Fd HW ltac:(lra) HDW)
            as (Fq & Qerr & Hx).
          set (x := ((F2R b - F2R r) / (V - M))%R) in *.
          assert (Ex : ((V - M) * x = F2R b - F2R r)%R) by (unfold x; field; lra).
          set (q := Flt.fdiv (Flt.fsub b r) diff) in *.
          assert (R2 : rounds32 0 (F2R q + 2) (Flt.fadd q (Flt.float_of_int 2))).
          { rewrite <- F2R_float_of_int_2.
            apply fadd_rounds; [exact Fq|exact fin32_of_int_2|].
            rewrite F2R_float_of_int_2. lra. }
          destruct (r32_abs _ _ _ 4 R2 ltac:(lra)) as (F2 & H2err).
          destruct (hue_scale _ F2 ltac:(lra)) as (Fh & HH & Hsc).
          split; [exact Fh|]. split; [exact HH|].
          rewrite Eg in *.
          destruct (hue_green (F2R r) (F2R g) (F2R b) M x ltac:(lra) ltac:(lra)
                      ltac:(lra) Ex) as (t & Ht & -> & Cr & Cg & Cb).
          exists (x + 2)%R. split; [exact Ht|]. split; [|auto].
          unfold near. destruct Hsc as [Hsc|Hsc]; lra.
        * (* blue is the largest *)
          assert (EV : V = F2R b).
          { unfold V, value, three_way_max in *.
            destruct (Flt.gt r g), (Flt.gt r b), (Flt.gt g b); try reflexivity; lra. }
          destruct (hue_quotient r g diff (V - M) Hr Hg Fd HW ltac:(lra) HDW)
            as (Fq & Qerr & Hx).
          set (x := ((F2R r - F2R g) / (V - M))%R) in *.
          assert (Ex : ((V - M) * x = F2R r - F2R g)%R) by (unfold x; field; lra).
          set (q := Flt.fdiv (Flt.fsub r g) diff) in *.
          assert (R4 : rounds32 0 (F2R q + 4) (Flt.fadd q (Flt.float_of_int 4))).
          { rewrite <- F2R_float_of_int_4.
            apply fadd_rounds; [exact Fq|exact fin32_of_int_4|].
            rewrite F2R_float_of_int_4. lra. }
          destruct (r32_abs _ _ _ 6 R4 ltac:(lra)) as (F4 & H4err).
          destruct (hue_scale _ F4 ltac:(lra)) as (Fh & HH & Hsc).
          split; [exact Fh|]. split; [exact HH|].
          rewrite EV in *.
          destruct (hue_blue (F2R r) (F2R g) (F2R b) M x ltac:(lra) ltac:(lra)
                      ltac:(lra) Ex) as (t & Ht & -> & Cr & Cg & Cb).
          exists (x + 4)%R. split; [exact Ht|]. split; [|auto].
          unfold near. destruct Hsc as [Hsc|Hsc]; lra. }
  destruct Hhue as (Fh & HH & t & Ht & Hnear & Cr & Cg & Cb).
  subst out. cbn [fst snd]. fold V.
  repeat (split; [assumption|]).
  exists M, t.
  split; [lra|]. split; [exact Ht|]. split; [lra|]. split; [exact Hnear|]. auto.
Qed.

(** *** The round trip of one pixel *)

Lemma channel_close V S M k k' o p :
  (0 <= M <= V)%R -> (V <= 1)%R ->
  (- (3 / 16777216) <= V * S - (V - M) <= 3 / 16777216)%R ->
  (- (27 / 16777216) <= k - k' <= 27 / 16777216)%R ->
  (0 <= k <= 1)%R ->
  (- (16 / 16777216) <= o - (V - V * S + V * S * k) <= 16 / 16777216)%R ->
  (p = M + (V - M) * k')%R ->
  (Rabs (o - p) <= tolerance)%R.
Proof.
  intros HM HV HSV Hk Hk1 Ho ->.
  pose proof (mul_close (V * S) (V - M) k k' (3 / 16777216) (27 / 16777216) 1
                HSV Hk ltac:(lra) ltac:(lra)) as Hprod.
  apply Rabs_le. unfold tolerance. lra.
Qed.

Lemma unit_range_fin p :
  Flt.is_float p = true -> in_unit_range p = true ->
  fin32 p /\ (0 <= F2R p <= 1)%R.
Proof.
  intros Hf Hr. unfold in_unit_range, Flt.le in Hr. apply andb_prop in Hr as [H0 H1].
  assert (Fp : fin32 p).
  { split; [exact Hf|]. destruct p as [s|[|]| |s m e]; try reflexivity; discriminate. }
  split; [exact Fp|].
  pose proof (SFleb_fin _ _ (Flt.float_of_int 0) p fin32_of_int_0 Fp) as L0.
  pose proof (SFleb_fin _ _ p (Flt.float_of_int 1) Fp fin32_of_int_1) as L1.
  rewrite H0, F2R_float_of_int_0 in L0. rewrite H1, F2R_float_of_int_1 in L1. lra.
Qed.

Lemma close_fin p q : fin32 q -> (Rabs (F2R q - F2R p) <= tolerance)%R -> close p q.
Proof. intros [Hv Hf] H. now split; [|split]. Qed.

(** A pixel with channels in [0, 1], taken to HSV and back, is within
    the tolerance of what it was. *)
Lemma pixel_round_trip r g b :
  fin32 r -> fin32 g -> fin32 b ->
  (0 <= F2R r <= 1)%R -> (0 <= F2R g <= 1)%R -> (0 <= F2R b <= 1)%R ->
  let hsv := hsv_of_rgb r g b in
  let out := rgb_of_hsv hsv.1.1 hsv.1.2 hsv.2 in
  close r out.1.1 /\ close g out.1.2 /\ close b out.2.
Proof.
  intros Hr Hg Hb HR HG HB hsv out.
  destruct (hsv_of_rgb_accurate r g b hsv Hr Hg Hb HR HG HB eq_refl)
    as (Fh & Fs & Fv & HH & HS & HV & M & t' & HM & Ht' & HSV & Hnear & Cr & Cg & Cb).
  destruct (rgb_of_hsv_accurate hsv.1.1 hsv.1.2 hsv.2 out Fh Fs Fv HH HS HV eq_refl)
    as (t & Ht & HtH & (Fr & Er) & (Fg & Eg) & (Fq & Eb)).
  assert (Hn : near (27 / 16777216) t t').
  { unfold near in *. destruct Hnear as [H|[H|H]]; lra. }
  pose proof (hex_r_circle _ t t' Ht Ht' Hn) as Kr.
  pose proof (hex_g_circle _ t t' Ht Ht' Hn) as Kg.
  pose proof (hex_b_circle _ t t' Ht Ht' Hn) as Kb.
  split; [|split]; apply close_fin; try assumption.
  - exact (channel_close _ _ _ _ _ _ _ HM ltac:(lra) HSV Kr (hex_r_range t) Er Cr).
  - exact (channel_close _ _ _ _ _ _ _ HM ltac:(lra) HSV Kg (hex_g_range t) Eg Cg).
  - exact (channel_close _ _ _ _ _ _ _ HM ltac:(lra) HSV Kb (hex_b_range t) Eb Cb).
Qed.

(** ** A loop nest that rewrites each pixel of three channels in place *)

Section PixelTransform.

Context (f : spec_float -> spec_float -> spec_float -> spec_float * spec_float * spec_float).
Context (σ : heap) (im : image) (buf : list spec_float).
Hypothesis Hok : image_ok σ im buf.
Hypothesis Hc3 : c im = 3.

Local Abbreviation transform_body :=
  (fun i j : Z =>
     c0 <- get_pixel im i j 0 ;;
     c1 <- get_pixel im i j 1 ;;
     c2 <- get_pixel im i j 2 ;;
     let '(a0, a1, a2) := f c0 c1 c2 in
     set_pixel im i j 0 a0 ;;;
     set_pixel im i j 1 a1 ;;;
     set_pixel im i j 2 a2).

Lemma transform_step i j b r g bl :
  0 <= i < w im -> 0 <= j < h im ->
  length b = length buf ->
  b !! Z.to_nat (offset im i j 0) = Some r ->
  b !! Z.to_nat (offset im i j 1) = Some g ->
  b !! Z.to_nat (offset im i j 2) = Some bl ->
  transform_body i j (<[data im := b]> σ)
  = Some (tt, <[data im :=
                  <[Z.to_nat (offset im i j 2) := (f r g bl).2]>
                    (<[Z.to_nat (offset im i j 1) := (f r g bl).1.2]>
                       (<[Z.to_nat (offset im i j 0) := (f r g bl).1.1]> b))]> σ).
Proof.
  intros Hi Hj Hl Hr Hg Hb.
  pose proof (image_ok_insert σ im buf b Hok Hl) as Hok1.
  assert (Hget : forall ch v, 0 <= ch < 3 ->
            b !! Z.to_nat (offset im i j ch) = Some v ->
            get_pixel im i j ch (<[data im := b]> σ) = Some (v, <[data im := b]> σ)).
  { intros ch v Hch Hv.
    destruct (get_pixel_inside _ _ _ Hok1 i j ch Hi Hj ltac:(lia)) as (v' & Hv' & Hgp).
    congruence. }
  cbv beta.
  rewrite (bind_Some _ _ _ _ _ (Hget 0 r ltac:(lia) Hr)).
  rewrite (bind_Some _ _ _ _ _ (Hget 1 g ltac:(lia) Hg)).
  rewrite (bind_Some _ _ _ _ _ (Hget 2 bl ltac:(lia) Hb)).
  destruct (f r g bl) as [[a0 a1] a2]. cbn [fst snd].
  rewrite (bind_Some _ _ _ _ _ (set_pixel_inside _ _ _ Hok1 i j 0 a0 Hi Hj ltac:(lia))).
  rewrite insert_insert_eq.
  set (b0 := <[Z.to_nat (offset im i j 0) := a0]> b).
  assert (Hok2 : image_ok (<[data im := b0]> σ) im b0)
    by (apply (image_ok_insert σ im buf b0 Hok); unfold b0; now rewrite length_insert).
  rewrite (bind_Some _ _ _ _ _ (set_pixel_inside _ _ _ Hok2 i j 1 a1 Hi Hj ltac:(lia))).
  rewrite insert_insert_eq.
  set (b1 := <[Z.to_nat (offset im i j 1) := a1]> b0).
  assert (Hok3 : image_ok (<[data im := b1]> σ) im b1)
    by (apply (image_ok_insert σ im buf b1 Hok); unfold b1, b0; now rewrite !length_insert).
  rewrite (set_pixel_inside _ _ _ Hok3 i j 2 a2 Hi Hj ltac:(lia)).
  now rewrite insert_insert_eq.
Qed.

(** The nest returns, with every pixel replaced by its image under [f]. *)
Lemma transform_runs :
  exists b',
    for_upto (w im) (fun i => for_upto (h im) (fun j => transform_body i j)) σ
    = Some (tt, <[data im := b']> σ) /\
    length b' = length buf /\
    forall x y r g bl,
      0 <= x < w im -> 0 <= y < h im ->
      buf !! Z.to_nat (offset im x y 0) = Some r ->
      buf !! Z.to_nat (offset im x y 1) = Some g ->
      buf !! Z.to_nat (offset im x y 2) = Some bl ->
      b' !! Z.to_nat (offset im x y 0) = Some (f r g bl).1.1 /\
      b' !! Z.to_nat (offset im x y 1) = Some (f r g bl).1.2 /\
      b' !! Z.to_nat (offset im x y 2) = Some (f r g bl).2.
Proof.
  pose proof Hok as (Hw & Hh & Hc & Hbuf & Hlen).
  destruct (pixel_nest σ im buf
              (fun x y ch =>
                 match buf !! Z.to_nat (offset im x y 0),
                       buf !! Z.to_nat (offset im x y 1),
                       buf !! Z.to_nat (offset im x y 2) with
                 | Some r, Some g, Some bl =>
                     Some (if ch =? 0 then (f r g bl).1.1
                           else if ch =? 1 then (f r g bl).1.2 else (f r g bl).2)
                 | _, _, _ => None
                 end)
              transform_body Hw Hh) as (b' & Hrun & Hl & Hb').
  - intros i j b Hi Hj Hl Hsame.
    destruct (rgb_samples σ im buf Hok Hc3 i j Hi Hj) as (r & g & bl & Hr & Hg & Hb).
    pose proof (offset_inside im Hw Hh Hc i j 0 Hi Hj ltac:(lia)) as H0.
    pose proof (offset_inside im Hw Hh Hc i j 1 Hi Hj ltac:(lia)) as H1.
    pose proof (offset_inside im Hw Hh Hc i j 2 Hi Hj ltac:(lia)) as H2.
    assert (N01 : Z.to_nat (offset im i j 0) <> Z.to_nat (offset im i j 1)).
    { intros E. assert (E' : offset im i j 0 = offset im i j 1) by lia.
      destruct (offset_inj im Hw Hh Hc i j 0 i j 1 Hi Hj ltac:(lia) Hi Hj ltac:(lia) E')
        as (_ & _ & ?). lia. }
    assert (N02 : Z.to_nat (offset im i j 0) <> Z.to_nat (offset im i j 2)).
    { intros E. assert (E' : offset im i j 0 = offset im i j 2) by lia.
      destruct (offset_inj im Hw Hh Hc i j 0 i j 2 Hi Hj ltac:(lia) Hi Hj ltac:(lia) E')
        as (_ & _ & ?). lia. }
    assert (N12 : Z.to_nat (offset im i j 1) <> Z.to_nat (offset im i j 2)).
    { intros E. assert (E' : offset im i j 1 = offset im i j 2) by lia.
      destruct (offset_inj im Hw Hh Hc i j 1 i j 2 Hi Hj ltac:(lia) Hi Hj ltac:(lia) E')
        as (_ & _ & ?). lia. }
    eexists. split; [|split; [|split]].
    + apply (transform_step i j b r g bl Hi Hj Hl).
      * now rewrite (Hsame 0 ltac:(lia)).
      * now rewrite (Hsame 1 ltac:(lia)).
      * now rewrite (Hsame 2 ltac:(lia)).
    + now rewrite !length_insert.
    + intros ch Hch. rewrite Hr, Hg, Hb.
      assert (Hcases : ch = 0 \/ ch = 1 \/ ch = 2) by lia.
      destruct Hcases as [->|[->| ->]]; simpl.
      * rewrite list_lookup_insert_ne, list_lookup_insert_ne by congruence.
        apply list_lookup_insert_eq. lia.
      * rewrite list_lookup_insert_ne by congruence.
        apply list_lookup_insert_eq. rewrite length_insert. lia.
      * apply list_lookup_insert_eq. rewrite !length_insert. lia.
    + intros x y ch Hx Hy Hch Hne.
      assert (Hoff : forall ch', 0 <= ch' < 3 ->
                Z.to_nat (offset im i j ch') <> Z.to_nat (offset im x y ch)).
      { intros ch' Hch' E.
        pose proof (offset_inside im Hw Hh Hc i j ch' Hi Hj ltac:(lia)).
        pose proof (offset_inside im Hw Hh Hc x y ch Hx Hy Hch).
        assert (E' : offset im i j ch' = offset im x y ch) by lia.
        destruct (offset_inj im Hw Hh Hc i j ch' x y ch Hi Hj ltac:(lia) Hx Hy Hch E')
          as (-> & -> & _).
        now apply Hne. }
      rewrite !list_lookup_insert_ne by (apply Hoff; lia). reflexivity.
  - rewrite insert_id in Hrun by exact Hbuf.
    exists b'. split; [exact Hrun|]. split; [exact Hl|].
    intros x y r g bl Hx Hy Hr Hg Hb.
    rewrite !Hb' by lia. rewrite Hr, Hg, Hb. simpl. auto.
Qed.

End PixelTransform.

(** ** The round trip through HSV *)

Lemma unit_samples buf n p :
  forallb (fun p => Flt.is_float p && in_unit_range p) buf = true ->
  buf !! n = Some p -> fin32 p /\ (0 <= F2R p <= 1)%R.
Proof.
  intros Hall Hp. rewrite forallb_forall in Hall.
  apply list_elem_of_lookup_2, list_elem_of_In, Hall, andb_prop in Hp as [H1 H2].
  now apply unit_range_fin.
Qed.

(** C5.  For an image of three channels whose samples are all in [0, 1],
    [copy_image], then [rgb_to_hsv] and [hsv_to_rgb] on the copy, all
    return; the image is as it was, and every sample of the copy is a
    finite float within [1e-4] of the sample of the image at the same
    place, for the pixels without colour, whose hue is left at zero, as
    for the others. *)
Theorem hsv_round_trip σ im buf :
  image_ok σ im buf -> c im = 3 ->
  forallb (fun p => Flt.is_float p && in_unit_range p) buf = true ->
  exists copy σ1 σ2 σ3 out,
    copy_image im σ = Some (copy, σ1) /\
    rgb_to_hsv copy σ1 = Some (tt, σ2) /\
    hsv_to_rgb copy σ2 = Some (tt, σ3) /\
    pixels σ3 im = Some buf /\
    pixels σ3 copy = Some out /\
    length out = length buf /\
    (forall n p, buf !! n = Some p -> exists q, out !! n = Some q /\ close p q) /\
    (forall x y ch, 0 <= x < w im -> 0 <= y < h im -> 0 <= ch < 3 ->
       exists p q,
         result_of (get_pixel im x y ch) σ = Some p /\
         result_of (get_pixel copy x y ch) σ3 = Some q /\
         close p q).
Proof.
  intros Hok Hc3 Hall. pose proof Hok as (Hw & Hh & Hc & Hbuf & Hlen).
  destruct (copy_image_runs σ im buf Hok)
    as (copy & σ1 & Hcp & Ew & Eh & Ec & Hne & Hpc & Hpi).
  assert (Hc3' : c copy = 3) by congruence.
  assert (Hok1 : image_ok σ1 copy buf).
  { unfold image_ok. rewrite Ew, Eh, Ec. repeat split; try assumption. }
  destruct (transform_runs hsv_of_rgb σ1 copy buf Hok1 Hc3') as (b1 & Hrun1 & Hl1 & Hb1).
  pose proof (image_ok_insert σ1 copy buf b1 Hok1 Hl1) as Hok2.
  set (σ2 := <[data copy := b1]> σ1) in *.
  destruct (transform_runs rgb_of_hsv σ2 copy b1 Hok2 Hc3') as (b2 & Hrun2 & Hl2 & Hb2).
  assert (Hok3 : image_ok (<[data copy := b2]> σ1) copy b2).
  { apply (image_ok_insert σ1 copy buf b2 Hok1). congruence. }
  unfold σ2 in Hrun2 at 2. rewrite insert_insert_eq in Hrun2.
  set (σ3 := <[data copy := b2]> σ1) in *.
  assert (Hoff : forall x y ch, offset copy x y ch = offset im x y ch).
  { intros x y ch. unfold offset. now rewrite Ew, Eh. }
  assert (Hpix : forall x y, 0 <= x < w copy -> 0 <= y < h copy ->
            forall ch p, 0 <= ch < 3 ->
              buf !! Z.to_nat (offset copy x y ch) = Some p ->
              exists q, b2 !! Z.to_nat (offset copy x y ch) = Some q /\ close p q).
  { intros x y Hx Hy ch p Hch Hp.
    destruct (rgb_samples σ1 copy buf Hok1 Hc3' x y Hx Hy) as (r & g & b & Hr & Hg & Hb).
    destruct (unit_samples buf _ r Hall Hr) as [Fr HR].
    destruct (unit_samples buf _ g Hall Hg) as [Fg HG].
    destruct (unit_samples buf _ b Hall Hb) as [Fb HB].
    destruct (Hb1 x y r g b Hx Hy Hr Hg Hb) as (H10 & H11 & H12).
    destruct (Hb2 x y _ _ _ Hx Hy H10 H11 H12) as (H20 & H21 & H22).
    destruct (pixel_round_trip r g b Fr Fg Fb HR HG HB) as (Cr & Cg & Cb).
    cbv zeta in Cr, Cg, Cb.
    assert (Hcases : ch = 0 \/ ch = 1 \/ ch = 2) by lia.
    destruct Hcases as [->|[->| ->]]; eexists; (split; [eassumption|]); congruence. }
  exists copy, σ1, σ2, σ3, b2.
  split; [exact Hcp|]. split; [exact Hrun1|]. split; [exact Hrun2|].
  split; [unfold pixels, σ3; rewrite lookup_insert_ne by exact Hne; exact Hpi|].
  split; [unfold pixels, σ3; apply lookup_insert_eq|].
  split; [congruence|]. split.
  - intros n p Hp.
    pose proof (lookup_lt_Some _ _ _ Hp) as Hn.
    destruct (offset_onto copy (Z.of_nat n) ltac:(lia) ltac:(lia) ltac:(lia))
      as (x & y & ch & Hx & Hy & Hch & E).
    { rewrite Ew, Eh, Ec. lia. }
    destruct (Hpix x y Hx Hy ch p ltac:(lia)) as (q & Hq & Hcl).
    + now rewrite E, Nat2Z.id.
    + exists q. rewrite E, Nat2Z.id in Hq. now split.
  - intros x y ch Hx Hy Hch.
    destruct (get_pixel_inside _ _ _ Hok x y ch Hx Hy ltac:(lia)) as (p & Hp & Hgp).
    destruct (get_pixel_inside _ _ _ Hok3 x y ch ltac:(lia) ltac:(lia) ltac:(lia))
      as (q & Hq & Hgq).
    exists p, q. unfold result_of. fold σ3 in Hgq. rewrite Hgp, Hgq.
    split; [reflexivity|]. split; [reflexivity|].
    destruct (Hpix x y ltac:(lia) ltac:(lia) ch p Hch) as (q' & Hq' & Hcl).
    + now rewrite Hoff.
    + congruence.
Qed.

Lemma hsv_round_trip_witness :
  exists copy σ1 σ2 σ3 out,
    copy_image im213 σ213 = Some (copy, σ1) /\
    rgb_to_hsv copy σ1 = Some (tt, σ2) /\
    hsv_to_rgb copy σ2 = Some (tt, σ3) /\
    pixels σ3 im213 = Some buf213 /\
    pixels σ3 copy = Some out /\
    length out = length buf213 /\
    (forall n p, buf213 !! n = Some p -> exists q, out !! n = Some q /\ close p q) /\
    (forall x y ch, 0 <= x < w im213 -> 0 <= y < h im213 -> 0 <= ch < 3 ->
       exists p q,
         result_of (get_pixel im213 x y ch) σ213 = Some p /\
         result_of (get_pixel copy x y ch) σ3 = Some q /\
         close p q).
Proof.
  apply (hsv_round_trip σ213 im213 buf213).
  - repeat split; simpl; try lia; reflexivity.
  - reflexivity.
  - vm_compute. reflexivity.
Defined.

(** ** The accuracy of the luma *)

Lemma eta32_tight : (0 < eta32 <= 8 / 10000000000000000000000000000000000000000000000)%R.
Proof.
  unfold eta32. split; [apply bpow_pos|].
  change (emin Flt.prec32 Flt.emax32 - 1) with (- (150)).
  rewrite (bpow_neg 150) by lia.
  apply Rle_trans with (/ IZR (125 * 10 ^ 43))%R.
  - apply Rinv_le_contravar; [apply IZR_lt; reflexivity|].
    apply IZR_le. vm_compute. discriminate.
  - change (125 * 10 ^ 43) with 1250000000000000000000000000000000000000000000. lra.
Qed.

Lemma eta64_tight : (0 < eta64 <= / 10000000000000000000000000000000000000000000000000000000000000)%R.
Proof.
  unfold eta64. split; [apply bpow_pos|].
  apply Rle_trans with (bpow (- (300))); [apply bpow_le; vm_compute; discriminate|].
  rewrite (bpow_neg 300) by lia.
  apply Rinv_le_contravar; [lra|]. apply IZR_le. vm_compute. discriminate.
Qed.

Lemma fin64_luma_r : fin64 luma_r. Proof. split; reflexivity. Qed.
Lemma fin64_luma_g : fin64 luma_g. Proof. split; reflexivity. Qed.
Lemma fin64_luma_b : fin64 luma_b. Proof. split; reflexivity. Qed.

(** The values of the three literals. *)
Lemma F2R_luma_r : F2R luma_r = (5386305154335113 / 18014398509481984)%R.
Proof.
  rewrite (proj1 luma_constants), F2R_finite.
  change (-54) with (- (54)). rewrite (bpow_neg 54) by lia.
  change (2 ^ 54) with 18014398509481984. lra.
Qed.

Lemma F2R_luma_g : F2R luma_g = (5287225962532962 / 9007199254740992)%R.
Proof.
  rewrite (proj1 (proj2 luma_constants)), F2R_finite.
  change (-53) with (- (53)). rewrite (bpow_neg 53) by lia.
  change (2 ^ 53) with 9007199254740992. lra.
Qed.

Lemma F2R_luma_b : F2R luma_b = (8214565720323785 / 72057594037927936)%R.
Proof.
  rewrite (proj2 (proj2 luma_constants)), F2R_finite.
  change (-56) with (- (56)). rewrite (bpow_neg 56) by lia.
  change (2 ^ 56) with 72057594037927936. lra.
Qed.

Lemma fin32_luma_bound : fin32 luma_bound. Proof. split; reflexivity. Qed.

Lemma F2R_luma_bound : F2R luma_bound = bpow 126.
Proof.
  change luma_bound with (S754_finite false 8388608 103).
  rewrite F2R_finite, Rmult_1_l. change 126 with (23 + 103). rewrite bpow_plus.
  f_equal. rewrite (bpow_IZR 23) by lia. reflexivity.
Qed.

Lemma bpow_126 :
  (1 <= bpow 126 /\ 2 * bpow 126 <= bpow (Flt.emax32 - 1)
   /\ 8 * bpow 126 <= bpow (Flt.emax64 - 1))%R.
Proof.
  split; [apply (bpow_ge_1 126); lia|]. split.
  - change (Flt.emax32 - 1) with (1 + 126). rewrite bpow_plus, (bpow_IZR 1) by lia.
    change (2 ^ 1) with 2. lra.
  - apply Rle_trans with (bpow (3 + 126)).
    + rewrite bpow_plus, (bpow_IZR 3) by lia. change (2 ^ 3) with 8. lra.
    + apply bpow_le. vm_compute. discriminate.
Qed.

Lemma in_luma_range_fin p :
  in_luma_range p = true -> fin32 p /\ (Rabs (F2R p) <= bpow 126)%R.
Proof.
  unfold in_luma_range, Flt.le. intros H. apply andb_prop in H as [Hf Hle].
  assert (Fp : fin32 p).
  { split; [exact Hf|]. destruct p as [s|[|]| |s m e]; try reflexivity; discriminate. }
  split; [exact Fp|].
  destruct (SFabs_fin _ _ p Fp) as [Fa Ea].
  pose proof (SFleb_fin _ _ (SFabs p) luma_bound Fa fin32_luma_bound) as L.
  rewrite Hle, Ea, F2R_luma_bound in L. exact L.
Qed.

(** The luma that [rgb_to_grayscale] stores is within one part in [10^7]
    of the weighted sum: the weights are the doubles nearest to 0.299,
    0.587 and 0.114, the products and sums are rounded to double, and the
    result to [float]. *)
Lemma luma_close r g b :
  fin32 r -> fin32 g -> fin32 b ->
  (Rabs (F2R r) <= bpow 126)%R -> (Rabs (F2R g) <= bpow 126)%R ->
  (Rabs (F2R b) <= bpow 126)%R ->
  fin32 (luma r g b) /\
  (Rabs (F2R (luma r g b) - luma_sum (F2R r) (F2R g) (F2R b))
   <= luma_sum (Rabs (F2R r)) (Rabs (F2R g)) (Rabs (F2R b)) / 10000000
      + 1 / 1000000000000000000000000000000000000000000000)%R.
Proof.
  intros Fr Fg Fb Hr Hg Hb.
  destruct (to_double_exact r Fr) as [Dr Er].
  destruct (to_double_exact g Fg) as [Dg Eg].
  destruct (to_double_exact b Fb) as [Db Eb].
  pose proof eta32_tight as H32. pose proof eta64_tight as H64.
  destruct bpow_126 as (T1 & T32 & T64).
  pose proof (Rabs_bound (F2R r) _ (Rle_refl _)) as Ar.
  pose proof (Rabs_bound (F2R g) _ (Rle_refl _)) as Ag.
  pose proof (Rabs_bound (F2R b) _ (Rle_refl _)) as Ab.
  pose proof (Rabs_pos (F2R r)) as Pr.
  pose proof (Rabs_pos (F2R g)) as Pg.
  pose proof (Rabs_pos (F2R b)) as Pb.
  set (aR := Rabs (F2R r)) in *. set (aG := Rabs (F2R g)) in *.
  set (aB := Rabs (F2R b)) in *. set (T := bpow 126) in *.
  set (W32 := bpow (Flt.emax32 - 1)) in *. set (W64 := bpow (Flt.emax64 - 1)) in *.
  unfold luma.
  set (pr := Flt.dmul (Flt.to_double r) luma_r).
  set (pg := Flt.dmul (Flt.to_double g) luma_g).
  set (pb := Flt.dmul (Flt.to_double b) luma_b).
  assert (Mr : rounds64 eta64 (F2R r * (5386305154335113 / 18014398509481984)) pr).
  { rewrite <- Er, <- F2R_luma_r.
    apply (SFmul_rounds _ _ prec64_pos emax64_gt _ _ Dr fin64_luma_r).
    fold W64. rewrite Er, F2R_luma_r. apply Rabs_def1; lra. }
  assert (Mg : rounds64 eta64 (F2R g * (5287225962532962 / 9007199254740992)) pg).
  { rewrite <- Eg, <- F2R_luma_g.
    apply (SFmul_rounds _ _ prec64_pos emax64_gt _ _ Dg fin64_luma_g).
    fold W64. rewrite Eg, F2R_luma_g. apply Rabs_def1; lra. }
  assert (Mb : rounds64 eta64 (F2R b * (8214565720323785 / 72057594037927936)) pb).
  { rewrite <- Eb, <- F2R_luma_b.
    apply (SFmul_rounds _ _ prec64_pos emax64_gt _ _ Db fin64_luma_b).
    fold W64. rewrite Eb, F2R_luma_b. apply Rabs_def1; lra. }
  destruct (r64_abs _ _ _ (aR * (5386305154335113 / 18014398509481984)) Mr ltac:(lra))
    as [Fpr Epr].
  destruct (r64_abs _ _ _ (aG * (5287225962532962 / 9007199254740992)) Mg ltac:(lra))
    as [Fpg Epg].
  destruct (r64_abs _ _ _ (aB * (8214565720323785 / 72057594037927936)) Mb ltac:(lra))
    as [Fpb Epb].
  set (s1 := Flt.dadd pr pg).
  assert (A1 : rounds64 0 (F2R pr + F2R pg) s1).
  { apply (SFadd_rounds _ _ prec64_pos emax64_gt _ _ Fpr Fpg).
    fold W64. apply Rabs_def1; lra. }
  destruct (r64_abs _ _ _ (2 * (299 / 1000 * aR + 587 / 1000 * aG) + 2 * eta64) A1 ltac:(lra))
    as [Fs1 Es1].
  set (s2 := Flt.dadd s1 pb).
  assert (A2 : rounds64 0 (F2R s1 + F2R pb) s2).
  { apply (SFadd_rounds _ _ prec64_pos emax64_gt _ _ Fs1 Fpb).
    fold W64. apply Rabs_def1; lra. }
  destruct (r64_abs _ _ _ (2 * luma_sum aR aG aB + 4 * eta64) A2
              ltac:(unfold luma_sum; lra)) as [Fs2 Es2].
  unfold luma_sum in *.
  assert (C : rounds32 eta32 (F2R s2) (Flt.to_float s2)).
  { apply (convert_rounds _ _ prec32_pos emax32_gt s2 (proj2 Fs2)).
    fold W32. apply Rabs_def1; lra. }
  destruct (r32_abs _ _ _
              ((299 / 1000 * aR + 587 / 1000 * aG + 114 / 1000 * aB)
               * (1 + 1 / 1000000000) + 8 * eta64) C ltac:(lra)) as [Fv Ev].
  split; [exact Fv|]. apply Rabs_le. lra.
Qed.

(** C6.  On an image of three channels [rgb_to_grayscale] returns an image
    of the same width and height and one channel, over a buffer of its own,
    and leaves [im] as it was.  Every pixel [v] of the result is the luma
    of the pixel [(r, g, b)] of [im]: the value of
    [red * 0.299 + green * 0.587 + blue * 0.114] computed in double and
    stored as a float, which is [r] itself when [r = g = b], and, for
    samples that are binary32 numbers of magnitude at most [2^126], a
    binary32 number within one part in [10^7] (and [10^-45]) of the
    weighted sum [0.299*R + 0.587*G + 0.114*B].  When every sample of [im]
    is [k], every pixel of the result is [k]. *)
Theorem rgb_to_grayscale_luma σ im buf :
  image_ok σ im buf -> c im = 3 ->
  exists gray σ' gbuf,
    rgb_to_grayscale im σ = Some (gray, σ') /\
    w gray = w im /\ h gray = h im /\ c gray = 1 /\
    data gray <> data im /\
    image_ok σ' gray gbuf /\
    pixels σ' im = Some buf /\
    (forall x y, 0 <= x < w im -> 0 <= y < h im ->
       exists r g b v,
         result_of (get_pixel im x y 0) σ = Some r /\
         result_of (get_pixel im x y 1) σ = Some g /\
         result_of (get_pixel im x y 2) σ = Some b /\
         result_of (get_pixel gray x y 0) σ' = Some v /\
         v = luma r g b /\
         (Flt.is_float r = true -> g = r -> b = r -> v = r) /\
         (in_luma_range r = true -> in_luma_range g = true -> in_luma_range b = true ->
            Flt.is_float v = true /\ Flt.is_finite v = true /\
            (Rabs (F2R v - luma_sum (F2R r) (F2R g) (F2R b))
             <= luma_sum (Rabs (F2R r)) (Rabs (F2R g)) (Rabs (F2R b)) / 10000000
                + 1 / 1000000000000000000000000000000000000000000000)%R)) /\
    (forall k, Flt.is_float k = true -> (forall p, p ∈ buf -> p = k) ->
       forall x y, 0 <= x < w im -> 0 <= y < h im ->
         result_of (get_pixel gray x y 0) σ' = Some k).
Proof.
  intros Hok Hc3. pose proof Hok as (Hw & Hh & Hc & Hbuf & Hlen).
  destruct (rgb_to_grayscale_runs σ im buf Hok Hc3) as (gb & Hrun & Hl & Hgb).
  pose proof (gray_fresh σ im buf Hok) as Hne.
  set (pg := fresh (dom σ)) in *.
  set (gray := {| w := w im; h := h im; c := 1; data := pg |}) in *.
  exists gray, (<[pg := gb]> σ), gb.
  assert (Hokg : image_ok (<[pg := gb]> σ) gray gb).
  { repeat split; simpl; try lia.
    - apply lookup_insert_eq.
    - rewrite Hl, length_replicate. nia. }
  assert (Hpix : forall x y, 0 <= x < w im -> 0 <= y < h im ->
     exists r g b,
       buf !! Z.to_nat (offset im x y 0) = Some r /\
       buf !! Z.to_nat (offset im x y 1) = Some g /\
       buf !! Z.to_nat (offset im x y 2) = Some b /\
       result_of (get_pixel im x y 0) σ = Some r /\
       result_of (get_pixel im x y 1) σ = Some g /\
       result_of (get_pixel im x y 2) σ = Some b /\
       result_of (get_pixel gray x y 0) (<[pg := gb]> σ) = Some (luma r g b)).
  { intros x y Hx Hy.
    destruct (rgb_samples σ im buf Hok Hc3 x y Hx Hy) as (r & g & b & Hr & Hg & Hb).
    exists r, g, b. repeat split; try assumption.
    - destruct (get_pixel_inside _ _ _ Hok x y 0 Hx Hy ltac:(lia)) as (v & Hv & Hgp).
      unfold result_of. rewrite Hgp. congruence.
    - destruct (get_pixel_inside _ _ _ Hok x y 1 Hx Hy ltac:(lia)) as (v & Hv & Hgp).
      unfold result_of. rewrite Hgp. congruence.
    - destruct (get_pixel_inside _ _ _ Hok x y 2 Hx Hy ltac:(lia)) as (v & Hv & Hgp).
      unfold result_of. rewrite Hgp. congruence.
    - destruct (get_pixel_inside _ _ _ Hokg x y 0 Hx Hy ltac:(simpl; lia))
        as (v & Hv & Hgp).
      unfold result_of. rewrite Hgp.
      rewrite (Hgb x y r g b Hx Hy Hr Hg Hb) in Hv. congruence. }
  split; [exact Hrun|].
  split; [reflexivity|]. split; [reflexivity|]. split; [reflexivity|].
  split; [exact Hne|]. split; [exact Hokg|].
  split; [unfold pixels; now rewrite lookup_insert_ne|].
  split.
  - intros x y Hx Hy.
    destruct (Hpix x y Hx Hy) as (r & g & b & _ & _ & _ & H0 & H1 & H2 & H3).
    exists r, g, b, (luma r g b).
    split; [exact H0|]. split; [exact H1|]. split; [exact H2|]. split; [exact H3|].
    split; [reflexivity|]. split.
    + intros Hk -> ->. now apply luma_uniform.
    + intros Rr Rg Rb.
      destruct (in_luma_range_fin r Rr) as [Fr Br].
      destruct (in_luma_range_fin g Rg) as [Fg Bg].
      destruct (in_luma_range_fin b Rb) as [Fb Bb].
      destruct (luma_close r g b Fr Fg Fb Br Bg Bb) as [Fv Ev].
      split; [exact (proj1 Fv)|]. split; [exact (proj2 Fv)|exact Ev].
  - intros k Hk Hall x y Hx Hy.
    destruct (Hpix x y Hx Hy) as (r & g & b & Hr & Hg & Hb & _ & _ & _ & H3).
    rewrite H3. f_equal.
    rewrite (Hall r), (Hall g), (Hall b) by (eapply list_elem_of_lookup_2; eassumption).
    now apply luma_uniform.
Qed.

Lemma rgb_to_grayscale_luma_witness :
  exists gray σ' gbuf,
    rgb_to_grayscale im213 σ213 = Some (gray, σ') /\
    w gray = w im213 /\ h gray = h im213 /\ c gray = 1 /\
    data gray <> data im213 /\
    image_ok σ' gray gbuf /\
    pixels σ' im213 = Some buf213 /\
    (forall x y, 0 <= x < w im213 -> 0 <= y < h im213 ->
       exists r g b v,
         result_of (get_pixel im213 x y 0) σ213 = Some r /\
         result_of (get_pixel im213 x y 1) σ213 = Some g /\
         result_of (get_pixel im213 x y 2) σ213 = Some b /\
         result_of (get_pixel gray x y 0) σ' = Some v /\
         v = luma r g b /\
         (Flt.is_float r = true -> g = r -> b = r -> v = r) /\
         (in_luma_range r = true -> in_luma_range g = true -> in_luma_range b = true ->
            Flt.is_float v = true /\ Flt.is_finite v = true /\
            (Rabs (F2R v - luma_sum (F2R r) (F2R g) (F2R b))
             <= luma_sum (Rabs (F2R r)) (Rabs (F2R g)) (Rabs (F2R b)) / 10000000
                + 1 / 1000000000000000000000000000000000000000000000)%R)) /\
    (forall k, Flt.is_float k = true -> (forall p, p ∈ buf213 -> p = k) ->
       forall x y, 0 <= x < w im213 -> 0 <= y < h im213 ->
         result_of (get_pixel gray x y 0) σ' = Some k).
Proof.
  apply (rgb_to_grayscale_luma σ213 im213 buf213).
  - repeat split; simpl; try lia; reflexivity.
  - reflexivity.
Defined.

(** * Further properties of the code *)

(** ** Pixel access *)

(** X1.  Inside the image [get_pixel] returns the sample at position
    [x + y*w + w*h*ch] of the buffer and changes nothing. *)
Theorem get_pixel_in_bounds σ im buf x y ch :
  image_ok σ im buf ->
  0 <= x < w im -> 0 <= y < h im -> 0 <= ch < c im ->
  exists v,
    buf !! Z.to_nat (x + y * w im + w im * h im * ch) = Some v /\
    get_pixel im x y ch σ = Some (v, σ).
Proof.
  intros Hok Hx Hy Hch.
  destruct (get_pixel_inside σ im buf Hok x y ch Hx Hy Hch) as (v & Hv & Hg).
  exists v. split; [exact Hv|exact Hg].
Qed.

Lemma get_pixel_in_bounds_witness :
  exists v,
    buf22 !! Z.to_nat (1 + 0 * w im22 + w im22 * h im22 * 0) = Some v /\
    get_pixel im22 1 0 0 σ22 = Some (v, σ22).
Proof.
  apply (get_pixel_in_bounds σ22 im22 buf22 1 0 0).
  - repeat split; simpl; try lia; reflexivity.
  - simpl. lia.
  - simpl. lia.
  - simpl. lia.
Defined.

Lemma clamp_coord_edge bound x :
  1 <= bound -> x <> bound ->
  clamp_coord bound x = Z.max 0 (Z.min (bound - 1) x) /\
  0 <= Z.max 0 (Z.min (bound - 1) x) < bound.
Proof.
  intros Hb Hx. unfold clamp_coord.
  destruct (Z.gtb_spec x bound).
  - destruct (Z.ltb_spec (bound - 1) 0); lia.
  - destruct (Z.ltb_spec x 0); lia.
Qed.

(** X2.  A coordinate below zero or strictly above its bound is clamped
    to the nearest edge: in an image with at least one pixel and one
    channel, for coordinates none of which equals its bound, [get_pixel]
    returns the sample at [(max 0 (min (w-1) x), max 0 (min (h-1) y),
    max 0 (min (c-1) ch))], which is inside the buffer. *)
Theorem get_pixel_clamps_to_edge σ im buf x y ch :
  image_ok σ im buf ->
  1 <= w im -> 1 <= h im -> 1 <= c im ->
  x <> w im -> y <> h im -> ch <> c im ->
  exists v,
    get_pixel im x y ch σ = Some (v, σ) /\
    get_pixel im (Z.max 0 (Z.min (w im - 1) x)) (Z.max 0 (Z.min (h im - 1) y))
      (Z.max 0 (Z.min (c im - 1) ch)) σ = Some (v, σ) /\
    buf !! Z.to_nat (offset im (Z.max 0 (Z.min (w im - 1) x))
                       (Z.max 0 (Z.min (h im - 1) y))
                       (Z.max 0 (Z.min (c im - 1) ch))) = Some v.
Proof.
  intros Hok Hw Hh Hc Hx Hy Hch.
  destruct (clamp_coord_edge (w im) x Hw Hx) as [Ex Bx].
  destruct (clamp_coord_edge (h im) y Hh Hy) as [Ey By].
  destruct (clamp_coord_edge (c im) ch Hc Hch) as [Ec Bc].
  destruct (get_pixel_inside σ im buf Hok _ _ _ Bx By Bc) as (v & Hv & Hg).
  exists v. split; [|split; [exact Hg|exact Hv]].
  rewrite get_pixel_clamps, Ex, Ey, Ec.
  rewrite (get_pixel_unclamped σ im) in Hg by lia. exact Hg.
Qed.

Lemma get_pixel_clamps_to_edge_witness :
  exists v,
    get_pixel im22 (-3) 7 5 σ22 = Some (v, σ22) /\
    get_pixel im22 (Z.max 0 (Z.min (w im22 - 1) (-3))) (Z.max 0 (Z.min (h im22 - 1) 7))
      (Z.max 0 (Z.min (c im22 - 1) 5)) σ22 = Some (v, σ22) /\
    buf22 !! Z.to_nat (offset im22 (Z.max 0 (Z.min (w im22 - 1) (-3)))
                         (Z.max 0 (Z.min (h im22 - 1) 7))
                         (Z.max 0 (Z.min (c im22 - 1) 5))) = Some v.
Proof.
  apply (get_pixel_clamps_to_edge σ22 im22 buf22 (-3) 7 5).
  - repeat split; simpl; try lia; reflexivity.
  - simpl. lia.
  - simpl. lia.
  - simpl. lia.
  - simpl. lia.
  - simpl. lia.
  - simpl. lia.
Defined.

(** X3.  Inside the image [set_pixel] writes the sample and no other:
    [get_pixel] at the same coordinate then returns the value written, at
    every other coordinate of the image what it returned before, and the
    other buffers are as they were. *)
Theorem set_pixel_then_get_pixel σ im buf x y ch v :
  image_ok σ im buf ->
  0 <= x < w im -> 0 <= y < h im -> 0 <= ch < c im ->
  exists σ',
    set_pixel im x y ch v σ = Some (tt, σ') /\
    image_ok σ' im (<[Z.to_nat (offset im x y ch) := v]> buf) /\
    get_pixel im x y ch σ' = Some (v, σ') /\
    (forall x' y' ch',
        0 <= x' < w im -> 0 <= y' < h im -> 0 <= ch' < c im ->
        (x', y', ch') <> (x, y, ch) ->
        result_of (get_pixel im x' y' ch') σ' = result_of (get_pixel im x' y' ch') σ) /\
    (forall p, p <> data im -> σ' !! p = σ !! p).
Proof.
  intros Hok Hx Hy Hch.
  pose proof Hok as (Hw & Hh & Hc & Hbuf & Hlen).
  pose proof (offset_inside im Hw Hh Hc x y ch Hx Hy Hch) as Hoff.
  set (k := Z.to_nat (offset im x y ch)) in *.
  exists (<[data im := <[k := v]> buf]> σ).
  assert (Hok' : image_ok (<[data im := <[k := v]> buf]> σ) im (<[k := v]> buf))
    by (apply (image_ok_insert σ im buf); [exact Hok|apply length_insert]).
  split; [|split; [|split; [|split]]].
  - apply (set_pixel_inside σ im buf Hok); assumption.
  - exact Hok'.
  - destruct (get_pixel_inside _ _ _ Hok' x y ch Hx Hy Hch) as (v' & Hv' & Hg).
    fold k in Hv'. rewrite list_lookup_insert_eq in Hv' by lia. congruence.
  - intros x' y' ch' Hx' Hy' Hch' Hne.
    destruct (get_pixel_inside _ _ _ Hok' x' y' ch' Hx' Hy' Hch') as (v1 & Hv1 & Hg1).
    destruct (get_pixel_inside _ _ _ Hok x' y' ch' Hx' Hy' Hch') as (v2 & Hv2 & Hg2).
    unfold result_of. rewrite Hg1, Hg2.
    rewrite list_lookup_insert_ne in Hv1; [congruence|].
    intros Heq. apply Hne.
    pose proof (offset_inside im Hw Hh Hc x' y' ch' Hx' Hy' Hch') as Hoff'.
    assert (E : offset im x y ch = offset im x' y' ch') by (unfold k in Heq; lia).
    destruct (offset_inj im Hw Hh Hc x y ch x' y' ch' Hx Hy Hch Hx' Hy' Hch' E)
      as (-> & -> & ->).
    reflexivity.
  - intros p Hp. now rewrite lookup_insert_ne.
Qed.

Lemma set_pixel_then_get_pixel_witness :
  exists σ',
    set_pixel im22 1 0 0 Flt.zero σ22 = Some (tt, σ') /\
    image_ok σ' im22 (<[Z.to_nat (offset im22 1 0 0) := Flt.zero]> buf22) /\
    get_pixel im22 1 0 0 σ' = Some (Flt.zero, σ') /\
    (forall x' y' ch',
        0 <= x' < w im22 -> 0 <= y' < h im22 -> 0 <= ch' < c im22 ->
        (x', y', ch') <> (1, 0, 0) ->
        result_of (get_pixel im22 x' y' ch') σ' = result_of (get_pixel im22 x' y' ch') σ22) /\
    (forall p, p <> data im22 -> σ' !! p = σ22 !! p).
Proof.
  apply (set_pixel_then_get_pixel σ22 im22 buf22 1 0 0 Flt.zero).
  - repeat split; simpl; try lia; reflexivity.
  - simpl. lia.
  - simpl. lia.
  - simpl. lia.
Defined.

(** X4.  A write at a coordinate below zero or strictly above its bound
    is dropped: [set_pixel] returns and the store is as before, whatever
    the image and the store. *)
Theorem set_pixel_beyond_bounds_dropped σ im x y ch v :
  x < 0 \/ w im < x \/ y < 0 \/ h im < y \/ ch < 0 \/ c im < ch ->
  set_pixel im x y ch v σ = Some (tt, σ).
Proof.
  intros H. unfold set_pixel.
  destruct (Z.gtb_spec x (w im)); [reflexivity|].
  destruct (Z.gtb_spec y (h im)); [reflexivity|].
  destruct (Z.gtb_spec ch (c im)); [reflexivity|].
  destruct (Z.ltb_spec x 0); [reflexivity|].
  destruct (Z.ltb_spec y 0); [reflexivity|].
  destruct (Z.ltb_spec ch 0); [reflexivity|]. lia.
Qed.

Lemma set_pixel_beyond_bounds_dropped_witness :
  set_pixel im22 3 0 0 Flt.zero σ22 = Some (tt, σ22).
Proof.
  apply (set_pixel_beyond_bounds_dropped σ22 im22 3 0 0 Flt.zero).
  right; left. simpl. lia.
Defined.

(** ** [shift_image] and [clamp_image] *)

(** X5.  On a channel of the image [shift_image] returns, replaces every
    sample [p] of that channel by the float sum [p + v], and leaves the
    samples of the other channels, the length of the buffer and the other
    buffers as they were. *)
Theorem shift_image_adds σ im buf ch v :
  image_ok σ im buf -> 0 <= ch < c im ->
  exists b',
    shift_image im ch v σ = Some (tt, <[data im := b']> σ) /\
    length b' = length buf /\
    forall x y ch', 0 <= x < w im -> 0 <= y < h im -> 0 <= ch' < c im ->
      b' !! Z.to_nat (offset im x y ch') =
        if ch' =? ch then (fun p => Flt.fadd p v) <$> buf !! Z.to_nat (offset im x y ch')
        else buf !! Z.to_nat (offset im x y ch').
Proof.
  intros Hok Hch. pose proof Hok as (Hw & Hh & Hc & Hbuf & Hlen).
  destruct (pixel_nest σ im buf
              (fun x y ch' =>
                 if ch' =? ch
                 then (fun p => Flt.fadd p v) <$> buf !! Z.to_nat (offset im x y ch')
                 else buf !! Z.to_nat (offset im x y ch'))
              (fun i j => p <- get_pixel im i j ch ;; set_pixel im i j ch (Flt.fadd p v))
              Hw Hh) as (b' & Hrun & Hl & Hb').
  - intros i j b Hi Hj Hl Hsame.
    pose proof (image_ok_insert σ im buf b Hok Hl) as Hok1.
    destruct (get_pixel_inside _ _ _ Hok1 i j ch Hi Hj Hch) as (p & Hp & Hg).
    pose proof (offset_inside im Hw Hh Hc i j ch Hi Hj Hch) as Hoff.
    exists (<[Z.to_nat (offset im i j ch) := Flt.fadd p v]> b).
    split; [|split; [|split]].
    + cbv beta. rewrite (bind_Some _ _ _ _ _ Hg).
      rewrite (set_pixel_inside _ _ _ Hok1 i j ch _ Hi Hj Hch).
      now rewrite insert_insert_eq.
    + apply length_insert.
    + intros ch' Hch'. destruct (Z.eqb_spec ch' ch) as [->|Hne].
      * rewrite list_lookup_insert_eq by lia.
        rewrite <- (Hsame ch Hch), Hp. reflexivity.
      * rewrite list_lookup_insert_ne; [now apply Hsame|].
        intros E. apply Hne.
        pose proof (offset_inside im Hw Hh Hc i j ch' Hi Hj Hch').
        assert (E' : offset im i j ch = offset im i j ch') by lia.
        destruct (offset_inj im Hw Hh Hc i j ch i j ch' Hi Hj Hch Hi Hj Hch' E')
          as (_ & _ & ->).
        reflexivity.
    + intros x y ch' Hx Hy Hch' Hne.
      apply list_lookup_insert_ne. intros E. apply Hne.
      pose proof (offset_inside im Hw Hh Hc x y ch' Hx Hy Hch').
      assert (E' : offset im i j ch = offset im x y ch') by lia.
      destruct (offset_inj im Hw Hh Hc i j ch x y ch' Hi Hj Hch Hx Hy Hch' E')
        as (-> & -> & _).
      reflexivity.
  - rewrite insert_id in Hrun by exact Hbuf.
    exists b'. split; [exact Hrun|]. split; [exact Hl|exact Hb'].
Qed.

Lemma shift_image_adds_witness :
  exists b',
    shift_image im22 0 (Flt.float_lit 1 4) σ22 = Some (tt, <[data im22 := b']> σ22) /\
    length b' = length buf22 /\
    forall x y ch', 0 <= x < w im22 -> 0 <= y < h im22 -> 0 <= ch' < c im22 ->
      b' !! Z.to_nat (offset im22 x y ch') =
        if ch' =? 0
        then (fun p => Flt.fadd p (Flt.float_lit 1 4)) <$> buf22 !! Z.to_nat (offset im22 x y ch')
        else buf22 !! Z.to_nat (offset im22 x y ch').
Proof.
  apply (shift_image_adds σ22 im22 buf22 0 (Flt.float_lit 1 4)).
  - repeat split; simpl; try lia; reflexivity.
  - simpl. lia.
Defined.

Lemma clamp_sample_unit_range p : in_unit_range p = true -> clamp_sample p = p.
Proof.
  unfold in_unit_range, clamp_sample, Flt.le, Flt.gt, Flt.lt, SFleb, SFltb.
  intros H. apply andb_prop in H as [H0 H1].
  rewrite (SFcompare_swap p (Flt.float_of_int 1)).
  destruct (SFcompare p (Flt.float_of_int 1)) as [[]|]; try discriminate;
    cbn [option_map CompOpp];
    rewrite (SFcompare_swap (Flt.float_of_int 0) p);
    destruct (SFcompare (Flt.float_of_int 0) p) as [[]|]; try discriminate; reflexivity.
Qed.

(** X6.  On an image whose samples are all within [0, 1], [clamp_image]
    returns and changes nothing. *)
Theorem clamp_image_keeps_unit_range σ im buf :
  image_ok σ im buf ->
  forallb in_unit_range buf = true ->
  clamp_image im σ = Some (tt, σ).
Proof.
  intros Hok Hall. pose proof Hok as (_ & _ & _ & Hbuf & _).
  rewrite (clamp_image_maps σ im buf Hok).
  assert (E : clamp_sample <$> buf = buf).
  { rewrite forallb_forall in Hall. clear Hok Hbuf.
    induction buf as [|p l IH]; [reflexivity|]. cbn [fmap list_fmap]. f_equal.
    - apply clamp_sample_unit_range, Hall. now left.
    - apply IH. intros q Hq. apply Hall. now right. }
  rewrite E, insert_id by exact Hbuf. reflexivity.
Qed.

Lemma clamp_image_keeps_unit_range_witness :
  clamp_image im22 σ22 = Some (tt, σ22).
Proof.
  apply (clamp_image_keeps_unit_range σ22 im22 buf22).
  - repeat split; simpl; try lia; reflexivity.
  - vm_compute. reflexivity.
Defined.

(** ** [three_way_max] and [three_way_min] *)

Lemma SFleb_of_le x y : fin32 x -> fin32 y -> (F2R x <= F2R y)%R -> Flt.le x y = true.
Proof.
  intros Hx Hy H. unfold Flt.le. pose proof (SFleb_fin _ _ x y Hx Hy) as L.
  destruct (SFleb x y); [reflexivity|lra].
Qed.

(** X7.  On three finite floats [three_way_max] returns one of them that
    none of the three exceeds, and [three_way_min] one of them that
    exceeds none of the three. *)
Theorem three_way_max_min_bounds a b d :
  Flt.is_float a && Flt.is_finite a = true ->
  Flt.is_float b && Flt.is_finite b = true ->
  Flt.is_float d && Flt.is_finite d = true ->
  (three_way_max a b d = a \/ three_way_max a b d = b \/ three_way_max a b d = d) /\
  Flt.le a (three_way_max a b d) = true /\
  Flt.le b (three_way_max a b d) = true /\
  Flt.le d (three_way_max a b d) = true /\
  (three_way_min a b d = a \/ three_way_min a b d = b \/ three_way_min a b d = d) /\
  Flt.le (three_way_min a b d) a = true /\
  Flt.le (three_way_min a b d) b = true /\
  Flt.le (three_way_min a b d) d = true.
Proof.
  intros Ha Hb Hd.
  apply andb_prop in Ha as [Ha1 Ha2]. apply andb_prop in Hb as [Hb1 Hb2].
  apply andb_prop in Hd as [Hd1 Hd2].
  assert (Fa : fin32 a) by (split; assumption).
  assert (Fb : fin32 b) by (split; assumption).
  assert (Fd : fin32 d) by (split; assumption).
  destruct (three_way_max_spec a b d Fa Fb Fd) as (Fmax & Xa & Xb & Xd).
  destruct (three_way_min_spec a b d Fa Fb Fd) as (Fmin & Na & Nb & Nd & _).
  split; [|split; [|split; [|split; [|split; [|split; [|split]]]]]].
  - unfold three_way_max. destruct (Flt.gt a b), (Flt.gt a d), (Flt.gt b d); auto.
  - now apply SFleb_of_le.
  - now apply SFleb_of_le.
  - now apply SFleb_of_le.
  - unfold three_way_min. destruct (Flt.lt a b), (Flt.lt a d), (Flt.lt b d); auto.
  - now apply SFleb_of_le.
  - now apply SFleb_of_le.
  - now apply SFleb_of_le.
Qed.

Lemma three_way_max_min_bounds_witness :
  (three_way_max (Flt.float_lit 1 4) (Flt.float_lit 3 4) (Flt.float_lit 1 2) = Flt.float_lit 1 4 \/
   three_way_max (Flt.float_lit 1 4) (Flt.float_lit 3 4) (Flt.float_lit 1 2) = Flt.float_lit 3 4 \/
   three_way_max (Flt.float_lit 1 4) (Flt.float_lit 3 4) (Flt.float_lit 1 2) = Flt.float_lit 1 2) /\
  Flt.le (Flt.float_lit 1 4)
    (three_way_max (Flt.float_lit 1 4) (Flt.float_lit 3 4) (Flt.float_lit 1 2)) = true /\
  Flt.le (Flt.float_lit 3 4)
    (three_way_max (Flt.float_lit 1 4) (Flt.float_lit 3 4) (Flt.float_lit 1 2)) = true /\
  Flt.le (Flt.float_lit 1 2)
    (three_way_max (Flt.float_lit 1 4) (Flt.float_lit 3 4) (Flt.float_lit 1 2)) = true /\
  (three_way_min (Flt.float_lit 1 4) (Flt.float_lit 3 4) (Flt.float_lit 1 2) = Flt.float_lit 1 4 \/
   three_way_min (Flt.float_lit 1 4) (Flt.float_lit 3 4) (Flt.float_lit 1 2) = Flt.float_lit 3 4 \/
   three_way_min (Flt.float_lit 1 4) (Flt.float_lit 3 4) (Flt.float_lit 1 2) = Flt.float_lit 1 2) /\
  Flt.le (three_way_min (Flt.float_lit 1 4) (Flt.float_lit 3 4) (Flt.float_lit 1 2))
    (Flt.float_lit 1 4) = true /\
  Flt.le (three_way_min (Flt.float_lit 1 4) (Flt.float_lit 3 4) (Flt.float_lit 1 2))
    (Flt.float_lit 3 4) = true /\
  Flt.le (three_way_min (Flt.float_lit 1 4) (Flt.float_lit 3 4) (Flt.float_lit 1 2))
    (Flt.float_lit 1 2) = true.
Proof.
  apply (three_way_max_min_bounds (Flt.float_lit 1 4) (Flt.float_lit 3 4) (Flt.float_lit 1 2));
    vm_compute; reflexivity.
Defined.

(** ** The colour transforms, pixel by pixel *)

Section Pixelwise.

Context (f : spec_float -> spec_float -> spec_float -> spec_float * spec_float * spec_float).
Context (σ : heap) (im : image) (buf : list spec_float).
Hypothesis Hok : image_ok σ im buf.
Hypothesis Hc3 : c im = 3.

(** The nest that rewrites each pixel by [f] returns, and the pixel at
    [(x, y)] afterwards is [f] of the pixel there before. *)
Lemma transform_pixels :
  exists b',
    for_upto (w im) (fun i => for_upto (h im) (fun j =>
      c0 <- get_pixel im i j 0 ;;
      c1 <- get_pixel im i j 1 ;;
      c2 <- get_pixel im i j 2 ;;
      let '(a0, a1, a2) := f c0 c1 c2 in
      set_pixel im i j 0 a0 ;;;
      set_pixel im i j 1 a1 ;;;
      set_pixel im i j 2 a2)) σ
    = Some (tt, <[data im := b']> σ) /\
    length b' = length buf /\
    forall x y, 0 <= x < w im -> 0 <= y < h im ->
      exists p0 p1 p2,
        pixel_at im buf x y = Some (p0, p1, p2) /\
        pixel_at im b' x y = Some (f p0 p1 p2).
Proof.
  destruct (transform_runs f σ im buf Hok Hc3) as (b' & Hrun & Hl & Hb').
  exists b'. split; [exact Hrun|]. split; [exact Hl|].
  intros x y Hx Hy.
  destruct (rgb_samples σ im buf Hok Hc3 x y Hx Hy) as (p0 & p1 & p2 & H0 & H1 & H2).
  destruct (Hb' x y p0 p1 p2 Hx Hy H0 H1 H2) as (E0 & E1 & E2).
  exists p0, p1, p2. unfold pixel_at. rewrite H0, H1, H2, E0, E1, E2.
  split; [reflexivity|]. now destruct (f p0 p1 p2) as [[a0 a1] a2].
Qed.

(** What holds of the three samples of every pixel holds of every sample
    of the buffer. *)
Lemma forallb_pixels (P : spec_float -> bool) b :
  length b = length buf ->
  (forall x y, 0 <= x < w im -> 0 <= y < h im ->
     exists p0 p1 p2, pixel_at im b x y = Some (p0, p1, p2) /\
                      P p0 = true /\ P p1 = true /\ P p2 = true) ->
  forallb P b = true.
Proof.
  intros Hl Hpix. pose proof Hok as (Hw & Hh & Hc & Hbuf & Hlen).
  apply forallb_forall. intros q Hq.
  apply list_elem_of_In, list_elem_of_lookup in Hq as [n Hn].
  pose proof (lookup_lt_Some _ _ _ Hn) as Hlt.
  destruct (offset_onto im (Z.of_nat n) Hw Hh Hc ltac:(lia))
    as (x & y & ch & Hx & Hy & Hch & E).
  destruct (Hpix x y Hx Hy) as (p0 & p1 & p2 & Hp & H0 & H1 & H2).
  unfold pixel_at in Hp.
  destruct (b !! Z.to_nat (offset im x y 0)) as [q0|] eqn:E0; [|discriminate].
  destruct (b !! Z.to_nat (offset im x y 1)) as [q1|] eqn:E1; [|discriminate].
  destruct (b !! Z.to_nat (offset im x y 2)) as [q2|] eqn:E2; [|discriminate].
  injection Hp as -> -> ->.
  assert (Hcases : ch = 0 \/ ch = 1 \/ ch = 2) by lia.
  destruct Hcases as [->|[->| ->]]; rewrite E, Nat2Z.id in *; congruence.
Qed.

End Pixelwise.

(** X8.  [rgb_to_hsv] and [hsv_to_rgb] return on every image of three
    channels, whatever its samples; they change the buffer of the image
    only and keep its length; and the pixel at [(x, y)] afterwards is
    computed from the pixel at [(x, y)] before, and from no other. *)
Theorem hsv_transforms_pixelwise σ im buf :
  image_ok σ im buf -> c im = 3 ->
  (exists b',
     rgb_to_hsv im σ = Some (tt, <[data im := b']> σ) /\
     length b' = length buf /\
     forall x y, 0 <= x < w im -> 0 <= y < h im ->
       exists r g b,
         pixel_at im buf x y = Some (r, g, b) /\
         pixel_at im b' x y = Some (hsv_of_rgb r g b)) /\
  (exists b',
     hsv_to_rgb im σ = Some (tt, <[data im := b']> σ) /\
     length b' = length buf /\
     forall x y, 0 <= x < w im -> 0 <= y < h im ->
       exists hue saturation value,
         pixel_at im buf x y = Some (hue, saturation, value) /\
         pixel_at im b' x y = Some (rgb_of_hsv hue saturation value)).
Proof.
  intros Hok Hc3. split.
  - exact (transform_pixels hsv_of_rgb σ im buf Hok Hc3).
  - exact (transform_pixels rgb_of_hsv σ im buf Hok Hc3).
Qed.

Lemma hsv_transforms_pixelwise_witness :
  (exists b',
     rgb_to_hsv im213 σ213 = Some (tt, <[data im213 := b']> σ213) /\
     length b' = length buf213 /\
     forall x y, 0 <= x < w im213 -> 0 <= y < h im213 ->
       exists r g b,
         pixel_at im213 buf213 x y = Some (r, g, b) /\
         pixel_at im213 b' x y = Some (hsv_of_rgb r g b)) /\
  (exists b',
     hsv_to_rgb im213 σ213 = Some (tt, <[data im213 := b']> σ213) /\
     length b' = length buf213 /\
     forall x y, 0 <= x < w im213 -> 0 <= y < h im213 ->
       exists hue saturation value,
         pixel_at im213 buf213 x y = Some (hue, saturation, value) /\
         pixel_at im213 b' x y = Some (rgb_of_hsv hue saturation value)).
Proof.
  apply (hsv_transforms_pixelwise σ213 im213 buf213).
  - repeat split; simpl; try lia; reflexivity.
  - reflexivity.
Defined.

Lemma unit_sample_fin p :
  unit_sample p = true -> fin32 p /\ (0 <= F2R p <= 1)%R.
Proof.
  intros H. apply andb_prop in H as [H1 H2]. now apply unit_range_fin.
Qed.

Lemma fin_unit_sample p : fin32 p -> (0 <= F2R p <= 1)%R -> unit_sample p = true.
Proof.
  intros Fp Hp. unfold unit_sample, in_unit_range.
  apply andb_true_intro. split; [exact (proj1 Fp)|].
  apply andb_true_intro. split; apply SFleb_of_le;
    try exact Fp; try exact fin32_of_int_0; try exact fin32_of_int_1;
    rewrite ?F2R_float_of_int_0, ?F2R_float_of_int_1; lra.
Qed.

Lemma pixel_at_lookup im buf x y p0 p1 p2 :
  pixel_at im buf x y = Some (p0, p1, p2) ->
  buf !! Z.to_nat (offset im x y 0) = Some p0 /\
  buf !! Z.to_nat (offset im x y 1) = Some p1 /\
  buf !! Z.to_nat (offset im x y 2) = Some p2.
Proof.
  unfold pixel_at.
  destruct (buf !! Z.to_nat (offset im x y 0)); [|discriminate].
  destruct (buf !! Z.to_nat (offset im x y 1)); [|discriminate].
  destruct (buf !! Z.to_nat (offset im x y 2)); [|discriminate].
  now intros [= -> -> ->].
Qed.

Lemma unit_pixel im buf x y p0 p1 p2 :
  forallb unit_sample buf = true ->
  pixel_at im buf x y = Some (p0, p1, p2) ->
  (fin32 p0 /\ (0 <= F2R p0 <= 1)%R) /\
  (fin32 p1 /\ (0 <= F2R p1 <= 1)%R) /\
  (fin32 p2 /\ (0 <= F2R p2 <= 1)%R).
Proof.
  intros Hall Hp. apply pixel_at_lookup in Hp as (H0 & H1 & H2).
  rewrite forallb_forall in Hall.
  repeat split; apply unit_sample_fin, Hall, list_elem_of_In;
    eapply list_elem_of_lookup_2; eassumption.
Qed.

(** X9.  On an image of three channels whose samples are binary32 numbers
    within [0, 1], [rgb_to_hsv] returns and leaves samples that are
    binary32 numbers within [0, 1]: hue, saturation and value are all in
    range; and the value of a pixel is [three_way_max] of its channels. *)
Theorem rgb_to_hsv_keeps_unit_range σ im buf :
  image_ok σ im buf -> c im = 3 ->
  forallb unit_sample buf = true ->
  exists b',
    rgb_to_hsv im σ = Some (tt, <[data im := b']> σ) /\
    length b' = length buf /\
    forallb unit_sample b' = true /\
    forall x y, 0 <= x < w im -> 0 <= y < h im ->
      exists r g b hue saturation,
        pixel_at im buf x y = Some (r, g, b) /\
        pixel_at im b' x y = Some (hue, saturation, three_way_max r g b).
Proof.
  intros Hok Hc3 Hall.
  destruct (transform_pixels hsv_of_rgb σ im buf Hok Hc3) as (b' & Hrun & Hl & Hb').
  exists b'. split; [exact Hrun|]. split; [exact Hl|]. split.
  - apply (forallb_pixels σ im buf Hok Hc3 unit_sample b' Hl).
    intros x y Hx Hy.
    destruct (Hb' x y Hx Hy) as (r & g & b & Hp & Hq).
    destruct (unit_pixel im buf x y r g b Hall Hp) as ((Fr & HR) & (Fg & HG) & (Fb & HB)).
    destruct (hsv_of_rgb_accurate r g b _ Fr Fg Fb HR HG HB eq_refl)
      as (Fh & Fs & Fv & HH & HS & HV & _).
    destruct (hsv_of_rgb r g b) as [[hue sat] val]. cbn [fst snd] in *.
    exists hue, sat, val. split; [exact Hq|].
    repeat split; now apply fin_unit_sample.
  - intros x y Hx Hy.
    destruct (Hb' x y Hx Hy) as (r & g & b & Hp & Hq).
    exists r, g, b. unfold hsv_of_rgb in Hq. cbv zeta in Hq. eauto.
Qed.

Lemma rgb_to_hsv_keeps_unit_range_witness :
  exists b',
    rgb_to_hsv im213 σ213 = Some (tt, <[data im213 := b']> σ213) /\
    length b' = length buf213 /\
    forallb unit_sample b' = true /\
    forall x y, 0 <= x < w im213 -> 0 <= y < h im213 ->
      exists r g b hue saturation,
        pixel_at im213 buf213 x y = Some (r, g, b) /\
        pixel_at im213 b' x y = Some (hue, saturation, three_way_max r g b).
Proof.
  apply (rgb_to_hsv_keeps_unit_range σ213 im213 buf213).
  - repeat split; simpl; try lia; reflexivity.
  - reflexivity.
  - vm_compute. reflexivity.
Defined.

(** *** Pixels without colour *)

Lemma three_way_max_diag k : three_way_max k k k = k.
Proof. unfold three_way_max. now destruct (Flt.gt k k). Qed.

Lemma three_way_min_diag k : three_way_min k k k = k.
Proof. unfold three_way_min. now destruct (Flt.lt k k). Qed.

Lemma fsub_diag k : Flt.is_finite k = true -> Flt.fsub k k = S754_zero false.
Proof.
  destruct k as [s|s| |s m e]; try discriminate; intros _.
  - now destruct s.
  - unfold Flt.fsub, SFsub. cbv zeta. rewrite Z.sub_diag. reflexivity.
Qed.

Lemma hsv_of_rgb_grey k :
  Flt.is_finite k = true ->
  hsv_of_rgb k k k = (Flt.float_of_int 0, Flt.float_of_int 0, k).
Proof.
  intros Hk. unfold hsv_of_rgb. cbv zeta.
  rewrite three_way_max_diag, three_way_min_diag, (fsub_diag k Hk).
  change (Flt.ne (S754_zero false) (Flt.float_of_int 0)) with false. cbv iota.
  destruct k as [s|s| |s m e]; try discriminate; [reflexivity|].
  destruct s; reflexivity.
Qed.

(** X10.  A pixel whose three channels are the same finite float [k] has
    no colour: [rgb_to_hsv] leaves hue 0, saturation 0 and value [k]
    there, exactly. *)
Theorem rgb_to_hsv_grey_pixel σ im buf :
  image_ok σ im buf -> c im = 3 ->
  exists b',
    rgb_to_hsv im σ = Some (tt, <[data im := b']> σ) /\
    forall x y k, 0 <= x < w im -> 0 <= y < h im ->
      pixel_at im buf x y = Some (k, k, k) -> Flt.is_finite k = true ->
      pixel_at im b' x y = Some (Flt.float_of_int 0, Flt.float_of_int 0, k).
Proof.
  intros Hok Hc3.
  destruct (transform_pixels hsv_of_rgb σ im buf Hok Hc3) as (b' & Hrun & Hl & Hb').
  exists b'. split; [exact Hrun|].
  intros x y k Hx Hy Hp Hk.
  destruct (Hb' x y Hx Hy) as (r & g & b & Hp' & Hq).
  rewrite Hp in Hp'. injection Hp' as <- <- <-.
  now rewrite Hq, hsv_of_rgb_grey.
Qed.

Lemma rgb_to_hsv_grey_pixel_witness :
  exists b',
    rgb_to_hsv im213 σ213 = Some (tt, <[data im213 := b']> σ213) /\
    forall x y k, 0 <= x < w im213 -> 0 <= y < h im213 ->
      pixel_at im213 buf213 x y = Some (k, k, k) -> Flt.is_finite k = true ->
      pixel_at im213 b' x y = Some (Flt.float_of_int 0, Flt.float_of_int 0, k).
Proof.
  apply (rgb_to_hsv_grey_pixel σ213 im213 buf213).
  - repeat split; simpl; try lia; reflexivity.
  - reflexivity.
Defined.

(** The factor [1 - fabs(fmod(_h, 2.0) - 1)] of [X] is a finite double
    when the hue is within [0, 1]. *)
Lemma wave_finite hue :
  fin32 hue -> (0 <= F2R hue <= 1)%R ->
  fin64 (Flt.dsub (Flt.double_of_int 1)
           (Flt.fabs
              (Flt.dsub
                 (Flt.fmod
                    (Flt.to_double
                       (Flt.to_float (Flt.dmul (Flt.to_double hue) (Flt.double_of_int 6))))
                    (Flt.double_of_int 2))
                 (Flt.double_of_int 1)))).
Proof.
  intros Hh HH.
  pose proof eta32_bound as E32. pose proof eta64_bound as E64.
  destruct (to_double_exact hue Hh) as [Fhd Ehd].
  set (p6 := Flt.dmul (Flt.to_double hue) (Flt.double_of_int 6)).
  assert (Rp : rounds64 eta64 (F2R hue * 6) p6).
  { rewrite <- Ehd, <- F2R_double_of_int_6.
    apply dmul_rounds; [exact Fhd|apply fin64_of_int; lia|].
    rewrite Ehd, F2R_double_of_int_6. lra. }
  destruct (r64_nonneg _ _ _ Rp ltac:(lra)) as (Fp & P0 & Perr & Pmono).
  pose proof (Pmono (Flt.double_of_int 6) (fin64_of_int 6 ltac:(lia))
                ltac:(rewrite F2R_double_of_int_6; lra)) as P6.
  rewrite F2R_double_of_int_6 in P6.
  set (_h := Flt.to_float p6).
  assert (Rh : rounds32 eta32 (F2R p6) _h)
    by (apply to_float_rounds; [exact (fin_is_finite _ _ _ Fp)|lra]).
  destruct (r32_nonneg _ _ _ Rh P0) as (Fh & T0 & Terr & Tmono).
  destruct (to_double_exact _h Fh) as [Fh6 Eh6].
  set (h6 := Flt.to_double _h) in *.
  destruct (fmod_exact h6 (Flt.double_of_int 2) Fh6 (fin64_of_int 2 ltac:(lia))
              ltac:(lra) ltac:(rewrite F2R_double_of_int_2; lra))
    as (Ff & k & Hk & Fval & Frange).
  rewrite F2R_double_of_int_2 in Frange.
  set (f := Flt.fmod h6 (Flt.double_of_int 2)) in *.
  set (f1 := Flt.dsub f (Flt.double_of_int 1)).
  assert (Rf1 : rounds64 0 (F2R f - 1) f1).
  { rewrite <- F2R_double_of_int_1.
    apply dsub_rounds; [exact Ff|apply fin64_of_int; lia|].
    rewrite F2R_double_of_int_1. lra. }
  destruct (r64_abs _ _ _ 1 Rf1 ltac:(lra)) as (Ff1 & F1err).
  destruct (SFabs_fin _ _ f1 Ff1) as [Fa Ea].
  change (SFabs f1) with (Flt.fabs f1) in Fa, Ea.
  pose proof (Rabs_close (F2R f1) (F2R f - 1) (1 / 9007199254740992) ltac:(lra)) as Aerr.
  rewrite <- Ea in Aerr.
  pose proof (Rabs_unit (F2R f - 1) ltac:(lra)) as Hwave.
  assert (Rw : rounds64 0 (1 - F2R (Flt.fabs f1))
                 (Flt.dsub (Flt.double_of_int 1) (Flt.fabs f1))).
  { rewrite <- F2R_double_of_int_1.
    apply dsub_rounds; [apply fin64_of_int; lia|exact Fa|].
    rewrite F2R_double_of_int_1. lra. }
  exact (proj1 Rw).
Qed.

Lemma SFeqb_zero_inv s : SFeqb s (Flt.float_of_int 0) = true -> exists z, s = S754_zero z.
Proof. destruct s as [z|[|]| |[|] m e]; try discriminate. eauto. Qed.

Lemma SFeqb_same v : Flt.is_finite v = true -> SFeqb v v = true.
Proof.
  destruct v as [s|s| |s m e]; try discriminate; intros _; [reflexivity|].
  unfold SFeqb, SFcompare. rewrite Z.compare_refl.
  change (Pos.compare_cont Eq m m) with (Pos.compare m m). rewrite Pos.compare_refl.
  now destruct s.
Qed.

(** The sum of a zero and of [v] minus a zero compares equal to [v]. *)
Lemma zero_plus_diff v a b :
  fin32 v ->
  Flt.eq (Flt.fadd (S754_zero a) (Flt.fsub v (S754_zero b))) v = true /\
  Flt.is_float (Flt.fadd (S754_zero a) (Flt.fsub v (S754_zero b))) = true.
Proof.
  intros Fv. destruct (fin_inv _ _ v Fv) as [[s ->]|(s & m & e & -> & B)].
  - destruct a, b, s; split; reflexivity.
  - cbn [Flt.fsub SFsub Flt.fadd SFadd]. split.
    + apply (SFeqb_same (S754_finite s m e)). reflexivity.
    + exact B.
Qed.

Lemma rgb_of_hsv_unsaturated hue saturation value out :
  unit_sample hue = true -> unit_sample value = true ->
  Flt.eq saturation (Flt.float_of_int 0) = true ->
  rgb_of_hsv hue saturation value = out ->
  (Flt.eq out.1.1 value = true /\ Flt.is_float out.1.1 = true) /\
  (Flt.eq out.1.2 value = true /\ Flt.is_float out.1.2 = true) /\
  (Flt.eq out.2 value = true /\ Flt.is_float out.2 = true).
Proof.
  intros Hh Hv Hs Hout.
  destruct (unit_sample_fin hue Hh) as [Fh HH].
  destruct (unit_sample_fin value Hv) as [Fv HV].
  destruct (SFeqb_zero_inv saturation Hs) as [z ->].
  pose proof (wave_finite hue Fh HH) as Fw.
  unfold rgb_of_hsv in Hout. cbv zeta in Hout.
  set (wv := Flt.dsub (Flt.double_of_int 1) _) in *.
  assert (Hc : exists a, Flt.fmul value (S754_zero z) = S754_zero a).
  { destruct (fin_inv _ _ value Fv) as [[s ->]|(s & m & e & -> & B)]; simpl; eauto. }
  destruct Hc as [a Ha]. rewrite Ha in Hout.
  assert (HX : exists b, Flt.to_float (Flt.dmul (Flt.to_double (S754_zero a)) wv)
                         = S754_zero b).
  { destruct (fin_inv _ _ wv Fw) as [[s ->]|(s & m & e & -> & B)]; simpl; eauto. }
  destruct HX as [b Hb]. rewrite Hb in Hout.
  change (Flt.float_of_int 0) with (S754_zero false) in Hout.
  repeat match type of Hout with
         | context [if ?c then _ else _] => destruct c
         end;
    subst out; cbn [fst snd];
    repeat split; apply (zero_plus_diff value _ _ Fv).
Qed.

(** X11.  A pixel of saturation 0 comes back grey, whatever its hue: for
    hue and value within [0, 1], each channel [hsv_to_rgb] leaves is a
    float that compares equal to the value. *)
Theorem hsv_to_rgb_unsaturated_pixel σ im buf :
  image_ok σ im buf -> c im = 3 ->
  exists b',
    hsv_to_rgb im σ = Some (tt, <[data im := b']> σ) /\
    forall x y hue saturation value, 0 <= x < w im -> 0 <= y < h im ->
      pixel_at im buf x y = Some (hue, saturation, value) ->
      unit_sample hue = true -> unit_sample value = true ->
      Flt.eq saturation (Flt.float_of_int 0) = true ->
      exists r g b,
        pixel_at im b' x y = Some (r, g, b) /\
        Flt.eq r value = true /\ Flt.eq g value = true /\ Flt.eq b value = true /\
        Flt.is_float r = true /\ Flt.is_float g = true /\ Flt.is_float b = true.
Proof.
  intros Hok Hc3.
  destruct (transform_pixels rgb_of_hsv σ im buf Hok Hc3) as (b' & Hrun & Hl & Hb').
  exists b'. split; [exact Hrun|].
  intros x y hue saturation value Hx Hy Hp Hh Hv Hs.
  destruct (Hb' x y Hx Hy) as (p0 & p1 & p2 & Hp' & Hq).
  rewrite Hp in Hp'. injection Hp' as <- <- <-.
  destruct (rgb_of_hsv_unsaturated hue saturation value _ Hh Hv Hs eq_refl)
    as ((E0 & F0) & (E1 & F1) & (E2 & F2)).
  destruct (rgb_of_hsv hue saturation value) as [[r g] b]. cbn [fst snd] in *.
  exists r, g, b. repeat split; assumption.
Qed.

Lemma hsv_to_rgb_unsaturated_pixel_witness :
  exists b',
    hsv_to_rgb im113 σ113u = Some (tt, <[data im113 := b']> σ113u) /\
    forall x y hue saturation value, 0 <= x < w im113 -> 0 <= y < h im113 ->
      pixel_at im113 buf113u x y = Some (hue, saturation, value) ->
      unit_sample hue = true -> unit_sample value = true ->
      Flt.eq saturation (Flt.float_of_int 0) = true ->
      exists r g b,
        pixel_at im113 b' x y = Some (r, g, b) /\
        Flt.eq r value = true /\ Flt.eq g value = true /\ Flt.eq b value = true /\
        Flt.is_float r = true /\ Flt.is_float g = true /\ Flt.is_float b = true.
Proof.
  apply (hsv_to_rgb_unsaturated_pixel σ113u im113 buf113u).
  - repeat split; simpl; try lia; reflexivity.
  - reflexivity.
Defined.

(** *** The accuracy of each transform *)












(** ** [rgb_to_grayscale] and the number of channels *)

(** X14.  [rgb_to_grayscale] returns exactly on the images of three
    channels: with any other number of channels its assertion fails. *)
Theorem rgb_to_grayscale_needs_three_channels σ im buf :
  image_ok σ im buf ->
  (exists gray σ', rgb_to_grayscale im σ = Some (gray, σ')) <-> c im = 3.
Proof.
  intros Hok. split.
  - intros (gray & σ' & Hrun). unfold rgb_to_grayscale in Hrun.
    destruct (Z.eqb_spec (c im) 3) as [E|E]; [exact E|discriminate Hrun].
  - intros Hc3. destruct (rgb_to_grayscale_runs σ im buf Hok Hc3) as (gb & Hrun & _).
    eauto.
Qed.

Lemma rgb_to_grayscale_needs_three_channels_witness :
  ((exists gray σ', rgb_to_grayscale im22 σ22 = Some (gray, σ')) <-> c im22 = 3) /\
  rgb_to_grayscale im22 σ22 = None.
Proof.
  split; [|reflexivity].
  apply (rgb_to_grayscale_needs_three_channels σ22 im22 buf22).
  repeat split; simpl; try lia; reflexivity.
Defined.

(** ** What the resizing functions leave alone *)

Lemma for_loop_frame (I : heap -> Prop) (body : Z -> M unit) n :
  (forall i s s', I s -> body i s = Some (tt, s') -> I s') ->
  forall lo σ σ', I σ -> for_loop n lo body σ = Some (tt, σ') -> I σ'.
Proof.
  intros Hstep. induction n as [|n IH]; intros lo σ σ' H0 Hrun.
  - cbn in Hrun. injection Hrun as <-. exact H0.
  - cbn [for_loop] in Hrun.
    apply bind_inv in Hrun as ([] & s1 & Hb & Hrest).
    apply (IH (lo + 1) s1 σ'); [|exact Hrest].
    now apply (Hstep lo σ s1).
Qed.

Lemma for_upto_frame (I : heap -> Prop) (body : Z -> M unit) hi σ σ' :
  (forall i s s', I s -> body i s = Some (tt, s') -> I s') ->
  I σ -> for_upto hi body σ = Some (tt, σ') -> I σ'.
Proof. intros Hstep H0. unfold for_upto. now apply for_loop_frame. Qed.

Lemma lift_inv {A} (o : option A) σ a σ' : lift o σ = Some (a, σ') -> o = Some a /\ σ' = σ.
Proof. destruct o; [|discriminate]. now intros [= -> ->]. Qed.

Lemma nn_interpolate_keeps_store im x y z s v s' :
  nn_interpolate im x y z s = Some (v, s') -> s' = s.
Proof.
  unfold nn_interpolate. intros H.
  apply bind_inv in H as (xi & s1 & H1 & H). apply lift_inv in H1 as [_ ->].
  apply bind_inv in H as (yi & s2 & H2 & H). apply lift_inv in H2 as [_ ->].
  unfold get_pixel in H. now apply load_keeps_store in H.
Qed.

Lemma bilinear_interpolate_keeps_store im x y z s v s' :
  bilinear_interpolate im x y z s = Some (v, s') -> s' = s.
Proof.
  unfold bilinear_interpolate. intros H.
  apply bind_inv in H as (a1 & s1 & H1 & H). apply lift_inv in H1 as [_ ->].
  apply bind_inv in H as (a2 & s2 & H2 & H). apply lift_inv in H2 as [_ ->].
  apply bind_inv in H as (a3 & s3 & H3 & H). apply lift_inv in H3 as [_ ->].
  apply bind_inv in H as (a4 & s4 & H4 & H). apply lift_inv in H4 as [_ ->].
  apply bind_inv in H as (v1 & t1 & G1 & H).
  unfold get_pixel in G1. apply load_keeps_store in G1 as ->.
  apply bind_inv in H as (v2 & t2 & G2 & H).
  unfold get_pixel in G2. apply load_keeps_store in G2 as ->.
  apply bind_inv in H as (v3 & t3 & G3 & H).
  unfold get_pixel in G3. apply load_keeps_store in G3 as ->.
  apply bind_inv in H as (v4 & t4 & G4 & H).
  unfold get_pixel in G4. apply load_keeps_store in G4 as ->.
  cbv zeta in H. now injection H as _ <-.
Qed.

Lemma set_pixel_keeps_length im x y ch v s s' b :
  set_pixel im x y ch v s = Some (tt, s') ->
  s !! data im = Some b ->
  exists b', s' !! data im = Some b' /\ length b' = length b.
Proof.
  unfold set_pixel, ret, store. intros Hs Hb.
  repeat match type of Hs with
         | (if ?c then _ else _) _ = _ =>
             destruct c; [injection Hs as <-; exists b; now split|]
         end.
  rewrite Hb in Hs. destruct (_ && _); [|discriminate].
  injection Hs as <-. eexists. split; [apply lookup_insert_eq|apply length_insert].
Qed.

Lemma resize_with_frame interp σ im nw nh im' σ' :
  (forall im x y z s v s', interp im x y z s = Some (v, s') -> s' = s) ->
  resize_with interp im nw nh σ = Some (im', σ') ->
  w im' = nw /\ h im' = nh /\ c im' = c im /\
  σ !! data im' = None /\
  (forall p, p <> data im' -> σ' !! p = σ !! p) /\
  exists b, σ' !! data im' = Some b /\ length b = Z.to_nat (nw * nh * c im).
Proof.
  intros Hk Hrun. unfold resize_with in Hrun.
  apply bind_inv in Hrun as (res & σ1 & Hmk & Hrun).
  destruct (make_image_fresh _ _ _ _ _ _ Hmk) as (Hnew & Ew & Eh & Ec & ->).
  apply bind_inv in Hrun as ([] & σ2 & Hloops & Hret).
  injection Hret as <- <-.
  set (q := data res) in *.
  set (I := fun s : heap =>
              (forall p, p <> q -> s !! p = σ !! p) /\
              exists b, s !! q = Some b /\ length b = Z.to_nat (nw * nh * c im)).
  assert (HI : I σ2).
  { revert Hloops. apply for_upto_frame.
    - intros row s s' Hs. apply for_upto_frame; [|exact Hs].
      intros col s1 s1' Hs1. cbv zeta. apply for_upto_frame; [|exact Hs1].
      intros z t t' (Hother & b & Hb & Hl) Hbody.
      apply bind_inv in Hbody as (val & t1 & Hi & Hset).
      apply Hk in Hi as ->.
      destruct (set_pixel_keeps_length _ _ _ _ _ _ _ _ Hset Hb) as (b' & Hb' & Hl').
      split.
      + intros p Hp. rewrite (set_pixel_other_buffer _ _ _ _ _ _ _ Hset p Hp).
        now apply Hother.
      + exists b'. split; [exact Hb'|congruence].
    - split.
      + intros p Hp. now rewrite lookup_insert_ne.
      + eexists. split; [apply lookup_insert_eq|apply length_replicate]. }
  destruct HI as (Hother & Hb).
  repeat split; assumption.
Qed.

(** X15.  When [nn_resize] or [bilinear_resize] returns, the image it
    returns has the width and height asked for and the channels of [im],
    over a buffer that was not allocated before and holds [w*h*c] samples;
    every other buffer, that of [im] among them, is as it was. *)
Theorem resize_frame σ im nw nh im' σ' :
  nn_resize im nw nh σ = Some (im', σ') \/ bilinear_resize im nw nh σ = Some (im', σ') ->
  w im' = nw /\ h im' = nh /\ c im' = c im /\
  σ !! data im' = None /\
  (forall p, p <> data im' -> σ' !! p = σ !! p) /\
  exists b, σ' !! data im' = Some b /\ length b = Z.to_nat (nw * nh * c im).
Proof.
  intros [H|H].
  - apply (resize_with_frame nn_interpolate σ im nw nh im' σ'); [|exact H].
    intros. eapply nn_interpolate_keeps_store; eassumption.
  - apply (resize_with_frame bilinear_interpolate σ im nw nh im' σ'); [|exact H].
    intros. eapply bilinear_interpolate_keeps_store; eassumption.
Qed.

Lemma resize_frame_witness :
  match nn_resize im22 4 4 σ22 with
  | Some (im', σ') =>
      w im' = 4 /\ h im' = 4 /\ c im' = c im22 /\
      σ22 !! data im' = None /\
      (forall p, p <> data im' -> σ' !! p = σ22 !! p) /\
      exists b, σ' !! data im' = Some b /\ length b = Z.to_nat (4 * 4 * c im22)
  | None => False
  end.
Proof.
  destruct (nn_resize im22 4 4 σ22) as [[im' σ']|] eqn:E.
  - apply (resize_frame σ22 im22 4 4 im' σ'). left. exact E.
  - vm_compute in E. discriminate E.
Defined.

(** ** Integers as floats *)

Lemma rne_frac_multiple q D : 0 < D -> rne_frac (q * D) D = q.
Proof.
  intros HD. unfold rne_frac. rewrite Z.div_mul, Z.mod_mul by lia.
  cbv zeta. destruct (Z.compare_spec (2 * 0) D); lia.
Qed.

Section Integers.

Context (prec emax : Z).
Hypothesis Hprec : 0 < prec.
Hypothesis Hemax : prec < emax.

(** A number of the format, with its mantissa shifted to the left, rounds
    to itself. *)
Lemma round_frac_multiple s m e k :
  SpecFloat.bounded prec emax m e = true -> 0 <= k ->
  round_frac prec emax s (Z.pos m * 2 ^ k) 1 (e - k) = S754_finite s m e.
Proof.
  intros B Hk. destruct (bounded_inv _ _ m e B) as (Hc & He & _ & Hd & _).
  pose proof (pow2_pos k Hk) as Hp.
  destruct (Z.pos m * 2 ^ k) as [|M|M] eqn:EM; try lia.
  pose proof (digits2_pos_shift m k Hk M ltac:(lia)) as HdM.
  unfold round_frac. rewrite Z.div_1_r. cbn [Zdigits2]. rewrite HdM.
  replace (Z.pos (digits2_pos m) + k + (e - k)) with (Z.pos (digits2_pos m) + e) by lia.
  rewrite Hc. cbv zeta.
  replace (e - (e - k)) with k by lia. rewrite Z.mul_1_l, <- EM, rne_frac_multiple by lia.
  pose proof (digits2_pos_bounds m) as [_ U].
  pose proof (pow2_le (Z.pos (digits2_pos m)) prec ltac:(lia)).
  destruct (Z.eqb_spec (Z.pos m) 0); [lia|].
  destruct (Z.ltb_spec (Z.pos m) (2 ^ prec)); [|lia].
  destruct (Z.leb_spec e (emax - prec)); [|lia].
  reflexivity.
Qed.

(** A small integer converts to the format without rounding. *)
Lemma binary_normalize_integer n :
  0 <= n < 2 ^ prec ->
  fin prec emax (binary_normalize prec emax n 0 false) /\
  F2R (binary_normalize prec emax n 0 false) = IZR n.
Proof.
  intros Hn. destruct n as [|p|p]; [split; [apply fin_zero|reflexivity]| |lia].
  cbn [binary_normalize].
  destruct (binary_round_exact _ _ Hprec Hemax false p 0) as [Hf HF].
  - pose proof (digits2_pos_bounds p) as [L _].
    assert (Z.pos (digits2_pos p) <= prec).
    { destruct (Z.le_gt_cases (Z.pos (digits2_pos p)) prec) as [|Hgt]; [assumption|exfalso].
      pose proof (pow2_le prec (Z.pos (digits2_pos p) - 1) ltac:(lia)). lia. }
    unfold fexp, emin. lia.
  - change (bpow 0) with 1%R. rewrite Rmult_1_r.
    apply Rlt_le_trans with (bpow prec); [rewrite bpow_IZR by lia; apply IZR_lt; lia|].
    apply bpow_le. lia.
  - split; [exact Hf|]. rewrite HF. change (bpow 0) with 1%R. ring.
Qed.

End Integers.

(** The integer a positive float of integral value truncates to, with no
    fraction to round. *)
Lemma trunc_integer m e n :
  F2R (S754_finite false m e) = IZR n ->
  Flt.trunc (S754_finite false m e) = Some n /\
  Flt.fraction_ge_half (S754_finite false m e) = false.
Proof.
  rewrite F2R_finite, Rmult_1_l. intros H.
  unfold Flt.trunc, Flt.fraction_ge_half.
  destruct (Z.leb_spec 0 e) as [He|He].
  - split; [|reflexivity]. f_equal.
    rewrite bpow_IZR, <- mult_IZR in H by lia. now apply eq_IZR in H.
  - pose proof (pow2_pos (- e) ltac:(lia)) as Hp.
    assert (E : Z.pos m = n * 2 ^ (- e)).
    { apply eq_IZR. rewrite mult_IZR, <- bpow_IZR, <- H by lia.
      rewrite Rmult_assoc, <- bpow_plus. replace (e + - e) with 0 by lia.
      change (bpow 0) with 1%R. ring. }
    rewrite E, Z.div_mul, Z.mod_mul by lia. split; [reflexivity|].
    destruct (Z.leb_spec (2 ^ (- e)) (2 * 0)); [lia|reflexivity].
Qed.

Lemma float_of_int_exact n :
  0 <= n < 2 ^ 24 -> fin32 (Flt.float_of_int n) /\ F2R (Flt.float_of_int n) = IZR n.
Proof. intros Hn. now apply (binary_normalize_integer _ _ prec32_pos emax32_gt). Qed.

Lemma double_of_int_exact n :
  0 <= n < 2 ^ 53 -> fin64 (Flt.double_of_int n) /\ F2R (Flt.double_of_int n) = IZR n.
Proof. intros Hn. now apply (binary_normalize_integer _ _ prec64_pos emax64_gt). Qed.

(** [(int) round(x)] where the float [x] is the integer [k]. *)
Lemma round_float_of_int k :
  0 <= k < 2 ^ 24 ->
  Flt.int_of (Flt.round (Flt.to_double (Flt.float_of_int k))) = Some k.
Proof.
  intros Hk. destruct (float_of_int_exact k Hk) as [Fx Ex].
  destruct (to_double_exact _ Fx) as [Fd Ed]. rewrite Ex in Ed.
  destruct (Z.eq_dec k 0) as [->|Hk0]; [reflexivity|].
  assert (Hpos : (0 < IZR k)%R) by (apply IZR_lt; lia).
  destruct (F2R_pos_inv (Flt.to_double (Flt.float_of_int k)) ltac:(lra)) as (M & E & HM).
  rewrite HM in *.
  destruct (trunc_integer M E k Ed) as [Ht Hfr].
  unfold Flt.round. rewrite Ht, Hfr. unfold Flt.integral.
  change (binary_normalize Flt.prec64 Flt.emax64 k 0 false) with (Flt.double_of_int k).
  destruct (double_of_int_exact k ltac:(lia)) as [Fi Ei].
  destruct (F2R_pos_inv (Flt.double_of_int k) ltac:(lra)) as (M' & E' & HM').
  rewrite HM' in *.
  destruct (trunc_integer M' E' k Ei) as [Ht' _].
  unfold Flt.int_of. rewrite Ht'. unfold Flt.INT_MIN, Flt.INT_MAX.
  destruct (Z.leb_spec (- 2 ^ 31) k); [|lia].
  destruct (Z.leb_spec k (2 ^ 31 - 1)); [reflexivity|lia].
Qed.

(** [1 * x] is [x]. *)
Lemma fmul_one_l x : fin32 x -> Flt.fmul (Flt.float_of_int 1) x = x.
Proof.
  intros Fx. destruct (fin_inv _ _ x Fx) as [[s ->]|(s & m & e & -> & B)].
  - now destruct s.
  - change (Flt.float_of_int 1) with (S754_finite false 8388608 (-23)).
    unfold Flt.fmul. cbn [SFmul xorb].
    destruct (bounded_inv _ _ m e B) as (Hc & _ & _ & _ & _).
    pose proof (digits2_pos_shift m 23 ltac:(lia) (8388608 * m)%positive ltac:(lia)) as Hd.
    rewrite (binary_round_aux_exact_frac _ _ prec32_pos).
    + replace (Z.pos (8388608 * m)) with (Z.pos m * 2 ^ 23) by lia.
      replace (-23 + e) with (e - 23) by lia.
      now apply round_frac_multiple.
    + rewrite Hd.
      replace (Z.pos (digits2_pos m) + 23 + (-23 + e)) with (Z.pos (digits2_pos m) + e) by lia.
      rewrite Hc. lia.
Qed.

(** [x / x] is 1. *)
Lemma fdiv_self s m e :
  Flt.fdiv (S754_finite s m e) (S754_finite s m e) = Flt.float_of_int 1.
Proof.
  unfold Flt.fdiv, SFdiv, SFdiv_core_binary. cbv zeta. rewrite !Z.sub_diag.
  change (Z.min (fexp Flt.prec32 Flt.emax32 0) 0) with (-24).
  change (0 - -24) with 24.
  rewrite Z.shiftl_mul_pow2 by lia.
  assert (E : Z.div_eucl (Z.pos m * 2 ^ 24) (Z.pos m) = (2 ^ 24, 0)).
  { pose proof (Z.div_mul (2 ^ 24) (Z.pos m) ltac:(lia)) as Hq.
    pose proof (Z.mod_mul (2 ^ 24) (Z.pos m) ltac:(lia)) as Hr.
    rewrite (Z.mul_comm (2 ^ 24)) in Hq, Hr. unfold Z.div, Z.modulo in Hq, Hr.
    destruct (Z.div_eucl (Z.pos m * 2 ^ 24) (Z.pos m)) as [q r]. congruence. }
  rewrite E.
  assert (L : new_location (Z.pos m) 0 = loc_Exact).
  { unfold new_location, new_location_even, new_location_odd.
    now destruct (Z.even (Z.pos m)). }
  rewrite L. now destruct s.
Qed.

Lemma ratio_same n : 1 <= n < 2 ^ 24 -> ratio n n = Flt.float_of_int 1.
Proof.
  intros Hn. destruct (float_of_int_exact n ltac:(lia)) as [Fx Ex].
  assert (Hpos : (0 < IZR n)%R) by (apply IZR_lt; lia).
  destruct (F2R_pos_inv (Flt.float_of_int n) ltac:(lra)) as (m & e & Hm).
  unfold ratio. rewrite Hm. apply fdiv_self.
Qed.

(** With a ratio of 1 the source coordinate of column [k] is [k]. *)
Lemma source_coord_same k :
  0 <= k < 2 ^ 24 ->
  source_coord (Flt.float_of_int 1) (correction_factor (Flt.float_of_int 1)) k
  = Flt.float_of_int k.
Proof.
  intros Hk. destruct (float_of_int_exact k Hk) as [Fx Ex].
  unfold source_coord. rewrite (fmul_one_l _ Fx).
  change (correction_factor (Flt.float_of_int 1)) with (S754_zero false).
  destruct (Z.eq_dec k 0) as [->|Hk0]; [reflexivity|].
  assert (Hpos : (0 < IZR k)%R) by (apply IZR_lt; lia).
  destruct (F2R_pos_inv (Flt.float_of_int k) ltac:(lra)) as (m & e & ->).
  reflexivity.
Qed.

(** ** The loops of the resizing functions *)

Section ResizeNest.

Context (interp : image -> spec_float -> spec_float -> Z -> M spec_float).
Context (σ : heap) (im : image) (buf : list spec_float) (nw nh : Z).
Context (tgt : Z -> Z -> Z -> spec_float).
Hypothesis Hok : image_ok σ im buf.
Hypothesis Hnw : 0 <= nw.
Hypothesis Hnh : 0 <= nh.

Local Abbreviation q := (fresh (dom σ)).
Local Abbreviation res := {| w := nw; h := nh; c := c im; data := q |}.
Local Abbreviation x_of col :=
  (source_coord (ratio (w im) nw) (correction_factor (ratio (w im) nw)) col).
Local Abbreviation y_of row :=
  (source_coord (ratio (h im) nh) (correction_factor (ratio (h im) nh)) row).

(** The interpolation returns [tgt col row z] at the source coordinate of
    [(col, row)], and leaves the store as it is. *)
Hypothesis Hinterp : forall col row z s,
  0 <= col < nw -> 0 <= row < nh -> 0 <= z < c im ->
  s !! data im = Some buf ->
  interp im (x_of col) (y_of row) z s = Some (tgt col row z, s).

(** Before the iteration at [(row, col, z)] the samples of the rows above,
    of the columns to the left in the row and of the channels below in the
    pixel are written. *)
Local Abbreviation inv row col z s :=
  (exists b, s = <[q := b]> σ /\ Z.of_nat (length b) = nw * nh * c im /\
     forall x y ch, 0 <= x < nw -> 0 <= y < nh -> 0 <= ch < c im ->
       y < row \/ (row <= y <= row /\ (x < col \/ (col <= x <= col /\ ch < z))) ->
       b !! Z.to_nat (offset res x y ch) = Some (tgt x y ch)).

Lemma resize_step row col z s :
  0 <= row < nh -> 0 <= col < nw -> 0 <= z < c im ->
  inv row col z s ->
  exists s',
    (val <- interp im (x_of col) (y_of row) z ;; set_pixel res col row z val) s
    = Some (tt, s') /\
    inv row col (z + 1) s'.
Proof.
  intros Hrow Hcol Hz (b & -> & Hl & Hb).
  pose proof Hok as (Hw & Hh & Hc & Hbuf & Hlen).
  pose proof (gray_fresh σ im buf Hok) as Hne.
  assert (Hokr : image_ok (<[q := b]> σ) res b).
  { repeat split; cbn [w h c data]; try assumption. apply lookup_insert_eq. }
  assert (Hsrc : (<[q := b]> σ) !! data im = Some buf)
    by (rewrite lookup_insert_ne by exact Hne; exact Hbuf).
  rewrite (bind_Some _ _ _ _ _ (Hinterp col row z _ Hcol Hrow Hz Hsrc)).
  rewrite (set_pixel_inside _ _ _ Hokr col row z) by (cbn [w h c]; assumption).
  cbn [data]. rewrite insert_insert_eq.
  eexists. split; [reflexivity|].
  eexists. split; [reflexivity|]. split; [now rewrite length_insert|].
  intros x y ch Hx Hy Hch Hdone.
  pose proof (offset_inside res Hnw Hnh Hc col row z Hcol Hrow Hz) as Hoff.
  cbn [w h c] in Hoff.
  destruct (decide ((x, y, ch) = (col, row, z))) as [[= -> -> ->]|Hdiff].
  - apply list_lookup_insert_eq. lia.
  - rewrite list_lookup_insert_ne.
    + apply Hb; try assumption.
      assert (Hz' : x = col -> y = row -> ch <> z) by (intros -> -> ->; now apply Hdiff).
      lia.
    + intros E. apply Hdiff.
      pose proof (offset_inside res Hnw Hnh Hc x y ch Hx Hy Hch) as Hoff'.
      cbn [w h c] in Hoff'.
      assert (E' : offset res col row z = offset res x y ch) by lia.
      destruct (offset_inj res Hnw Hnh Hc col row z x y ch Hcol Hrow Hz Hx Hy Hch E')
        as (-> & -> & ->).
      reflexivity.
Qed.

(** The resizing returns when the interpolations do, and the sample at
    [(col, row, z)] of the image returned is the interpolation at the
    source coordinate of [(col, row)]. *)
Lemma resize_with_runs :
  exists b,
    resize_with interp im nw nh σ = Some (res, <[q := b]> σ) /\
    Z.of_nat (length b) = nw * nh * c im /\
    forall col row z, 0 <= col < nw -> 0 <= row < nh -> 0 <= z < c im ->
      b !! Z.to_nat (offset res col row z) = Some (tgt col row z).
Proof.
  pose proof Hok as (Hw & Hh & Hc & Hbuf & Hlen).
  set (σ1 := <[q := replicate (Z.to_nat (nw * nh * c im)) Flt.zero]> σ).
  assert (Hmk : make_image nw nh (c im) σ = Some (res, σ1)) by reflexivity.
  assert (Hloops : exists σ2,
            for_upto nh (fun row =>
              for_upto nw (fun col =>
                for_upto (c im) (fun z =>
                  val <- interp im (x_of col) (y_of row) z ;;
                  set_pixel res col row z val))) σ1 = Some (tt, σ2) /\
            inv nh 0 0 σ2).
  { apply (for_upto_inv (fun row s => inv row 0 0 s)); [exact Hnh| |].
    - exists (replicate (Z.to_nat (nw * nh * c im)) Flt.zero).
      split; [reflexivity|]. split; [rewrite length_replicate; nia|].
      intros x y ch Hx Hy Hch Hdone. lia.
    - intros row s Hrow Hinv.
      destruct (for_upto_inv (fun col s => inv row col 0 s)
                  (fun col => for_upto (c im) (fun z =>
                     val <- interp im (x_of col) (y_of row) z ;;
                     set_pixel res col row z val)) nw s Hnw Hinv)
        as (s' & Hrun & (b & -> & Hl & Hb)).
      + intros col s1 Hcol Hinv1.
        destruct (for_upto_inv (fun z s => inv row col z s)
                    (fun z => val <- interp im (x_of col) (y_of row) z ;;
                              set_pixel res col row z val) (c im) s1 Hc Hinv1)
          as (s1' & Hrun1 & (b & -> & Hl & Hb)).
        * intros z s2 Hz Hinv2. now apply resize_step.
        * exists (<[q := b]> σ). split; [exact Hrun1|].
          exists b. split; [reflexivity|]. split; [exact Hl|].
          intros x y ch Hx Hy Hch Hdone. apply Hb; try assumption. lia.
      + exists (<[q := b]> σ). split; [exact Hrun|].
        exists b. split; [reflexivity|]. split; [exact Hl|].
        intros x y ch Hx Hy Hch Hdone. apply Hb; try assumption. lia. }
  destruct Hloops as (σ2 & Hrun & (b & -> & Hl & Hb)).
  exists b. split; [|split; [exact Hl|]].
  - unfold resize_with. rewrite (bind_Some _ _ _ _ _ Hmk). cbv zeta. cbn [w h c].
    rewrite (bind_Some _ _ _ _ _ Hrun). reflexivity.
  - intros col row z Hcol Hrow Hz. apply Hb; try assumption. lia.
Qed.

End ResizeNest.

(** ** Resizing to the same size *)

Lemma nn_interpolate_at_integers σ im buf col row z :
  image_ok σ im buf ->
  0 <= col < w im -> 0 <= row < h im -> 0 <= z < c im ->
  w im < 2 ^ 24 -> h im < 2 ^ 24 ->
  nn_interpolate im (Flt.float_of_int col) (Flt.float_of_int row) z σ
  = Some (default Flt.zero (buf !! Z.to_nat (offset im col row z)), σ).
Proof.
  intros Hok Hcol Hrow Hz Hw Hh.
  unfold nn_interpolate.
  rewrite (round_float_of_int col), (round_float_of_int row) by lia.
  destruct (get_pixel_inside σ im buf Hok col row z Hcol Hrow Hz) as (v & Hv & Hg).
  cbn [lift]. unfold bind, ret. rewrite Hg, Hv. reflexivity.
Qed.

(** X16.  [nn_resize] to the dimensions the image has returns a copy of
    the image: the same dimensions and the same samples, in a buffer of
    its own, with the image as it was.  (For widths and heights below
    [2^24], which a float holds exactly.) *)
Theorem nn_resize_same_size σ im buf :
  image_ok σ im buf -> w im < 2 ^ 24 -> h im < 2 ^ 24 ->
  exists im' σ',
    nn_resize im (w im) (h im) σ = Some (im', σ') /\
    w im' = w im /\ h im' = h im /\ c im' = c im /\
    data im' <> data im /\
    pixels σ' im' = Some buf /\
    pixels σ' im = Some buf.
Proof.
  intros Hok Hw24 Hh24. pose proof Hok as (Hw & Hh & Hc & Hbuf & Hlen).
  pose proof (gray_fresh σ im buf Hok) as Hne.
  destruct (resize_with_runs nn_interpolate σ im buf (w im) (h im)
              (fun x y ch => default Flt.zero (buf !! Z.to_nat (offset im x y ch)))
              Hok Hw Hh) as (b & Hrun & Hl & Hb).
  - intros col row z s Hcol Hrow Hz Hs.
    rewrite (ratio_same (w im)), (ratio_same (h im)) by lia.
    rewrite (source_coord_same col), (source_coord_same row) by lia.
    apply nn_interpolate_at_integers; try assumption.
    repeat split; assumption.
  - eexists _, _. split; [exact Hrun|]. cbn [w h c data].
    repeat split; try assumption.
    + assert (E : b = (fun p : spec_float => p) <$> buf).
      { apply (samples_ext im (fun p => p) buf b Hw Hh Hc Hlen); [lia|].
        intros x y ch Hx Hy Hch.
        pose proof (offset_inside im Hw Hh Hc x y ch Hx Hy Hch) as Hoff.
        destruct (lookup_lt_is_Some_2 buf (Z.to_nat (offset im x y ch))) as [v Hv]; [lia|].
        specialize (Hb x y ch Hx Hy Hch). rewrite Hv in Hb |- *. exact Hb. }
      assert (E' : (fun p : spec_float => p) <$> buf = buf) by apply list_fmap_id.
      rewrite E' in E. subst b.
      unfold pixels. cbn [data]. apply lookup_insert_eq.
    + unfold pixels. rewrite lookup_insert_ne by exact Hne. exact Hbuf.
Qed.

Lemma nn_resize_same_size_witness :
  exists im' σ',
    nn_resize im22 (w im22) (h im22) σ22 = Some (im', σ') /\
    w im' = w im22 /\ h im' = h im22 /\ c im' = c im22 /\
    data im' <> data im22 /\
    pixels σ' im' = Some buf22 /\
    pixels σ' im22 = Some buf22.
Proof.
  apply (nn_resize_same_size σ22 im22 buf22).
  - repeat split; simpl; try lia; reflexivity.
  - simpl. lia.
  - simpl. lia.
Defined.

(** ** Bilinear interpolation *)

Lemma int_of_float_of_int k :
  0 <= k < 2 ^ 24 -> Flt.int_of (Flt.float_of_int k) = Some k.
Proof.
  intros Hk. destruct (float_of_int_exact k Hk) as [Fx Ex].
  destruct (Z.eq_dec k 0) as [->|Hk0]; [reflexivity|].
  assert (Hpos : (0 < IZR k)%R) by (apply IZR_lt; lia).
  destruct (F2R_pos_inv (Flt.float_of_int k) ltac:(lra)) as (M & E & HM).
  rewrite HM in *. destruct (trunc_integer M E k Ex) as [Ht _].
  unfold Flt.int_of. rewrite Ht. unfold Flt.INT_MIN, Flt.INT_MAX.
  destruct (Z.leb_spec (- 2 ^ 31) k); [|lia].
  destruct (Z.leb_spec k (2 ^ 31 - 1)); [reflexivity|lia].
Qed.

(** [(int) floorf(x)] and [(int) ceilf(x)] of a float that is not
    negative: the integers next to it. *)
Lemma floor_ceil x :
  fin32 x -> (0 <= F2R x)%R -> (F2R x <= IZR (2 ^ 24 - 1))%R ->
  exists l r,
    Flt.int_of (Flt.floorf x) = Some l /\ Flt.int_of (Flt.ceilf x) = Some r /\
    0 <= l /\ r < 2 ^ 24 /\
    (IZR l <= F2R x <= IZR r)%R /\
    ((r = l /\ F2R x = IZR l) \/ (r = l + 1 /\ (IZR l < F2R x < IZR l + 1)%R)).
Proof.
  intros Fx H0 H24.
  destruct (fin_inv _ _ x Fx) as [[s ->]|(s & m & e & -> & B)].
  - exists 0, 0. simpl. repeat split; try lia; try lra. left. split; [reflexivity|lra].
  - assert (s = false) as ->.
    { destruct s; [exfalso|reflexivity]. rewrite F2R_finite in H0.
      pose proof (bpow_pos e). pose proof (IZR_lt 0 (Z.pos m) ltac:(lia)).
      assert (0 < IZR (Z.pos m) * bpow e)%R by (apply Rmult_lt_0_compat; lra). lra. }
    rewrite F2R_finite, Rmult_1_l in *.
    unfold Flt.floorf, Flt.ceilf, Flt.trunc, Flt.has_fraction, Flt.integral. cbn [andb negb].
    change (binary_normalize Flt.prec32 Flt.emax32 ?n 0 false) with (Flt.float_of_int n).
    destruct (Z.leb_spec 0 e) as [He|He].
    + assert (EX : (IZR (Z.pos m) * bpow e = IZR (Z.pos m * 2 ^ e))%R)
        by (rewrite mult_IZR, bpow_IZR by lia; reflexivity).
      rewrite EX in *. apply le_IZR in H24.
      pose proof (pow2_pos e He).
      exists (Z.pos m * 2 ^ e), (Z.pos m * 2 ^ e).
      rewrite int_of_float_of_int by lia.
      repeat split; try lia; try lra. left. split; reflexivity.
    + pose proof (pow2_pos (- e) ltac:(lia)) as Hd.
      set (d := 2 ^ (- e)) in *.
      pose proof (Z.div_mod (Z.pos m) d ltac:(lia)) as Hdm.
      pose proof (Z.mod_pos_bound (Z.pos m) d Hd) as Hr.
      assert (Hq : 0 <= Z.pos m / d) by (apply Z.div_pos; lia).
      set (n := Z.pos m / d) in *. set (rem := Z.pos m mod d) in *.
      assert (EX : (IZR (Z.pos m) * bpow e = IZR n + IZR rem / IZR d)%R).
      { rewrite Hdm at 1. rewrite plus_IZR, mult_IZR.
        assert (Ed : bpow e = (/ IZR d)%R).
        { unfold d. replace e with (- - e) at 1 by lia. apply bpow_neg. lia. }
        rewrite Ed. apply IZR_lt in Hd. field. lra. }
      rewrite EX in *.
      assert (Hfrac : (0 <= IZR rem / IZR d < 1)%R).
      { apply IZR_lt in Hd as Hd'. destruct Hr as [Hr0 Hr1].
        apply IZR_le in Hr0. apply IZR_lt in Hr1. split.
        - apply Rmult_le_pos; [lra|]. apply Rlt_le. now apply Rinv_0_lt_compat.
        - apply Rmult_lt_reg_r with (IZR d); [lra|]. unfold Rdiv.
          rewrite Rmult_assoc, Rinv_l by lra. lra. }
      assert (Hn : n < 2 ^ 24 - 1 \/ (n = 2 ^ 24 - 1 /\ rem = 0)).
      { destruct (Z.lt_ge_cases n (2 ^ 24 - 1)) as [|Hge]; [now left|right].
        apply IZR_le in Hge as Hge'. assert (IZR rem / IZR d <= 0)%R by lra.
        assert (E0 : (IZR rem / IZR d = 0)%R) by lra.
        assert (rem = 0).
        { apply eq_IZR. apply IZR_lt in Hd as Hd'.
          apply Rmult_eq_reg_r with (/ IZR d)%R; [|apply Rinv_neq_0_compat; lra].
          unfold Rdiv in E0. rewrite E0. ring. }
        split; [|assumption]. assert (n <= 2 ^ 24 - 1) by (apply le_IZR; lra). lia. }
      destruct (Z.eqb_spec rem 0) as [E0|E0]; cbn [negb].
      * exists n, n. rewrite int_of_float_of_int by lia.
        rewrite E0 in *. unfold Rdiv in *. rewrite Rmult_0_l in *.
        repeat split; try lia; try lra. left. split; [reflexivity|lra].
      * exists n, (n + 1). rewrite !int_of_float_of_int by lia.
        assert (0 < IZR rem / IZR d)%R.
        { apply IZR_lt in Hd as Hd'. assert (0 < rem) by lia.
          apply Rmult_lt_0_compat; [now apply IZR_lt|now apply Rinv_0_lt_compat]. }
        rewrite plus_IZR.
        repeat split; try lia; try lra. right. split; [reflexivity|lra].
Qed.

Lemma floor_ceil_of x :
  fin32 x -> (0 <= F2R x)%R -> (F2R x <= IZR (2 ^ 24 - 1))%R ->
  exists l r,
    Flt.int_of (Flt.floorf x) = Some l /\ Flt.int_of (Flt.ceilf x) = Some r /\
    0 <= l /\ l <= r /\ r <= l + 1 /\ r < 2 ^ 24 /\
    floor_of (F2R x) l /\ ceil_of (F2R x) r.
Proof.
  intros Fx H0 H24. destruct (floor_ceil x Fx H0 H24) as (l & r & Hl & Hr & L0 & R24 & _ & Hc).
  exists l, r. unfold floor_of, ceil_of.
  destruct Hc as [[-> E]|[-> E]]; repeat split; try assumption; try lia;
    rewrite ?plus_IZR; lra.
Qed.

Lemma in_image_fin n x :
  0 <= n <= 2 ^ 24 -> in_image n x = true ->
  0 < n /\ fin32 x /\ (0 <= F2R x <= IZR (n - 1))%R.
Proof.
  intros Hn H. unfold in_image in H.
  apply andb_prop in H as [H H1]. apply andb_prop in H as [Hf H0].
  assert (Hn1 : fin32 (Flt.float_of_int (n - 1)) /\ F2R (Flt.float_of_int (n - 1)) = IZR (n - 1)).
  { destruct (Z.eq_dec n 0) as [->|Hn0]; [|apply float_of_int_exact; lia].
    change (0 - 1) with (-1). split; [split; reflexivity|eval_const]. }
  destruct Hn1 as [Fn En].
  assert (Fx : fin32 x).
  { split; [exact Hf|]. unfold Flt.le in *.
    destruct x as [s|[|]| |s m e]; try reflexivity; try discriminate.
    destruct (fin_inv _ _ _ Fn) as [[s' E]|(s' & m' & e' & E & _)]; rewrite E in H1;
      try destruct s'; discriminate. }
  pose proof (SFleb_fin _ _ (Flt.float_of_int 0) x fin32_of_int_0 Fx) as L0.
  pose proof (SFleb_fin _ _ x (Flt.float_of_int (n - 1)) Fx Fn) as L1.
  unfold Flt.le in *. rewrite H0 in L0. rewrite H1 in L1.
  rewrite F2R_float_of_int_0 in L0. rewrite En in L1.
  assert (0 <= n - 1) by (apply le_IZR; lra).
  split; [lia|]. split; [exact Fx|lra].
Qed.

(** The integers that [bilinear_interpolate] takes next to a coordinate
    within the image. *)
Lemma neighbours n x :
  0 <= n <= 2 ^ 24 -> in_image n x = true ->
  exists l r,
    Flt.int_of (Flt.floorf x) = Some l /\ Flt.int_of (Flt.ceilf x) = Some r /\
    0 <= l /\ l <= r /\ r <= l + 1 /\ r < n /\
    floor_of (F2R x) l /\ ceil_of (F2R x) r /\ fin32 x /\
    fin32 (Flt.float_of_int l) /\ F2R (Flt.float_of_int l) = IZR l /\
    fin32 (Flt.float_of_int r) /\ F2R (Flt.float_of_int r) = IZR r.
Proof.
  intros Hn Hx. destruct (in_image_fin n x Hn Hx) as (Hpos & Fx & H0 & H1).
  assert (H24 : (F2R x <= IZR (2 ^ 24 - 1))%R).
  { apply Rle_trans with (1 := H1). apply IZR_le. lia. }
  destruct (floor_ceil_of x Fx H0 H24) as (l & r & Hl & Hr & L0 & Llr & Lr & R24 & Hfl & Hce).
  assert (r < n).
  { unfold ceil_of in Hce. assert (IZR (r - 1) < IZR (n - 1))%R by (rewrite minus_IZR; lra).
    apply lt_IZR in H. lia. }
  destruct (float_of_int_exact l ltac:(lia)) as [Fl El].
  destruct (float_of_int_exact r ltac:(lia)) as [Fr Er].
  exists l, r. repeat (split; [assumption|]). assumption.
Qed.

(** A weight of the blend: the difference of a coordinate and the integer
    next to it. *)
Lemma weight a b :
  fin32 a -> fin32 b -> (0 <= F2R a - F2R b <= 1)%R ->
  fin32 (Flt.fsub a b) /\ (0 <= F2R (Flt.fsub a b) <= 1)%R /\
  (- / 16777216 <= F2R (Flt.fsub a b) - (F2R a - F2R b) <= / 16777216)%R /\
  (F2R a - F2R b = 0 -> F2R (Flt.fsub a b) = 0)%R.
Proof.
  intros Fa Fb H.
  destruct (r32_nonneg _ _ _ (fsub_rounds a b Fa Fb ltac:(lra)) ltac:(lra))
    as (Hf & H0 & He & Hm).
  pose proof (Hm _ fin32_of_int_1) as H1. rewrite F2R_float_of_int_1 in H1.
  specialize (H1 ltac:(lra)).
  repeat split; try exact (proj1 Hf); try exact (proj2 Hf); lra.
Qed.

Lemma convex_bound a b p q :
  (0 <= a)%R -> (0 <= b)%R -> (a + b <= 1)%R -> (0 <= p <= 1)%R -> (0 <= q <= 1)%R ->
  (0 <= a * p + b * q <= 1)%R.
Proof. intros. nra. Qed.

(** A sum of two weighted values, as [q1], [q2] and [q] are. *)
Lemma weighted_sum wa wb p q A0 B0 P0 Q0 e :
  fin32 wa -> fin32 wb -> fin32 p -> fin32 q ->
  (0 <= F2R wa <= 1)%R -> (0 <= F2R wb <= 1)%R ->
  (- / 16777216 <= F2R wa - A0 <= / 16777216)%R ->
  (- / 16777216 <= F2R wb - B0 <= / 16777216)%R ->
  (0 <= A0)%R -> (0 <= B0)%R -> (A0 + B0 <= 1)%R ->
  (- 2 <= F2R p <= 2)%R -> (- 2 <= F2R q <= 2)%R ->
  (- e <= F2R p - P0 <= e)%R -> (- e <= F2R q - Q0 <= e)%R ->
  (0 <= P0 <= 1)%R -> (0 <= Q0 <= 1)%R -> (0 <= e <= 1 / 1000)%R ->
  let s := Flt.fadd (Flt.fmul wa p) (Flt.fmul wb q) in
  fin32 s /\
  (- (10 / 16777216 + 2 * e + 2 / 1000000000000000000000000000000)
     <= F2R s - (A0 * P0 + B0 * Q0)
     <= 10 / 16777216 + 2 * e + 2 / 1000000000000000000000000000000)%R /\
  (F2R wa = 0 -> F2R wb = 0 -> F2R s = 0)%R.
Proof.
  intros Fwa Fwb Fp Fq Hwa Hwb Ea Eb HA HB HAB Hp Hq Ep Eq HP HQ He s.
  pose proof eta32_bound as Heta.
  pose proof (prod_bound _ _ 2 Hwa Hp) as B1.
  pose proof (prod_bound _ _ 2 Hwb Hq) as B2.
  pose proof (fmul_rounds wa p Fwa Fp ltac:(lra)) as R1.
  pose proof (fmul_rounds wb q Fwb Fq ltac:(lra)) as R2.
  destruct (r32_abs _ _ _ 2 R1 B1) as [F1 E1].
  destruct (r32_abs _ _ _ 2 R2 B2) as [F2 E2].
  pose proof (mul_close (F2R wa) A0 (F2R p) P0 (/ 16777216) e 2
                ltac:(lra) ltac:(lra) ltac:(lra) ltac:(lra)) as C1.
  pose proof (mul_close (F2R wb) B0 (F2R q) Q0 (/ 16777216) e 2
                ltac:(lra) ltac:(lra) ltac:(lra) ltac:(lra)) as C2.
  pose proof (convex_bound A0 B0 P0 Q0 HA HB HAB HP HQ) as HT.
  assert (HS : (- 2 <= F2R (Flt.fmul wa p) + F2R (Flt.fmul wb q) <= 2)%R) by lra.
  pose proof (fadd_rounds _ _ F1 F2 ltac:(lra)) as R3.
  destruct (r32_abs _ _ _ 2 R3 HS) as [F3 E3].
  fold s in F3, E3. split; [exact F3|]. split; [lra|].
  intros Za Zb.
  assert (Z1 : F2R (Flt.fmul wa p) = 0%R).
  { rewrite Za, Rmult_0_l in R1.
    destruct (r32_nonneg _ _ _ R1 ltac:(lra)) as (_ & G1 & _).
    destruct (r32_nonpos _ _ _ R1 ltac:(lra)) as (_ & G2 & _). lra. }
  assert (Z2 : F2R (Flt.fmul wb q) = 0%R).
  { rewrite Zb, Rmult_0_l in R2.
    destruct (r32_nonneg _ _ _ R2 ltac:(lra)) as (_ & G1 & _).
    destruct (r32_nonpos _ _ _ R2 ltac:(lra)) as (_ & G2 & _). lra. }
  rewrite Z1, Z2, Rplus_0_r in R3.
  destruct (r32_nonneg _ _ _ R3 ltac:(lra)) as (_ & G1 & _).
  destruct (r32_nonpos _ _ _ R3 ltac:(lra)) as (_ & G2 & _). fold s in G1, G2. lra.
Qed.

Lemma unit_lookup (buf : list spec_float) n p :
  forallb unit_sample buf = true -> buf !! n = Some p ->
  fin32 p /\ (0 <= F2R p <= 1)%R.
Proof.
  intros Hall Hn. rewrite forallb_forall in Hall. apply unit_sample_fin.
  apply Hall, list_elem_of_In. eapply list_elem_of_lookup_2. exact Hn.
Qed.

(** The value of [q] in [bilinear_interpolate]. *)
Lemma blend_close x y l r t b v1 v2 v3 v4 :
  fin32 x -> fin32 y -> fin32 l -> fin32 r -> fin32 t -> fin32 b ->
  (F2R l <= F2R x <= F2R r)%R -> (F2R r - F2R l <= 1)%R ->
  (F2R t <= F2R y <= F2R b)%R -> (F2R b - F2R t <= 1)%R ->
  fin32 v1 -> fin32 v2 -> fin32 v3 -> fin32 v4 ->
  (0 <= F2R v1 <= 1)%R -> (0 <= F2R v2 <= 1)%R ->
  (0 <= F2R v3 <= 1)%R -> (0 <= F2R v4 <= 1)%R ->
  let q1 := Flt.fadd (Flt.fmul (Flt.fsub b y) v1) (Flt.fmul (Flt.fsub y t) v3) in
  let q2 := Flt.fadd (Flt.fmul (Flt.fsub b y) v2) (Flt.fmul (Flt.fsub y t) v4) in
  let q := Flt.fadd (Flt.fmul (Flt.fsub x l) q2) (Flt.fmul (Flt.fsub r x) q1) in
  fin32 q /\
  (Rabs (F2R q - blend (F2R x) (F2R y) (F2R l) (F2R r) (F2R t) (F2R b)
                       (F2R v1) (F2R v2) (F2R v3) (F2R v4)) <= 2 / 1000000)%R /\
  ((F2R r = F2R l \/ F2R b = F2R t) -> F2R q = 0%R).
Proof.
  intros Fx Fy Fl Fr Ft Fb Hx Hlr Hy Htb F1 F2 F3 F4 U1 U2 U3 U4 q1 q2 q.
  destruct (weight b y Fb Fy ltac:(lra)) as (Fwb & Rwb & Ewb & Zwb).
  destruct (weight y t Fy Ft ltac:(lra)) as (Fwt & Rwt & Ewt & Zwt).
  destruct (weight x l Fx Fl ltac:(lra)) as (Fwl & Rwl & Ewl & Zwl).
  destruct (weight r x Fr Fx ltac:(lra)) as (Fwr & Rwr & Ewr & Zwr).
  destruct (weighted_sum (Flt.fsub b y) (Flt.fsub y t) v1 v3
              (F2R b - F2R y) (F2R y - F2R t) (F2R v1) (F2R v3) 0
              Fwb Fwt F1 F3 Rwb Rwt Ewb Ewt) as (Fq1 & Eq1 & Zq1); try lra.
  destruct (weighted_sum (Flt.fsub b y) (Flt.fsub y t) v2 v4
              (F2R b - F2R y) (F2R y - F2R t) (F2R v2) (F2R v4) 0
              Fwb Fwt F2 F4 Rwb Rwt Ewb Ewt) as (Fq2 & Eq2 & Zq2); try lra.
  fold q1 in Fq1, Eq1, Zq1. fold q2 in Fq2, Eq2, Zq2.
  pose proof (convex_bound (F2R b - F2R y) (F2R y - F2R t) (F2R v1) (F2R v3)
                ltac:(lra) ltac:(lra) ltac:(lra) U1 U3) as C1.
  pose proof (convex_bound (F2R b - F2R y) (F2R y - F2R t) (F2R v2) (F2R v4)
                ltac:(lra) ltac:(lra) ltac:(lra) U2 U4) as C2.
  destruct (weighted_sum (Flt.fsub x l) (Flt.fsub r x) q2 q1
              (F2R x - F2R l) (F2R r - F2R x)
              ((F2R b - F2R y) * F2R v2 + (F2R y - F2R t) * F2R v4)
              ((F2R b - F2R y) * F2R v1 + (F2R y - F2R t) * F2R v3)
              (10 / 16777216 + 2 / 1000000000000000000000000000000)
              Fwl Fwr Fq2 Fq1 Rwl Rwr Ewl Ewr) as (Fq & Eq & Zq); try lra.
  fold q in Fq, Eq, Zq.
  split; [exact Fq|]. split.
  - unfold blend. apply Rabs_le. lra.
  - intros [E|E].
    + apply Zq; [apply Zwl|apply Zwr]; lra.
    + assert (Z1 : F2R q1 = 0%R) by (apply Zq1; [apply Zwb|apply Zwt]; lra).
      assert (Z2 : F2R q2 = 0%R) by (apply Zq2; [apply Zwb|apply Zwt]; lra).
      pose proof eta32_bound as Heta.
      pose proof (fmul_rounds (Flt.fsub x l) q2 Fwl Fq2) as R1.
      pose proof (fmul_rounds (Flt.fsub r x) q1 Fwr Fq1) as R2.
      rewrite Z2, Rmult_0_r in R1. rewrite Z1, Rmult_0_r in R2.
      specialize (R1 ltac:(lra)). specialize (R2 ltac:(lra)).
      destruct (r32_nonneg _ _ _ R1 ltac:(lra)) as (G1 & G2 & _).
      destruct (r32_nonpos _ _ _ R1 ltac:(lra)) as (_ & G3 & _).
      destruct (r32_nonneg _ _ _ R2 ltac:(lra)) as (G4 & G5 & _).
      destruct (r32_nonpos _ _ _ R2 ltac:(lra)) as (_ & G6 & _).
      pose proof (fadd_rounds _ _ G1 G4 ltac:(lra)) as R3.
      fold q in R3.
      assert (E0 : (F2R (Flt.fmul (Flt.fsub x l) q2) + F2R (Flt.fmul (Flt.fsub r x) q1) = 0)%R)
        by lra.
      rewrite E0 in R3.
      destruct (r32_nonneg _ _ _ R3 ltac:(lra)) as (_ & G7 & _).
      destruct (r32_nonpos _ _ _ R3 ltac:(lra)) as (_ & G8 & _). lra.
Qed.

Lemma zero_of_F2R q : fin32 q -> F2R q = 0%R -> Flt.eq q (Flt.float_of_int 0) = true.
Proof.
  intros Fq E. destruct (fin_inv _ _ q Fq) as [[s ->]|(s & m & e & -> & _)].
  - destruct s; reflexivity.
  - exfalso. rewrite F2R_finite in E.
    pose proof (bpow_pos e). pose proof (IZR_lt 0 (Z.pos m) ltac:(lia)).
    assert (0 < IZR (Z.pos m) * bpow e)%R by (apply Rmult_lt_0_compat; lra).
    destruct s; lra.
Qed.

Lemma integer_neighbours k l r : floor_of (IZR k) l -> ceil_of (IZR k) r -> r = l.
Proof.
  unfold floor_of, ceil_of. intros [H1 H2] [H3 H4].
  apply le_IZR in H1, H4.
  assert (IZR k < IZR (l + 1))%R by (rewrite plus_IZR; lra).
  assert (IZR (r - 1) < IZR k)%R by (rewrite minus_IZR; lra).
  apply lt_IZR in H, H0. lia.
Qed.

Lemma in_image_of_int n k : 0 <= k < n -> n <= 2 ^ 24 -> in_image n (Flt.float_of_int k) = true.
Proof.
  intros Hk Hn. unfold in_image.
  destruct (float_of_int_exact k ltac:(lia)) as [Fk Ek].
  destruct (float_of_int_exact (n - 1) ltac:(lia)) as [Fn En].
  apply andb_true_intro. split; [apply andb_true_intro; split|].
  - exact (proj1 Fk).
  - apply SFleb_of_le; [exact fin32_of_int_0|exact Fk|].
    rewrite F2R_float_of_int_0, Ek. apply IZR_le. lia.
  - apply SFleb_of_le; [exact Fk|exact Fn|]. rewrite Ek, En. apply IZR_le. lia.
Qed.

(** What [bilinear_interpolate] returns within the image: it reads the
    four samples at the integers next to [(x, y)] and returns their blend,
    which is a zero where [left = right] or [top = bottom]. *)
Lemma bilinear_interpolate_value σ im buf x y ch :
  image_ok σ im buf -> forallb unit_sample buf = true ->
  w im <= 2 ^ 24 -> h im <= 2 ^ 24 ->
  in_image (w im) x = true -> in_image (h im) y = true -> 0 <= ch < c im ->
  exists l r t b v1 v2 v3 v4 q,
    (forall s, s !! data im = Some buf -> bilinear_interpolate im x y ch s = Some (q, s)) /\
    (floor_of (F2R x) l /\ ceil_of (F2R x) r /\
     floor_of (F2R y) t /\ ceil_of (F2R y) b) /\
    (buf !! Z.to_nat (offset im l t ch) = Some v1 /\
     buf !! Z.to_nat (offset im r t ch) = Some v2 /\
     buf !! Z.to_nat (offset im l b ch) = Some v3 /\
     buf !! Z.to_nat (offset im r b ch) = Some v4) /\
    fin32 q /\
    (Rabs (F2R q - blend (F2R x) (F2R y) (IZR l) (IZR r) (IZR t) (IZR b)
                         (F2R v1) (F2R v2) (F2R v3) (F2R v4)) <= 2 / 1000000)%R /\
    (r = l \/ b = t -> Flt.eq q (Flt.float_of_int 0) = true).
Proof.
  intros Hok Hall Hw Hh Hx Hy Hch.
  pose proof Hok as (W0 & H0 & C0 & _ & Hlen).
  destruct (neighbours (w im) x ltac:(lia) Hx)
    as (l & r & Hl & Hr & L0 & Llr & Lr1 & Lrw & Xl & Xr & Fx & Fl & El & Fr & Er).
  destruct (neighbours (h im) y ltac:(lia) Hy)
    as (t & b & Ht & Hb & T0 & Ttb & Tb1 & Tbh & Yt & Yb & Fy & Ft & Et & Fb & Eb).
  destruct (get_pixel_inside σ im buf Hok l t ch ltac:(lia) ltac:(lia) Hch) as (v1 & B1 & _).
  destruct (get_pixel_inside σ im buf Hok r t ch ltac:(lia) ltac:(lia) Hch) as (v2 & B2 & _).
  destruct (get_pixel_inside σ im buf Hok l b ch ltac:(lia) ltac:(lia) Hch) as (v3 & B3 & _).
  destruct (get_pixel_inside σ im buf Hok r b ch ltac:(lia) ltac:(lia) Hch) as (v4 & B4 & _).
  destruct (unit_lookup _ _ _ Hall B1) as [F1 U1].
  destruct (unit_lookup _ _ _ Hall B2) as [F2 U2].
  destruct (unit_lookup _ _ _ Hall B3) as [F3 U3].
  destruct (unit_lookup _ _ _ Hall B4) as [F4 U4].
  unfold floor_of, ceil_of in Xl, Xr, Yt, Yb.
  apply IZR_le in Lr1 as Lr1'. rewrite plus_IZR in Lr1'.
  apply IZR_le in Tb1 as Tb1'. rewrite plus_IZR in Tb1'.
  destruct (blend_close x y (Flt.float_of_int l) (Flt.float_of_int r)
              (Flt.float_of_int t) (Flt.float_of_int b) v1 v2 v3 v4
              Fx Fy Fl Fr Ft Fb) as (Fq & Eq & Zq);
    rewrite ?El, ?Er, ?Et, ?Eb; try assumption; try lra.
  rewrite El, Er, Et, Eb in Eq, Zq.
  eexists l, r, t, b, v1, v2, v3, v4, _. split.
  { intros s Hs.
    assert (Hoks : image_ok s im buf) by (repeat split; assumption).
    destruct (get_pixel_inside s im buf Hoks l t ch ltac:(lia) ltac:(lia) Hch) as (u1 & D1 & G1).
    destruct (get_pixel_inside s im buf Hoks r t ch ltac:(lia) ltac:(lia) Hch) as (u2 & D2 & G2).
    destruct (get_pixel_inside s im buf Hoks l b ch ltac:(lia) ltac:(lia) Hch) as (u3 & D3 & G3).
    destruct (get_pixel_inside s im buf Hoks r b ch ltac:(lia) ltac:(lia) Hch) as (u4 & D4 & G4).
    assert (u1 = v1) as -> by congruence. assert (u2 = v2) as -> by congruence.
    assert (u3 = v3) as -> by congruence. assert (u4 = v4) as -> by congruence.
    unfold bilinear_interpolate, bind, lift. rewrite Hl, Hr, Hb, Ht. unfold ret at 1 2 3 4.
    rewrite G1, G2, G3, G4. reflexivity. }
  split; [unfold floor_of, ceil_of; repeat split; lra|].
  split; [repeat split; assumption|].
  split; [exact Fq|]. split; [exact Eq|].
  intros E. apply zero_of_F2R; [exact Fq|].
  destruct E as [->| ->]; apply Zq; [left|right]; reflexivity.
Qed.

(** X17.  Within the image, over samples that are binary32 numbers in
    [0, 1], [bilinear_interpolate] reads the samples [v1], [v2], [v3], [v4]
    at the columns [l = floor x], [r = ceil x] and the rows [t = floor y],
    [b = ceil y], changes nothing and returns a number within [2e-6] of
    [(x - l) * ((b - y) * v2 + (y - t) * v4) + (r - x) * ((b - y) * v1 + (y - t) * v3)]. *)
Theorem bilinear_interpolate_formula σ im buf x y ch :
  image_ok σ im buf -> forallb unit_sample buf = true ->
  w im <= 2 ^ 24 -> h im <= 2 ^ 24 ->
  in_image (w im) x = true -> in_image (h im) y = true -> 0 <= ch < c im ->
  exists l r t b v1 v2 v3 v4 q,
    bilinear_interpolate im x y ch σ = Some (q, σ) /\
    floor_of (F2R x) l /\ ceil_of (F2R x) r /\
    floor_of (F2R y) t /\ ceil_of (F2R y) b /\
    buf !! Z.to_nat (offset im l t ch) = Some v1 /\
    buf !! Z.to_nat (offset im r t ch) = Some v2 /\
    buf !! Z.to_nat (offset im l b ch) = Some v3 /\
    buf !! Z.to_nat (offset im r b ch) = Some v4 /\
    Flt.is_float q = true /\ Flt.is_finite q = true /\
    (Rabs (F2R q - blend (F2R x) (F2R y) (IZR l) (IZR r) (IZR t) (IZR b)
                         (F2R v1) (F2R v2) (F2R v3) (F2R v4)) <= 2 / 1000000)%R.
Proof.
  intros Hok Hall Hw Hh Hx Hy Hch.
  destruct (bilinear_interpolate_value σ im buf x y ch Hok Hall Hw Hh Hx Hy Hch)
    as (l & r & t & b & v1 & v2 & v3 & v4 & q & Hrun & (Xl & Xr & Yt & Yb)
        & (B1 & B2 & B3 & B4) & Fq & Eq & _).
  exists l, r, t, b, v1, v2, v3, v4, q.
  split; [apply Hrun; apply Hok|].
  repeat (split; [assumption|]).
  split; [exact (proj1 Fq)|]. split; [exact (proj2 Fq)|exact Eq].
Qed.

Lemma bilinear_interpolate_formula_witness :
  exists l r t b v1 v2 v3 v4 q,
    bilinear_interpolate im22 (Flt.float_lit 1 2) (Flt.float_lit 1 4) 0 σ22 = Some (q, σ22) /\
    floor_of (F2R (Flt.float_lit 1 2)) l /\ ceil_of (F2R (Flt.float_lit 1 2)) r /\
    floor_of (F2R (Flt.float_lit 1 4)) t /\ ceil_of (F2R (Flt.float_lit 1 4)) b /\
    buf22 !! Z.to_nat (offset im22 l t 0) = Some v1 /\
    buf22 !! Z.to_nat (offset im22 r t 0) = Some v2 /\
    buf22 !! Z.to_nat (offset im22 l b 0) = Some v3 /\
    buf22 !! Z.to_nat (offset im22 r b 0) = Some v4 /\
    Flt.is_float q = true /\ Flt.is_finite q = true /\
    (Rabs (F2R q - blend (F2R (Flt.float_lit 1 2)) (F2R (Flt.float_lit 1 4))
                         (IZR l) (IZR r) (IZR t) (IZR b)
                         (F2R v1) (F2R v2) (F2R v3) (F2R v4)) <= 2 / 1000000)%R.
Proof.
  apply (bilinear_interpolate_formula σ22 im22 buf22).
  - repeat split; simpl; try lia; reflexivity.
  - reflexivity.
  - simpl. lia.
  - simpl. lia.
  - reflexivity.
  - reflexivity.
  - simpl. lia.
Defined.

(** X18.  Within the image, over samples that are binary32 numbers in
    [0, 1], [bilinear_interpolate] returns a zero wherever [x] or [y] is an
    integer: [floorf] and [ceilf] agree there, and both weights of the
    blend are 0. *)
Theorem bilinear_interpolate_integer_coordinate σ im buf x y ch k :
  image_ok σ im buf -> forallb unit_sample buf = true ->
  w im <= 2 ^ 24 -> h im <= 2 ^ 24 ->
  in_image (w im) x = true -> in_image (h im) y = true -> 0 <= ch < c im ->
  0 <= k < 2 ^ 24 -> x = Flt.float_of_int k \/ y = Flt.float_of_int k ->
  exists q,
    bilinear_interpolate im x y ch σ = Some (q, σ) /\
    Flt.eq q (Flt.float_of_int 0) = true.
Proof.
  intros Hok Hall Hw Hh Hx Hy Hch Hk Hint.
  destruct (bilinear_interpolate_value σ im buf x y ch Hok Hall Hw Hh Hx Hy Hch)
    as (l & r & t & b & v1 & v2 & v3 & v4 & q & Hrun & (Xl & Xr & Yt & Yb) & _ & _ & _ & Zq).
  exists q. split; [apply Hrun; apply Hok|]. apply Zq.
  destruct (float_of_int_exact k Hk) as [_ Ek].
  destruct Hint as [->| ->]; [left|right]; rewrite Ek in *;
    eapply integer_neighbours; eassumption.
Qed.

Lemma bilinear_interpolate_integer_coordinate_witness :
  exists q,
    bilinear_interpolate im22 (Flt.float_of_int 1) (Flt.float_lit 1 4) 0 σ22 = Some (q, σ22) /\
    Flt.eq q (Flt.float_of_int 0) = true.
Proof.
  apply (bilinear_interpolate_integer_coordinate σ22 im22 buf22 _ _ 0 1).
  - repeat split; simpl; try lia; reflexivity.
  - reflexivity.
  - simpl. lia.
  - simpl. lia.
  - reflexivity.
  - reflexivity.
  - simpl. lia.
  - lia.
  - left. reflexivity.
Defined.

(** X19.  [bilinear_resize] to the dimensions the image has does not copy
    the image: over samples that are binary32 numbers in [0, 1] it returns
    an image of the same dimensions, in a buffer of its own, whose samples
    are all zeros, and leaves the image as it was.  (For widths and heights
    below [2^24].) *)
Theorem bilinear_resize_to_own_size σ im buf :
  image_ok σ im buf -> forallb unit_sample buf = true ->
  w im < 2 ^ 24 -> h im < 2 ^ 24 ->
  exists im' σ' out,
    bilinear_resize im (w im) (h im) σ = Some (im', σ') /\
    w im' = w im /\ h im' = h im /\ c im' = c im /\
    data im' <> data im /\
    pixels σ' im = Some buf /\
    pixels σ' im' = Some out /\ length out = length buf /\
    forallb (fun p => Flt.eq p (Flt.float_of_int 0)) out = true.
Proof.
  intros Hok Hall Hw24 Hh24. pose proof Hok as (Hw & Hh & Hc & Hbuf & Hlen).
  pose proof (gray_fresh σ im buf Hok) as Hne.
  set (tgt := fun col row z =>
         default Flt.zero
           (result_of (bilinear_interpolate im (Flt.float_of_int col) (Flt.float_of_int row) z) σ)).
  assert (Hval : forall col row z, 0 <= col < w im -> 0 <= row < h im -> 0 <= z < c im ->
            (forall s, s !! data im = Some buf ->
               bilinear_interpolate im (Flt.float_of_int col) (Flt.float_of_int row) z s
               = Some (tgt col row z, s)) /\
            Flt.eq (tgt col row z) (Flt.float_of_int 0) = true).
  { intros col row z Hcol Hrow Hz.
    destruct (bilinear_interpolate_value σ im buf (Flt.float_of_int col) (Flt.float_of_int row) z
                Hok Hall ltac:(lia) ltac:(lia)
                (in_image_of_int _ _ Hcol ltac:(lia)) (in_image_of_int _ _ Hrow ltac:(lia)) Hz)
      as (l & r & t & b & v1 & v2 & v3 & v4 & q & Hrun & (Xl & Xr & _) & _ & _ & _ & Zq).
    assert (E : tgt col row z = q).
    { unfold tgt, result_of. rewrite (Hrun σ Hbuf). reflexivity. }
    rewrite E. split; [exact Hrun|]. apply Zq. left.
    destruct (float_of_int_exact col ltac:(lia)) as [_ Ek]. rewrite Ek in *.
    eapply integer_neighbours; eassumption. }
  destruct (resize_with_runs bilinear_interpolate σ im buf (w im) (h im) tgt Hok Hw Hh)
    as (out & Hrun & Hl & Hout).
  - intros col row z s Hcol Hrow Hz Hs.
    rewrite (ratio_same (w im)), (ratio_same (h im)) by lia.
    rewrite (source_coord_same col), (source_coord_same row) by lia.
    apply Hval; assumption.
  - eexists _, _, out. split; [exact Hrun|]. cbn [w h c data].
    repeat (split; [first [reflexivity|assumption]|]).
    split; [unfold pixels; rewrite lookup_insert_ne by exact Hne; exact Hbuf|].
    split; [unfold pixels; cbn [data]; apply lookup_insert_eq|].
    split; [lia|].
    apply forallb_forall. intros p Hp.
    apply list_elem_of_In, list_elem_of_lookup in Hp as [n Hn].
    pose proof (lookup_lt_Some _ _ _ Hn) as Hlt.
    destruct (offset_onto im (Z.of_nat n) Hw Hh Hc ltac:(lia))
      as (x & y & ch & Hx & Hy & Hch & E).
    specialize (Hout x y ch Hx Hy Hch).
    change (offset {| w := w im; h := h im; c := c im; data := fresh (dom σ) |} x y ch)
      with (offset im x y ch) in Hout.
    rewrite E, Nat2Z.id, Hn in Hout. injection Hout as ->.
    apply Hval; assumption.
Qed.

Lemma bilinear_resize_to_own_size_witness :
  exists im' σ' out,
    bilinear_resize im22 (w im22) (h im22) σ22 = Some (im', σ') /\
    w im' = w im22 /\ h im' = h im22 /\ c im' = c im22 /\
    data im' <> data im22 /\
    pixels σ' im22 = Some buf22 /\
    pixels σ' im' = Some out /\ length out = length buf22 /\
    forallb (fun p => Flt.eq p (Flt.float_of_int 0)) out = true.
Proof.
  apply (bilinear_resize_to_own_size σ22 im22 buf22).
  - repeat split; simpl; try lia; reflexivity.
  - reflexivity.
  - simpl. lia.
  - simpl. lia.
Defined.
